(* ===== verification/_CoqProject ===== *)
-Q . S2P
Prelude.v
Fmt.v
RawWindowHandle.v
Sync.v
Holder.v
Capsule.v
Accessor.v
Marker.v
Machine.v
Lifetime.v
Clones.v
Gate.v
Bound.v
Privacy.v
Observation.v
Derive.v
Forget.v
Ownership.v
Concurrency.v
Static.v
Atomicity.v
Ordering.v
Race.v
Consumer.v
Pipeline.v
Weak.v
