(* ===== verification/Prelude.v ===== *)
(** * Verification of [bevy_window::raw_handle]

    The program is one Rust file, [src/crates/bevy_window/src/raw_handle.rs].
    It has three layered parts:

    - the resource holder [WindowWrapper<W>] (lines 16-36), which puts a
      window behind an [Arc] so that a pipelined renderer can keep it alive;
    - the cross-thread capsule [RawHandleWrapper] (lines 46-85), a
      type-erased [Arc<dyn WindowTrait>] that is declared [Send] and [Sync]
      by two [unsafe impl]s;
    - the thread-gated accessor [ThreadLockedRawWindowHandleWrapper]
      (lines 87-118), built only by the unsafe
      [RawHandleWrapper::get_handle], on which the two handle-producing
      methods are exposed.

    A window enters through [WindowWrapper::new]; [RawHandleWrapper::new]
    clones the holder's [Arc] into a capsule, which is cloned and handed to
    other threads; a thread that needs the handles calls [get_handle] and
    then [window_handle] and [display_handle] on the accessor.  The window
    is destroyed when the last holder, capsule or accessor is dropped.

    ** Files

    - [Prelude] (this file): the [Result] type of Rust, the [outcome] of a
      call (returned, aborted, undefined behaviour), the state monad [exec]
      in which every operation of the program is written, labelled
      transition systems with executable [run] and the induction principle
      for invariants, specifications [⦃ P ⦄ c ⦃ x, Q ⦄] of computations
      with their rules, multisets of the values of a finite map, and the
      tactics and hint database of the development.
    - [Fmt]: [core::fmt] as far as the program and its derived code use
      it: writers that may fail ([writer], with [bind] for [?]), the trait
      [Write] with a bounded [Sink], the indenting [PadAdapter] of the
      pretty form, the [Formatter] with its alternate flag, the trait
      [Debug], and the builder [DebugStruct] with [field], [finish] and
      [finish_non_exhaustive]; what an implementation of [Write] or of
      [Debug] owes its callers is [WriteLaws] and [DebugLaws].
    - [RawWindowHandle]: the crate [raw_window_handle] as far as the program
      uses it: [WindowHandle], [DisplayHandle], [HandleError], the traits
      [HasWindowHandle] and [HasDisplayHandle] as type classes, for types
      that answer by themselves and for types whose values refer to a
      state ([HasWindowHandleIn], [HasDisplayHandleIn]), and the
      program's own [WindowTrait] with its blanket [impl] (lines 38-39).
      A stub binding [StubWindow] serves the concrete witnesses.
    - [Sync]: [std::sync::Arc] as a reference-counted heap: a cell
      [ArcInner] holds the strong counter (a 64-bit [usize], kept in [Z]
      with its wrap-around written out) and the data; [Arc.new],
      [Arc.clone] (which aborts above [MAX_REFCOUNT], as the standard
      library does), [Arc.drop] (which frees the cell and hands back the
      data when it held the last reference), its two accesses
      [Arc.fetch_sub] and [Arc.drop_slow], and [Arc.deref].  The relation
      [counts] between a heap and a multiset of handles is the interface
      the rest of the development uses.
    - [Holder]: [WindowWrapper], [WindowWrapper.new], [WindowWrapper.deref]
      and the [Deref] implementation it belongs to ([WindowWrapper_Deref],
      lines 30-36), the drop glue [WindowWrapper.drop] and the derived
      [Debug] [WindowWrapper.fmt] (line 16), which prints the window
      through the [Debug] of [W].
    - [Capsule]: [RawHandleWrapper], the unsizing coercion to the fat
      pointer, [RawHandleWrapper.new], the derived [clone], [get_handle],
      the drop glue and the [Debug] implementation [fmt].
    - [Accessor]: [ThreadLockedRawWindowHandleWrapper] with [window_handle]
      and [display_handle], the two trait implementations they belong to
      ([ThreadLocked_HasWindowHandle], [ThreadLocked_HasDisplayHandle],
      lines 96-118), and the three components composed
      ([handles_of_window]).
    - [Marker]: the auto traits [Send] and [Sync]: the types of the program
      as syntax, their fields, the two [unsafe impl]s, the derivation
      rule of the language, the bound of [Component] that the derive
      of line 46 has to meet, and the lint [unsafe_code] that line 1
      allows.
    - [Machine]: the most general client: threads that own values of the
      three types and call the operations above in any interleaving, as an
      executable step function [step] and as a step relation [Step], which
      agree.  What may cross threads is a [Policy]; [derived_policy] is the
      one that [Marker] derives from the declarations.
    - [Lifetime]: the reference-count invariant of the machine and what
      follows from it, the balance of values made and dropped, and the
      termination of cleanup.
    - [Derive]: the [derive] attributes of the three structs (lines 16
      and 46, none at line 94), and the holders of a cell ([holds]).
    - [Clones]: the client of the specification's scenarios, a holder, a
      capsule and [n] clones, for every [n].
    - [Gate]: the thread gate as a property of traces, under the policy of
      the program as declared and under one that pins accessors, and the
      clients that never write [unsafe].
    - [Bound]: the bound [W: Send + Sync] of [new] (line 21) as what
      licenses sharing and destroying a window across threads.
    - [Privacy]: the visibility of the three fields as the code declares
      it (lines 18, 48 and 94: none is [pub]), and code outside the
      module with the expressions that a [pub] field would allow
      ([xstep]): a holder by a struct literal, a handle read through the
      field [window], an accessor by the constructor of the tuple
      struct.
    - [Observation]: what a thread gets back from the reading operations,
      and that a window behind a handle never changes.
    - [Forget]: the clients that give a value up without running its
      destructor ([lstep], with the handles forgotten as a multiset of
      cells), the client that forgets [n] clones of its capsule
      ([forgetful]), and an [Arc::clone] whose increment wraps
      ([clone_wrapping]).
    - [Ownership]: shared ownership as a specification without counters
      ([AStep]), and the program as a refinement of it.
    - [Concurrency]: worlds up to the order of their logs ([≡], with the
      [Proper] instances of the operations of the machine), and the
      commutation of independent operations.
    - [Static]: the ['static] bounds of lines 21, 30 and 59 as lists of
      atoms ([WindowWrapper_impl_bounds], [Deref_impl_bounds],
      [RawHandleWrapper_new_bounds]); a lifetime as the set of the regions
      it names ([lft], [static] the empty one); window types that may
      borrow ([Borrows]); and the clients of [Machine] with regions
      ([rstep]): a call is checked against the bounds, a region ends when
      no live value has it in its type ([may_end]), and the use of a
      window past a region it borrows from is undefined.
    - [Atomicity]: the machine with the drop in its two accesses to the
      counter ([fstep]), so that other threads run between the decrement
      and [drop_slow]; its invariant, and the refinement of [Ownership]
      by it.  A variant with an increment that is not atomic shows what
      the atomic one is for.
    - [Ordering]: the memory model as far as the counter needs it: the
      orderings of the three accesses to the counter ([Orderings],
      [arc_orderings]), the accesses of a run ([Access]), what each thread
      knows of the accesses made ([Know]) and how an access changes it
      ([learn]).  The accesses change who holds what by the rules of
      [Grant], over which the invariant of the knowledge is proved,
      without the heap.
    - [Race]: the machine of [Atomicity] under the memory model: the step
      [ostep], which is undefined when an access to a window is not
      ordered with its initialisation or its destruction, and the steps
      of [Atomicity] as accesses that [Grant] allows.
    - [Consumer]: code that is generic in the capability set, as a tree
      of calls ([Generic]) run on a value in a state ([interp]) or on a
      window ([eval]); the interface [WindowSource] between such code and
      the values it is given; the protocol of the consuming subsystem on
      the heap ([with_handle]) and as steps of a thread ([protocol]).
    - [Pipeline]: the composition the program is written for (the doc
      comment of [WindowWrapper], lines 9-15): the owning subsystem and
      the pipelined renderer as a machine of their actions ([Cmd]:
      create, extract, close, render, release) over the windows that the
      main world and the render world have ([Pipe], [pipe_step]); each
      action is a few operations of the program on the thread of its
      subsystem ([events]), a schedule of actions a trace of [Machine]
      ([trace]).
    - [Weak]: beside [Sync], the cell of [Arc] with both its counters
      ([Full.ArcInner]: [strong], [weak], [data]), the same operations
      on it with [Full.Weak_drop], the drop of the weak reference that
      the [Arc]s hold together, at the end of [Full.drop_slow], and the
      programs over these operations ([Prog], [run_full], [run_arc]).

    ** Correspondence with the code

    A Rust value that owns heap memory is a handle (a location) and the
    heap is explicit: an operation of the program is a computation in
    [exec (heap W) A], a function from the heap to an [outcome].  [Done]
    is a normal return; [Abort] is [std::process::abort], which
    [Arc::clone] calls when the counter passes [isize::MAX]; [Undef] is an
    access to a cell that is not allocated, which in Rust is undefined
    behaviour.  None of the program's operations returns [Undef] or wraps
    the counter in a reachable state: this is what [Lifetime] proves.

    Each Rust function is one definition, named as in the code, inside a
    module named after its type: [WindowWrapper.new], [RawHandleWrapper.new],
    [RawHandleWrapper.get_handle],
    [ThreadLockedRawWindowHandleWrapper.window_handle].  Code the compiler
    generates is a definition too: the derived [Clone] is
    [RawHandleWrapper.clone], the drop glue of each struct is its [drop].
    The type parameter [W] of the code is a [Context] variable.  A trait
    bound is a type-class binder.  [dyn WindowTrait] is a fat pointer: the
    location together with the table of the two methods, captured where
    [W] is known.

    A thread of the client is a number.  Ownership is the map from
    variables to the thread that owns the value; a move changes the owner,
    a borrow from another thread needs [Sync], a move to another thread
    needs [Send].  A step of [Machine] is one call; interleavings of
    threads are its traces.  A call has at most one access to the counter
    except the drop of a last handle, which has two; [Atomicity] has these
    as two steps, with the cell at counter 0 in between, and the view of
    such a world ([view]) is the world of [Machine] without these cells.

    Happens-before is what a thread knows: the set of the accesses, by
    their number in the run, that are ordered before its next one.  A
    thread learns its own accesses (program order), what the sender of a
    value knew (a move between threads synchronises), what is published
    on a counter when it acquires, and, as the borrower of a variable of
    another thread, what held when the owner got the value; an owner that
    moves or drops a variable has what its borrowers did (a borrow ends
    before the value moves).  A decrement that releases publishes what its
    thread knows on the counter, and a read-modify-write keeps what is
    published there (a release sequence).  A data race is an access to a
    window by a thread that does not know the access it conflicts with:
    a read that does not know the initialisation, a destructor that does
    not know a read or the initialisation.

    A trait implementation is an instance.  The accessor implements the
    two traits on values that refer to the heap, so its instances are of
    [HasWindowHandleIn (heap W)] and [HasDisplayHandleIn (heap W)], and
    code that is generic in [T: HasWindowHandle + HasDisplayHandle] is a
    value of the free monad over the two calls.

    Formatting is a computation in [writer S A], a function from the state
    of the sink to a [Result] and the new state; [?] is [bind].  A
    [&mut dyn Write] is a value of any type [S] with an instance of
    [Write]: [fmt] is polymorphic in [S], which is how a [Debug]
    implementation is called on the [PadAdapter] that the pretty form
    wraps around the sink.  The derived [WindowWrapper.fmt] reads the
    window through the [Arc] and is a computation on the heap that returns
    a writer's result.

    ** What the theorems show

    - [Holder], [Capsule], [Accessor]: the behaviour of every operation on
      every branch: a specification [⦃ P ⦄ c ⦃ x, Q ⦄] over the heap seen
      as a multiset of handles and a map of windows ([heap_is]), derived
      from the contract of [Arc] by the rules of [Prelude], together with
      the exact conditions of abort and of undefined behaviour; that
      [RawHandleWrapper.new] never returns [Err]; what the two [fmt]
      write, compact and pretty, on every sink that keeps [WriteLaws], and
      where they stop on a sink that runs out of room; that the text of a
      holder determines the text of its window; that the composed
      components return the answers of the window's binding.
    - [Fmt]: [Sink], [PadAdapter] and [Formatter] keep [WriteLaws]; the
      text a [PadAdapter] passes on is the indentation ([indent]) of the
      text it is given, however the text is cut into writes; the builder
      writes [field_text] and [finish_text]; indentation can be undone
      ([unindent]).
    - [Marker]: which of the three types are [Send] and [Sync]: the holder
      exactly when the window is both, the capsule by its [unsafe impl]s
      and not without them, and the accessor as well, by derivation from
      its only field, whatever is implemented by hand; the [Component]
      derive of the capsule type-checks because of the two [unsafe impl]s.
    - [Lifetime]: the invariant "strong counter = number of handles the
      client owns" for every reachable state, and from it: no use after
      free, no wrap of the counter, no abort below [2^63] values, a
      window alive exactly while a handle of it exists, destroyed exactly
      when the last one is dropped, and never twice; printing a holder
      that a thread owns is defined; the values a client owns are those it
      made less those it dropped, and dropping is well founded: cleanup
      ends.
    - [Derive]: a client clones the values whose type derives [Clone],
      the capsules ([clone_needs_derive]); a window has one holder
      ([holder_unique]); once it is dropped the window, alive behind its
      capsules, cannot be dereferenced ([deref_ends_with_holder]).
    - [Clones]: a capsule cloned [n] times runs to a counter of [n + 2],
      and the window is destroyed by the drop number [n + 2] and by no
      earlier one.
    - [Gate]: under a policy that neither sends nor shares accessors every
      use of a handle is on a thread that called [get_handle]; the policy
      derived from the program is not such a policy, and a client it
      accepts uses the handles on threads that never called [get_handle];
      a client that never calls the [unsafe] function reads no handle.
    - [Bound]: every window a client creates, shares or destroys is
      [Send] and [Sync]; without the bound of [new] a client without
      [unsafe] destroys a window that is not [Send] on a thread that did
      not create it.
    - [Privacy]: with the fields as declared, code outside the module
      is the client of [Machine] ([private_fields_same_client]); code
      without [unsafe] reads no handle exactly when [window] and the
      field of the accessor are private ([gate_needs_private_fields]),
      which is what the SAFETY comments of lines 98 and 110 rely on;
      every window is [Send] and [Sync] exactly when [reference] is
      private ([bound_needs_private_reference]); and whatever is [pub],
      no run is undefined ([field_access_memory_safe]).
    - [Observation]: a handle that is not dropped refers to the same
      window after anything the client does; every value read is what a
      created window reports.
    - [Forget]: whatever a client forgets, no step is undefined, a
      counter is the handles owned plus the handles forgotten and has not
      wrapped ([forgetting_is_safe]); a window with a forgotten handle is
      never destroyed ([forgotten_window_leaks]); with two variables a
      client reaches [MAX_REFCOUNT + 1], where the operations that clone
      abort ([forget_reaches_the_guard]); with an increment that wraps
      the same client frees the window under its holder
      ([wrapping_clone_use_after_free]).
    - [Ownership]: every run of the program is a run of the specification
      of shared ownership, and every step the specification allows is
      taken by the program unless it aborts.

    - [Concurrency]: two operations that share no written variable and
      do not allocate commute, so the result of a run does not depend on
      how the scheduler orders them.
    - [Static]: with ['static] in the bound of one of the constructors
      no client uses a window past a region it borrows from
      ([static_bounds_keep_windows_valid]); the bounds are safe exactly
      then, and without them a client reads a handle of a window that is
      no longer valid, through a capsule, whose type names no lifetime
      ([static_bound_needed]); for a window type that is ['static] the
      clients with regions are the clients of [Machine]
      ([static_window_same_client]), so that everything else is proved
      without regions.
    - [Atomicity]: with the atomic counter and any interleaving of the
      accesses, no access is to a freed window; the runs are runs of the
      specification of shared ownership on the cells with handles, in
      which [drop_slow] is not seen; a thread that saw 1 is never blocked;
      when no thread is inside a drop the heap is that of [Machine]; and
      [Machine] is the case in which no drop is interrupted.  With the
      increment as a load and a store, one interleaving of two clones
      frees the window under a handle.
    - [Ordering]: along every sequence of accesses that [Grant] allows,
      with orderings in which the decrement releases and the fence or the
      decrement acquires, every access to a window is published on its
      counter or known through a handle, and no access is a race; what is
      known is of the past.
    - [Race]: with the orderings of [Arc] no step is a data race, for
      every client and every interleaving, and the machine has exactly the
      runs of [Atomicity], so what is proved over interleavings holds
      under the memory model; the orderings are safe exactly when the
      decrement releases and the fence or the decrement acquires, and
      with any other choice one client races; a thread knows only
      accesses of the past, its own among them, and forgets none.
    - [Consumer]: to generic code the accessor of a live cell is the
      window of the cell, and so is the holder through [Deref]; the
      protocol of the consumer returns what the platform call returns on
      the window and leaves the heap, the counter included, as it was; a
      thread that can borrow a capsule can run it in every reachable
      world.
    - [Pipeline]: every schedule of the two subsystems, for any number
      of windows, is a run of the program without abort or undefined
      behaviour, in which a window is alive exactly while one of the two
      worlds has it and is destroyed by the action with which the last
      lets go ([pipeline_refines_schedule]); a frame draws to the window
      it extracted whatever happens in between, the close of the window
      by the main world included ([frame_in_flight_draws]); the accesses
      of a schedule ([run_accesses] of [Atomicity]) are a run under the
      memory model, without a data race ([pipeline_race_free]); after
      any schedule the two worlds can let go of their windows, after
      which no cell is left and every window has been destroyed
      ([pipeline_shuts_down]).
    - [Weak]: the [Arc] of [Sync] is the [Arc] of std with its weak
      counter forgotten: every program over the operations has the same
      outcome, result and cells on both ([full_refines_arc]), the weak
      counter of every cell stays 1, and the last [Arc] deallocates.

    Theorems about all clients come with a witness on a concrete client
    with stub windows ([scenario] of [Machine], [closed_in_flight] of [Derive], [leak] of
    [Gate],
    [dead_client] of [Observation], [atomic_clones] and [pending_drop] of
    [Atomicity], [racing_drop] of [Race], [both_handles] of
    [Consumer], [close_in_flight] of [Pipeline], [field_read], [wrapped]
    and [literal_drop] of [Privacy], [pinned_region] and
    [dangling_capsule] of [Static]), evaluated by [vm_compute].

    ** Bounds

    Counters are 64-bit: [usize_modulus = 2^64] and
    [MAX_REFCOUNT = 2^63 - 1], the constants of the standard library on a
    64-bit target.  The runs of [Forget] that
    reach the bound have [2^63] and [2^64] steps and are not evaluated:
    they are proved by induction on the number of rounds.  Nothing is
    bounded by fuel: every operation is a terminating function, [run] recurses on the trace, and the nesting of
    [PadAdapter]s in the pretty form is the nesting of the types, not a
    counter.  The heap is unbounded, so allocation never fails.  A [Sink]
    has room for a given number of bytes or for any.  Generic code is a
    finite tree, so a platform call returns; the number of threads, of
    variables and of accesses in a run is not bounded.

    ** Not modelled

    Of the [Component] derive of [bevy_ecs] only the bound of the trait
    is modelled: the storage and the hooks it selects are code of
    [bevy_ecs], which is not under [src/], and add no behaviour to the
    capsule.  Of [core::fmt] the width, fill and precision of a
    [Formatter] are left out: the two implementations do not read them,
    and what [W]'s [Debug] does with them is [W]'s.  Of [Arc] the
    operations that the program does not call are left out ([downgrade],
    [get_mut], [try_unwrap] and the like), and so are [Weak] handles:
    the weak counter is there ([Weak]), and stays 1.  Of the memory model,
    the counter has one order of modification, which its accesses as
    steps give it, and the accesses to a window are ordered by
    happens-before; values read from the counter out of that order (a
    [Relaxed] load of a stale value) do not occur, as a
    read-modify-write reads the last value.  Of the visibility rules, the three fields: that
    the trait [WindowTrait] is private, so that code outside the module
    cannot name the type of the field [window], is not used.  Of
    lifetimes, a lifetime is the set of
    regions it names and a region has ended or has not: subtyping,
    variance and reborrowing are left out, as the program has no
    reference type of its own and bounds [W] by ['static] only.  What a
    platform does with a
    handle, and which threads it accepts, are outside the program: a
    platform call is any code that is generic in the two traits, and the
    gate is stated for any set of threads. *)

From stdpp Require Export base tactics option list gmap gmultiset.

(** ** Rust's [Result] *)

Inductive Result (T E : Type) : Type :=
| Ok (t : T)
| Err (e : E).
Arguments Ok {T E} t.
Arguments Err {T E} e.

Definition is_ok {T E} (r : Result T E) : bool :=
  match r with Ok _ => true | Err _ => false end.

Definition is_err {T E} (r : Result T E) : bool :=
  match r with Ok _ => false | Err _ => true end.

#[export] Instance Result_eq_dec {T E} `{EqDecision T, EqDecision E} :
  EqDecision (Result T E).
Proof. solve_decision. Defined.

(** ** Outcome of a call and the monad of heap computations *)

Inductive outcome (A : Type) : Type :=
| Done (a : A)
| Abort
| Undef.
Arguments Done {A} a.
Arguments Abort {A}.
Arguments Undef {A}.

Definition exec (S A : Type) : Type := S → outcome (A * S).

#[export] Instance exec_ret {S} : MRet (exec S) :=
  λ A a s, Done (a, s).

#[export] Instance exec_bind {S} : MBind (exec S) :=
  λ A B f c s,
    match c s with
    | Done (a, s') => f a s'
    | Abort => Abort
    | Undef => Undef
    end.

#[export] Instance exec_fmap {S} : FMap (exec S) :=
  λ A B f c, c ≫= (λ a, mret (f a)).

Definition abort {S A} : exec S A := λ _, Abort.
Definition undef {S A} : exec S A := λ _, Undef.
Definition get_state {S} : exec S S := λ s, Done (s, s).
Definition put_state {S} (s : S) : exec S () := λ _, Done ((), s).

(** The result and the final state of a computation that returned. *)
Definition result_of {A S} (o : outcome (A * S)) : option A :=
  match o with Done (a, _) => Some a | _ => None end.

Definition state_of {A S} (o : outcome (A * S)) : option S :=
  match o with Done (_, s) => Some s | _ => None end.

Definition is_done {A} (o : outcome A) : bool :=
  match o with Done _ => true | _ => false end.

(** ** Labelled transition systems with an executable step *)

(** A step is refused ([None]) when the event is not one a well-typed client
    can issue in that state; otherwise it has an outcome. *)
Section lts.
Context {St Ev : Type} (step : Ev → St → option (outcome St)).

Fixpoint run (tr : list Ev) (s : St) : option (outcome St) :=
  match tr with
  | [] => Some (Done s)
  | e :: tr' =>
      match step e s with
      | Some (Done s') => run tr' s'
      | r => r
      end
  end.

Definition reaches (s : St) (tr : list Ev) (s' : St) : Prop :=
  run tr s = Some (Done s').

Definition reachable_from (s s' : St) : Prop := ∃ tr, reaches s tr s'.

Definition inductive_invariant (I : St → Prop) : Prop :=
  ∀ e s s', I s → step e s = Some (Done s') → I s'.

End lts.

(** ** Specifications of computations

    [⦃ P ⦄ c ⦃ x, Q ⦄]: from every state in [P] the computation [c]
    returns, with a result [x] and a state in [Q]; it neither aborts nor
    is undefined.  The notation lives in [rhw_scope]. *)

Definition triple {S A} (P : S → Prop) (c : exec S A) (Q : A → S → Prop) : Prop :=
  ∀ s, P s → ∃ a s', c s = Done (a, s') ∧ Q a s'.

Declare Scope rhw_scope.
Delimit Scope rhw_scope with rhw.

#[warning="-closed-notation-not-level-0"]
Notation "⦃ P ⦄ c ⦃ x , Q ⦄" := (triple P c (λ x, Q))
  (at level 20, P at level 200, c at level 10, x name, Q at level 200,
   format "'[hv' ⦃  P  ⦄ '/  '  c '/' ⦃  x ,  Q  ⦄ ']'") : rhw_scope.

#[global] Open Scope rhw_scope.

(** ** The values of a finite map, up to order *)

(** The images of the entries of a map under [f], as a list that is
    determined up to permutation, and as a multiset. *)
Definition map_values `{Countable K} {A B} (f : A → B) (m : gmap K A) : list B :=
  (λ kv, f kv.2) <$> map_to_list m.

Definition map_multiset `{Countable K} {A} `{Countable B}
    (f : A → B) (m : gmap K A) : gmultiset B :=
  list_to_set_disj (map_values f m).

(** ** Tactics and hints *)

Create HintDb rhw discriminated.
Create Rewrite HintDb rhw.

(** [exec_unfold] unfolds the monad operations in the goal and the context. *)
Ltac exec_unfold :=
  unfold mbind, exec_bind, mret, exec_ret, fmap, exec_fmap,
    abort, undef, get_state, put_state in *.

(** [case_outcome] splits on the outcome that blocks the goal. *)
Ltac case_outcome :=
  match goal with
  | |- context [match ?c with Done _ => _ | Abort => _ | Undef => _ end] =>
      destruct c as [[??]| |] eqn:?
  | H : context [match ?c with Done _ => _ | Abort => _ | Undef => _ end] |- _ =>
      destruct c as [[??]| |] eqn:?
  end.

(** ** Facts about transition systems *)

Section lts_facts.
Context {St Ev : Type} (step : Ev → St → option (outcome St)).

#[local] Abbreviation run := (run step).
#[local] Abbreviation reaches := (reaches step).
#[local] Abbreviation reachable_from := (reachable_from step).
#[local] Abbreviation inductive_invariant := (inductive_invariant step).

Lemma run_cons_Done e tr s s' :
  step e s = Some (Done s') → run (e :: tr) s = run tr s'.
Proof. intros Hs. simpl. by rewrite Hs. Qed.

Lemma reaches_nil s s' : reaches s [] s' ↔ s = s'.
Proof. unfold reaches. simpl. split; [by intros [= ->] | by intros ->]. Qed.

Lemma reaches_cons e tr s s'' :
  reaches s (e :: tr) s'' ↔
  ∃ s', step e s = Some (Done s') ∧ reaches s' tr s''.
Proof.
  unfold reaches. simpl. split.
  - destruct (step e s) as [[s'| |]|] eqn:He; try done. eauto.
  - intros (s' & -> & Hr). done.
Qed.

Lemma reaches_app tr1 tr2 s s'' :
  reaches s (tr1 ++ tr2) s'' ↔
  ∃ s', reaches s tr1 s' ∧ reaches s' tr2 s''.
Proof.
  revert s. induction tr1 as [|e tr1 IH]; intros s; simpl.
  - split; [intros ?; exists s; by rewrite reaches_nil |].
    by intros (s' & ->%reaches_nil & ?).
  - rewrite reaches_cons. setoid_rewrite reaches_cons. split.
    + intros (s1 & ? & (s2 & ? & ?)%IH). eauto.
    + intros (s2 & (s1 & ? & ?) & ?). exists s1. split; [done|].
      apply IH. eauto.
Qed.

Lemma reaches_snoc tr e s s'' :
  reaches s (tr ++ [e]) s'' ↔
  ∃ s', reaches s tr s' ∧ step e s' = Some (Done s'').
Proof.
  rewrite reaches_app. split.
  - intros (s' & ? & (s1 & ? & ->%reaches_nil)%reaches_cons). eauto.
  - intros (s' & ? & ?). exists s'. split; [done|].
    apply reaches_cons. exists s''. by rewrite reaches_nil.
Qed.

Lemma invariant_reaches (I : St → Prop) tr s s' :
  inductive_invariant I → I s → reaches s tr s' → I s'.
Proof.
  intros Hind. revert s. induction tr as [|e tr IH]; intros s Hs.
  - by intros ->%reaches_nil.
  - intros (s1 & Hstep & Hr)%reaches_cons. eauto.
Qed.

Lemma invariant_reachable (I : St → Prop) s s' :
  inductive_invariant I → I s → reachable_from s s' → I s'.
Proof. intros Hind Hs [tr Hr]. by eapply invariant_reaches. Qed.

(** A run from a state of an invariant whose states have no undefined
    step is not undefined. *)
Lemma invariant_run_not_Undef (I : St → Prop) tr s :
  inductive_invariant I → (∀ e s, I s → step e s ≠ Some Undef) → I s →
  run tr s ≠ Some Undef.
Proof.
  intros Hind Hsafe. revert s. induction tr as [|e tr IH]; intros s Hs; [done|].
  simpl. destruct (step e s) as [[s'| |]|] eqn:He; [by eauto|done| |done].
  by destruct (Hsafe e s Hs).
Qed.

Lemma inductive_invariant_and (I J : St → Prop) :
  inductive_invariant I → inductive_invariant J →
  inductive_invariant (λ s, I s ∧ J s).
Proof. intros HI HJ e s s' [??] ?. split; eauto. Qed.

End lts_facts.

(** Two steps that agree have the same runs. *)
Lemma run_ext {St Ev : Type} (step1 step2 : Ev → St → option (outcome St)) tr s :
  (∀ e s, step1 e s = step2 e s) → run step1 tr s = run step2 tr s.
Proof.
  intros Heq. revert s. induction tr as [|e tr IH]; intros s; [done|].
  simpl. rewrite Heq. by destruct (step2 e s) as [[s'| |]|].
Qed.

(** ** Laws of [exec] *)

Section exec_laws.
Context {S : Type}.

Lemma exec_ret_bind {A B} (a : A) (f : A → exec S B) (s : S) :
  (mret a ≫= f) s = f a s.
Proof. done. Qed.

Lemma exec_bind_ret {A} (c : exec S A) (s : S) :
  (c ≫= mret) s = c s.
Proof.
  unfold mbind, exec_bind, mret, exec_ret. by destruct (c s) as [[]| |].
Qed.

Lemma exec_bind_assoc {A B C} (c : exec S A) (f : A → exec S B)
    (g : B → exec S C) (s : S) :
  ((c ≫= f) ≫= g) s = (c ≫= (λ a, f a ≫= g)) s.
Proof. unfold mbind, exec_bind. by destruct (c s) as [[]| |]. Qed.

Lemma exec_bind_Done {A B} (c : exec S A) (f : A → exec S B) s r :
  (c ≫= f) s = Done r ↔ ∃ a s', c s = Done (a, s') ∧ f a s' = Done r.
Proof.
  unfold mbind, exec_bind. destruct (c s) as [[a s']| |]; split;
    first [ by eauto | by intros (? & ? & ? & ?); simplify_eq ].
Qed.

Lemma exec_bind_Undef {A B} (c : exec S A) (f : A → exec S B) s :
  (c ≫= f) s = Undef ↔
  c s = Undef ∨ ∃ a s', c s = Done (a, s') ∧ f a s' = Undef.
Proof.
  unfold mbind, exec_bind. destruct (c s) as [[a s']| |]; split;
    first [ by eauto | by intros [?|(? & ? & ? & ?)]; simplify_eq ].
Qed.

Lemma exec_bind_Abort {A B} (c : exec S A) (f : A → exec S B) s :
  (c ≫= f) s = Abort ↔
  c s = Abort ∨ ∃ a s', c s = Done (a, s') ∧ f a s' = Abort.
Proof.
  unfold mbind, exec_bind. destruct (c s) as [[a s']| |]; split;
    first [ by eauto | by intros [?|(? & ? & ? & ?)]; simplify_eq ].
Qed.

(** A computation followed by a pure step goes wrong where the
    computation does. *)
Lemma exec_bind_mret_Undef {A B} (c : exec S A) (g : A → B) s :
  (c ≫= λ a, mret (g a)) s = Undef ↔ c s = Undef.
Proof.
  rewrite exec_bind_Undef. split; [intros [?|(? & ? & _ & [=])]; done|auto].
Qed.

Lemma exec_bind_mret_Abort {A B} (c : exec S A) (g : A → B) s :
  (c ≫= λ a, mret (g a)) s = Abort ↔ c s = Abort.
Proof.
  rewrite exec_bind_Abort. split; [intros [?|(? & ? & _ & [=])]; done|auto].
Qed.

Lemma exec_fmap_Done {A B} (g : A → B) (c : exec S A) s r :
  (g <$> c) s = Done r ↔ ∃ a s', c s = Done (a, s') ∧ r = (g a, s').
Proof.
  unfold fmap, exec_fmap. rewrite exec_bind_Done.
  unfold mret, exec_ret. split; intros (a & s' & Hc & Hr); exists a, s';
    split; congruence.
Qed.

End exec_laws.

(** ** Rules of specifications *)

Section triples.
Context {S : Type}.
Implicit Types (P : S → Prop).

Lemma triple_ret {A} P (a : A) (Q : A → S → Prop) :
  (∀ s, P s → Q a s) → ⦃ P ⦄ mret a ⦃ x, Q x ⦄.
Proof. intros HQ s Hs. exists a, s. split; [done|]. by apply HQ. Qed.

Lemma triple_bind {A B} P (c : exec S A) (Q : A → S → Prop)
    (k : A → exec S B) (R : B → S → Prop) :
  ⦃ P ⦄ c ⦃ x, Q x ⦄ → (∀ a, ⦃ Q a ⦄ k a ⦃ y, R y ⦄) →
  ⦃ P ⦄ (c ≫= k) ⦃ y, R y ⦄.
Proof.
  intros Hc Hk s Hs. destruct (Hc s Hs) as (a & s1 & Hca & Hq).
  destruct (Hk a s1 Hq) as (b & s2 & Hkb & Hr). exists b, s2.
  split; [|done]. apply exec_bind_Done. eauto.
Qed.

Lemma triple_consequence {A} P P' (c : exec S A) (Q Q' : A → S → Prop) :
  (∀ s, P' s → P s) → ⦃ P ⦄ c ⦃ x, Q x ⦄ → (∀ a s, Q a s → Q' a s) →
  ⦃ P' ⦄ c ⦃ x, Q' x ⦄.
Proof.
  intros HP Hc HQ s Hs. destruct (Hc s (HP s Hs)) as (a & s' & ? & ?).
  exists a, s'. split; [done|]. by apply HQ.
Qed.

(** A fact in the precondition may be assumed. *)
Lemma triple_pure {A} (φ : Prop) P (c : exec S A) (Q : A → S → Prop) :
  (φ → ⦃ P ⦄ c ⦃ x, Q x ⦄) → ⦃ λ s, φ ∧ P s ⦄ c ⦃ x, Q x ⦄.
Proof. intros Hc s [Hφ Hs]. by apply Hc. Qed.

Lemma triple_exists {A X} (P : X → S → Prop) (c : exec S A) (Q : A → S → Prop) :
  (∀ x, ⦃ P x ⦄ c ⦃ y, Q y ⦄) → ⦃ λ s, ∃ x, P x s ⦄ c ⦃ y, Q y ⦄.
Proof. intros Hc s [x Hs]. by eapply Hc. Qed.

(** A computation with a specification does not go wrong. *)
Lemma triple_is_done {A} P (c : exec S A) (Q : A → S → Prop) s :
  ⦃ P ⦄ c ⦃ x, Q x ⦄ → P s → c s ≠ Undef ∧ c s ≠ Abort.
Proof. intros Hc Hs. destruct (Hc s Hs) as (a & s' & -> & _). done. Qed.

End triples.

#[export] Hint Rewrite @exec_ret_bind @exec_bind_ret : rhw.

(** ** Facts about the values of a finite map *)

Section map_values.
Context `{Countable K} {A B : Type} (f : A → B).
Implicit Types (m : gmap K A) (i : K) (x y : A).

Lemma map_values_empty : map_values f (∅ : gmap K A) = [].
Proof. unfold map_values. by rewrite map_to_list_empty. Qed.

Lemma map_values_insert_fresh m i x :
  m !! i = None → map_values f (<[i := x]> m) ≡ₚ f x :: map_values f m.
Proof. intros Hi. unfold map_values. by rewrite map_to_list_insert. Qed.

Lemma map_values_delete m i x :
  m !! i = Some x → map_values f m ≡ₚ f x :: map_values f (delete i m).
Proof. intros Hi. unfold map_values. by rewrite <-(map_to_list_delete m i x). Qed.

Lemma map_values_insert_same m i x y :
  m !! i = Some x → f y = f x → map_values f (<[i := y]> m) ≡ₚ map_values f m.
Proof.
  intros Hi Hf. rewrite <-insert_delete_eq.
  rewrite map_values_insert_fresh by apply lookup_delete_eq.
  by rewrite Hf, <-map_values_delete.
Qed.

Lemma map_values_nil m : map_values f m = [] → m = ∅.
Proof.
  unfold map_values. intros Hnil%fmap_nil_inv. by apply map_to_list_empty_iff.
Qed.

Lemma map_values_elem_of m i x : m !! i = Some x → f x ∈ map_values f m.
Proof.
  intros Hi. unfold map_values. apply list_elem_of_fmap.
  exists (i, x). split; [done|]. by apply elem_of_map_to_list.
Qed.

End map_values.

Section map_multiset.
Context `{Countable K} {A : Type} `{Countable B} (f : A → B).
Implicit Types (m : gmap K A) (i : K) (x y : A) (b : B).

Lemma map_multiset_empty : map_multiset f (∅ : gmap K A) = ∅.
Proof. unfold map_multiset. by rewrite map_values_empty. Qed.

Lemma map_multiset_insert_fresh m i x :
  m !! i = None → map_multiset f (<[i := x]> m) = {[+ f x +]} ⊎ map_multiset f m.
Proof.
  intros Hi. unfold map_multiset.
  by rewrite (map_values_insert_fresh f m i x Hi), list_to_set_disj_cons.
Qed.

Lemma map_multiset_delete m i x :
  m !! i = Some x → map_multiset f m = {[+ f x +]} ⊎ map_multiset f (delete i m).
Proof.
  intros Hi. unfold map_multiset.
  by rewrite (map_values_delete f m i x Hi), list_to_set_disj_cons.
Qed.

Lemma map_multiset_insert_same m i x y :
  m !! i = Some x → f y = f x → map_multiset f (<[i := y]> m) = map_multiset f m.
Proof.
  intros Hi Hf. unfold map_multiset.
  by rewrite (map_values_insert_same f m i x y Hi Hf).
Qed.

(** An entry counts for one. *)
Lemma map_multiset_lookup m i x :
  m !! i = Some x → 1 ≤ multiplicity (f x) (map_multiset f m).
Proof.
  intros Hi. rewrite (map_multiset_delete m i x Hi), multiplicity_disj_union.
  rewrite multiplicity_singleton_eq. lia.
Qed.

(** Two entries with the same image count for two. *)
Lemma map_multiset_lookup2 m i j x y :
  i ≠ j → m !! i = Some x → m !! j = Some y → f x = f y →
  2 ≤ multiplicity (f x) (map_multiset f m).
Proof.
  intros Hij Hi Hj Hf. rewrite (map_multiset_delete m i x Hi).
  rewrite (map_multiset_delete (delete i m) j y) by by rewrite lookup_delete_ne.
  rewrite !multiplicity_disj_union, <-Hf, !multiplicity_singleton_eq. lia.
Qed.

(** An image counts at most once per entry. *)
Lemma multiplicity_list_to_set_disj_le b (l : list B) :
  multiplicity b (list_to_set_disj l) ≤ length l.
Proof.
  induction l as [|a l IH]; simpl.
  - by rewrite multiplicity_empty.
  - rewrite multiplicity_disj_union.
    destruct (decide (b = a)) as [->|Hne].
    + rewrite multiplicity_singleton_eq. lia.
    + rewrite multiplicity_singleton_ne by done. lia.
Qed.

Lemma map_multiset_multiplicity_le m b :
  multiplicity b (map_multiset f m) ≤ size m.
Proof.
  unfold map_multiset, map_values.
  etrans; [apply multiplicity_list_to_set_disj_le|].
  by rewrite length_fmap, length_map_to_list.
Qed.

(** What counts is the image of an entry. *)
Lemma map_multiset_elem m b :
  0 < multiplicity b (map_multiset f m) → ∃ i x, m !! i = Some x ∧ f x = b.
Proof.
  unfold map_multiset, map_values. intros Hb.
  apply elem_of_multiplicity, elem_of_list_to_set_disj in Hb.
  apply list_elem_of_fmap in Hb as ([i x] & -> & Hix%elem_of_map_to_list).
  eauto.
Qed.

End map_multiset.
