(* ===== verification/Fmt.v ===== *)
(** * [core::fmt] as far as the program uses it

    The two [Debug] implementations of the program, the hand-written one
    of [RawHandleWrapper] and the derived one of [WindowWrapper], are
    calls of the builder [DebugStruct].  This file models what they call:

    - [Write], the trait of a writer of text that may refuse a write, with
      the sink at the bottom ([Sink], a buffer with an optional bound on
      what it still accepts) and [PadAdapter], the writer that the [{:#?}]
      form puts around another one to indent what goes through it;
    - [Formatter], a writer with the flag of the [{:#?}] form;
    - [DebugStruct] with [debug_struct], [field], [finish] and
      [finish_non_exhaustive];
    - [Debug], the trait, whose method is polymorphic in the writer as the
      method of the trait object [dyn Write] is.

    A computation on a writer is a [writer S A]: the state of the writer
    is threaded, and an error ends the computation as the operator [?]
    does in the source.

    The streaming [PadAdapter] is proved equal, on every write that
    succeeds, to one write of the indented text ([indent]); writers obey
    [WriteLaws], and a [Debug] implementation that obeys [DebugLaws] is
    determined by the text it prints ([debug_text]). *)

From Stdlib Require Import Ascii.
From stdpp Require Import strings pretty.
From S2P Require Import Prelude.

Local Open Scope string_scope.

(** ** Writers *)

(** [fmt::Error] *)
Inductive FmtError : Type := Error.

#[export] Instance FmtError_eq_dec : EqDecision FmtError.
Proof. solve_decision. Defined.

(** A computation on a writer of state [S]: its [Result] and the writer
    after it.  [mbind] is the operator [?]: an error ends the computation. *)
Definition writer (S A : Type) : Type := S → Result A FmtError * S.

#[export] Instance writer_ret {S} : MRet (writer S) := λ A x k, (Ok x, k).

#[export] Instance writer_bind {S} : MBind (writer S) := λ A B g c k,
  match c k with
  | (Ok x, k') => g x k'
  | (Err e, k') => (Err e, k')
  end.

(** What a computation leaves when it succeeds. *)
Definition ok {S} (r : Result () FmtError * S) : option S :=
  match r with
  | (Ok _, k) => Some k
  | (Err _, _) => None
  end.

(** [trait fmt::Write] *)
Class Write (S : Type) : Type := write_str : string → writer S ().
#[global] Hint Mode Write ! : typeclass_instances.

(** The sink at the bottom of every writer: the text written so far, and
    how many bytes it still accepts ([None]: any number). *)
Record Sink : Type := {
  out : string;
  room : option nat;
}.

#[export] Instance Sink_eq_dec : EqDecision Sink.
Proof. solve_decision. Defined.

(** Append, or fail when the sink has no room for the whole string. *)
#[export] Instance Sink_Write : Write Sink := λ s k,
  match room k with
  | None => (Ok (), {| out := out k +:+ s; room := None |})
  | Some n =>
      if bool_decide (String.length s ≤ n)%nat
      then (Ok (), {| out := out k +:+ s; room := Some (n - String.length s) |})
      else (Err Error, k)
  end.

(** ** [PadAdapter] *)

(** The line feed. *)
Definition line_feed : ascii := ascii_of_nat 10.
Definition newline : string := String line_feed "".

Definition is_line_feed (c : ascii) : bool := bool_decide (c = line_feed).

(** [str::split_inclusive('\n')]: the lines of a string, each with the
    line feed that ends it. *)
Fixpoint split_inclusive (s : string) : list string :=
  match s with
  | "" => []
  | String c s' =>
      if is_line_feed c then String c "" :: split_inclusive s'
      else match split_inclusive s' with
           | [] => [String c ""]
           | l :: ls => String c l :: ls
           end
  end.

(** [str::ends_with('\n')] *)
Fixpoint ends_with_newline (s : string) : bool :=
  match s with
  | "" => false
  | String c "" => is_line_feed c
  | String _ s' => ends_with_newline s'
  end.

(** [struct PadAdapter { buf: &mut dyn Write, state: &mut PadAdapterState }],
    the state being the flag [on_newline]. *)
Record PadAdapter (S : Type) : Type := {
  pa_buf : S;
  on_newline : bool;
}.
Arguments pa_buf {S} _.
Arguments on_newline {S} _.

(** A computation on the writer inside the adapter. *)
Definition on_buf {S A} (c : writer S A) : writer (PadAdapter S) A := λ pa,
  let '(r, b) := c (pa_buf pa) in (r, {| pa_buf := b; on_newline := on_newline pa |}).

Definition set_on_newline {S} (b : bool) : writer (PadAdapter S) () := λ pa,
  (Ok (), {| pa_buf := pa_buf pa; on_newline := b |}).

(** The body of [PadAdapter::write_str], a loop over the lines of the
    string: four spaces before a line that starts, then the line. *)
Fixpoint pad_chunks {S} `{!Write S} (chunks : list string) : writer (PadAdapter S) () :=
  match chunks with
  | [] => mret ()
  | s :: chunks =>
      (λ pa, if on_newline pa then on_buf (write_str "    ") pa else (Ok (), pa)) ;;
      set_on_newline (ends_with_newline s) ;;
      on_buf (write_str s) ;;
      pad_chunks chunks
  end.

(** [impl fmt::Write for PadAdapter] *)
#[export] Instance PadAdapter_Write {S} `{!Write S} : Write (PadAdapter S) :=
  λ s, pad_chunks (split_inclusive s).

(** ** [Formatter] *)

(** A writer and the flag of the [{:#?}] form. *)
Record Formatter (S : Type) : Type := {
  buf : S;
  alternate : bool;
}.
Arguments buf {S} _.
Arguments alternate {S} _.

(** [impl fmt::Write for Formatter]: the write goes to the writer. *)
#[export] Instance Formatter_Write {S} `{!Write S} : Write (Formatter S) := λ s f,
  let '(r, b) := write_str s (buf f) in (r, {| buf := b; alternate := alternate f |}).

(** [PadAdapter::wrap]: run a computation on a formatter with the same
    flags whose writer is an adapter around this one, at the start of a
    line; afterwards the formatter is used as before. *)
Definition wrap {S A} (c : writer (Formatter (PadAdapter S)) A) : writer (Formatter S) A :=
  λ f,
  let '(r, f') := c {| buf := {| pa_buf := buf f; on_newline := true |};
                       alternate := alternate f |} in
  (r, {| buf := pa_buf (buf f'); alternate := alternate f |}).

(** [trait fmt::Debug]; the formatter's writer is a trait object in the
    source, so an implementation works with every writer. *)
Class Debug (T : Type) : Type :=
  fmt : ∀ {S : Type} `{!Write S}, T → writer (Formatter S) ().
#[global] Hint Mode Debug ! : typeclass_instances.

(** ** [DebugStruct] *)

(** The builder: the formatter, the result so far and whether a field
    was written. *)
Record DebugStruct (S : Type) : Type := {
  ds_fmt : Formatter S;
  ds_result : Result () FmtError;
  has_fields : bool;
}.
Arguments ds_fmt {S} _.
Arguments ds_result {S} _.
Arguments has_fields {S} _.

(** [self.result = self.result.and_then(|_| c)]: after an earlier error
    nothing more is written. *)
Definition result_and_then {S} (c : writer (Formatter S) ()) (ds : DebugStruct S) :
    DebugStruct S :=
  match ds_result ds with
  | Err e => ds
  | Ok _ =>
      let '(r, f) := c (ds_fmt ds) in
      {| ds_fmt := f; ds_result := r; has_fields := has_fields ds |}
  end.

Definition set_has_fields {S} (ds : DebugStruct S) : DebugStruct S :=
  {| ds_fmt := ds_fmt ds; ds_result := ds_result ds; has_fields := true |}.

(** [Formatter::debug_struct(name)]: write the name, no field yet. *)
Definition debug_struct {S} `{!Write S} (name : string) (f : Formatter S) : DebugStruct S :=
  let '(r, f') := write_str name f in
  {| ds_fmt := f'; ds_result := r; has_fields := false |}.

(** [DebugStruct::field(name, value)]; [value_fmt] is the [fmt] of the
    value.  In the [{:#?}] form the field is a line of its own, written
    through a [PadAdapter]. *)
Definition field {S} `{!Write S} (name : string)
    (value_fmt : ∀ S', Write S' → writer (Formatter S') ())
    (ds : DebugStruct S) : DebugStruct S :=
  set_has_fields
    (result_and_then
       (if alternate (ds_fmt ds)
        then (if has_fields ds then mret () else write_str (" {" +:+ newline)) ;;
             wrap (write_str name ;; write_str ": " ;; value_fmt _ _ ;;
                   write_str ("," +:+ newline))
        else write_str (if has_fields ds then ", " else " { ") ;;
             write_str name ;; write_str ": " ;; value_fmt _ _)
       ds).

(** [DebugStruct::finish]: close the struct if it has fields. *)
Definition finish {S} `{!Write S} (ds : DebugStruct S) : Result () FmtError * Formatter S :=
  let ds' :=
    if has_fields ds
    then result_and_then (if alternate (ds_fmt ds) then write_str "}" else write_str " }") ds
    else ds in
  (ds_result ds', ds_fmt ds').

(** [DebugStruct::finish_non_exhaustive]: close the struct, marking that
    fields were left out. *)
Definition finish_non_exhaustive {S} `{!Write S} (ds : DebugStruct S) :
    Result () FmtError * Formatter S :=
  let ds' :=
    result_and_then
      (if has_fields ds then
         if alternate (ds_fmt ds)
         then wrap (write_str (".." +:+ newline)) ;; write_str "}"
         else write_str ", .. }"
       else write_str " { .. }")
      ds in
  (ds_result ds', ds_fmt ds').

(** [Formatter::debug_struct_field1_finish], which a derived [Debug] of a
    struct with one field calls. *)
Definition debug_struct_field1_finish {S} `{!Write S} (name name1 : string)
    (value1 : ∀ S', Write S' → writer (Formatter S') ()) : writer (Formatter S) () :=
  λ f, finish (field name1 value1 (debug_struct name f)).

(** [impl Debug for u64] and the like: the decimal digits. *)
#[export] Instance N_Debug : Debug N := λ S _ n, write_str (pretty n).

(** A sink with no bound, empty so far, under a formatter. *)
Definition empty_formatter (alt : bool) : Formatter Sink :=
  {| buf := {| out := ""; room := None |}; alternate := alt |}.

(** ** The text a writer receives *)

(** What a [PadAdapter] lets through: four spaces before every line of
    the text, the first one only when the adapter is at the start of a
    line. *)
Fixpoint indent (p : bool) (s : string) : string :=
  match s with
  | "" => ""
  | String c s' =>
      (if p then "    " else "") +:+ String c (indent (is_line_feed c) s')
  end.

(** Whether the adapter is at the start of a line after a text. *)
Definition at_line_start (p : bool) (s : string) : bool :=
  match s with
  | "" => p
  | _ => ends_with_newline s
  end.

(** The inverse of [indent]: drop up to four spaces at the start of every
    line. *)
Fixpoint drop_spaces (n : nat) (s : string) : string :=
  match n, s with
  | S n', String " " s' => drop_spaces n' s'
  | _, _ => s
  end.

Fixpoint unindent_go (fuel : nat) (p : bool) (s : string) : string :=
  match fuel with
  | 0 => s
  | S fuel =>
      match (if p then drop_spaces 4 s else s) with
      | "" => ""
      | String c s' => String c (unindent_go fuel (is_line_feed c) s')
      end
  end.

Definition unindent (p : bool) (s : string) : string :=
  unindent_go (String.length s) p s.

(** The first [n] bytes of a string, and what is left without them or
    without the last [n]. *)
Fixpoint take_prefix (n : nat) (s : string) : string :=
  match n, s with
  | S n', String c s' => String c (take_prefix n' s')
  | _, _ => ""
  end.

Fixpoint drop_prefix (n : nat) (s : string) : string :=
  match n, s with
  | S n', String _ s' => drop_prefix n' s'
  | _, _ => s
  end.

Definition drop_suffix (n : nat) (s : string) : string :=
  take_prefix (String.length s - n) s.

(** ** Laws *)

(** A writer is lawful when writing a text in two parts is writing it
    at once, as far as success and the writer it leaves go. *)
Class WriteLaws (S : Type) `{!Write S} : Prop := {
  write_str_nil (k : S) : ok (write_str "" k) = Some k;
  write_str_app (s1 s2 : string) (k : S) :
    ok (write_str (s1 +:+ s2) k) = ok (write_str s1 k) ≫= λ k', ok (write_str s2 k');
}.
#[global] Hint Mode WriteLaws ! - : typeclass_instances.

(** What the builder has when no write has failed. *)
Definition ds_ok {S} (ds : DebugStruct S) : option (Formatter S) :=
  match ds_result ds with
  | Ok _ => Some (ds_fmt ds)
  | Err _ => None
  end.

(** A computation on a formatter with flag [alt] that does what writing
    the text [s] does. *)
Definition writes {S} `{!Write S} (alt : bool) (c : writer (Formatter S) ())
    (s : string) : Prop :=
  ∀ f, alternate f = alt → ok (c f) = ok (write_str s f).

(** The text of a field, of the end of a struct, and of the end of a
    struct with fields left out. *)
Definition field_text (alt has_fields : bool) (name text : string) : string :=
  if alt
  then (if has_fields then "" else " {" +:+ newline) +:+
       indent true (name +:+ ": " +:+ text +:+ "," +:+ newline)
  else (if has_fields then ", " else " { ") +:+ name +:+ ": " +:+ text.

Definition finish_text (alt has_fields : bool) : string :=
  if has_fields then if alt then "}" else " }" else "".

Definition finish_non_exhaustive_text (alt has_fields : bool) : string :=
  if has_fields
  then if alt then indent true (".." +:+ newline) +:+ "}" else ", .. }"
  else " { .. }".

(** A [Debug] implementation is lawful when it fails only if the writer
    does, and what it prints depends on the value and the flag only. *)
Class DebugLaws (T : Type) `{!Debug T} : Type := {
  debug_text : T → bool → string;
  fmt_writes {S} `{!Write S, !WriteLaws S} (x : T) (f : Formatter S) :
    ok (fmt x f) = ok (write_str (debug_text x (alternate f)) f);
}.

(** ** Facts *)

(** *** Strings *)

Lemma append_cons (a : ascii) (s1 s2 : string) :
  String a s1 +:+ s2 = String a (s1 +:+ s2).
Proof. done. Qed.

Lemma append_assoc (s1 s2 s3 : string) :
  (s1 +:+ s2) +:+ s3 = s1 +:+ (s2 +:+ s3).
Proof.
  induction s1 as [|a s1 IH]; [done|]. by rewrite !append_cons, IH.
Qed.

Lemma append_nil_r (s : string) : s +:+ "" = s.
Proof. induction s as [|a s IH]; [done|]. by rewrite append_cons, IH. Qed.

Lemma length_append (s1 s2 : string) :
  String.length (s1 +:+ s2) = (String.length s1 + String.length s2)%nat.
Proof.
  induction s1 as [|a s1 IH]; [done|]. rewrite append_cons. simpl. by rewrite IH.
Qed.

Lemma drop_prefix_app s1 s2 : drop_prefix (String.length s1) (s1 +:+ s2) = s2.
Proof. induction s1 as [|a s1 IH]; [by destruct s2|]. by rewrite append_cons. Qed.

Lemma take_prefix_app s1 s2 : take_prefix (String.length s1) (s1 +:+ s2) = s1.
Proof.
  induction s1 as [|a s1 IH]; [by destruct s2|]. rewrite append_cons. simpl. by rewrite IH.
Qed.

Lemma drop_suffix_app s1 s2 : drop_suffix (String.length s2) (s1 +:+ s2) = s1.
Proof.
  unfold drop_suffix. rewrite length_append, Nat.add_sub. apply take_prefix_app.
Qed.

#[export] Hint Rewrite append_assoc append_nil_r length_append : rhw.

(** *** Computations on a writer *)

Section writer.
Context {S : Type}.
Implicit Types (c : writer S ()) (k : S).

Lemma ok_bind c1 c2 k : ok ((c1 ;; c2) k) = ok (c1 k) ≫= λ k', ok (c2 k').
Proof.
  unfold mbind at 1, writer_bind. by destruct (c1 k) as [[[]|e] k'].
Qed.

Lemma ok_ret k : ok ((mret () : writer S ()) k) = Some k.
Proof. done. Qed.

Lemma ok_Some_inv (r : Result () FmtError * S) k : ok r = Some k ↔ r = (Ok (), k).
Proof. destruct r as [[[]|e] k']; naive_solver. Qed.

Lemma ok_None_inv (r : Result () FmtError * S) : ok r = None ↔ r.1 = Err Error.
Proof. destruct r as [[[]|[]] k']; naive_solver. Qed.

End writer.

(** *** The sink *)

Lemma Sink_write_str_unbounded s k :
  room k = None → write_str s k = (Ok (), {| out := out k +:+ s; room := None |}).
Proof. unfold write_str, Sink_Write. by intros ->. Qed.

Lemma Sink_write_str_room s k n :
  room k = Some n → (String.length s ≤ n)%nat →
  write_str s k = (Ok (), {| out := out k +:+ s; room := Some (n - String.length s) |}).
Proof. unfold write_str, Sink_Write. intros -> ?. by rewrite bool_decide_eq_true_2. Qed.

Lemma Sink_write_str_full s k n :
  room k = Some n → (n < String.length s)%nat → write_str s k = (Err Error, k).
Proof.
  unfold write_str, Sink_Write. intros -> ?. by rewrite bool_decide_eq_false_2 by lia.
Qed.

(** What a write to the sink leaves, in one expression. *)
Lemma Sink_ok_write_str s (k : Sink) :
  ok (write_str s k) =
    match room k with
    | None => Some {| out := out k +:+ s; room := None |}
    | Some n =>
        if bool_decide (String.length s ≤ n)%nat
        then Some {| out := out k +:+ s; room := Some (n - String.length s) |}
        else None
    end.
Proof. unfold write_str, Sink_Write. destruct (room k); [case_bool_decide|]; done. Qed.

(** A failed write leaves the sink as it was. *)
Lemma Sink_write_str_Err s (k k' : Sink) e : write_str s k = (Err e, k') → k' = k.
Proof.
  unfold write_str, Sink_Write. destruct (room k); [case_bool_decide|]; naive_solver.
Qed.

#[export] Instance Sink_WriteLaws : WriteLaws Sink.
Proof.
  split.
  - intros [o [n|]]; rewrite Sink_ok_write_str; simpl;
      by rewrite append_nil_r, ?Nat.sub_0_r.
  - intros s1 s2 [o [n|]]; rewrite !Sink_ok_write_str; simpl; [|by rewrite append_assoc].
    rewrite length_append. repeat case_bool_decide; simpl;
      rewrite ?Sink_ok_write_str; simpl; repeat case_bool_decide; try lia; try done.
    rewrite append_assoc. do 3 f_equal. lia.
Qed.

(** A write through a formatter whose writer is the sink. *)
Lemma Formatter_Sink_write_str s (f : Formatter Sink) :
  write_str s f =
    match room (buf f) with
    | None =>
        (Ok (), {| buf := {| out := out (buf f) +:+ s; room := None |};
                   alternate := alternate f |})
    | Some n =>
        if bool_decide (String.length s ≤ n)%nat
        then (Ok (), {| buf := {| out := out (buf f) +:+ s;
                                  room := Some (n - String.length s) |};
                        alternate := alternate f |})
        else (Err Error, f)
    end.
Proof.
  destruct f as [[o [n|]] alt]; unfold write_str, Formatter_Write, write_str, Sink_Write;
    simpl; [case_bool_decide|]; done.
Qed.

(** *** Lines of a string *)

Lemma split_inclusive_nil s : split_inclusive s = [] → s = "".
Proof.
  destruct s as [|c s]; [done|]. simpl.
  destruct (is_line_feed c); [done|]. by destruct (split_inclusive s).
Qed.

Lemma ends_with_newline_cons c s :
  ends_with_newline (String c s) = at_line_start (is_line_feed c) s.
Proof. by destruct s. Qed.

Lemma indent_cons p c s :
  indent p (String c s) =
    ((if p then "    " else "") +:+ String c "") +:+ indent (is_line_feed c) s.
Proof. simpl. by rewrite append_assoc. Qed.

Lemma at_line_start_app p s1 s2 :
  at_line_start p (s1 +:+ s2) = at_line_start (at_line_start p s1) s2.
Proof.
  revert p. induction s1 as [|c s1 IH]; intros p; [done|].
  rewrite append_cons. change (at_line_start p (String c ?s)) with (ends_with_newline (String c s)).
  by rewrite !ends_with_newline_cons, IH.
Qed.

(** The indentation of a text written in two parts: the second part
    starts where the first one stopped. *)
Lemma indent_app p s1 s2 :
  indent p (s1 +:+ s2) = indent p s1 +:+ indent (at_line_start p s1) s2.
Proof.
  revert p. induction s1 as [|c s1 IH]; intros p; [done|].
  rewrite append_cons, !indent_cons, IH, append_assoc.
  change (at_line_start p (String c s1)) with (ends_with_newline (String c s1)).
  by rewrite ends_with_newline_cons, !append_assoc.
Qed.

(** Indentation adds four bytes for every line of the text, the first
    line excepted when the adapter is not at the start of a line. *)
Lemma length_indent p s :
  (String.length (indent p s) + (if p then 0 else match s with "" => 0 | _ => 4 end) =
     String.length s + 4 * length (split_inclusive s))%nat.
Proof.
  revert p. induction s as [|c s IH]; intros p; [by destruct p|].
  rewrite indent_cons, !length_append. specialize (IH (is_line_feed c)). simpl.
  destruct (is_line_feed c); [destruct p; simpl in *; lia|].
  destruct s as [|c' s]; [destruct p; simpl; lia|].
  destruct (split_inclusive (String c' s)) eqn:Hs;
    [by apply split_inclusive_nil in Hs|].
  destruct p; simpl in *; lia.
Qed.

(** *** The adapter against its reference *)

Section pad_adapter.
Context {S : Type} `{!Write S, !WriteLaws S}.
Implicit Types (pa : PadAdapter S) (b : S).

Lemma ok_on_buf s pa :
  ok (on_buf (write_str s) pa) =
    b ← ok (write_str s (pa_buf pa)); Some {| pa_buf := b; on_newline := on_newline pa |}.
Proof. unfold on_buf. by destruct (write_str s (pa_buf pa)) as [[[]|e] b]. Qed.

(** One turn of the loop: the line, after four spaces when it starts. *)
Lemma ok_pad_chunks_cons s chunks pa :
  ok (pad_chunks (s :: chunks) pa) =
    b ← ok (write_str ((if on_newline pa then "    " else "") +:+ s) (pa_buf pa));
    ok (pad_chunks chunks {| pa_buf := b; on_newline := ends_with_newline s |}).
Proof.
  simpl. rewrite write_str_app, ok_bind. destruct pa as [b [|]]; simpl.
  - rewrite ok_on_buf. simpl. destruct (ok (write_str "    " b)) as [b1|]; [simpl|done].
    rewrite ok_bind. simpl. rewrite ok_bind, ok_on_buf. simpl.
    by destruct (ok (write_str s b1)).
  - rewrite write_str_nil. simpl. rewrite ok_bind. simpl. rewrite ok_bind, ok_on_buf. simpl.
    by destruct (ok (write_str s b)).
Qed.

(** The loop over the lines of a text does what one write of the
    indented text does. *)
Lemma ok_pad_chunks_indent s pa :
  ok (pad_chunks (split_inclusive s) pa) =
    b ← ok (write_str (indent (on_newline pa) s) (pa_buf pa));
    Some {| pa_buf := b; on_newline := at_line_start (on_newline pa) s |}.
Proof.
  revert pa. induction s as [|c s IH]; intros pa.
  { simpl. rewrite write_str_nil. by destruct pa. }
  rewrite indent_cons, write_str_app.
  change (at_line_start _ (String c s)) with (ends_with_newline (String c s)).
  rewrite ends_with_newline_cons. simpl split_inclusive.
  destruct (is_line_feed c) eqn:Hc.
  - rewrite ok_pad_chunks_cons. simpl. rewrite Hc.
    destruct (ok (write_str _ (pa_buf pa))) as [b|]; [simpl|done]. by rewrite IH.
  - destruct (split_inclusive s) as [|l ls] eqn:Hs.
    + apply split_inclusive_nil in Hs as ->. rewrite ok_pad_chunks_cons. simpl. rewrite Hc.
      destruct (ok (write_str _ (pa_buf pa))) as [b|]; [simpl|done].
      by rewrite write_str_nil.
    + rewrite ok_pad_chunks_cons, ends_with_newline_cons, Hc.
      rewrite <-(append_assoc _ (String c "") l), write_str_app.
      destruct (ok (write_str _ (pa_buf pa))) as [b|]; [simpl|done].
      specialize (IH {| pa_buf := b; on_newline := false |}).
      rewrite ok_pad_chunks_cons in IH. simpl in IH.
      change ("" +:+ l) with l in IH. rewrite <-IH. by destruct l.
Qed.

(** A write through the adapter is a write of the indented text to the
    writer inside. *)
Lemma PadAdapter_ok_write_str s pa :
  ok (write_str s pa) =
    b ← ok (write_str (indent (on_newline pa) s) (pa_buf pa));
    Some {| pa_buf := b; on_newline := at_line_start (on_newline pa) s |}.
Proof. apply ok_pad_chunks_indent. Qed.

#[export] Instance PadAdapter_WriteLaws : WriteLaws (PadAdapter S).
Proof.
  split.
  - intros pa. rewrite PadAdapter_ok_write_str. simpl. rewrite write_str_nil. by destruct pa.
  - intros s1 s2 pa. rewrite !PadAdapter_ok_write_str, indent_app, write_str_app.
    destruct (ok (write_str (indent _ s1) _)) as [b|]; [simpl|done].
    by rewrite PadAdapter_ok_write_str, at_line_start_app.
Qed.

End pad_adapter.

(** *** Formatters *)

Section formatter_write.
Context {S : Type} `{!Write S, !WriteLaws S}.
Implicit Types (f : Formatter S).

Lemma Formatter_ok_write_str s f :
  ok (write_str s f) =
    b ← ok (write_str s (buf f)); Some {| buf := b; alternate := alternate f |}.
Proof.
  unfold write_str at 1, Formatter_Write.
  by destruct (write_str s (buf f)) as [[[]|e] b].
Qed.

#[export] Instance Formatter_WriteLaws : WriteLaws (Formatter S).
Proof.
  split.
  - intros f. rewrite Formatter_ok_write_str, write_str_nil. by destruct f.
  - intros s1 s2 f. rewrite !Formatter_ok_write_str, write_str_app.
    destruct (ok (write_str s1 (buf f))) as [b|]; [simpl|done].
    by rewrite Formatter_ok_write_str.
Qed.

(** A write never changes the flag. *)
Lemma write_str_alternate s f : alternate (write_str s f).2 = alternate f.
Proof.
  unfold write_str, Formatter_Write. by destruct (write_str s (buf f)).
Qed.

Lemma ok_write_str_alternate s f f' :
  ok (write_str s f) = Some f' → alternate f' = alternate f.
Proof.
  rewrite Formatter_ok_write_str.
  destruct (ok (write_str s (buf f))); simpl; naive_solver.
Qed.

End formatter_write.

Section writes.
Context {S : Type} `{!Write S, !WriteLaws S}.
Implicit Types (f : Formatter S) (c : writer (Formatter S) ()).

Lemma writes_alternate alt c s f f' :
  writes alt c s → alternate f = alt → ok (c f) = Some f' → alternate f' = alt.
Proof. intros Hc <-. rewrite Hc by done. apply ok_write_str_alternate. Qed.

Lemma writes_apply alt c s f :
  writes alt c s → alternate f = alt → ok (c f) = ok (write_str s f).
Proof. intros Hc. apply Hc. Qed.

Lemma writes_write_str alt s : writes (S:=S) alt (write_str s) s.
Proof. by intros f _. Qed.

Lemma writes_ret alt : writes (S:=S) alt (mret ()) "".
Proof. intros f _. by rewrite write_str_nil. Qed.

Lemma writes_bind alt c1 c2 s1 s2 :
  writes alt c1 s1 → writes alt c2 s2 → writes alt (c1 ;; c2) (s1 +:+ s2).
Proof.
  intros H1 H2 f Hf. rewrite ok_bind, write_str_app, H1 by done.
  destruct (ok (write_str s1 f)) as [f1|] eqn:Hf1; [simpl|done].
  apply H2. apply ok_write_str_alternate in Hf1. congruence.
Qed.

Lemma writes_ext alt c s s' : s = s' → writes alt c s → writes alt c s'.
Proof. by intros ->. Qed.

End writes.

Section builder.
Context {S : Type} `{!Write S, !WriteLaws S}.
Implicit Types (f : Formatter S) (ds : DebugStruct S) (c : writer (Formatter S) ()).

(** What goes through the adapter reaches the formatter indented. *)
Lemma writes_wrap alt (c : writer (Formatter (PadAdapter S)) ()) s :
  writes alt c s → writes alt (wrap c) (indent true s).
Proof.
  intros Hc f Hf. unfold wrap.
  specialize (Hc {| buf := {| pa_buf := buf f; on_newline := true |};
                    alternate := alternate f |} Hf).
  rewrite Formatter_ok_write_str, PadAdapter_ok_write_str in Hc. simpl in Hc.
  rewrite Formatter_ok_write_str.
  destruct (c _) as [[[]|e] f'], (ok (write_str (indent true s) (buf f))); by simplify_eq/=.
Qed.

(** *** The builder *)

Lemma ds_ok_debug_struct name f : ds_ok (debug_struct name f) = ok (write_str name f).
Proof. unfold debug_struct. by destruct (write_str name f) as [[[]|e] f']. Qed.

Lemma has_fields_debug_struct name f : has_fields (debug_struct name f) = false.
Proof. unfold debug_struct. by destruct (write_str name f). Qed.

Lemma ds_ok_result_and_then c ds :
  ds_ok (result_and_then c ds) = f ← ds_ok ds; ok (c f).
Proof.
  unfold result_and_then, ds_ok. destruct (ds_result ds) as [[]|e] eqn:Hr; simpl.
  - by destruct (c (ds_fmt ds)) as [[[]|e] f'].
  - by rewrite Hr.
Qed.

Lemma has_fields_result_and_then c ds :
  has_fields (result_and_then c ds) = has_fields ds.
Proof.
  unfold result_and_then. destruct (ds_result ds); [|done]. by destruct (c (ds_fmt ds)).
Qed.

(** A field whose value prints [text] is the text [field_text]. *)
Lemma ds_ok_field name (value_fmt : ∀ S', Write S' → writer (Formatter S') ()) text ds :
  (∀ S' `{!Write S', !WriteLaws S'},
     writes (alternate (ds_fmt ds)) (value_fmt S' _) text) →
  ds_ok (field name value_fmt ds) =
    f ← ds_ok ds;
    ok (write_str (field_text (alternate f) (has_fields ds) name text) f).
Proof.
  intros Hv. unfold field.
  change (ds_ok (set_has_fields ?d)) with (ds_ok d). rewrite ds_ok_result_and_then.
  unfold ds_ok. destruct (ds_result ds); [simpl|done]. unfold field_text.
  destruct (alternate (ds_fmt ds)) eqn:Halt; (eapply writes_apply; [|exact Halt]).
  - apply writes_bind; [destruct (has_fields ds)|].
    + apply writes_ret.
    + apply writes_write_str.
    + apply writes_wrap.
      repeat apply writes_bind; first [apply writes_write_str|apply Hv; apply _].
  - repeat apply writes_bind; first [apply writes_write_str|apply Hv; apply _].
Qed.

Lemma has_fields_field name value_fmt ds : has_fields (field name value_fmt ds) = true.
Proof. done. Qed.

Lemma ok_finish ds :
  ok (finish ds) =
    f ← ds_ok ds; ok (write_str (finish_text (alternate f) (has_fields ds)) f).
Proof.
  unfold finish, finish_text. destruct (has_fields ds).
  - change (ok (ds_result ?d, ds_fmt ?d)) with (ds_ok d).
    rewrite ds_ok_result_and_then. unfold ds_ok.
    destruct (ds_result ds); [simpl|done]. by destruct (alternate (ds_fmt ds)).
  - change (ok (ds_result ?d, ds_fmt ?d)) with (ds_ok d).
    unfold ds_ok. destruct (ds_result ds) as [[]|]; [simpl|done]. by rewrite write_str_nil.
Qed.

Lemma ok_finish_non_exhaustive ds :
  ok (finish_non_exhaustive ds) =
    f ← ds_ok ds;
    ok (write_str (finish_non_exhaustive_text (alternate f) (has_fields ds)) f).
Proof.
  unfold finish_non_exhaustive, finish_non_exhaustive_text.
  change (ok (ds_result ?d, ds_fmt ?d)) with (ds_ok d).
  rewrite ds_ok_result_and_then. unfold ds_ok.
  destruct (ds_result ds); [simpl|done].
  destruct (has_fields ds); [|done]. destruct (alternate (ds_fmt ds)) eqn:Halt; [|done].
  eapply writes_apply; [|exact Halt].
  apply (writes_bind _ _ _ (indent true (".." +:+ newline)) "}");
    [apply writes_wrap|]; apply writes_write_str.
Qed.

End builder.

(** *** Structs with one field *)

Section field1.
Context {S : Type} `{!Write S, !WriteLaws S}.
Context (alt : bool) (name name1 : string).
Context (value1 : ∀ S', Write S' → writer (Formatter S') ()) (text : string).
Context (Hvalue1 : ∀ S' `{!Write S', !WriteLaws S'}, writes alt (value1 S' _) text).

(** The name and the field. *)
Lemma ds_ok_field1 (f : Formatter S) :
  alternate f = alt →
  ds_ok (field name1 value1 (debug_struct name f)) =
    ok (write_str (name +:+ field_text alt false name1 text) f).
Proof.
  intros Hf. rewrite (ds_ok_field _ _ text), ds_ok_debug_struct, has_fields_debug_struct.
  - rewrite write_str_app.
    destruct (ok (write_str name f)) as [f1|] eqn:Hf1; [simpl|done].
    apply ok_write_str_alternate in Hf1. by rewrite Hf1, Hf.
  - intros S' ? ?. unfold debug_struct.
    pose proof (write_str_alternate name f) as Hf1.
    destruct (write_str name f) as [r f1]. simpl in *. rewrite Hf1, Hf. by apply Hvalue1.
Qed.

(** Closing the struct after the field. *)
Lemma ok_after_field1 (finisher : DebugStruct S → Result () FmtError * Formatter S)
    (finisher_text : bool → bool → string) :
  (∀ ds, ok (finisher ds) =
           f ← ds_ok ds; ok (write_str (finisher_text (alternate f) (has_fields ds)) f)) →
  writes alt (λ f, finisher (field name1 value1 (debug_struct name f)))
    (name +:+ field_text alt false name1 text +:+ finisher_text alt true).
Proof.
  intros Hfin f Hf. rewrite Hfin, ds_ok_field1 by done.
  rewrite <-(append_assoc name), (write_str_app (name +:+ _)).
  destruct (ok (write_str (name +:+ _) f)) as [f1|] eqn:Hf1; [simpl|done].
  apply ok_write_str_alternate in Hf1. by rewrite Hf1, Hf.
Qed.

(** The derived [Debug] of a struct with one field: the name, the field
    and the closing brace. *)
Lemma writes_debug_struct_field1_finish :
  writes (S:=S) alt (debug_struct_field1_finish name name1 value1)
    (name +:+ field_text alt false name1 text +:+ finish_text alt true).
Proof. apply (ok_after_field1 finish finish_text), @ok_finish; apply _. Qed.

Lemma writes_field1_finish_non_exhaustive :
  writes (S:=S) alt
    (λ f, finish_non_exhaustive (field name1 value1 (debug_struct name f)))
    (name +:+ field_text alt false name1 text +:+ finish_non_exhaustive_text alt true).
Proof.
  apply (ok_after_field1 finish_non_exhaustive finish_non_exhaustive_text),
    @ok_finish_non_exhaustive; apply _.
Qed.

End field1.

(** *** Lawful implementations *)

Lemma writes_fmt {T} `{!Debug T, !DebugLaws T} {S} `{!Write S, !WriteLaws S} alt (x : T) :
  writes (S:=S) alt (fmt x) (debug_text x alt).
Proof. intros f <-. apply fmt_writes. Qed.

#[export] Instance N_DebugLaws : DebugLaws N := {|
  debug_text n _ := pretty n;
  fmt_writes S _ _ n f := eq_refl;
|}.

(** *** Indentation can be undone *)

Lemma unindent_go_indent fuel p s :
  (String.length (indent p s) ≤ fuel)%nat → unindent_go fuel p (indent p s) = s.
Proof.
  revert fuel p. induction s as [|c s IH]; intros fuel p Hlen.
  { destruct fuel, p; done. }
  rewrite indent_cons, !length_append in Hlen.
  destruct fuel as [|fuel]; [destruct p; simpl in Hlen; lia|].
  simpl. destruct p; simpl; rewrite IH; done || (simpl in Hlen; lia).
Qed.

Lemma unindent_indent p s : unindent p (indent p s) = s.
Proof. by apply unindent_go_indent. Qed.
