(* ===== verification/RawWindowHandle.v ===== *)
(** * The capability set of a window binding

    The crate [raw_window_handle] gives the program two opaque handle types,
    one error type and two traits; the program adds the private trait
    [WindowTrait], which joins the two, and its blanket implementation
    (raw_handle.rs, lines 38-39).  A trait is a type class, a trait object
    [dyn WindowTrait] is the table of the trait's methods.  A type whose
    values refer to a state, as the accessor refers to the heap,
    implements a trait by a method that reads the state. *)

From stdpp Require Import strings.
From S2P Require Import Prelude Fmt.

(** ** Handles and errors of [raw_window_handle] *)

(** Why a binding cannot produce a handle. *)
Inductive HandleError : Type :=
| NotSupported
| Unavailable.

(** A handle is an opaque platform word; window and display handles are
    distinct types. *)
Inductive WindowHandle : Type := MkWindowHandle (raw : N).
Inductive DisplayHandle : Type := MkDisplayHandle (raw : N).

#[export] Instance HandleError_eq_dec : EqDecision HandleError.
Proof. solve_decision. Defined.
#[export] Instance WindowHandle_eq_dec : EqDecision WindowHandle.
Proof. solve_decision. Defined.
#[export] Instance DisplayHandle_eq_dec : EqDecision DisplayHandle.
Proof. solve_decision. Defined.

(** ** The traits *)

Class HasWindowHandle (T : Type) : Type :=
  window_handle : T → Result WindowHandle HandleError.

Class HasDisplayHandle (T : Type) : Type :=
  display_handle : T → Result DisplayHandle HandleError.

(** The traits as a type whose values refer to a state [S] implements
    them: the method reads the state through [&self]. *)
Class HasWindowHandleIn (S T : Type) : Type :=
  window_handle_in : T → exec S (Result WindowHandle HandleError).

Class HasDisplayHandleIn (S T : Type) : Type :=
  display_handle_in : T → exec S (Result DisplayHandle HandleError).

(** [trait WindowTrait: HasWindowHandle + HasDisplayHandle {}] *)
Class WindowTrait (T : Type) : Type := {
  WindowTrait_HasWindowHandle :: HasWindowHandle T;
  WindowTrait_HasDisplayHandle :: HasDisplayHandle T;
}.

(** [impl<T: HasWindowHandle + HasDisplayHandle> WindowTrait for T {}] *)
#[export] Instance WindowTrait_blanket (T : Type)
    `{!HasWindowHandle T, !HasDisplayHandle T} : WindowTrait T | 100 := {
  WindowTrait_HasWindowHandle := _;
  WindowTrait_HasDisplayHandle := _;
}.

(** ** Trait objects *)

(** The method table of a [dyn WindowTrait] whose data has type [W]. *)
Record VTable (W : Type) : Type := {
  vt_window_handle : W → Result WindowHandle HandleError;
  vt_display_handle : W → Result DisplayHandle HandleError;
}.
Arguments vt_window_handle {W} _ _.
Arguments vt_display_handle {W} _ _.

(** The table the compiler builds where [W: WindowTrait] is known. *)
Definition vtable_of (W : Type) `{!WindowTrait W} : VTable W := {|
  vt_window_handle := window_handle;
  vt_display_handle := display_handle;
|}.

(** ** A stub binding

    A window with an identity whose two answers are fixed when it is built:
    it can be told to fail either call. *)
Record StubWindow : Type := {
  stub_id : N;
  stub_window : Result WindowHandle HandleError;
  stub_display : Result DisplayHandle HandleError;
}.

#[export] Instance StubWindow_eq_dec : EqDecision StubWindow.
Proof. solve_decision. Defined.

#[export] Instance StubWindow_HasWindowHandle : HasWindowHandle StubWindow :=
  stub_window.

#[export] Instance StubWindow_HasDisplayHandle : HasDisplayHandle StubWindow :=
  stub_display.

(** The stub prints its identity and leaves its answers out. *)
#[export] Instance StubWindow_Debug : Debug StubWindow := λ S _ self f,
  finish_non_exhaustive
    (field "id" (λ S' _, fmt (stub_id self)) (debug_struct "StubWindow" f)).

(** A stub that answers both calls with handles derived from its identity. *)
Definition stub_ok (id : N) : StubWindow := {|
  stub_id := id;
  stub_window := Ok (MkWindowHandle id);
  stub_display := Ok (MkDisplayHandle (id + 1000));
|}.

(** A stub whose binding has been torn down: both calls fail. *)
Definition stub_dead (id : N) : StubWindow := {|
  stub_id := id;
  stub_window := Err Unavailable;
  stub_display := Err Unavailable;
|}.

(** ** Facts *)

(** The blanket implementation adds no behaviour of its own: the methods
    of a [WindowTrait] built by it are those of the two supertraits. *)
Lemma blanket_window_handle (T : Type)
    (Hw : HasWindowHandle T) (Hd : HasDisplayHandle T) (x : T) :
  vt_window_handle (vtable_of T) x = @window_handle T Hw x.
Proof. reflexivity. Qed.

Lemma blanket_display_handle (T : Type)
    (Hw : HasWindowHandle T) (Hd : HasDisplayHandle T) (x : T) :
  vt_display_handle (vtable_of T) x = @display_handle T Hd x.
Proof. reflexivity. Qed.

(** The table of a stub answers with the stub's stored results. *)
Lemma stub_vtable (s : StubWindow) :
  vt_window_handle (vtable_of StubWindow) s = stub_window s ∧
  vt_display_handle (vtable_of StubWindow) s = stub_display s.
Proof. done. Qed.

(** The text the stub prints: its name, its identity in decimal, and the
    mark of the fields left out. *)
#[export] Instance StubWindow_DebugLaws : DebugLaws StubWindow := {|
  debug_text self alt :=
    ("StubWindow" +:+ field_text alt false "id" (debug_text (stub_id self) alt) +:+
     finish_non_exhaustive_text alt true)%string;
  fmt_writes S _ _ self f :=
    writes_field1_finish_non_exhaustive (alternate f) "StubWindow" "id" _ _
      (λ S' _ _, writes_fmt (alternate f) (stub_id self)) f eq_refl;
|}.

Example StubWindow_debug_text :
  debug_text (stub_ok 42) false = "StubWindow { id: 42, .. }"%string.
Proof. reflexivity. Qed.
