(* ===== verification/Sync.v ===== *)
(** * [std::sync::Arc] as a reference-counted heap

    The program shares its window through [Arc<W>] and never looks inside
    it, so the standard library's [Arc] is modelled from its contract: a
    heap cell [ArcInner] with the strong counter and the data, and four
    operations on handles.  The counter is a [usize]: a 64-bit word kept in
    [Z] with the wrap-around of [fetch_add] and [fetch_sub] written out.
    [new], [clone] and [deref] have at most one access to the counter;
    [drop] has two, [fetch_sub] and, for the handle that saw 1,
    [drop_slow], and is also given as their composition.  The program never
    creates a [Weak], so the weak counter is left out here: the cell is
    freed when the data is dropped.  [Weak] has the cell with both
    counters and shows that it behaves as this one. *)

From S2P Require Import Prelude.

(** ** Machine integers *)

Definition usize_modulus : Z := 2 ^ 64.

Definition usize_wrap (z : Z) : Z := z `mod` usize_modulus.

(** [isize::MAX], above which [Arc::clone] aborts the process. *)
Definition MAX_REFCOUNT : Z := 2 ^ 63 - 1.

(** ** Cells and handles *)

Definition loc : Type := positive.

Record ArcInner (T : Type) : Type := {
  strong : Z;
  data : T;
}.
Arguments strong {T} _.
Arguments data {T} _.

(** The heap of [Arc] cells holding a [T]. *)
Abbreviation heap T := (gmap loc (ArcInner T)).

(** An [Arc<T>] is the address of its cell. *)
Record Arc (T : Type) : Type := { ptr : loc }.
Arguments ptr {T} _.

#[export] Instance ArcInner_eq_dec {T} `{EqDecision T} : EqDecision (ArcInner T).
Proof. solve_decision. Defined.
#[export] Instance Arc_eq_dec {T} : EqDecision (Arc T).
Proof. solve_decision. Defined.

Module Arc.
Section impl.
Context {T : Type}.

(** [Arc::new(data)]: a fresh cell with one strong reference. *)
Definition new (data : T) : exec (heap T) (Arc T) := λ h,
  let l := fresh (dom h) in
  Done ({| ptr := l |}, <[l := {| strong := 1; data := data |}]> h).

(** [Arc::clone(&self)]: [fetch_add(1)] on the counter, abort when the old
    value is above [MAX_REFCOUNT]. *)
Definition clone (self : Arc T) : exec (heap T) (Arc T) := λ h,
  match h !! ptr self with
  | None => Undef
  | Some c =>
      let old_size := strong c in
      if bool_decide (old_size > MAX_REFCOUNT)%Z then Abort
      else Done ({| ptr := ptr self |},
                 <[ptr self := {| strong := usize_wrap (old_size + 1);
                                  data := data c |}]> h)
  end.

(** [drop(self)]: [fetch_sub(1)]; the handle that saw 1 drops the data and
    frees the cell.  The result is the data whose destructor ran, if any. *)
Definition drop (self : Arc T) : exec (heap T) (option T) := λ h,
  match h !! ptr self with
  | None => Undef
  | Some c =>
      if bool_decide (strong c = 1%Z)
      then Done (Some (data c), delete (ptr self) h)
      else Done (None,
                 <[ptr self := {| strong := usize_wrap (strong c - 1);
                                  data := data c |}]> h)
  end.

(** The two accesses of [drop].  The first is
    [self.inner().strong.fetch_sub(1, Release)], which returns the value
    the counter had. *)
Definition fetch_sub (self : Arc T) : exec (heap T) Z := λ h,
  match h !! ptr self with
  | None => Undef
  | Some c =>
      Done (strong c,
            <[ptr self := {| strong := usize_wrap (strong c - 1);
                             data := data c |}]> h)
  end.

(** The second is [drop_slow], which the handle that saw 1 calls: drop
    the data and free the cell. *)
Definition drop_slow (self : Arc T) : exec (heap T) T := λ h,
  match h !! ptr self with
  | None => Undef
  | Some c => Done (data c, delete (ptr self) h)
  end.

(** [Deref::deref(&self)]: read the data. *)
Definition deref (self : Arc T) : exec (heap T) T := λ h,
  match h !! ptr self with
  | None => Undef
  | Some c => Done (data c, h)
  end.

(** [Arc::strong_count(&self)]. *)
Definition strong_count (self : Arc T) : exec (heap T) Z := λ h,
  match h !! ptr self with
  | None => Undef
  | Some c => Done (strong c, h)
  end.

End impl.
End Arc.

(** The counter of the cell at [l], 0 when there is no cell. *)
Definition strong_at {T} (h : heap T) (l : loc) : Z :=
  match h !! l with Some c => strong c | None => 0%Z end.

(** Every counter is in the range that [clone] and [drop] keep it in. *)
Definition heap_wf {T} (h : heap T) : Prop :=
  ∀ l c, h !! l = Some c → (1 ≤ strong c ≤ MAX_REFCOUNT + 1)%Z.

(** The specification of the heap: it counts a multiset of handles.  [M]
    holds the address of every [Arc] that exists, once per handle; the
    heap agrees with it when every counter is the number of handles of its
    cell, and a cell exists exactly while it has a handle. *)
Definition counts {T} (h : heap T) (M : gmultiset loc) : Prop :=
  heap_wf h ∧ ∀ l, strong_at h l = Z.of_nat (multiplicity l M).

(** ** Facts about the counter *)

Lemma MAX_REFCOUNT_lt_modulus : (MAX_REFCOUNT + 2 < usize_modulus)%Z.
Proof. done. Qed.

Lemma usize_wrap_small z : (0 ≤ z < usize_modulus)%Z → usize_wrap z = z.
Proof. apply Z.mod_small. Qed.

Lemma usize_wrap_incr z :
  (0 ≤ z ≤ MAX_REFCOUNT)%Z → usize_wrap (z + 1) = (z + 1)%Z.
Proof.
  intros ?. apply usize_wrap_small.
  pose proof MAX_REFCOUNT_lt_modulus. lia.
Qed.

Lemma usize_wrap_decr z :
  (1 ≤ z ≤ MAX_REFCOUNT + 1)%Z → usize_wrap (z - 1) = (z - 1)%Z.
Proof.
  intros ?. apply usize_wrap_small.
  pose proof MAX_REFCOUNT_lt_modulus. lia.
Qed.

(** The decrement of a counter that is already 0 wraps to [usize::MAX]. *)
Lemma usize_wrap_underflow : usize_wrap (0 - 1) = (usize_modulus - 1)%Z.
Proof. done. Qed.

(** ** Facts about the operations *)

(** The heap as its clients see it: it counts the handles [M] and holds
    the windows [Γ]. *)
Definition heap_is {T} (M : gmultiset loc) (Γ : gmap loc T) (h : heap T) : Prop :=
  counts h M ∧ data <$> h = Γ.

(** The cells that exist in both heaps hold the same data: nothing
    writes to the data of a cell. *)
Definition data_kept {T} (h h' : heap T) : Prop :=
  ∀ l c c', h !! l = Some c → h' !! l = Some c' → data c' = data c.

Section facts.
Context {T : Type}.
Implicit Types (h : heap T) (a : Arc T) (c : ArcInner T) (l : loc).

Lemma strong_at_Some h l c : h !! l = Some c → strong_at h l = strong c.
Proof. unfold strong_at. by intros ->. Qed.

Lemma strong_at_None h l : h !! l = None → strong_at h l = 0%Z.
Proof. unfold strong_at. by intros ->. Qed.

Lemma strong_at_insert h l l' c :
  strong_at (<[l := c]> h) l' = if decide (l = l') then strong c else strong_at h l'.
Proof. unfold strong_at. rewrite lookup_insert. by case_decide. Qed.

Lemma strong_at_delete h l l' :
  strong_at (delete l h) l' = if decide (l = l') then 0%Z else strong_at h l'.
Proof. unfold strong_at. rewrite lookup_delete. by case_decide. Qed.

(** *** [new] *)

Lemma new_spec (v : T) h :
  ∃ l, h !! l = None ∧
       Arc.new v h = Done ({| ptr := l |}, <[l := {| strong := 1; data := v |}]> h).
Proof.
  exists (fresh (dom h)). split; [|done].
  apply not_elem_of_dom, is_fresh.
Qed.

Lemma new_inv (v : T) h a h' :
  Arc.new v h = Done (a, h') →
  h !! ptr a = None ∧ h' = <[ptr a := {| strong := 1; data := v |}]> h.
Proof.
  destruct (new_spec v h) as (l & Hl & ->). by intros [= <- <-].
Qed.

Lemma new_not_Undef (v : T) h : Arc.new v h ≠ Undef.
Proof. done. Qed.

Lemma new_not_Abort (v : T) h : Arc.new v h ≠ Abort.
Proof. done. Qed.

(** *** [clone] *)

Lemma clone_Done a h c :
  h !! ptr a = Some c → (strong c ≤ MAX_REFCOUNT)%Z →
  Arc.clone a h =
    Done (a, <[ptr a := {| strong := usize_wrap (strong c + 1); data := data c |}]> h).
Proof.
  intros Hc Hle. unfold Arc.clone. rewrite Hc.
  rewrite bool_decide_eq_false_2 by lia. by destruct a.
Qed.

Lemma clone_Abort a h c :
  h !! ptr a = Some c → (strong c > MAX_REFCOUNT)%Z → Arc.clone a h = Abort.
Proof.
  intros Hc Hgt. unfold Arc.clone. rewrite Hc.
  by rewrite bool_decide_eq_true_2.
Qed.

Lemma clone_Undef a h : Arc.clone a h = Undef ↔ h !! ptr a = None.
Proof.
  unfold Arc.clone. destruct (h !! ptr a) as [c|]; [|done].
  by case_bool_decide.
Qed.

Lemma clone_Abort_iff a h :
  Arc.clone a h = Abort ↔
  ∃ c, h !! ptr a = Some c ∧ (strong c > MAX_REFCOUNT)%Z.
Proof.
  unfold Arc.clone. destruct (h !! ptr a) as [c|]; [|split; [done|]].
  - case_bool_decide; split; try done; [by eauto|].
    intros (c' & [= <-] & ?). lia.
  - by intros (c & [=] & _).
Qed.

Lemma clone_inv a h a' h' :
  Arc.clone a h = Done (a', h') →
  ∃ c, h !! ptr a = Some c ∧ (strong c ≤ MAX_REFCOUNT)%Z ∧ a' = a ∧
       h' = <[ptr a := {| strong := usize_wrap (strong c + 1); data := data c |}]> h.
Proof.
  unfold Arc.clone. destruct (h !! ptr a) as [c|] eqn:Hc; [|done].
  case_bool_decide; [done|]. intros [= <- <-].
  exists c. split_and!; [done|lia|by destruct a|done].
Qed.

(** *** [drop] *)

Lemma drop_last a h c :
  h !! ptr a = Some c → strong c = 1%Z →
  Arc.drop a h = Done (Some (data c), delete (ptr a) h).
Proof.
  intros Hc H1. unfold Arc.drop. rewrite Hc. by rewrite bool_decide_eq_true_2.
Qed.

Lemma drop_shared a h c :
  h !! ptr a = Some c → strong c ≠ 1%Z →
  Arc.drop a h =
    Done (None, <[ptr a := {| strong := usize_wrap (strong c - 1); data := data c |}]> h).
Proof.
  intros Hc H1. unfold Arc.drop. rewrite Hc. by rewrite bool_decide_eq_false_2.
Qed.

Lemma drop_Undef a h : Arc.drop a h = Undef ↔ h !! ptr a = None.
Proof.
  unfold Arc.drop. destruct (h !! ptr a) as [c|]; [|done].
  by case_bool_decide.
Qed.

Lemma drop_not_Abort a h : Arc.drop a h ≠ Abort.
Proof.
  unfold Arc.drop. destruct (h !! ptr a) as [c|]; [|done].
  by case_bool_decide.
Qed.

Lemma drop_inv a h o h' :
  Arc.drop a h = Done (o, h') →
  ∃ c, h !! ptr a = Some c ∧
    ((strong c = 1%Z ∧ o = Some (data c) ∧ h' = delete (ptr a) h) ∨
     (strong c ≠ 1%Z ∧ o = None ∧
      h' = <[ptr a := {| strong := usize_wrap (strong c - 1); data := data c |}]> h)).
Proof.
  unfold Arc.drop. destruct (h !! ptr a) as [c|] eqn:Hc; [|done].
  case_bool_decide; intros [= <- <-]; exists c; naive_solver.
Qed.

(** [drop] is its two accesses, one after the other. *)
Lemma drop_fetch_sub_drop_slow a h :
  Arc.drop a h =
    (old ← Arc.fetch_sub a;
     if bool_decide (old = 1%Z) then Some <$> Arc.drop_slow a else mret None) h.
Proof.
  unfold Arc.drop, Arc.fetch_sub, Arc.drop_slow. exec_unfold.
  destruct (h !! ptr a) as [c|] eqn:Hc; [|done].
  case_bool_decide; [|done]. exec_unfold.
  by rewrite lookup_insert_eq, delete_insert_eq.
Qed.

(** *** [deref] and [strong_count] *)

Lemma deref_Done a h c :
  h !! ptr a = Some c → Arc.deref a h = Done (data c, h).
Proof. intros Hc. unfold Arc.deref. by rewrite Hc. Qed.

Lemma deref_Undef a h : Arc.deref a h = Undef ↔ h !! ptr a = None.
Proof. unfold Arc.deref. by destruct (h !! ptr a). Qed.

Lemma deref_not_Abort a h : Arc.deref a h ≠ Abort.
Proof. unfold Arc.deref. by destruct (h !! ptr a). Qed.

Lemma deref_inv a h v h' :
  Arc.deref a h = Done (v, h') →
  h' = h ∧ ∃ c, h !! ptr a = Some c ∧ v = data c.
Proof.
  unfold Arc.deref. destruct (h !! ptr a) as [c|] eqn:Hc; [|done].
  intros [= <- <-]. eauto.
Qed.

Lemma strong_count_Done a h c :
  h !! ptr a = Some c → Arc.strong_count a h = Done (strong c, h).
Proof. intros Hc. unfold Arc.strong_count. by rewrite Hc. Qed.

(** *** What an operation leaves alone *)

(** [clone] changes no data, and no counter but its own. *)
Lemma clone_data a h a' h' l :
  Arc.clone a h = Done (a', h') → data <$> h' !! l = data <$> h !! l.
Proof.
  intros (c & Hc & _ & _ & ->)%clone_inv. rewrite lookup_insert.
  case_decide as Hl; [|done]. subst l. by rewrite Hc.
Qed.

Lemma clone_other a h a' h' l :
  Arc.clone a h = Done (a', h') → l ≠ ptr a → h' !! l = h !! l.
Proof.
  intros (c & Hc & _ & _ & ->)%clone_inv Hl. by rewrite lookup_insert_ne.
Qed.

(** [drop] changes no cell but its own, and keeps the data of its own cell
    unless it held the last reference. *)
Lemma drop_other a h o h' l :
  Arc.drop a h = Done (o, h') → l ≠ ptr a → h' !! l = h !! l.
Proof.
  intros (c & Hc & [(_ & _ & ->)|(_ & _ & ->)])%drop_inv Hl.
  - by rewrite lookup_delete_ne.
  - by rewrite lookup_insert_ne.
Qed.

Lemma drop_shared_data a h h' l :
  Arc.drop a h = Done (None, h') → data <$> h' !! l = data <$> h !! l.
Proof.
  intros (c & Hc & [(_ & [=] & _)|(_ & _ & ->)])%drop_inv.
  rewrite lookup_insert. case_decide as Hl; [|done]. subst l. by rewrite Hc.
Qed.

Lemma drop_last_frees a h v h' :
  Arc.drop a h = Done (Some v, h') →
  h' !! ptr a = None ∧ data <$> h !! ptr a = Some v ∧ strong_at h (ptr a) = 1%Z.
Proof.
  intros (c & Hc & [(H1 & [= ->] & ->)|(_ & [=] & _)])%drop_inv.
  rewrite lookup_delete_eq, Hc, (strong_at_Some _ _ _ Hc). done.
Qed.

Lemma deref_data a h v :
  Arc.deref a h = Done (v, h) ↔ data <$> h !! ptr a = Some v.
Proof.
  unfold Arc.deref. destruct (h !! ptr a) as [c|]; simpl; [|naive_solver].
  split; [by intros [= <-]|by intros [= <-]].
Qed.

(** *** The data of a cell is never written *)

Lemma data_kept_refl h : data_kept h h.
Proof. intros l c c' Hc Hc'. congruence. Qed.

Lemma data_kept_alloc h l c : h !! l = None → data_kept h (<[l := c]> h).
Proof.
  intros Hl l' c1 c2 H1 H2. destruct (decide (l' = l)) as [->|Hne]; [congruence|].
  rewrite lookup_insert_ne in H2 by done. congruence.
Qed.

Lemma data_kept_update h l c c' :
  h !! l = Some c → data c' = data c → data_kept h (<[l := c']> h).
Proof.
  intros Hl Hd l' c1 c2 H1 H2. destruct (decide (l' = l)) as [->|Hne].
  - rewrite lookup_insert_eq in H2. congruence.
  - rewrite lookup_insert_ne in H2 by done. congruence.
Qed.

Lemma data_kept_delete h l : data_kept h (delete l h).
Proof. intros l' c1 c2 H1 [_ H2]%lookup_delete_Some. congruence. Qed.

(** Two heaps that count the same handles and agree on the data are the
    same heap. *)
Lemma counts_unique h h' M : counts h M → counts h' M → data_kept h h' → h = h'.
Proof.
  intros [Hwf Hc] [Hwf' Hc'] Hd. apply map_eq. intros l.
  pose proof (Hc l) as Hl. rewrite <-(Hc' l) in Hl. unfold strong_at in Hl.
  destruct (h !! l) as [c|] eqn:H1, (h' !! l) as [c'|] eqn:H2; try done.
  - pose proof (Hd _ _ _ H1 H2). destruct c, c'. simpl in *. congruence.
  - pose proof (Hwf _ _ H1). lia.
  - pose proof (Hwf' _ _ H2). lia.
Qed.

Lemma new_data_kept (v : T) h a h' : Arc.new v h = Done (a, h') → data_kept h h'.
Proof. intros [Hl ->]%new_inv. by apply data_kept_alloc. Qed.

Lemma clone_data_kept a h a' h' : Arc.clone a h = Done (a', h') → data_kept h h'.
Proof. intros (c & Hc & _ & _ & ->)%clone_inv. by eapply data_kept_update. Qed.

Lemma drop_data_kept a h o h' : Arc.drop a h = Done (o, h') → data_kept h h'.
Proof.
  intros (c & Hc & [(_ & _ & ->)|(_ & _ & ->)])%drop_inv.
  - apply data_kept_delete.
  - by eapply data_kept_update.
Qed.

(** *** The range of the counters is kept *)

Lemma heap_wf_empty : heap_wf (∅ : heap T).
Proof. intros l c. by rewrite lookup_empty. Qed.

Lemma heap_wf_insert h l c :
  heap_wf h → (1 ≤ strong c ≤ MAX_REFCOUNT + 1)%Z → heap_wf (<[l := c]> h).
Proof.
  intros Hwf Hc l' c'. rewrite lookup_insert. case_decide; [|by apply Hwf].
  by intros [= <-].
Qed.

Lemma heap_wf_delete h l : heap_wf h → heap_wf (delete l h).
Proof.
  intros Hwf l' c'. rewrite lookup_delete. case_decide; [done|by apply Hwf].
Qed.

Lemma new_wf (v : T) h a h' :
  heap_wf h → Arc.new v h = Done (a, h') → heap_wf h'.
Proof.
  intros Hwf [_ ->]%new_inv. apply heap_wf_insert; [done|]. simpl.
  unfold MAX_REFCOUNT. lia.
Qed.

Lemma clone_wf a h a' h' :
  heap_wf h → Arc.clone a h = Done (a', h') → heap_wf h'.
Proof.
  intros Hwf (c & Hc & Hle & _ & ->)%clone_inv.
  apply heap_wf_insert; [done|]. simpl.
  pose proof (Hwf _ _ Hc). rewrite usize_wrap_incr; lia.
Qed.

Lemma drop_wf a h o h' :
  heap_wf h → Arc.drop a h = Done (o, h') → heap_wf h'.
Proof.
  intros Hwf (c & Hc & [(_ & _ & ->)|(Hne & _ & ->)])%drop_inv.
  - by apply heap_wf_delete.
  - apply heap_wf_insert; [done|]. simpl.
    pose proof (Hwf _ _ Hc). rewrite usize_wrap_decr; lia.
Qed.

(** On a heap in range, no operation wraps the counter. *)
Lemma clone_no_wrap a h a' h' :
  heap_wf h → Arc.clone a h = Done (a', h') →
  strong_at h' (ptr a) = (strong_at h (ptr a) + 1)%Z.
Proof.
  intros Hwf (c & Hc & Hle & _ & ->)%clone_inv.
  rewrite strong_at_insert, decide_True by done. simpl.
  rewrite (strong_at_Some _ _ _ Hc).
  pose proof (Hwf _ _ Hc). rewrite usize_wrap_incr; lia.
Qed.

Lemma drop_no_wrap a h o h' :
  heap_wf h → Arc.drop a h = Done (o, h') →
  strong_at h' (ptr a) = (strong_at h (ptr a) - 1)%Z.
Proof.
  intros Hwf (c & Hc & [(H1 & _ & ->)|(Hne & _ & ->)])%drop_inv;
    rewrite (strong_at_Some _ _ _ Hc).
  - rewrite strong_at_delete, decide_True by done. lia.
  - rewrite strong_at_insert, decide_True by done. simpl.
    pose proof (Hwf _ _ Hc). rewrite usize_wrap_decr; lia.
Qed.

(** *** The heap counts its handles *)

Implicit Types (M : gmultiset loc).

(** Compare the cell [l] that changed with the cell [l'] in question, and
    simplify the counter and the multiplicity on both sides. *)
Local Ltac count_at l l' :=
  destruct (decide (l = l')) as [<-|?];
  [ rewrite ?strong_at_insert, ?strong_at_delete, ?decide_True by done;
    rewrite ?multiplicity_disj_union, ?multiplicity_singleton_eq
  | rewrite ?strong_at_insert, ?strong_at_delete, ?decide_False by done;
    rewrite ?multiplicity_disj_union, ?multiplicity_singleton_ne by done ].

Lemma counts_empty : counts (∅ : heap T) ∅.
Proof.
  split; [apply heap_wf_empty|]. intros l.
  by rewrite strong_at_None, multiplicity_empty by apply lookup_empty.
Qed.

(** A handle's cell is allocated, and only such cells are. *)
Lemma counts_lookup h M l :
  counts h M → is_Some (h !! l) ↔ 0 < multiplicity l M.
Proof.
  intros [Hwf Hc]. specialize (Hc l). unfold strong_at in Hc. split.
  - intros [c Hl]. rewrite Hl in Hc. pose proof (Hwf _ _ Hl). lia.
  - intros Hpos. destruct (h !! l); [eauto|lia].
Qed.

Lemma counts_strong h M l c :
  counts h M → h !! l = Some c → strong c = Z.of_nat (multiplicity l M).
Proof. intros [_ Hc] Hl. by rewrite <-Hc, (strong_at_Some _ _ _ Hl). Qed.

(** No handle, no cell: nothing leaks. *)
Lemma counts_no_handle h : counts h ∅ → h = ∅.
Proof.
  intros Hc. apply map_empty. intros l. apply eq_None_not_Some.
  rewrite (counts_lookup _ _ _ Hc), multiplicity_empty. lia.
Qed.

Lemma counts_alloc h M l v :
  counts h M → h !! l = None →
  counts (<[l := {| strong := 1; data := v |}]> h) ({[+ l +]} ⊎ M).
Proof.
  intros [Hwf Hc] Hl. split.
  - apply heap_wf_insert; [done|]. simpl. unfold MAX_REFCOUNT. lia.
  - intros l'. specialize (Hc l'). count_at l l'.
    + rewrite strong_at_None in Hc by done. simpl. lia.
    + rewrite Hc. lia.
Qed.

Lemma counts_incr h M l c :
  counts h M → h !! l = Some c → (strong c ≤ MAX_REFCOUNT)%Z →
  counts (<[l := {| strong := usize_wrap (strong c + 1); data := data c |}]> h)
         ({[+ l +]} ⊎ M).
Proof.
  intros [Hwf Hc] Hl Hle. pose proof (Hwf _ _ Hl). split.
  - apply heap_wf_insert; [done|]. simpl. rewrite usize_wrap_incr; lia.
  - intros l'. specialize (Hc l'). count_at l l'.
    + rewrite (strong_at_Some _ _ _ Hl) in Hc. simpl.
      rewrite usize_wrap_incr; lia.
    + rewrite Hc. lia.
Qed.

Lemma counts_decr h M l c :
  counts h ({[+ l +]} ⊎ M) → h !! l = Some c → strong c ≠ 1%Z →
  counts (<[l := {| strong := usize_wrap (strong c - 1); data := data c |}]> h) M.
Proof.
  intros [Hwf Hc] Hl Hne. pose proof (Hwf _ _ Hl). split.
  - apply heap_wf_insert; [done|]. simpl. rewrite usize_wrap_decr; lia.
  - intros l'. specialize (Hc l'). revert Hc. count_at l l'.
    + rewrite (strong_at_Some _ _ _ Hl). simpl. rewrite usize_wrap_decr; lia.
    + intros ->. lia.
Qed.

Lemma counts_free h M l c :
  counts h ({[+ l +]} ⊎ M) → h !! l = Some c → strong c = 1%Z →
  counts (delete l h) M ∧ multiplicity l M = 0.
Proof.
  intros [Hwf Hc] Hl H1.
  assert (multiplicity l M = 0) as H0.
  { specialize (Hc l). revert Hc.
    rewrite (strong_at_Some _ _ _ Hl), multiplicity_disj_union,
      multiplicity_singleton_eq. lia. }
  split; [|done]. split; [by apply heap_wf_delete|].
  intros l'. specialize (Hc l'). revert Hc. count_at l l'; [lia|].
  intros ->. lia.
Qed.

(** The operations against the specification: [new] and [clone] add a
    handle, [drop] removes one and destroys the data exactly when it was
    the last, and no operation on an existing handle is undefined. *)
Lemma new_counts (v : T) h M a h' :
  counts h M → Arc.new v h = Done (a, h') → counts h' ({[+ ptr a +]} ⊎ M).
Proof. intros Hc [Hl ->]%new_inv. by apply counts_alloc. Qed.

Lemma clone_counts a h M a' h' :
  counts h M → Arc.clone a h = Done (a', h') → counts h' ({[+ ptr a +]} ⊎ M).
Proof. intros Hc (c & Hl & Hle & _ & ->)%clone_inv. by apply counts_incr. Qed.

Lemma drop_counts a h M o h' :
  counts h ({[+ ptr a +]} ⊎ M) → Arc.drop a h = Done (o, h') →
  counts h' M ∧ (is_Some o ↔ multiplicity (ptr a) M = 0).
Proof.
  intros Hc (c & Hl & [(H1 & -> & ->)|(Hne & -> & ->)])%drop_inv.
  - destruct (counts_free _ _ _ _ Hc Hl H1). split; [done|]. by split; [|eauto].
  - split; [by apply counts_decr|]. split; [by intros [? [=]]|].
    intros H0. pose proof (counts_strong _ _ _ _ Hc Hl) as Hs. revert Hs.
    rewrite multiplicity_disj_union, multiplicity_singleton_eq. lia.
Qed.

(** *** The data in the heap, as a multiset

    [new] adds its argument, [clone] changes nothing, [drop] takes out
    what it hands to the destructor. *)

Lemma new_live (v : T) h a h' :
  Arc.new v h = Done (a, h') → map_values data h' ≡ₚ v :: map_values data h.
Proof.
  intros [Hl ->]%new_inv. by rewrite map_values_insert_fresh.
Qed.

Lemma clone_live a h a' h' :
  Arc.clone a h = Done (a', h') → map_values data h' ≡ₚ map_values data h.
Proof.
  intros (c & Hl & _ & _ & ->)%clone_inv.
  by rewrite (map_values_insert_same _ _ _ _ _ Hl).
Qed.

Lemma drop_live a h o h' :
  Arc.drop a h = Done (o, h') →
  map_values data h ≡ₚ option_list o ++ map_values data h'.
Proof.
  intros (c & Hl & [(_ & -> & ->)|(_ & -> & ->)])%drop_inv; simpl.
  - by rewrite <-(map_values_delete _ _ _ _ Hl).
  - by rewrite (map_values_insert_same _ _ _ _ _ Hl).
Qed.

Lemma counts_handle_live a h M :
  counts h M → 0 < multiplicity (ptr a) M → is_Some (h !! ptr a).
Proof. intros Hc ?. by apply (counts_lookup _ _ _ Hc). Qed.

(** *** The contract of [Arc], as specifications

    What the holder, the capsule and the accessor rely on.  [clone] needs
    a handle of the cell and a counter that is not at its bound. *)

Lemma new_triple M Γ (v : T) :
  ⦃ heap_is M Γ ⦄ Arc.new v
  ⦃ a, λ h, (Γ !! ptr a = None ∧ multiplicity (ptr a) M = 0) ∧
            heap_is ({[+ ptr a +]} ⊎ M) (<[ptr a := v]> Γ) h ⦄.
Proof.
  intros h [Hc <-]. destruct (new_spec v h) as (l & Hl & Hnew).
  eexists _, _. split; [exact Hnew|]. simpl. split.
  - split; [by rewrite lookup_fmap, Hl|].
    destruct Hc as [_ Hc]. specialize (Hc l).
    rewrite strong_at_None in Hc by done. lia.
  - split; [by apply counts_alloc|]. by rewrite fmap_insert.
Qed.

Lemma clone_triple M Γ a :
  ⦃ λ h, (0 < multiplicity (ptr a) M ∧
          (Z.of_nat (multiplicity (ptr a) M) ≤ MAX_REFCOUNT)%Z) ∧ heap_is M Γ h ⦄
    Arc.clone a
  ⦃ a', λ h, a' = a ∧ heap_is ({[+ ptr a +]} ⊎ M) Γ h ⦄.
Proof.
  intros h [[Hpos Hle] [Hc <-]].
  destruct (counts_handle_live a h M Hc Hpos) as [c Hl].
  pose proof (counts_strong _ _ _ _ Hc Hl) as Hs.
  eexists _, _. split; [apply (clone_Done _ _ _ Hl); lia|].
  split; [done|]. split; [apply counts_incr; [done..|lia]|].
  rewrite fmap_insert. simpl. apply insert_id. by rewrite lookup_fmap, Hl.
Qed.

Lemma deref_triple M Γ a w :
  ⦃ λ h, Γ !! ptr a = Some w ∧ heap_is M Γ h ⦄ Arc.deref a
  ⦃ r, λ h, r = w ∧ heap_is M Γ h ⦄.
Proof.
  intros h [Hw [Hc <-]]. rewrite lookup_fmap in Hw.
  destruct (h !! ptr a) as [c|] eqn:Hl; [|done]. injection Hw as <-.
  eexists _, _. split; [by apply deref_Done|]. done.
Qed.

Lemma drop_triple M Γ a :
  ⦃ heap_is ({[+ ptr a +]} ⊎ M) Γ ⦄ Arc.drop a
  ⦃ o, λ h, if decide (multiplicity (ptr a) M = 0)
            then is_Some o ∧ o = Γ !! ptr a ∧ heap_is M (delete (ptr a) Γ) h
            else o = None ∧ heap_is M Γ h ⦄.
Proof.
  intros h [Hc <-].
  assert (0 < multiplicity (ptr a) ({[+ ptr a +]} ⊎ M)) as Hpos.
  { rewrite multiplicity_disj_union, multiplicity_singleton_eq. lia. }
  destruct (counts_handle_live a h _ Hc Hpos) as [c Hl].
  destruct (Arc.drop a h) as [[o h']| |] eqn:Hd;
    [|by apply drop_not_Abort in Hd|by apply drop_Undef in Hd; congruence].
  destruct (drop_counts _ _ _ _ _ Hc Hd) as [Hc' Hlast].
  exists o, h'. split; [done|].
  apply drop_inv in Hd as (c' & Hl' & [(_ & -> & ->)|(_ & -> & ->)]);
    simplify_eq.
  - rewrite decide_True by (apply Hlast; eauto).
    split; [eauto|]. split; [by rewrite lookup_fmap, Hl|].
    split; [done|]. by rewrite fmap_delete.
  - rewrite decide_False by (intros H0%Hlast; by destruct H0).
    split; [done|]. split; [done|].
    rewrite fmap_insert. simpl. apply insert_id. by rewrite lookup_fmap, Hl.
Qed.

End facts.

#[export] Hint Resolve heap_wf_empty heap_wf_insert heap_wf_delete
  new_wf clone_wf drop_wf counts_empty : rhw.
