(* ===== verification/Holder.v ===== *)
(** * The resource holder [WindowWrapper<W>]

    raw_handle.rs, lines 16-36: a struct with the one field
    [reference: Arc<W>], the derived [Debug], the constructor [new] and
    the [Deref] implementation, an instance of [Deref] with [Target := W].  Dropping a [WindowWrapper] drops its
    field, which is the [Arc].  The bound [W: Send + Sync + 'static] of the
    [impl] block of [new] is a static check; it is
    [WindowWrapper_new_bound] in [Marker]. *)

From stdpp Require Import strings.
From S2P Require Import Prelude Fmt RawWindowHandle Sync.

(** [pub struct WindowWrapper<W> { reference: Arc<W> }] *)
Record WindowWrapper (W : Type) : Type := {
  reference : Arc W;
}.
Arguments reference {W} _.

#[export] Instance WindowWrapper_eq_dec {W} : EqDecision (WindowWrapper W).
Proof. solve_decision. Defined.

Module WindowWrapper.
Section impl.
Context {W : Type}.

(** [pub fn new(window: W) -> WindowWrapper<W>] *)
Definition new (window : W) : exec (heap W) (WindowWrapper W) :=
  reference ← Arc.new window;
  mret {| reference := reference |}.

(** [fn deref(&self) -> &W]: the borrow of the field auto-dereferences
    through the [Arc]. *)
Definition deref (self : WindowWrapper W) : exec (heap W) W :=
  Arc.deref (reference self).

(** The drop glue of the struct: drop the field. *)
Definition drop (self : WindowWrapper W) : exec (heap W) (option W) :=
  Arc.drop (reference self).

(** [#[derive(Debug)]] (line 16), for [W: Debug]: the name of the struct
    and the field [reference].  The [Debug] of [Arc<W>] prints the window
    behind the [Arc].  The window is read before the first write, which
    the source does when the field is reached; formatting does not change
    the heap, so the two differ only on a freed cell. *)
Definition fmt `{!Debug W} {S} `{!Write S} (self : WindowWrapper W) (f : Formatter S)
    : exec (heap W) (Result () FmtError * Formatter S) :=
  window ← Arc.deref (reference self);
  mret (debug_struct_field1_finish "WindowWrapper" "reference"
          (λ S' _, fmt window) f).

End impl.
End WindowWrapper.

(** [core::ops::Deref], for a type whose values refer to a state [S]. *)
Class Deref (S T : Type) : Type := {
  Target : Type;
  deref : T → exec S Target;
}.
Arguments Target {S} T {_}.

(** [impl<W: 'static> Deref for WindowWrapper<W>], with [type Target = W]. *)
#[export] Instance WindowWrapper_Deref {W} : Deref (heap W) (WindowWrapper W) := {|
  Target := W;
  deref := WindowWrapper.deref;
|}.

(** What the derived [Debug] prints for a holder of [window], in the two
    forms. *)
Definition WindowWrapper_debug_text {W} `{!Debug W, !DebugLaws W}
    (window : W) (alt : bool) : string :=
  if alt
  then "WindowWrapper {" +:+ newline +:+
       indent true ("reference: " +:+ debug_text window true +:+ "," +:+ newline) +:+ "}"
  else "WindowWrapper { reference: " +:+ debug_text window false +:+ " }".

(** The text of the window in the text of its holder. *)
Definition WindowWrapper_debug_parse (alt : bool) (text : string) : string :=
  if alt
  then drop_suffix 2 (drop_prefix 11
         (unindent true (drop_suffix 1 (drop_prefix 16 text))))
  else drop_suffix 2 (drop_prefix 27 text).

(** ** Behaviour of the holder *)

Section facts.
Context {W : Type}.
Implicit Types (h : heap W) (ww : WindowWrapper W) (window : W).

(** [new] always returns: it allocates a cell that was free, with counter 1
    and the window as its data, and changes no other cell. *)
Lemma WindowWrapper_new_spec window h :
  ∃ ww, WindowWrapper.new window h =
          Done (ww, <[ptr (reference ww) := {| strong := 1; data := window |}]> h) ∧
        h !! ptr (reference ww) = None.
Proof.
  destruct (new_spec window h) as (l & Hl & Hnew).
  exists {| reference := {| ptr := l |} |}. split; [|done].
  unfold WindowWrapper.new. exec_unfold. by rewrite Hnew.
Qed.

Lemma WindowWrapper_new_inv window h ww h' :
  WindowWrapper.new window h = Done (ww, h') →
  h !! ptr (reference ww) = None ∧
  h' = <[ptr (reference ww) := {| strong := 1; data := window |}]> h.
Proof.
  destruct (WindowWrapper_new_spec window h) as (ww0 & -> & ?).
  by intros [= <- <-].
Qed.

(** [new] adds the window to the data of the heap. *)
Lemma WindowWrapper_new_live window h ww h' :
  WindowWrapper.new window h = Done (ww, h') →
  map_values data h' ≡ₚ window :: map_values data h.
Proof.
  intros [Hl ->]%WindowWrapper_new_inv. by rewrite map_values_insert_fresh.
Qed.

Lemma WindowWrapper_new_data_kept window h ww h' :
  WindowWrapper.new window h = Done (ww, h') → data_kept h h'.
Proof. intros [Hl ->]%WindowWrapper_new_inv. by apply data_kept_alloc. Qed.

Lemma WindowWrapper_new_not_Undef window h : WindowWrapper.new window h ≠ Undef.
Proof. by destruct (WindowWrapper_new_spec window h) as (ww & -> & _). Qed.

Lemma WindowWrapper_new_not_Abort window h : WindowWrapper.new window h ≠ Abort.
Proof. by destruct (WindowWrapper_new_spec window h) as (ww & -> & _). Qed.

(** dereferencing a holder right after it is built gives the window it was
    built from, and leaves the heap as [new] left it. *)
Lemma WindowWrapper_deref_new window h :
  ∃ h', (ww ← WindowWrapper.new window; WindowWrapper.deref ww) h
        = Done (window, h').
Proof.
  destruct (WindowWrapper_new_spec window h) as (ww & Hnew & _).
  eexists. apply exec_bind_Done. do 2 eexists. split; [exact Hnew|].
  unfold WindowWrapper.deref.
  by rewrite (deref_Done _ _ {| strong := 1; data := window |})
    by apply lookup_insert_eq.
Qed.

(** [deref] reads: it returns the data of the holder's cell and does not
    change the heap; it is undefined exactly on a freed cell. *)
Lemma WindowWrapper_deref_spec ww h :
  WindowWrapper.deref ww h =
    match h !! ptr (reference ww) with
    | Some c => Done (data c, h)
    | None => Undef
    end.
Proof. done. Qed.

Lemma WindowWrapper_deref_Undef ww h :
  WindowWrapper.deref ww h = Undef ↔ h !! ptr (reference ww) = None.
Proof. apply deref_Undef. Qed.

Lemma WindowWrapper_deref_not_Abort ww h : WindowWrapper.deref ww h ≠ Abort.
Proof. apply deref_not_Abort. Qed.

Lemma WindowWrapper_deref_frame ww h window h' :
  WindowWrapper.deref ww h = Done (window, h') → h' = h.
Proof. by intros [-> _]%deref_inv. Qed.

(** Dropping a holder whose cell is shared only decrements the counter;
    dropping the last reference hands the window to its destructor. *)
Lemma WindowWrapper_drop_spec ww h c :
  h !! ptr (reference ww) = Some c →
  WindowWrapper.drop ww h =
    if decide (strong c = 1%Z)
    then Done (Some (data c), delete (ptr (reference ww)) h)
    else Done (None, <[ptr (reference ww) :=
                        {| strong := usize_wrap (strong c - 1); data := data c |}]> h).
Proof.
  intros Hc. unfold WindowWrapper.drop. case_decide.
  - by apply drop_last.
  - by apply drop_shared.
Qed.

(** *** Specifications *)

(** [new] allocates: the holder is the first handle of a cell that did
    not exist, and the cell holds the window. *)
Lemma WindowWrapper_new_triple M Γ (window : W) :
  ⦃ heap_is M Γ ⦄ WindowWrapper.new window
  ⦃ ww, λ h, (Γ !! ptr (reference ww) = None ∧
              multiplicity (ptr (reference ww)) M = 0) ∧
             heap_is ({[+ ptr (reference ww) +]} ⊎ M)
                     (<[ptr (reference ww) := window]> Γ) h ⦄.
Proof.
  unfold WindowWrapper.new. eapply triple_bind; [apply new_triple|].
  intros a. by apply triple_ret.
Qed.

(** [deref] reads the window and changes nothing. *)
Lemma WindowWrapper_deref_triple M Γ ww (w : W) :
  ⦃ λ h, Γ !! ptr (reference ww) = Some w ∧ heap_is M Γ h ⦄
    WindowWrapper.deref ww
  ⦃ r, λ h, r = w ∧ heap_is M Γ h ⦄.
Proof. apply deref_triple. Qed.

(** Dropping a holder gives up one handle; the window goes to its
    destructor when no other handle is left. *)
Lemma WindowWrapper_drop_triple M (Γ : gmap loc W) ww :
  ⦃ heap_is ({[+ ptr (reference ww) +]} ⊎ M) Γ ⦄ WindowWrapper.drop ww
  ⦃ o, λ h, if decide (multiplicity (ptr (reference ww)) M = 0)
            then is_Some o ∧ o = Γ !! ptr (reference ww) ∧
                 heap_is M (delete (ptr (reference ww)) Γ) h
            else o = None ∧ heap_is M Γ h ⦄.
Proof. apply drop_triple. Qed.

(** *** The operations in full *)

(** [new] returns from every heap: it allocates a cell that did not
    exist, of which the holder is the first handle and which holds the
    window; it never aborts and is never undefined. *)
Theorem WindowWrapper_new_behaviour M Γ (window : W) :
  ⦃ heap_is M Γ ⦄ WindowWrapper.new window
  ⦃ ww, λ h, (Γ !! ptr (reference ww) = None ∧
              multiplicity (ptr (reference ww)) M = 0) ∧
             heap_is ({[+ ptr (reference ww) +]} ⊎ M)
                     (<[ptr (reference ww) := window]> Γ) h ⦄ ∧
  ∀ h, WindowWrapper.new window h ≠ Undef ∧ WindowWrapper.new window h ≠ Abort.
Proof.
  split; [apply WindowWrapper_new_triple|]. intros h.
  split; [apply WindowWrapper_new_not_Undef|apply WindowWrapper_new_not_Abort].
Qed.

(** [deref] returns the window of the holder's cell and changes nothing;
    it is undefined exactly on a freed cell and never aborts. *)
Theorem WindowWrapper_deref_behaviour M Γ ww (w : W) :
  ⦃ λ h, Γ !! ptr (reference ww) = Some w ∧ heap_is M Γ h ⦄
    WindowWrapper.deref ww
  ⦃ r, λ h, r = w ∧ heap_is M Γ h ⦄ ∧
  ∀ h, (WindowWrapper.deref ww h = Undef ↔ h !! ptr (reference ww) = None) ∧
       WindowWrapper.deref ww h ≠ Abort.
Proof.
  split; [apply WindowWrapper_deref_triple|]. intros h.
  split; [apply WindowWrapper_deref_Undef|apply WindowWrapper_deref_not_Abort].
Qed.

End facts.

(** ** The derived [Debug] *)

Section fmt_facts.
Context {W : Type} `{!Debug W, !DebugLaws W}.
Implicit Types (h : heap W) (ww : WindowWrapper W) (window : W).
Local Open Scope string_scope.

Lemma WindowWrapper_debug_text_fields window alt :
  WindowWrapper_debug_text window alt =
    "WindowWrapper" +:+ field_text alt false "reference" (debug_text window alt) +:+
    finish_text alt true.
Proof. destruct alt; unfold WindowWrapper_debug_text, field_text; by rewrite ?append_assoc. Qed.

(** With the window known, formatting is the builder on the window's
    own [fmt]. *)
Lemma WindowWrapper_fmt_Done {S} `{!Write S} ww (f : Formatter S) h c :
  h !! ptr (reference ww) = Some c →
  WindowWrapper.fmt ww f h =
    Done (debug_struct_field1_finish "WindowWrapper" "reference"
            (λ S' _, fmt (data c)) f, h).
Proof.
  intros Hc. unfold WindowWrapper.fmt. exec_unfold.
  by rewrite (deref_Done _ _ c).
Qed.

(** Formatting is undefined exactly on a freed cell, and never aborts. *)
Lemma WindowWrapper_fmt_Undef {S} `{!Write S} ww (f : Formatter S) h :
  WindowWrapper.fmt ww f h = Undef ↔ h !! ptr (reference ww) = None.
Proof.
  unfold WindowWrapper.fmt. by rewrite exec_bind_mret_Undef, deref_Undef.
Qed.

Lemma WindowWrapper_fmt_not_Abort {S} `{!Write S} ww (f : Formatter S) h :
  WindowWrapper.fmt ww f h ≠ Abort.
Proof.
  unfold WindowWrapper.fmt. rewrite exec_bind_mret_Abort. apply deref_not_Abort.
Qed.

(** Formatting reads the window and changes nothing. *)
Lemma WindowWrapper_fmt_triple {S} `{!Write S} M Γ ww (f : Formatter S) window :
  ⦃ λ h, Γ !! ptr (reference ww) = Some window ∧ heap_is M Γ h ⦄
    WindowWrapper.fmt ww f
  ⦃ r, λ h, r = debug_struct_field1_finish "WindowWrapper" "reference"
                  (λ S' _, fmt window) f ∧ heap_is M Γ h ⦄.
Proof.
  unfold WindowWrapper.fmt. eapply triple_bind; [apply deref_triple|].
  intros w. apply triple_pure. intros ->. by apply triple_ret.
Qed.

(** The builder on a lawful [fmt] does what one write of the text of
    the holder does. *)
Lemma WindowWrapper_fmt_text {S} `{!Write S, !WriteLaws S} window (f : Formatter S) :
  ok (debug_struct_field1_finish "WindowWrapper" "reference" (λ S' _, fmt window) f) =
  ok (write_str (WindowWrapper_debug_text window (alternate f)) f).
Proof.
  rewrite WindowWrapper_debug_text_fields.
  apply writes_debug_struct_field1_finish; [|done].
  intros S' ? ?. apply writes_fmt.
Qed.

(** C24: With every lawful writer and a window whose [Debug] is lawful,
    formatting a holder whose cell is allocated returns, leaves the heap
    as it was, and does what one write of the text of the holder does:
    the name, the field [reference] with the text of the window, and the
    closing brace, on one line or, in the [{:#?}] form, with the field
    indented on a line of its own. *)
Theorem WindowWrapper_fmt_spec {S} `{!Write S, !WriteLaws S} ww (f : Formatter S) h c :
  h !! ptr (reference ww) = Some c →
  ∃ r, WindowWrapper.fmt ww f h = Done (r, h) ∧
       ok r = ok (write_str (WindowWrapper_debug_text (data c) (alternate f)) f).
Proof.
  intros Hc. eexists. split; [by apply WindowWrapper_fmt_Done|].
  apply WindowWrapper_fmt_text.
Qed.

(** On a sink with room for [n] bytes, formatting a holder succeeds
    exactly when the text of the holder fits: then the text is appended
    to the sink; otherwise the result is the error of the sink. *)
Theorem WindowWrapper_fmt_room ww (f : Formatter Sink) h c n :
  h !! ptr (reference ww) = Some c → room (buf f) = Some n →
  ∃ r, WindowWrapper.fmt ww f h = Done (r, h) ∧
       let text := WindowWrapper_debug_text (data c) (alternate f) in
       if decide (String.length text ≤ n)%nat
       then r = (Ok (), {| buf := {| out := out (buf f) +:+ text;
                                     room := Some (n - String.length text) |};
                           alternate := alternate f |})
       else r.1 = Err Error.
Proof.
  intros Hc Hn. eexists. split; [by apply WindowWrapper_fmt_Done|]. cbv zeta.
  pose proof (WindowWrapper_fmt_text (data c) f) as Hok.
  rewrite Formatter_Sink_write_str, Hn, bool_decide_decide in Hok.
  case_decide; [by apply ok_Some_inv|by apply ok_None_inv].
Qed.

(** The text of the window can be read back from the text of its holder,
    in both forms. *)
Lemma WindowWrapper_debug_parse_text window alt :
  WindowWrapper_debug_parse alt (WindowWrapper_debug_text window alt) =
    debug_text window alt.
Proof.
  unfold WindowWrapper_debug_parse, WindowWrapper_debug_text. destruct alt.
  - rewrite <-(append_assoc "WindowWrapper {" newline).
    rewrite (drop_prefix_app ("WindowWrapper {" +:+ newline)).
    rewrite (drop_suffix_app _ "}"), unindent_indent.
    rewrite (drop_prefix_app "reference: "). apply (drop_suffix_app _ ("," +:+ newline)).
  - rewrite (drop_prefix_app "WindowWrapper { reference: ").
    apply (drop_suffix_app _ " }").
Qed.


End fmt_facts.

(** ** On a concrete holder *)

(** The two forms of a holder of the stub with identity 42, computed by
    the builder through the adapters. *)
Example WindowWrapper_fmt_stub :
  let h : heap StubWindow := {[ 1%positive := {| strong := 1; data := stub_ok 42 |} ]} in
  let ww := {| reference := {| ptr := 1%positive |} |} in
  result_of (WindowWrapper.fmt ww (empty_formatter false) h) =
    Some (Ok (), {| buf := {| out := "WindowWrapper { reference: StubWindow { id: 42, .. } }";
                              room := None |}; alternate := false |}) ∧
  result_of (WindowWrapper.fmt ww (empty_formatter true) h) =
    Some (Ok (), {| buf := {| out :=
      "WindowWrapper {" +:+ newline +:+
      "    reference: StubWindow {" +:+ newline +:+
      "        id: 42," +:+ newline +:+
      "        .." +:+ newline +:+
      "    }," +:+ newline +:+
      "}"; room := None |}; alternate := true |}).
Proof. split; by vm_compute. Qed.

Lemma WindowWrapper_fmt_spec_witness :
  let h : heap StubWindow := {[ 1%positive := {| strong := 1; data := stub_ok 42 |} ]} in
  let ww := {| reference := {| ptr := 1%positive |} |} in
  ∃ r, WindowWrapper.fmt ww (empty_formatter true) h = Done (r, h) ∧
       ok r = ok (write_str (WindowWrapper_debug_text (stub_ok 42) true)
                    (empty_formatter true)).
Proof.
  apply (WindowWrapper_fmt_spec (S:=Sink) {| reference := {| ptr := 1%positive |} |}
           (empty_formatter true) _ {| strong := 1; data := stub_ok 42 |}).
  by vm_compute.
Defined.

Lemma WindowWrapper_fmt_room_witness :
  let h : heap StubWindow := {[ 1%positive := {| strong := 1; data := stub_ok 42 |} ]} in
  let ww := {| reference := {| ptr := 1%positive |} |} in
  let f := {| buf := {| out := ""; room := Some 40 |}; alternate := false |} in
  ∃ r, WindowWrapper.fmt ww f h = Done (r, h) ∧ r.1 = Err Error.
Proof.
  destruct (WindowWrapper_fmt_room {| reference := {| ptr := 1%positive |} |}
              {| buf := {| out := ""; room := Some 40 |}; alternate := false |}
              {[ 1%positive := {| strong := 1; data := stub_ok 42 |} ]}
              {| strong := 1; data := stub_ok 42 |} 40) as (r & Hr & Hcase);
    [by vm_compute..|].
  exists r. split; [exact Hr|exact Hcase].
Defined.

