(* ===== verification/Capsule.v ===== *)
(** * The cross-thread capsule [RawHandleWrapper]

    raw_handle.rs, lines 41-85: the struct with the one field
    [window: Arc<dyn WindowTrait>], its hand-written [Debug], the
    constructor [new], the unsafe [get_handle], and the derived [Clone].
    The struct [ThreadLockedRawWindowHandleWrapper] (line 94) is declared
    here because [get_handle] returns it; its methods are in [Accessor].
    The two [unsafe impl]s of lines 83 and 85 are in [Marker]. *)

From stdpp Require Import strings.
From S2P Require Import Prelude Fmt RawWindowHandle Sync Holder.

(** [Arc<dyn WindowTrait>]: the address of the cell and the method table
    of the erased type. *)
Record ArcDyn (W : Type) : Type := {
  dyn_ptr : Arc W;
  dyn_vtable : VTable W;
}.
Arguments dyn_ptr {W} _.
Arguments dyn_vtable {W} _.

(** The unsizing coercion from [Arc<W>] to [Arc<dyn WindowTrait>]: same
    cell, same counter, the table of [W]. *)
Definition unsize {W : Type} `{!WindowTrait W} (a : Arc W) : ArcDyn W :=
  {| dyn_ptr := a; dyn_vtable := vtable_of W |}.

(** [pub struct RawHandleWrapper { window: Arc<dyn WindowTrait> }] *)
Record RawHandleWrapper (W : Type) : Type := {
  window : ArcDyn W;
}.
Arguments window {W} _.

(** [pub struct ThreadLockedRawWindowHandleWrapper(RawHandleWrapper);] *)
Record ThreadLockedRawWindowHandleWrapper (W : Type) : Type := {
  _0 : RawHandleWrapper W;
}.
Arguments _0 {W} _.

(** The cell a value of each type refers to. *)
Definition RawHandleWrapper_ptr {W} (self : RawHandleWrapper W) : loc :=
  ptr (dyn_ptr (window self)).

Module RawHandleWrapper.
Section impl.
Context {W : Type}.

(** The derived [Clone]: clone the field. *)
Definition clone (self : RawHandleWrapper W) : exec (heap W) (RawHandleWrapper W) :=
  a ← Arc.clone (dyn_ptr (window self));
  mret {| window := {| dyn_ptr := a; dyn_vtable := dyn_vtable (window self) |} |}.

(** [impl fmt::Debug]: the name and [{ .. }], nothing of the window. *)
Definition fmt {S} `{!Write S} (self : RawHandleWrapper W) : writer (Formatter S) () :=
  λ f, finish_non_exhaustive (debug_struct "RawHandleWrapper" f).

(** [pub fn new<W: HasWindowHandle + HasDisplayHandle + 'static>
      (window: &WindowWrapper<W>) -> Result<RawHandleWrapper, HandleError>] *)
Definition new `{!HasWindowHandle W, !HasDisplayHandle W}
    (window : WindowWrapper W)
    : exec (heap W) (Result (RawHandleWrapper W) HandleError) :=
  a ← Arc.clone (reference window);
  mret (Ok {| window := unsize a |}).

(** [pub unsafe fn get_handle(&self) -> ThreadLockedRawWindowHandleWrapper] *)
Definition get_handle (self : RawHandleWrapper W)
    : exec (heap W) (ThreadLockedRawWindowHandleWrapper W) :=
  c ← clone self;
  mret {| _0 := c |}.

(** The drop glue of the struct: drop the field. *)
Definition drop (self : RawHandleWrapper W) : exec (heap W) (option W) :=
  Arc.drop (dyn_ptr (window self)).

End impl.
End RawHandleWrapper.

(** The [Debug] implementation as an instance of the trait. *)
#[export] Instance RawHandleWrapper_Debug {W} : Debug (RawHandleWrapper W) :=
  λ S _, RawHandleWrapper.fmt.

(** ** Behaviour of the capsule *)

Section facts.
Context {W : Type} `{!HasWindowHandle W, !HasDisplayHandle W}.
Implicit Types (h : heap W) (ww : WindowWrapper W) (rhw : RawHandleWrapper W).

(** *** [new] *)

(** On a live holder whose counter is at most [MAX_REFCOUNT], [new] returns
    [Ok] with a capsule on the holder's cell, and increments the counter. *)
Lemma RawHandleWrapper_new_Done ww h c :
  h !! ptr (reference ww) = Some c → (strong c ≤ MAX_REFCOUNT)%Z →
  RawHandleWrapper.new ww h =
    Done (Ok {| window := unsize (reference ww) |},
          <[ptr (reference ww) :=
              {| strong := usize_wrap (strong c + 1); data := data c |}]> h).
Proof.
  intros Hc Hle. unfold RawHandleWrapper.new. exec_unfold.
  by rewrite (clone_Done _ _ _ Hc Hle).
Qed.

Lemma RawHandleWrapper_new_inv ww h r h' :
  RawHandleWrapper.new ww h = Done (r, h') →
  ∃ c, h !! ptr (reference ww) = Some c ∧ (strong c ≤ MAX_REFCOUNT)%Z ∧
       r = Ok {| window := unsize (reference ww) |} ∧
       h' = <[ptr (reference ww) :=
                {| strong := usize_wrap (strong c + 1); data := data c |}]> h.
Proof.
  unfold RawHandleWrapper.new.
  intros (a & h1 & (c & Hc & Hle & -> & ->)%clone_inv & [= <- <-])%exec_bind_Done.
  eauto 10.
Qed.

(** C23: [new] has the type of a fallible constructor, but no path of it builds
    an [Err]: it does not ask the binding for a handle. *)
Lemma RawHandleWrapper_new_never_Err ww h e h' :
  RawHandleWrapper.new ww h ≠ Done (Err e, h').
Proof. by intros (c & _ & _ & [=] & _)%RawHandleWrapper_new_inv. Qed.

Lemma RawHandleWrapper_new_Abort ww h :
  RawHandleWrapper.new ww h = Abort ↔
  ∃ c, h !! ptr (reference ww) = Some c ∧ (strong c > MAX_REFCOUNT)%Z.
Proof.
  unfold RawHandleWrapper.new. by rewrite exec_bind_mret_Abort, clone_Abort_iff.
Qed.

Lemma RawHandleWrapper_new_Undef ww h :
  RawHandleWrapper.new ww h = Undef ↔ h !! ptr (reference ww) = None.
Proof.
  unfold RawHandleWrapper.new. by rewrite exec_bind_mret_Undef, clone_Undef.
Qed.

(** *** [clone] and [get_handle] *)

Lemma RawHandleWrapper_clone_Done rhw h c :
  h !! RawHandleWrapper_ptr rhw = Some c → (strong c ≤ MAX_REFCOUNT)%Z →
  RawHandleWrapper.clone rhw h =
    Done (rhw, <[RawHandleWrapper_ptr rhw :=
                   {| strong := usize_wrap (strong c + 1); data := data c |}]> h).
Proof.
  intros Hc Hle. unfold RawHandleWrapper.clone. exec_unfold.
  rewrite (clone_Done _ _ _ Hc Hle). by destruct rhw as [[]].
Qed.

Lemma RawHandleWrapper_clone_inv rhw h rhw' h' :
  RawHandleWrapper.clone rhw h = Done (rhw', h') →
  ∃ c, h !! RawHandleWrapper_ptr rhw = Some c ∧ (strong c ≤ MAX_REFCOUNT)%Z ∧
       rhw' = rhw ∧
       h' = <[RawHandleWrapper_ptr rhw :=
                {| strong := usize_wrap (strong c + 1); data := data c |}]> h.
Proof.
  unfold RawHandleWrapper.clone.
  intros (a & h1 & (c & Hc & Hle & -> & ->)%clone_inv & [= <- <-])%exec_bind_Done.
  exists c. split_and!; [done..|by destruct rhw as [[]]|done].
Qed.

Lemma RawHandleWrapper_clone_Undef rhw h :
  RawHandleWrapper.clone rhw h = Undef ↔ h !! RawHandleWrapper_ptr rhw = None.
Proof.
  unfold RawHandleWrapper.clone. by rewrite exec_bind_mret_Undef, clone_Undef.
Qed.

Lemma RawHandleWrapper_clone_Abort rhw h :
  RawHandleWrapper.clone rhw h = Abort ↔
  ∃ c, h !! RawHandleWrapper_ptr rhw = Some c ∧ (strong c > MAX_REFCOUNT)%Z.
Proof.
  unfold RawHandleWrapper.clone. by rewrite exec_bind_mret_Abort, clone_Abort_iff.
Qed.

(** [get_handle] never fails on a live capsule below the abort bound: the
    gate is not a run-time check.  The accessor wraps a clone of the
    capsule, so it holds a reference of its own. *)
Lemma RawHandleWrapper_get_handle_Done rhw h c :
  h !! RawHandleWrapper_ptr rhw = Some c → (strong c ≤ MAX_REFCOUNT)%Z →
  RawHandleWrapper.get_handle rhw h =
    Done ({| _0 := rhw |},
          <[RawHandleWrapper_ptr rhw :=
              {| strong := usize_wrap (strong c + 1); data := data c |}]> h).
Proof.
  intros Hc Hle. unfold RawHandleWrapper.get_handle. exec_unfold.
  by rewrite (RawHandleWrapper_clone_Done _ _ _ Hc Hle).
Qed.

Lemma RawHandleWrapper_get_handle_inv rhw h t h' :
  RawHandleWrapper.get_handle rhw h = Done (t, h') →
  t = {| _0 := rhw |} ∧ RawHandleWrapper.clone rhw h = Done (rhw, h').
Proof.
  unfold RawHandleWrapper.get_handle.
  intros (c & h1 & Hclone & [= <- <-])%exec_bind_Done.
  by destruct (RawHandleWrapper_clone_inv _ _ _ _ Hclone) as (? & _ & _ & -> & _).
Qed.

(** Building, cloning and gating a capsule leave the data of the heap as
    it is: no window is created, copied or destroyed. *)
Lemma RawHandleWrapper_new_live ww h r h' :
  RawHandleWrapper.new ww h = Done (r, h') →
  map_values data h' ≡ₚ map_values data h.
Proof.
  intros (c & Hl & _ & _ & ->)%RawHandleWrapper_new_inv.
  by rewrite (map_values_insert_same _ _ _ _ _ Hl).
Qed.

Lemma RawHandleWrapper_clone_live rhw h rhw' h' :
  RawHandleWrapper.clone rhw h = Done (rhw', h') →
  map_values data h' ≡ₚ map_values data h.
Proof.
  intros (c & Hl & _ & _ & ->)%RawHandleWrapper_clone_inv.
  by rewrite (map_values_insert_same _ _ _ _ _ Hl).
Qed.

Lemma RawHandleWrapper_get_handle_live rhw h a h' :
  RawHandleWrapper.get_handle rhw h = Done (a, h') →
  map_values data h' ≡ₚ map_values data h.
Proof.
  intros [_ Hcl]%RawHandleWrapper_get_handle_inv.
  by eapply RawHandleWrapper_clone_live.
Qed.

(** No operation of the capsule writes to a window. *)
Lemma RawHandleWrapper_new_data_kept ww h r h' :
  RawHandleWrapper.new ww h = Done (r, h') → data_kept h h'.
Proof.
  intros (c & Hl & _ & _ & ->)%RawHandleWrapper_new_inv. by eapply data_kept_update.
Qed.

Lemma RawHandleWrapper_clone_data_kept rhw h c h' :
  RawHandleWrapper.clone rhw h = Done (c, h') → data_kept h h'.
Proof.
  intros (c' & Hl & _ & _ & ->)%RawHandleWrapper_clone_inv.
  by eapply data_kept_update.
Qed.

Lemma RawHandleWrapper_get_handle_data_kept rhw h a h' :
  RawHandleWrapper.get_handle rhw h = Done (a, h') → data_kept h h'.
Proof.
  intros [_ Hc]%RawHandleWrapper_get_handle_inv.
  by eapply RawHandleWrapper_clone_data_kept.
Qed.

Lemma RawHandleWrapper_get_handle_Undef rhw h :
  RawHandleWrapper.get_handle rhw h = Undef ↔ h !! RawHandleWrapper_ptr rhw = None.
Proof.
  unfold RawHandleWrapper.get_handle.
  by rewrite exec_bind_mret_Undef, RawHandleWrapper_clone_Undef.
Qed.

Lemma RawHandleWrapper_get_handle_Abort rhw h :
  RawHandleWrapper.get_handle rhw h = Abort ↔
  ∃ c, h !! RawHandleWrapper_ptr rhw = Some c ∧ (strong c > MAX_REFCOUNT)%Z.
Proof.
  unfold RawHandleWrapper.get_handle.
  by rewrite exec_bind_mret_Abort, RawHandleWrapper_clone_Abort.
Qed.

(** *** Specifications *)

(** [new] shares the holder's window: one more handle of the same cell,
    the windows as they were, and the result is [Ok]. *)
Lemma RawHandleWrapper_new_triple M (Γ : gmap loc W) ww :
  ⦃ λ h, (0 < multiplicity (ptr (reference ww)) M ∧
          (Z.of_nat (multiplicity (ptr (reference ww)) M) ≤ MAX_REFCOUNT)%Z) ∧
         heap_is M Γ h ⦄
    RawHandleWrapper.new ww
  ⦃ r, λ h, r = Ok {| window := unsize (reference ww) |} ∧
            heap_is ({[+ ptr (reference ww) +]} ⊎ M) Γ h ⦄.
Proof.
  unfold RawHandleWrapper.new. eapply triple_bind; [apply clone_triple|].
  intros a. apply triple_ret. by intros h [-> ?].
Qed.

Lemma RawHandleWrapper_clone_triple M (Γ : gmap loc W) rhw :
  ⦃ λ h, (0 < multiplicity (RawHandleWrapper_ptr rhw) M ∧
          (Z.of_nat (multiplicity (RawHandleWrapper_ptr rhw) M) ≤ MAX_REFCOUNT)%Z) ∧
         heap_is M Γ h ⦄
    RawHandleWrapper.clone rhw
  ⦃ c, λ h, c = rhw ∧ heap_is ({[+ RawHandleWrapper_ptr rhw +]} ⊎ M) Γ h ⦄.
Proof.
  unfold RawHandleWrapper.clone. eapply triple_bind; [apply clone_triple|].
  intros a. apply triple_ret. intros h [-> ?]. by destruct rhw as [[]].
Qed.

(** [get_handle] makes an accessor of the same window, with a handle of
    its own. *)
Lemma RawHandleWrapper_get_handle_triple M (Γ : gmap loc W) rhw :
  ⦃ λ h, (0 < multiplicity (RawHandleWrapper_ptr rhw) M ∧
          (Z.of_nat (multiplicity (RawHandleWrapper_ptr rhw) M) ≤ MAX_REFCOUNT)%Z) ∧
         heap_is M Γ h ⦄
    RawHandleWrapper.get_handle rhw
  ⦃ a, λ h, a = {| _0 := rhw |} ∧
            heap_is ({[+ RawHandleWrapper_ptr rhw +]} ⊎ M) Γ h ⦄.
Proof.
  unfold RawHandleWrapper.get_handle.
  eapply triple_bind; [apply RawHandleWrapper_clone_triple|].
  intros c. apply triple_ret. by intros h [-> ?].
Qed.

Lemma RawHandleWrapper_drop_triple M (Γ : gmap loc W) rhw :
  ⦃ heap_is ({[+ RawHandleWrapper_ptr rhw +]} ⊎ M) Γ ⦄ RawHandleWrapper.drop rhw
  ⦃ o, λ h, if decide (multiplicity (RawHandleWrapper_ptr rhw) M = 0)
            then is_Some o ∧ o = Γ !! RawHandleWrapper_ptr rhw ∧
                 heap_is M (delete (RawHandleWrapper_ptr rhw) Γ) h
            else o = None ∧ heap_is M Γ h ⦄.
Proof. apply drop_triple. Qed.

(** *** The operations in full *)

(** [new], from a holder whose cell is below the bound of the counter,
    returns [Ok] of a capsule of the holder's window with a handle of its
    own; it aborts exactly when the counter is above [MAX_REFCOUNT], and
    is undefined exactly on a freed cell. *)
Theorem RawHandleWrapper_new_behaviour M (Γ : gmap loc W) ww :
  ⦃ λ h, (0 < multiplicity (ptr (reference ww)) M ∧
          (Z.of_nat (multiplicity (ptr (reference ww)) M) ≤ MAX_REFCOUNT)%Z) ∧
         heap_is M Γ h ⦄
    RawHandleWrapper.new ww
  ⦃ r, λ h, r = Ok {| window := unsize (reference ww) |} ∧
            heap_is ({[+ ptr (reference ww) +]} ⊎ M) Γ h ⦄ ∧
  ∀ h, (RawHandleWrapper.new ww h = Abort ↔
        ∃ c, h !! ptr (reference ww) = Some c ∧ (strong c > MAX_REFCOUNT)%Z) ∧
       (RawHandleWrapper.new ww h = Undef ↔ h !! ptr (reference ww) = None).
Proof.
  split; [apply RawHandleWrapper_new_triple|]. intros h.
  split; [apply RawHandleWrapper_new_Abort|apply RawHandleWrapper_new_Undef].
Qed.

(** The derived [clone] returns a capsule equal to the original, with a
    handle of its own, under the same conditions. *)
Theorem RawHandleWrapper_clone_behaviour M (Γ : gmap loc W) rhw :
  ⦃ λ h, (0 < multiplicity (RawHandleWrapper_ptr rhw) M ∧
          (Z.of_nat (multiplicity (RawHandleWrapper_ptr rhw) M) ≤ MAX_REFCOUNT)%Z) ∧
         heap_is M Γ h ⦄
    RawHandleWrapper.clone rhw
  ⦃ c, λ h, c = rhw ∧ heap_is ({[+ RawHandleWrapper_ptr rhw +]} ⊎ M) Γ h ⦄ ∧
  ∀ h, (RawHandleWrapper.clone rhw h = Abort ↔
        ∃ c, h !! RawHandleWrapper_ptr rhw = Some c ∧ (strong c > MAX_REFCOUNT)%Z) ∧
       (RawHandleWrapper.clone rhw h = Undef ↔ h !! RawHandleWrapper_ptr rhw = None).
Proof.
  split; [apply RawHandleWrapper_clone_triple|]. intros h.
  split; [apply RawHandleWrapper_clone_Abort|apply RawHandleWrapper_clone_Undef].
Qed.

(** C36: [get_handle] returns an accessor that wraps the capsule and holds a
    handle of its own; it has no other condition than [clone]'s: the gate
    checks nothing when the program runs. *)
Theorem RawHandleWrapper_get_handle_behaviour M (Γ : gmap loc W) rhw :
  ⦃ λ h, (0 < multiplicity (RawHandleWrapper_ptr rhw) M ∧
          (Z.of_nat (multiplicity (RawHandleWrapper_ptr rhw) M) ≤ MAX_REFCOUNT)%Z) ∧
         heap_is M Γ h ⦄
    RawHandleWrapper.get_handle rhw
  ⦃ a, λ h, a = {| _0 := rhw |} ∧
            heap_is ({[+ RawHandleWrapper_ptr rhw +]} ⊎ M) Γ h ⦄ ∧
  ∀ h, (RawHandleWrapper.get_handle rhw h = Abort ↔
        ∃ c, h !! RawHandleWrapper_ptr rhw = Some c ∧ (strong c > MAX_REFCOUNT)%Z) ∧
       (RawHandleWrapper.get_handle rhw h = Undef ↔
        h !! RawHandleWrapper_ptr rhw = None).
Proof.
  split; [apply RawHandleWrapper_get_handle_triple|]. intros h.
  split; [apply RawHandleWrapper_get_handle_Abort|apply RawHandleWrapper_get_handle_Undef].
Qed.

End facts.

(** *** [fmt] *)

Section fmt_facts.
Context {W : Type}.
Local Open Scope string_scope.

(** [fmt] never reads the capsule. *)
Lemma RawHandleWrapper_fmt_opaque {S} `{!Write S} (self self' : RawHandleWrapper W)
    (f : Formatter S) :
  RawHandleWrapper.fmt self f = RawHandleWrapper.fmt self' f.
Proof. done. Qed.

(** With every lawful writer, [fmt] does what one write of the fixed
    text does, whatever the capsule and whatever the [alternate] flag. *)
Lemma RawHandleWrapper_fmt_writes {S} `{!Write S, !WriteLaws S}
    (self : RawHandleWrapper W) (f : Formatter S) :
  ok (RawHandleWrapper.fmt self f) = ok (write_str "RawHandleWrapper { .. }" f).
Proof.
  unfold RawHandleWrapper.fmt.
  rewrite ok_finish_non_exhaustive, ds_ok_debug_struct, has_fields_debug_struct.
  by rewrite (write_str_app "RawHandleWrapper" " { .. }").
Qed.

(** C25: What [fmt] does on every sink: it writes the name of the type and
    [ { .. }] when the sink takes the 23 characters; when the sink takes
    the name and not the rest, the name stays written and the result is
    the error; when it does not take the name, nothing is written. *)
Theorem RawHandleWrapper_fmt_spec (self : RawHandleWrapper W) (f : Formatter Sink) :
  RawHandleWrapper.fmt self f =
    let written s n :=
      {| buf := {| out := out (buf f) +:+ s; room := n |}; alternate := alternate f |} in
    match room (buf f) with
    | None => (Ok (), written "RawHandleWrapper { .. }" None)
    | Some n =>
        if bool_decide (23 ≤ n)%nat
        then (Ok (), written "RawHandleWrapper { .. }" (Some (n - 23)))
        else if bool_decide (16 ≤ n)%nat
        then (Err Error, written "RawHandleWrapper" (Some (n - 16)))
        else (Err Error, f)
    end.
Proof.
  destruct f as [[o [n|]] alt];
    unfold RawHandleWrapper.fmt, debug_struct, finish_non_exhaustive, result_and_then,
      write_str, Formatter_Write, write_str, Sink_Write; simpl;
    [|by rewrite append_assoc].
  repeat case_bool_decide; try lia; simpl; repeat case_bool_decide; try lia; try done.
  simpl. rewrite append_assoc. do 4 f_equal. lia.
Qed.

End fmt_facts.

(** The text of the [Debug] implementation. *)
#[export] Instance RawHandleWrapper_DebugLaws {W} : DebugLaws (RawHandleWrapper W) := {|
  debug_text _ _ := "RawHandleWrapper { .. }"%string;
  fmt_writes S _ _ := RawHandleWrapper_fmt_writes;
|}.

(** ** On a concrete capsule *)

Example RawHandleWrapper_fmt_pretty :
  RawHandleWrapper.fmt (W:=StubWindow) {| window := unsize {| ptr := 1%positive |} |}
    (empty_formatter true)
  = (Ok (), {| buf := {| out := "RawHandleWrapper { .. }"; room := None |};
               alternate := true |}).
Proof. reflexivity. Qed.
