(* ===== verification/Accessor.v ===== *)
(** * The thread-gated accessor [ThreadLockedRawWindowHandleWrapper]

    raw_handle.rs, lines 87-118: the tuple struct around a capsule (declared
    in [Capsule]) and its implementations of [HasWindowHandle] and
    [HasDisplayHandle], which call the method of the erased window through
    the capsule's [Arc].  The methods read the heap, so they are
    computations in [exec]; they are undefined on a freed cell.  The two
    [impl] blocks are instances of the traits for values that refer to a
    heap. *)

From S2P Require Import Prelude RawWindowHandle Sync Holder Capsule.

(** The cell an accessor refers to. *)
Definition ThreadLocked_ptr {W} (self : ThreadLockedRawWindowHandleWrapper W) : loc :=
  RawHandleWrapper_ptr (_0 self).

Module ThreadLockedRawWindowHandleWrapper.
Section impl.
Context {W : Type}.

(** [fn window_handle(&self) -> Result<WindowHandle, HandleError>]:
    [self.0.window.window_handle()] *)
Definition window_handle (self : ThreadLockedRawWindowHandleWrapper W)
    : exec (heap W) (Result WindowHandle HandleError) :=
  w ← Arc.deref (dyn_ptr (window (_0 self)));
  mret (vt_window_handle (dyn_vtable (window (_0 self))) w).

(** [fn display_handle(&self) -> Result<DisplayHandle, HandleError>]:
    [self.0.window.display_handle()] *)
Definition display_handle (self : ThreadLockedRawWindowHandleWrapper W)
    : exec (heap W) (Result DisplayHandle HandleError) :=
  w ← Arc.deref (dyn_ptr (window (_0 self)));
  mret (vt_display_handle (dyn_vtable (window (_0 self))) w).

(** The drop glue of the struct: drop the capsule. *)
Definition drop (self : ThreadLockedRawWindowHandleWrapper W)
    : exec (heap W) (option W) :=
  RawHandleWrapper.drop (_0 self).

End impl.
End ThreadLockedRawWindowHandleWrapper.

(** [impl HasWindowHandle for ThreadLockedRawWindowHandleWrapper] and
    [impl HasDisplayHandle for ThreadLockedRawWindowHandleWrapper]: the
    accessor is a value of the capability set, in the heap of its window. *)
#[export] Instance ThreadLocked_HasWindowHandle {W}
    : HasWindowHandleIn (heap W) (ThreadLockedRawWindowHandleWrapper W) :=
  ThreadLockedRawWindowHandleWrapper.window_handle.

#[export] Instance ThreadLocked_HasDisplayHandle {W}
    : HasDisplayHandleIn (heap W) (ThreadLockedRawWindowHandleWrapper W) :=
  ThreadLockedRawWindowHandleWrapper.display_handle.

(** The path of a window through the three components, as the program's
    clients compose them: wrap, derive a capsule, pass the gate, ask for
    both handles. *)
Definition handles_of_window {W} `{!HasWindowHandle W, !HasDisplayHandle W}
    (w : W)
    : exec (heap W) (Result (Result WindowHandle HandleError *
                             Result DisplayHandle HandleError) HandleError) :=
  ww ← WindowWrapper.new w;
  r ← RawHandleWrapper.new ww;
  match r with
  | Err e => mret (Err e)
  | Ok rhw =>
      t ← RawHandleWrapper.get_handle rhw;
      wh ← ThreadLockedRawWindowHandleWrapper.window_handle t;
      dh ← ThreadLockedRawWindowHandleWrapper.display_handle t;
      mret (Ok (wh, dh))
  end.

(** ** Behaviour of the accessor *)

Section facts.
Context {W : Type}.
Implicit Types (h : heap W) (t : ThreadLockedRawWindowHandleWrapper W).

(** On a live cell the two methods return what the method table says of the
    cell's data, and leave the heap alone. *)
Lemma window_handle_Done t h c :
  h !! ThreadLocked_ptr t = Some c →
  ThreadLockedRawWindowHandleWrapper.window_handle t h =
    Done (vt_window_handle (dyn_vtable (window (_0 t))) (data c), h).
Proof.
  intros Hc. unfold ThreadLockedRawWindowHandleWrapper.window_handle.
  exec_unfold. by rewrite (deref_Done _ _ _ Hc).
Qed.

Lemma display_handle_Done t h c :
  h !! ThreadLocked_ptr t = Some c →
  ThreadLockedRawWindowHandleWrapper.display_handle t h =
    Done (vt_display_handle (dyn_vtable (window (_0 t))) (data c), h).
Proof.
  intros Hc. unfold ThreadLockedRawWindowHandleWrapper.display_handle.
  exec_unfold. by rewrite (deref_Done _ _ _ Hc).
Qed.

(** They are undefined exactly when the cell has been freed, and never
    abort. *)
Lemma window_handle_Undef t h :
  ThreadLockedRawWindowHandleWrapper.window_handle t h = Undef ↔
  h !! ThreadLocked_ptr t = None.
Proof.
  unfold ThreadLockedRawWindowHandleWrapper.window_handle.
  by rewrite exec_bind_mret_Undef, deref_Undef.
Qed.

Lemma display_handle_Undef t h :
  ThreadLockedRawWindowHandleWrapper.display_handle t h = Undef ↔
  h !! ThreadLocked_ptr t = None.
Proof.
  unfold ThreadLockedRawWindowHandleWrapper.display_handle.
  by rewrite exec_bind_mret_Undef, deref_Undef.
Qed.

Lemma window_handle_not_Abort t h :
  ThreadLockedRawWindowHandleWrapper.window_handle t h ≠ Abort.
Proof.
  unfold ThreadLockedRawWindowHandleWrapper.window_handle.
  rewrite exec_bind_mret_Abort. apply deref_not_Abort.
Qed.

Lemma display_handle_not_Abort t h :
  ThreadLockedRawWindowHandleWrapper.display_handle t h ≠ Abort.
Proof.
  unfold ThreadLockedRawWindowHandleWrapper.display_handle.
  rewrite exec_bind_mret_Abort. apply deref_not_Abort.
Qed.

Lemma window_handle_inv t h r h' :
  ThreadLockedRawWindowHandleWrapper.window_handle t h = Done (r, h') →
  h' = h ∧ ∃ c, h !! ThreadLocked_ptr t = Some c ∧
                r = vt_window_handle (dyn_vtable (window (_0 t))) (data c).
Proof.
  unfold ThreadLockedRawWindowHandleWrapper.window_handle.
  intros (w & h1 & (-> & c & Hc & ->)%deref_inv & [= <- <-])%exec_bind_Done.
  eauto.
Qed.

Lemma display_handle_inv t h r h' :
  ThreadLockedRawWindowHandleWrapper.display_handle t h = Done (r, h') →
  h' = h ∧ ∃ c, h !! ThreadLocked_ptr t = Some c ∧
                r = vt_display_handle (dyn_vtable (window (_0 t))) (data c).
Proof.
  unfold ThreadLockedRawWindowHandleWrapper.display_handle.
  intros (w & h1 & (-> & c & Hc & ->)%deref_inv & [= <- <-])%exec_bind_Done.
  eauto.
Qed.

(** *** Specifications *)

(** The two methods answer with what the table of the erased type answers
    on the window of the cell, and change nothing. *)
Lemma window_handle_triple M (Γ : gmap loc W) t w :
  ⦃ λ h, Γ !! ThreadLocked_ptr t = Some w ∧ heap_is M Γ h ⦄
    ThreadLockedRawWindowHandleWrapper.window_handle t
  ⦃ r, λ h, r = vt_window_handle (dyn_vtable (window (_0 t))) w ∧ heap_is M Γ h ⦄.
Proof.
  unfold ThreadLockedRawWindowHandleWrapper.window_handle.
  eapply triple_bind; [apply deref_triple|].
  intros w'. apply triple_ret. by intros h [-> ?].
Qed.

Lemma display_handle_triple M (Γ : gmap loc W) t w :
  ⦃ λ h, Γ !! ThreadLocked_ptr t = Some w ∧ heap_is M Γ h ⦄
    ThreadLockedRawWindowHandleWrapper.display_handle t
  ⦃ r, λ h, r = vt_display_handle (dyn_vtable (window (_0 t))) w ∧ heap_is M Γ h ⦄.
Proof.
  unfold ThreadLockedRawWindowHandleWrapper.display_handle.
  eapply triple_bind; [apply deref_triple|].
  intros w'. apply triple_ret. by intros h [-> ?].
Qed.

(** *** The operations in full *)

(** [window_handle] and [display_handle] return what the methods of the
    erased type return on the window of the accessor's cell, a handle or
    an error, and change nothing; each is undefined exactly on a freed
    cell and neither aborts. *)
Theorem accessor_handles_behaviour M (Γ : gmap loc W) t w :
  (⦃ λ h, Γ !! ThreadLocked_ptr t = Some w ∧ heap_is M Γ h ⦄
     ThreadLockedRawWindowHandleWrapper.window_handle t
   ⦃ r, λ h, r = vt_window_handle (dyn_vtable (window (_0 t))) w ∧ heap_is M Γ h ⦄) ∧
  (⦃ λ h, Γ !! ThreadLocked_ptr t = Some w ∧ heap_is M Γ h ⦄
     ThreadLockedRawWindowHandleWrapper.display_handle t
   ⦃ r, λ h, r = vt_display_handle (dyn_vtable (window (_0 t))) w ∧ heap_is M Γ h ⦄) ∧
  ∀ h, (ThreadLockedRawWindowHandleWrapper.window_handle t h = Undef ↔
        h !! ThreadLocked_ptr t = None) ∧
       (ThreadLockedRawWindowHandleWrapper.display_handle t h = Undef ↔
        h !! ThreadLocked_ptr t = None) ∧
       ThreadLockedRawWindowHandleWrapper.window_handle t h ≠ Abort ∧
       ThreadLockedRawWindowHandleWrapper.display_handle t h ≠ Abort.
Proof.
  split; [apply window_handle_triple|]. split; [apply display_handle_triple|].
  intros h. split; [apply window_handle_Undef|].
  split; [apply display_handle_Undef|].
  split; [apply window_handle_not_Abort|apply display_handle_not_Abort].
Qed.

End facts.

(** ** The three components composed *)

Section pipeline.
Context {W : Type} `{!HasWindowHandle W, !HasDisplayHandle W}.
Implicit Types (h : heap W) (w : W).

(** C10: the accessor obtained from a window through holder, capsule and gate
    answers with exactly what the window's binding answers, on both
    methods, whether that is a handle or an error; the window's cell then
    has three strong references (holder, capsule, accessor). *)
Lemma handles_of_window_spec w h :
  ∃ l, h !! l = None ∧
    handles_of_window w h =
      Done (Ok (window_handle w, display_handle w),
            <[l := {| strong := 3; data := w |}]> h).
Proof.
  destruct (WindowWrapper_new_spec w h) as (ww & Hnew & Hfree).
  set (l := ptr (reference ww)) in *.
  exists l. split; [done|]. unfold handles_of_window. exec_unfold.
  rewrite Hnew.
  rewrite (RawHandleWrapper_new_Done ww _ {| strong := 1; data := w |})
    by (by rewrite ?lookup_insert_eq).
  simpl. rewrite insert_insert_eq.
  erewrite (RawHandleWrapper_get_handle_Done _ _ {| strong := 2; data := w |});
    [|by rewrite lookup_insert_eq|done].
  simpl. rewrite insert_insert_eq.
  erewrite window_handle_Done by (by rewrite lookup_insert_eq).
  erewrite display_handle_Done by (by rewrite lookup_insert_eq).
  done.
Qed.

(** With the heap seen as handles and windows: the pipeline allocates one
    window, leaves three handles of it, touches no other window, and
    returns the answers of the window's binding. *)
Theorem handles_of_window_triple M Γ w :
  ⦃ heap_is M Γ ⦄ handles_of_window w
  ⦃ r, λ h, r = Ok (window_handle w, display_handle w) ∧
            ∃ l, Γ !! l = None ∧
                 heap_is ({[+ l +]} ⊎ ({[+ l +]} ⊎ ({[+ l +]} ⊎ M))) (<[l := w]> Γ) h ⦄.
Proof.
  unfold handles_of_window.
  eapply triple_bind; [apply WindowWrapper_new_triple|]. intros ww.
  apply triple_pure. intros [Hfree Hfresh].
  eapply triple_bind.
  { eapply triple_consequence; [|apply RawHandleWrapper_new_triple|done].
    intros h Hh. split; [|exact Hh].
    rewrite multiplicity_disj_union, multiplicity_singleton_eq, Hfresh.
    unfold MAX_REFCOUNT. lia. }
  intros r. apply triple_pure. intros ->.
  eapply triple_bind.
  { eapply triple_consequence; [|apply RawHandleWrapper_get_handle_triple|done].
    intros h Hh. split; [|exact Hh]. unfold RawHandleWrapper_ptr. simpl.
    rewrite !multiplicity_disj_union, !multiplicity_singleton_eq, Hfresh.
    unfold MAX_REFCOUNT. lia. }
  intros t. apply triple_pure. intros ->. unfold RawHandleWrapper_ptr. simpl.
  eapply triple_bind.
  { eapply triple_consequence; [|eapply (window_handle_triple _ _ _ w)|done].
    intros h Hh. split; [|exact Hh]. apply lookup_insert_eq. }
  intros wh. apply triple_pure. intros ->.
  eapply triple_bind.
  { eapply triple_consequence; [|eapply (display_handle_triple _ _ _ w)|done].
    intros h Hh. split; [|exact Hh]. apply lookup_insert_eq. }
  intros dh. apply triple_pure. intros ->.
  apply triple_ret. intros h Hh. split; [done|]. by exists (ptr (reference ww)).
Qed.

End pipeline.
