(* ===== verification/Marker.v ===== *)
(** * The auto traits [Send] and [Sync]

    Whether a value may be moved to another thread ([Send]) or shared with
    one ([Sync]) is decided by the compiler from the declarations of the
    program: a struct has an auto trait when all its fields have it, unless
    the program implements the trait by hand.  raw_handle.rs declares three
    structs (lines 17-19, 47-49, 94), implements both traits for
    [RawHandleWrapper] by [unsafe impl] (lines 83 and 85), and bounds the
    constructor of [WindowWrapper] by [W: Send + Sync] (line 21).  The
    derived [Component] of [RawHandleWrapper] (line 46) needs both traits
    of the capsule: [Send + Sync + 'static] are the supertraits of
    [bevy_ecs]'s [Component].  The unsafe declarations are what the lint
    [unsafe_code] reports; line 1 allows them.

    The types of the program are syntax that carries the fields of each
    struct; the rule of the language is [implements]. *)

From S2P Require Import Prelude.

Inductive AutoTrait : Type := Send | Sync.

Inductive StructName : Type :=
| WindowWrapperS
| RawHandleWrapperS
| ThreadLockedRawWindowHandleWrapperS.

#[export] Instance AutoTrait_eq_dec : EqDecision AutoTrait.
Proof. solve_decision. Defined.
#[export] Instance StructName_eq_dec : EqDecision StructName.
Proof. solve_decision. Defined.

#[local] Set Warnings "-register-all".

Inductive Ty : Type :=
| TyParam (send sync : bool)
| TyDynWindowTrait
| TyRawPointer
| TyPhantomData (t : Ty)
| TyArc (t : Ty)
| TyStruct (name : StructName) (fields : list Ty).

(** ** The declarations of the program *)

(** [struct WindowWrapper<W> { reference: Arc<W> }] *)
Definition WindowWrapper_ty (w : Ty) : Ty :=
  TyStruct WindowWrapperS [TyArc w].

(** [struct RawHandleWrapper { window: Arc<dyn WindowTrait> }] *)
Definition RawHandleWrapper_ty : Ty :=
  TyStruct RawHandleWrapperS [TyArc TyDynWindowTrait].

(** [struct ThreadLockedRawWindowHandleWrapper(RawHandleWrapper);] *)
Definition ThreadLocked_ty : Ty :=
  TyStruct ThreadLockedRawWindowHandleWrapperS [RawHandleWrapper_ty].

(** [unsafe impl Send for RawHandleWrapper {}] *)
Definition unsafe_impl_Send (name : StructName) : bool :=
  match name with RawHandleWrapperS => true | _ => false end.

(** [unsafe impl Sync for RawHandleWrapper {}] *)
Definition unsafe_impl_Sync (name : StructName) : bool :=
  match name with RawHandleWrapperS => true | _ => false end.

(** The hand-written implementations of the file. *)
Definition code_impls (tr : AutoTrait) (name : StructName) : bool :=
  match tr with
  | Send => unsafe_impl_Send name
  | Sync => unsafe_impl_Sync name
  end.

(** A program with the same structs and no hand-written implementation. *)
Definition no_impls (tr : AutoTrait) (name : StructName) : bool := false.

(** ** The rule of the language *)

Section rule.
Context (impls : AutoTrait → StructName → bool).

(** - a type parameter has the traits its bounds give it;
    - a trait object has the auto traits it names: [dyn WindowTrait] names
      none, and neither supertrait of [WindowTrait] requires one;
    - a raw pointer has neither; [PhantomData<T>] has what [T] has;
    - [Arc<T>] is [Send] when [T] is [Send] and [Sync], and [Sync] under
      the same condition;
    - a struct has the trait when the program implements it, or when every
      field has it. *)
Fixpoint implements (tr : AutoTrait) (t : Ty) : bool :=
  match t with
  | TyParam send sync => match tr with Send => send | Sync => sync end
  | TyDynWindowTrait => false
  | TyRawPointer => false
  | TyPhantomData t' => implements tr t'
  | TyArc t' => implements Send t' && implements Sync t'
  | TyStruct name fields => impls tr name || forallb (implements tr) fields
  end.

End rule.

(** The bound [W: Send + Sync] of the [impl] block of [WindowWrapper::new]. *)
Definition WindowWrapper_new_bound (w : Ty) : bool :=
  implements code_impls Send w && implements code_impls Sync w.

(** The supertraits of [bevy_ecs::component::Component],
    [Send + Sync + 'static], as far as the auto traits go; that the
    capsule is ['static] is in [Static]. *)
Definition Component_bound (impls : AutoTrait → StructName → bool) (t : Ty) : bool :=
  implements impls Send t && implements impls Sync t.

(** [#[derive(Component)]] on [RawHandleWrapper] (line 46): the generated
    [impl Component for RawHandleWrapper] is accepted when the capsule
    meets the bound. *)
Definition RawHandleWrapper_derive_Component
    (impls : AutoTrait → StructName → bool) : bool :=
  Component_bound impls RawHandleWrapper_ty.

(** ** The lint [unsafe_code]

    The lint reports the unsafe declarations of a file: here the unsafe
    function [get_handle] (line 73) and the hand-written implementations
    of the auto traits.  The file opens by setting the lint to [allow]. *)
Inductive LintLevel : Type := Allow | Warn | Deny | Forbid.

Inductive UnsafeItem : Type :=
| UnsafeFn_get_handle
| UnsafeImpl (tr : AutoTrait) (name : StructName).

(** [#![allow(unsafe_code)]] *)
Definition unsafe_code : LintLevel := Allow.

Definition unsafe_items (impls : AutoTrait → StructName → bool) : list UnsafeItem :=
  UnsafeFn_get_handle ::
  (tr ← [Send; Sync];
   name ← [WindowWrapperS; RawHandleWrapperS; ThreadLockedRawWindowHandleWrapperS];
   if impls tr name then [UnsafeImpl tr name] else []).

(** A file is rejected when a lint at [deny] or [forbid] reports a
    declaration. *)
Definition lint_accepts (level : LintLevel) (items : list UnsafeItem) : bool :=
  match level with
  | Allow | Warn => true
  | Deny | Forbid => match items with [] => true | _ => false end
  end.

(** The accessor with a marker field [PhantomData<*mut ()>], the usual way
    to opt a struct out of both traits. *)
Definition ThreadLocked_pinned_ty : Ty :=
  TyStruct ThreadLockedRawWindowHandleWrapperS
    [RawHandleWrapper_ty; TyPhantomData TyRawPointer].

(** ** Induction on types

    [Ty] is nested in [list]: the induction principle carries the
    hypothesis for every field of a struct. *)

Section Ty_ind.
Context (Q : Ty → Prop).
Hypothesis HParam : ∀ send sync, Q (TyParam send sync).
Hypothesis HDyn : Q TyDynWindowTrait.
Hypothesis HRaw : Q TyRawPointer.
Hypothesis HPhantom : ∀ t, Q t → Q (TyPhantomData t).
Hypothesis HArc : ∀ t, Q t → Q (TyArc t).
Hypothesis HStruct : ∀ name fields, Forall Q fields → Q (TyStruct name fields).

Fixpoint Ty_fields_ind (t : Ty) : Q t :=
  match t with
  | TyParam send sync => HParam send sync
  | TyDynWindowTrait => HDyn
  | TyRawPointer => HRaw
  | TyPhantomData t' => HPhantom t' (Ty_fields_ind t')
  | TyArc t' => HArc t' (Ty_fields_ind t')
  | TyStruct name fields =>
      HStruct name fields
        ((fix go (fs : list Ty) : Forall Q fs :=
            match fs with
            | [] => Forall_nil Q
            | f :: fs' => Forall_cons Q f fs' (Ty_fields_ind f) (go fs')
            end) fields)
  end.

End Ty_ind.

(** ** The rule *)

(** Writing more implementations by hand never takes an auto trait away
    from a type. *)
Lemma implements_mono (impls impls' : AutoTrait → StructName → bool) tr t :
  (∀ tr' name, impls tr' name = true → impls' tr' name = true) →
  implements impls tr t = true → implements impls' tr t = true.
Proof.
  intros Himpl. revert tr.
  induction t as [send sync| | |t IH|t IH|name fields IH] using Ty_fields_ind;
    intros tr; simpl; try done.
  - apply IH.
  - rewrite !andb_true_iff. intros [??]. split; by apply IH.
  - rewrite !orb_true_iff, !forallb_forall. intros [?|Hall]; [left; by apply Himpl|].
    right. intros f Hf. rewrite list.Forall_forall in IH.
    apply IH; [by apply list_elem_of_In|by apply Hall].
Qed.

(** A struct with a field that lacks the trait has it only by a
    hand-written implementation. *)
Lemma implements_struct_field impls tr name fields f :
  f ∈ fields → implements impls tr f = false →
  implements impls tr (TyStruct name fields) = impls tr name.
Proof.
  intros Hf Hno. simpl. destruct (impls tr name); [done|]. simpl.
  apply not_true_is_false. rewrite forallb_forall. intros Hall.
  rewrite Hall in Hno; [done|]. by apply list_elem_of_In.
Qed.

(** ** What the compiler derives for the program *)

(** The holder is [Send] and [Sync] exactly when the window is both. *)
Lemma WindowWrapper_auto_traits tr send sync :
  implements code_impls tr (WindowWrapper_ty (TyParam send sync)) = send && sync.
Proof. by destruct tr, send, sync. Qed.

(** Every holder that [new] can build is [Send] and [Sync]. *)
Lemma WindowWrapper_new_bound_auto_traits tr send sync :
  WindowWrapper_new_bound (TyParam send sync) = true →
  implements code_impls tr (WindowWrapper_ty (TyParam send sync)) = true.
Proof. rewrite WindowWrapper_auto_traits. by intros ?. Qed.

(** The capsule is [Send] and [Sync]: by the two [unsafe impl]s. *)
Lemma RawHandleWrapper_auto_traits tr :
  implements code_impls tr RawHandleWrapper_ty = true.
Proof. by destruct tr. Qed.

(** Without them it would be neither: the erased window is behind an
    [Arc<dyn WindowTrait>], and the trait object promises no auto trait. *)
Lemma RawHandleWrapper_needs_unsafe_impl tr :
  implements no_impls tr RawHandleWrapper_ty = false.
Proof. by destruct tr. Qed.

(** The derived [Component] of the capsule is accepted exactly when
    both auto traits are implemented for the capsule by hand, as the file
    does: with either [unsafe impl] removed the file does not compile. *)
Theorem derive_Component_needs_unsafe_impls :
  (∀ impls, RawHandleWrapper_derive_Component impls =
              impls Send RawHandleWrapperS && impls Sync RawHandleWrapperS) ∧
  RawHandleWrapper_derive_Component code_impls = true.
Proof.
  split; [|done]. intros impls.
  unfold RawHandleWrapper_derive_Component, Component_bound. simpl.
  by rewrite !orb_false_r.
Qed.


(** With a raw-pointer marker field the accessor would have neither trait,
    and the capsule would keep both. *)
Lemma ThreadLocked_pinned_auto_traits tr :
  implements code_impls tr ThreadLocked_pinned_ty = false ∧
  implements code_impls tr RawHandleWrapper_ty = true.
Proof. by destruct tr. Qed.

(** Whatever is implemented by hand, an accessor has every auto trait its
    capsule has: nothing in the declaration of the accessor confines it to
    a thread. *)
Theorem accessor_inherits_capsule_traits impls tr :
  implements impls tr RawHandleWrapper_ty = true →
  implements impls tr ThreadLocked_ty = true.
Proof.
  intros Hc. unfold ThreadLocked_ty.
  change (impls tr ThreadLockedRawWindowHandleWrapperS
          || (implements impls tr RawHandleWrapper_ty && true) = true).
  rewrite Hc. apply orb_true_r.
Qed.

(** Adding implementations to those of the program keeps the capsule and
    the accessor [Send] and [Sync]. *)
Theorem auto_traits_monotone impls tr t :
  (∀ tr' name, code_impls tr' name = true → impls tr' name = true) →
  implements code_impls tr t = true → implements impls tr t = true.
Proof. apply implements_mono. Qed.

(** The lint reports three declarations of the file, which is accepted
    at the level it sets and at no level that rejects. *)
Lemma unsafe_code_allowed :
  unsafe_items code_impls =
    [UnsafeFn_get_handle; UnsafeImpl Send RawHandleWrapperS;
     UnsafeImpl Sync RawHandleWrapperS] ∧
  ∀ level, lint_accepts level (unsafe_items code_impls) = true ↔
           level = unsafe_code ∨ level = Warn.
Proof. split; [done|]. intros []; simpl; split; intros; by intuition. Qed.

(** ** On a concrete window type *)

Lemma accessor_inherits_capsule_traits_witness :
  implements code_impls Send ThreadLocked_ty = true.
Proof. by apply (accessor_inherits_capsule_traits code_impls Send). Defined.

Lemma auto_traits_monotone_witness :
  implements (λ _ _, true) Send RawHandleWrapper_ty = true.
Proof. by apply (auto_traits_monotone (λ _ _, true) Send RawHandleWrapper_ty). Defined.

Lemma WindowWrapper_new_bound_auto_traits_witness :
  implements code_impls Sync (WindowWrapper_ty (TyParam true true)) = true.
Proof. by apply (WindowWrapper_new_bound_auto_traits Sync true true). Defined.
