(* ===== verification/Machine.v ===== *)
(** * The most general client

    The program is a library: what it guarantees is about every client that
    the compiler accepts.  A client is a set of threads; each owns values of
    the three types in variables and issues the operations of the library
    one at a time, in any interleaving.  An [Event] is one such operation,
    labelled with the thread that issues it.  [step] runs it on the world:
    it is refused ([None]) when the compiler would refuse it (the variable
    is unknown, of the wrong type, owned by another thread and not shared,
    moved without being [Send], or the target variable is taken), and
    otherwise has an [outcome].  Values never alias a variable: a move
    changes the owner, a clone makes a new value with a reference of its
    own, as ownership in Rust has it.

    What the compiler allows across threads is a [Policy];
    [derived_policy] is the one that follows from the declarations of the
    file by the rule of [Marker]. *)

From S2P Require Import Prelude RawWindowHandle Sync Holder Capsule Accessor Marker.

Definition tid : Type := nat.
Definition var : Type := nat.

(** ** Values, observations, worlds, events *)

Inductive Value (W : Type) : Type :=
| VWindowWrapper (ww : WindowWrapper W)
| VRawHandleWrapper (rhw : RawHandleWrapper W)
| VThreadLocked (a : ThreadLockedRawWindowHandleWrapper W).
Arguments VWindowWrapper {W} ww.
Arguments VRawHandleWrapper {W} rhw.
Arguments VThreadLocked {W} a.

(** What a thread got back from a call that returns data. *)
Inductive Obs (W : Type) : Type :=
| ObsDeref (t : tid) (w : W)
| ObsWindowHandle (t : tid) (r : Result WindowHandle HandleError)
| ObsDisplayHandle (t : tid) (r : Result DisplayHandle HandleError).
Arguments ObsDeref {W} t w.
Arguments ObsWindowHandle {W} t r.
Arguments ObsDisplayHandle {W} t r.

Record World (W : Type) : Type := {
  mem : heap W;
  vars : gmap var (tid * Value W);
  destroyed : list W;
  observed : list (Obs W);
}.
Arguments mem {W} _.
Arguments vars {W} _.
Arguments destroyed {W} _.
Arguments observed {W} _.

Inductive Event (W : Type) : Type :=
| EvNew (t : tid) (x : var) (w : W)
| EvDeref (t : tid) (x : var)
| EvCapsule (t : tid) (x y : var)
| EvClone (t : tid) (x y : var)
| EvGetHandle (t : tid) (x y : var)
| EvWindowHandle (t : tid) (x : var)
| EvDisplayHandle (t : tid) (x : var)
| EvDrop (t : tid) (x : var)
| EvSend (t : tid) (x : var) (t' : tid).
Arguments EvNew {W} t x w.
Arguments EvDeref {W} t x.
Arguments EvCapsule {W} t x y.
Arguments EvClone {W} t x y.
Arguments EvGetHandle {W} t x y.
Arguments EvWindowHandle {W} t x.
Arguments EvDisplayHandle {W} t x.
Arguments EvDrop {W} t x.
Arguments EvSend {W} t x t'.

(** What the compiler lets a client do across threads and at [new]. *)
Record Policy (W : Type) : Type := {
  may_send : Value W → bool;
  may_share : Value W → bool;
  may_new : bool;
}.
Arguments may_send {W} _ _.
Arguments may_share {W} _ _.
Arguments may_new {W} _.

(** The [Arc] inside a value, the cell it refers to, the value's type, and
    its drop glue. *)
Definition value_arc {W} (v : Value W) : Arc W :=
  match v with
  | VWindowWrapper ww => reference ww
  | VRawHandleWrapper rhw => dyn_ptr (window rhw)
  | VThreadLocked a => dyn_ptr (window (_0 a))
  end.

Definition value_ptr {W} (v : Value W) : loc :=
  match v with
  | VWindowWrapper ww => ptr (reference ww)
  | VRawHandleWrapper rhw => RawHandleWrapper_ptr rhw
  | VThreadLocked a => ThreadLocked_ptr a
  end.

Definition value_ty {W} (w : Ty) (v : Value W) : Ty :=
  match v with
  | VWindowWrapper _ => WindowWrapper_ty w
  | VRawHandleWrapper _ => RawHandleWrapper_ty
  | VThreadLocked _ => ThreadLocked_ty
  end.

Definition drop_value {W} (v : Value W) : exec (heap W) (option W) :=
  match v with
  | VWindowWrapper ww => WindowWrapper.drop ww
  | VRawHandleWrapper rhw => RawHandleWrapper.drop rhw
  | VThreadLocked a => ThreadLockedRawWindowHandleWrapper.drop a
  end.

(** The policy of the program: the auto traits the compiler derives, for a
    window type [w]. *)
Definition derived_policy {W} (w : Ty) : Policy W := {|
  may_send v := implements code_impls Send (value_ty w v);
  may_share v := implements code_impls Sync (value_ty w v);
  may_new := WindowWrapper_new_bound w;
|}.

Definition init {W} : World W :=
  {| mem := ∅; vars := ∅; destroyed := []; observed := [] |}.

(** The world a trace leads to from [init], [init] itself when the trace
    does not run to its end. *)
Definition world_of {W} (r : option (outcome (World W))) : World W :=
  match r with Some (Done σ) => σ | _ => init end.

(** ** The step function *)

Section step.
Context {W : Type} `{!HasWindowHandle W, !HasDisplayHandle W}.
Context (P : Policy W).
Implicit Types (σ : World W) (t : tid) (x y : var) (v : Value W) (h : heap W).

(** Run a heap computation in the world and build the next world from its
    result. *)
Definition with_heap {A} (c : exec (heap W) A) σ (k : A → heap W → World W)
    : outcome (World W) :=
  match c (mem σ) with
  | Done (a, h) => Done (k a h)
  | Abort => Abort
  | Undef => Undef
  end.

Definition bind_var x t v σ h : World W :=
  {| mem := h; vars := <[x := (t, v)]> (vars σ);
     destroyed := destroyed σ; observed := observed σ |}.

Definition observe (o : Obs W) σ h : World W :=
  {| mem := h; vars := vars σ;
     destroyed := destroyed σ; observed := o :: observed σ |}.

Definition unbind_var x (o : option W) σ h : World W :=
  {| mem := h; vars := delete x (vars σ);
     destroyed := option_list o ++ destroyed σ; observed := observed σ |}.

Definition set_heap σ h : World W :=
  {| mem := h; vars := vars σ;
     destroyed := destroyed σ; observed := observed σ |}.

(** The value of [x] as thread [t] may use it through [&x]: its own, or
    one whose type is [Sync]. *)
Definition borrow t x σ : option (Value W) :=
  '(o, v) ← vars σ !! x;
  if bool_decide (o = t) || may_share P v then Some v else None.

(** The value of [x] as thread [t] may move or drop it: its own. *)
Definition owned t x σ : option (Value W) :=
  '(o, v) ← vars σ !! x;
  if bool_decide (o = t) then Some v else None.

Definition is_free x σ : bool := bool_decide (vars σ !! x = None).

(** [let x = WindowWrapper::new(w);] *)
Definition step_new t x (w : W) σ : option (outcome (World W)) :=
  if may_new P && is_free x σ
  then Some (with_heap (WindowWrapper.new w) σ
               (λ ww, bind_var x t (VWindowWrapper ww) σ))
  else None.

(** [&*x] *)
Definition step_deref t x σ : option (outcome (World W)) :=
  match borrow t x σ with
  | Some (VWindowWrapper ww) =>
      Some (with_heap (WindowWrapper.deref ww) σ (λ w, observe (ObsDeref t w) σ))
  | _ => None
  end.

(** [if let Ok(y) = RawHandleWrapper::new(&x)] *)
Definition step_capsule t x y σ : option (outcome (World W)) :=
  match borrow t x σ with
  | Some (VWindowWrapper ww) =>
      if is_free y σ
      then Some (with_heap (RawHandleWrapper.new ww) σ
                   (λ r, match r with
                         | Ok rhw => bind_var y t (VRawHandleWrapper rhw) σ
                         | Err _ => set_heap σ
                         end))
      else None
  | _ => None
  end.

(** [let y = x.clone();] *)
Definition step_clone t x y σ : option (outcome (World W)) :=
  match borrow t x σ with
  | Some (VRawHandleWrapper rhw) =>
      if is_free y σ
      then Some (with_heap (RawHandleWrapper.clone rhw) σ
                   (λ c, bind_var y t (VRawHandleWrapper c) σ))
      else None
  | _ => None
  end.

(** [let y = unsafe { x.get_handle() };] *)
Definition step_get_handle t x y σ : option (outcome (World W)) :=
  match borrow t x σ with
  | Some (VRawHandleWrapper rhw) =>
      if is_free y σ
      then Some (with_heap (RawHandleWrapper.get_handle rhw) σ
                   (λ a, bind_var y t (VThreadLocked a) σ))
      else None
  | _ => None
  end.

(** [x.window_handle()] *)
Definition step_window_handle t x σ : option (outcome (World W)) :=
  match borrow t x σ with
  | Some (VThreadLocked a) =>
      Some (with_heap (ThreadLockedRawWindowHandleWrapper.window_handle a) σ
              (λ r, observe (ObsWindowHandle t r) σ))
  | _ => None
  end.

(** [x.display_handle()] *)
Definition step_display_handle t x σ : option (outcome (World W)) :=
  match borrow t x σ with
  | Some (VThreadLocked a) =>
      Some (with_heap (ThreadLockedRawWindowHandleWrapper.display_handle a) σ
              (λ r, observe (ObsDisplayHandle t r) σ))
  | _ => None
  end.

(** [drop(x)], or [x] going out of scope: the window's destructor runs
    when this was the last reference. *)
Definition step_drop t x σ : option (outcome (World W)) :=
  match owned t x σ with
  | Some v => Some (with_heap (drop_value v) σ (λ o, unbind_var x o σ))
  | None => None
  end.

(** [x] is moved to thread [t']. *)
Definition step_send t x t' σ : option (outcome (World W)) :=
  match owned t x σ with
  | Some v =>
      if may_send P v then Some (Done (bind_var x t' v σ (mem σ))) else None
  | None => None
  end.

Definition step (e : Event W) σ : option (outcome (World W)) :=
  match e with
  | EvNew t x w => step_new t x w σ
  | EvDeref t x => step_deref t x σ
  | EvCapsule t x y => step_capsule t x y σ
  | EvClone t x y => step_clone t x y σ
  | EvGetHandle t x y => step_get_handle t x y σ
  | EvWindowHandle t x => step_window_handle t x σ
  | EvDisplayHandle t x => step_display_handle t x σ
  | EvDrop t x => step_drop t x σ
  | EvSend t x t' => step_send t x t' σ
  end.

(** A world the client can be in. *)
Definition reachable σ : Prop := reachable_from step init σ.

(** ** The step relation *)

Inductive Step : World W → Event W → World W → Prop :=
| Step_new σ t x w ww h :
    may_new P = true → vars σ !! x = None →
    WindowWrapper.new w (mem σ) = Done (ww, h) →
    Step σ (EvNew t x w) (bind_var x t (VWindowWrapper ww) σ h)
| Step_deref σ t x ww w h :
    borrow t x σ = Some (VWindowWrapper ww) →
    WindowWrapper.deref ww (mem σ) = Done (w, h) →
    Step σ (EvDeref t x) (observe (ObsDeref t w) σ h)
| Step_capsule σ t x y ww rhw h :
    borrow t x σ = Some (VWindowWrapper ww) → vars σ !! y = None →
    RawHandleWrapper.new ww (mem σ) = Done (Ok rhw, h) →
    Step σ (EvCapsule t x y) (bind_var y t (VRawHandleWrapper rhw) σ h)
| Step_clone σ t x y rhw c h :
    borrow t x σ = Some (VRawHandleWrapper rhw) → vars σ !! y = None →
    RawHandleWrapper.clone rhw (mem σ) = Done (c, h) →
    Step σ (EvClone t x y) (bind_var y t (VRawHandleWrapper c) σ h)
| Step_get_handle σ t x y rhw a h :
    borrow t x σ = Some (VRawHandleWrapper rhw) → vars σ !! y = None →
    RawHandleWrapper.get_handle rhw (mem σ) = Done (a, h) →
    Step σ (EvGetHandle t x y) (bind_var y t (VThreadLocked a) σ h)
| Step_window_handle σ t x a r h :
    borrow t x σ = Some (VThreadLocked a) →
    ThreadLockedRawWindowHandleWrapper.window_handle a (mem σ) = Done (r, h) →
    Step σ (EvWindowHandle t x) (observe (ObsWindowHandle t r) σ h)
| Step_display_handle σ t x a r h :
    borrow t x σ = Some (VThreadLocked a) →
    ThreadLockedRawWindowHandleWrapper.display_handle a (mem σ) = Done (r, h) →
    Step σ (EvDisplayHandle t x) (observe (ObsDisplayHandle t r) σ h)
| Step_drop σ t x v o h :
    owned t x σ = Some v →
    drop_value v (mem σ) = Done (o, h) →
    Step σ (EvDrop t x) (unbind_var x o σ h)
| Step_send σ t x t' v :
    owned t x σ = Some v → may_send P v = true →
    Step σ (EvSend t x t') (bind_var x t' v σ (mem σ)).

End step.

(** ** A concrete client

    Windows are stubs, which are [Send] and [Sync]; the policy is the one
    the compiler derives.  The trace is the scenario of one window: a
    holder, a capsule of it, three clones of the capsule, then the holder
    and two of the clones dropped. *)

Definition stub_policy : Policy StubWindow := derived_policy (TyParam true true).

Definition scenario : list (Event StubWindow) :=
  [EvNew 0 0 (stub_ok 42); EvCapsule 0 0 1;
   EvClone 0 1 2; EvClone 0 1 3; EvClone 0 1 4;
   EvDrop 0 0; EvDrop 0 2; EvDrop 0 3].

Definition scenario_world : World StubWindow :=
  world_of (run (step stub_policy) scenario init).

(** Case analysis on a step, with one set of names for the rules: the
    thread [t], the variables [x] and [y], the holder [ww], the capsule
    [rhw], its clone [c], the accessor [acc], the dropped or moved value
    [v], the heap [h] after the call [Hop]. *)
Ltac Step_cases HS :=
  destruct HS as [σ t x w ww h Hnew Hx Hop | σ t x ww w h Hb Hop
                 | σ t x y ww rhw h Hb Hy Hop | σ t x y rhw c h Hb Hy Hop
                 | σ t x y rhw acc h Hb Hy Hop | σ t x acc r h Hb Hop
                 | σ t x acc r h Hb Hop | σ t x v o h Hx Hop | σ t x t' v Hx Hsend].

(** Unfold the step of each kind of event. *)
Ltac step_unfold :=
  unfold step_new, step_deref, step_capsule, step_clone, step_get_handle,
    step_window_handle, step_display_handle, step_drop, step_send in *.

(** ** The two presentations agree *)

Section facts.
Context {W : Type} `{!HasWindowHandle W, !HasDisplayHandle W}.
Context (P : Policy W).
Implicit Types (σ : World W) (t : tid) (x y : var) (v : Value W) (h : heap W).

Lemma with_heap_Done {A} (c : exec (heap W) A) σ k σ' :
  with_heap c σ k = Done σ' ↔ ∃ a h, c (mem σ) = Done (a, h) ∧ σ' = k a h.
Proof.
  unfold with_heap. destruct (c (mem σ)) as [[a h]| |]; split;
    first [ by intros [= <-]; eauto | by intros (? & ? & ? & ?); simplify_eq ].
Qed.

Lemma with_heap_Undef {A} (c : exec (heap W) A) σ k :
  with_heap c σ k = Undef ↔ c (mem σ) = Undef.
Proof. unfold with_heap. by destruct (c (mem σ)) as [[a h]| |]. Qed.

Lemma with_heap_Abort {A} (c : exec (heap W) A) σ k :
  with_heap c σ k = Abort ↔ c (mem σ) = Abort.
Proof. unfold with_heap. by destruct (c (mem σ)) as [[a h]| |]. Qed.

Lemma borrow_Some t x σ v :
  borrow P t x σ = Some v ↔
  ∃ o, vars σ !! x = Some (o, v) ∧ (o = t ∨ may_share P v = true).
Proof.
  unfold borrow. destruct (vars σ !! x) as [[o v']|]; simpl.
  - case_bool_decide; simpl; [|destruct (may_share P v') eqn:Hs]; split;
      first [ by intros [= <-]; eauto
            | intros (o0 & Heq & Hor); simplify_eq; destruct Hor; congruence
            | done ].
  - split; [done|]. by intros (? & ? & _).
Qed.

Lemma owned_Some t x σ v :
  owned t x σ = Some v ↔ vars σ !! x = Some (t, v).
Proof.
  unfold owned. destruct (vars σ !! x) as [[o v']|]; simpl; [|done].
  case_bool_decide; split; intros; simplify_eq; done.
Qed.

Lemma owned_borrow t x σ v : owned t x σ = Some v → borrow P t x σ = Some v.
Proof. rewrite owned_Some, borrow_Some. eauto. Qed.

Lemma is_free_true x σ : is_free x σ = true ↔ vars σ !! x = None.
Proof. unfold is_free. by rewrite bool_decide_eq_true. Qed.

(** The executable step and the step relation are the same transition
    system: an event takes a world to a next world by [step] exactly when
    a rule of [Step] says so. *)
Lemma step_Step e σ σ' : step P e σ = Some (Done σ') ↔ Step P σ e σ'.
Proof.
  split.
  - destruct e; simpl; intros Hs; step_unfold; repeat (case_match; simplify_eq/=);
      try (apply with_heap_Done in Hs as (r & h & Hc & ->));
      repeat match goal with
      | H : _ && _ = true |- _ => apply andb_true_iff in H as [??]
      | H : is_free _ _ = true |- _ => apply is_free_true in H
      end.
    + by econstructor.
    + by econstructor.
    + destruct r as [rhw|e].
      * by econstructor.
      * by apply RawHandleWrapper_new_inv in Hc as (? & _ & _ & [=] & _).
    + by econstructor.
    + by econstructor.
    + by econstructor.
    + by econstructor.
    + by econstructor.
    + by econstructor.
  - destruct 1; simpl; step_unfold;
      repeat match goal with
      | H : borrow _ _ _ _ = Some _ |- _ => rewrite H
      | H : owned _ _ _ = Some _ |- _ => rewrite H
      | H : may_new _ = true |- _ => rewrite H
      | H : may_send _ _ = true |- _ => rewrite H
      | H : vars _ !! _ = None |- _ => apply is_free_true in H; rewrite H
      end; simpl; try done; f_equal; apply with_heap_Done; eauto.
Qed.

Lemma value_arc_ptr v : ptr (value_arc v) = value_ptr v.
Proof. by destruct v. Qed.

Lemma drop_value_arc v : drop_value v = Arc.drop (value_arc v).
Proof. by destruct v. Qed.

Lemma drop_value_Undef v h : drop_value v h = Undef ↔ h !! value_ptr v = None.
Proof. by rewrite drop_value_arc, drop_Undef, value_arc_ptr. Qed.

Lemma drop_value_not_Abort v h : drop_value v h ≠ Abort.
Proof. rewrite drop_value_arc. apply drop_not_Abort. Qed.

(** The drop glue of the three types, in full: dropping a value gives up
    one handle of its cell; when it was the last the window of the cell
    is handed to its destructor and the cell is freed, otherwise nothing
    else changes.  A drop is undefined exactly on a freed cell and never
    aborts. *)
Theorem drop_value_behaviour M (Γ : gmap loc W) v :
  ⦃ heap_is ({[+ value_ptr v +]} ⊎ M) Γ ⦄ drop_value v
  ⦃ o, λ h, if decide (multiplicity (value_ptr v) M = 0)
            then is_Some o ∧ o = Γ !! value_ptr v ∧
                 heap_is M (delete (value_ptr v) Γ) h
            else o = None ∧ heap_is M Γ h ⦄ ∧
  ∀ h, (drop_value v h = Undef ↔ h !! value_ptr v = None) ∧ drop_value v h ≠ Abort.
Proof.
  split; [|intros h; split; [apply drop_value_Undef|apply drop_value_not_Abort]].
  rewrite drop_value_arc, <-value_arc_ptr. apply drop_triple.
Qed.

(** Split a hypothesis [step P e σ = r] into the cases of [e] that the
    compiler accepts. *)
Ltac step_inv Hs :=
  simpl in Hs; step_unfold;
  repeat (case_match; simplify_eq/=);
  repeat match goal with
  | H : owned _ _ _ = Some _ |- _ => apply owned_borrow in H
  end.

(** A step is undefined only on a variable whose cell is not allocated. *)
Lemma step_Undef_dangling e σ :
  step P e σ = Some Undef →
  ∃ t x v, borrow P t x σ = Some v ∧ mem σ !! value_ptr v = None.
Proof.
  intros Hs. destruct e; step_inv Hs;
    match goal with H : with_heap _ _ _ = Undef |- _ =>
      apply with_heap_Undef in H; revert H end;
    try (by intros ?%WindowWrapper_new_not_Undef);
    intros Hu; do 3 eexists; (split; [eassumption|]); simpl;
    first [ by apply WindowWrapper_deref_Undef
          | by apply RawHandleWrapper_new_Undef
          | by apply RawHandleWrapper_clone_Undef
          | by apply RawHandleWrapper_get_handle_Undef
          | by apply window_handle_Undef
          | by apply display_handle_Undef
          | by apply drop_value_Undef ].
Qed.

(** A step aborts only when it clones a cell whose counter is above
    [MAX_REFCOUNT]. *)
Lemma step_Abort_overflow e σ :
  step P e σ = Some Abort →
  ∃ t x v c, borrow P t x σ = Some v ∧ mem σ !! value_ptr v = Some c ∧
             (strong c > MAX_REFCOUNT)%Z.
Proof.
  intros Hs. destruct e; step_inv Hs;
    match goal with H : with_heap _ _ _ = Abort |- _ =>
      apply with_heap_Abort in H; revert H end;
    try (by intros ?%WindowWrapper_new_not_Abort);
    try (by intros ?%WindowWrapper_deref_not_Abort);
    try (by intros ?%window_handle_not_Abort);
    try (by intros ?%display_handle_not_Abort);
    try (by intros ?%drop_value_not_Abort);
    intros Ha;
    first [ apply RawHandleWrapper_new_Abort in Ha as (c & ? & ?)
          | apply RawHandleWrapper_clone_Abort in Ha as (c & ? & ?)
          | apply RawHandleWrapper_get_handle_Abort in Ha as (c & ? & ?) ];
    do 3 eexists; exists c; (split; [eassumption|]); by split.
Qed.

(** A trace that runs to its end reaches the world it computes. *)
Lemma reachable_world_of tr :
  is_Some (run (step P) tr init ≫= λ o, if o is Done σ then Some σ else None) →
  reachable P (world_of (run (step P) tr init)).
Proof.
  intros [σ Hσ]. exists tr. unfold reaches.
  by destruct (run (step P) tr init) as [[σ'| |]|].
Qed.

(** [step] is a function: the next world is determined by the event. *)
Lemma Step_deterministic σ e σ1 σ2 :
  Step P σ e σ1 → Step P σ e σ2 → σ1 = σ2.
Proof. rewrite <-!step_Step. congruence. Qed.

End facts.

(** ** The concrete client is a client *)

Lemma scenario_reachable : reachable stub_policy scenario_world.
Proof. apply reachable_world_of. vm_compute. eauto. Qed.
