(* ===== verification/Lifetime.v ===== *)
(** * Lifetime of the window

    What the program is for: the window lives as long as any holder,
    capsule or accessor of it, and is destroyed once when the last of them
    is dropped, whatever the threads of the client do.  The invariant of
    the machine is that the heap counts the handles the client owns
    ([counts] of [Sync], with the multiset [owners] of the cells the
    client's variables refer to).  From it: no operation of a reachable
    world is undefined, the counter never wraps, [clone] aborts only above
    [MAX_REFCOUNT] handles of one window, a window is destroyed when and
    only when its last handle is dropped, and every window created is
    either alive or destroyed exactly once.  A holder that a thread may
    borrow can be printed.  The values a client owns are those it made
    less those it dropped, and the drops are well founded. *)

From S2P Require Import Prelude Fmt RawWindowHandle Sync Holder Capsule Accessor Marker Machine.

(** ** Definitions *)

(** The cells the client's variables refer to, once per variable. *)
Definition owners {W} (σ : World W) : gmultiset loc :=
  map_multiset (λ ov : tid * Value W, value_ptr ov.2) (vars σ).

(** The windows that are alive. *)
Definition live {W} (σ : World W) : list W := map_values data (mem σ).

(** The windows the client created along a trace. *)
Definition created {W} (tr : list (Event W)) : list W :=
  omap (λ e, match e with EvNew _ _ w => Some w | _ => None end) tr.

(** The invariant: the heap counts the client's handles. *)
Definition refcount_inv {W} (σ : World W) : Prop := counts (mem σ) (owners σ).

(** The number of variables that refer to cell [l]. *)
Definition handles_of {W} (σ : World W) (l : loc) : nat := multiplicity l (owners σ).

(** A variable of the client refers to a cell that is freed. *)
Definition dangling {W} (σ : World W) : Prop :=
  ∃ x t v, vars σ !! x = Some (t, v) ∧ mem σ !! value_ptr v = None.

(** The events that make a value (a holder, a capsule, an accessor) and
    the events that drop one. *)
Definition makes_value {W} (e : Event W) : bool :=
  match e with
  | EvNew _ _ _ | EvCapsule _ _ _ | EvClone _ _ _ | EvGetHandle _ _ _ => true
  | _ => false
  end.

Definition drops_value {W} (e : Event W) : bool :=
  match e with EvDrop _ _ => true | _ => false end.

(** [σ'] is [σ] after some thread dropped one of its values. *)
Definition after_drop {W} `{!HasWindowHandle W, !HasDisplayHandle W}
    (P : Policy W) (σ' σ : World W) : Prop :=
  ∃ t x, step P (EvDrop t x) σ = Some (Done σ').

(** ** The invariant *)

Section invariant.
Context {W : Type} `{!HasWindowHandle W, !HasDisplayHandle W}.
Context (P : Policy W).
Implicit Types (σ : World W) (t : tid) (x y : var) (v : Value W) (h : heap W).

Lemma owners_bind_fresh σ x t v h :
  vars σ !! x = None →
  owners (bind_var x t v σ h) = {[+ value_ptr v +]} ⊎ owners σ.
Proof. intros Hx. unfold owners. simpl. by rewrite map_multiset_insert_fresh. Qed.

Lemma owners_unbind σ x t v o h :
  vars σ !! x = Some (t, v) →
  owners σ = {[+ value_ptr v +]} ⊎ owners (unbind_var x o σ h).
Proof.
  intros Hx. unfold owners. simpl.
  by rewrite (map_multiset_delete _ _ _ _ Hx).
Qed.

Lemma owners_move σ x t t' v h :
  vars σ !! x = Some (t, v) → owners (bind_var x t' v σ h) = owners σ.
Proof.
  intros Hx. unfold owners. simpl.
  by rewrite (map_multiset_insert_same _ _ _ _ _ Hx).
Qed.

Lemma owners_lookup σ x t v :
  vars σ !! x = Some (t, v) → 0 < handles_of σ (value_ptr v).
Proof.
  intros Hx. unfold handles_of, owners.
  pose proof (map_multiset_lookup (λ ov : tid * Value W, value_ptr ov.2) _ _ _ Hx).
  simpl in *. lia.
Qed.

Lemma refcount_inv_init : refcount_inv (init : World W).
Proof.
  unfold refcount_inv, owners. simpl. rewrite map_multiset_empty.
  apply counts_empty.
Qed.

(** Every rule of the machine keeps the count of the client's handles,
    beside any handles [F] that are not in its variables. *)
Lemma counts_Step (F : gmultiset loc) σ e σ' :
  counts (mem σ) (owners σ ⊎ F) → Step P σ e σ' → counts (mem σ') (owners σ' ⊎ F).
Proof.
  intros Hinv HS.
  Step_cases HS; rewrite ?owners_bind_fresh, <-?(assoc_L (⊎)) by done.
  - apply WindowWrapper_new_inv in Hop as [Hl ->]. by apply counts_alloc.
  - by apply WindowWrapper_deref_frame in Hop as ->.
  - apply RawHandleWrapper_new_inv in Hop as (c & Hl & Hle & [= ->] & ->).
    by apply counts_incr.
  - apply RawHandleWrapper_clone_inv in Hop as (c' & Hl & Hle & -> & ->).
    by apply counts_incr.
  - apply RawHandleWrapper_get_handle_inv in Hop as [-> Hop].
    apply RawHandleWrapper_clone_inv in Hop as (c' & Hl & Hle & _ & ->).
    by apply counts_incr.
  - by apply window_handle_inv in Hop as [-> _].
  - by apply display_handle_inv in Hop as [-> _].
  - apply owned_Some in Hx. rewrite drop_value_arc in Hop.
    rewrite (owners_unbind _ _ _ _ o h Hx), <-value_arc_ptr, <-(assoc_L (⊎)) in Hinv.
    by destruct (drop_counts _ _ _ _ _ Hinv Hop).
  - apply owned_Some in Hx. by rewrite (owners_move _ _ _ _ _ _ Hx).
Qed.

(** Every rule of the machine keeps the invariant. *)
Lemma refcount_inv_Step σ e σ' :
  refcount_inv σ → Step P σ e σ' → refcount_inv σ'.
Proof.
  unfold refcount_inv. intros Hinv HS.
  rewrite <-(right_id_L ∅ (⊎) (owners σ')).
  apply (counts_Step ∅ σ e σ'); [by rewrite (right_id_L ∅ (⊎))|done].
Qed.

Lemma refcount_inv_inductive : inductive_invariant (step P) refcount_inv.
Proof. intros e σ σ' Hinv Hs%step_Step. by eapply refcount_inv_Step. Qed.

(** In every world the client can reach, the strong counter of every cell
    is the number of holders, capsules and accessors that refer to it, a
    cell exists exactly while one does, and no counter is outside
    [1 .. MAX_REFCOUNT + 1]. *)
Lemma reachable_refcount_inv σ : reachable P σ → refcount_inv σ.
Proof.
  intros Hr. eapply invariant_reachable; [|apply refcount_inv_init|exact Hr].
  apply refcount_inv_inductive.
Qed.

End invariant.

(** ** What follows from the invariant *)

Section consequences.
Context {W : Type} `{!HasWindowHandle W, !HasDisplayHandle W}.
Context (P : Policy W).
Implicit Types (σ : World W) (t : tid) (x y : var) (v : Value W) (h : heap W).

(** A variable's cell is allocated. *)
Lemma refcount_inv_live σ x t v :
  refcount_inv σ → vars σ !! x = Some (t, v) → is_Some (mem σ !! value_ptr v).
Proof.
  intros Hinv Hx. apply (counts_lookup _ _ _ Hinv).
  by apply (owners_lookup _ _ _ _ Hx).
Qed.

Lemma borrow_live σ t x v :
  refcount_inv σ → borrow P t x σ = Some v → is_Some (mem σ !! value_ptr v).
Proof.
  intros Hinv (o & Hx & _)%borrow_Some. by eapply refcount_inv_live.
Qed.

(** A cell is allocated exactly while some variable refers to it. *)
Lemma refcount_inv_alive σ l :
  refcount_inv σ →
  is_Some (mem σ !! l) ↔ ∃ x t v, vars σ !! x = Some (t, v) ∧ value_ptr v = l.
Proof.
  intros Hinv. rewrite (counts_lookup _ _ _ Hinv). split.
  - intros (x & [t v] & Hx & Hl)%map_multiset_elem. eauto.
  - intros (x & t & v & Hx & <-). by apply (owners_lookup _ _ _ _ Hx).
Qed.

(** One step, as a balance of windows: what is destroyed or alive after
    the step is what was before, and the window the step created. *)
Lemma Step_balance σ e σ' :
  Step P σ e σ' →
  destroyed σ' ++ live σ' ≡ₚ created [e] ++ destroyed σ ++ live σ.
Proof.
  unfold live. intros HS.
  Step_cases HS; simpl.
  - rewrite (WindowWrapper_new_live _ _ _ _ Hop). by rewrite Permutation_middle.
  - by apply WindowWrapper_deref_frame in Hop as ->.
  - by rewrite (RawHandleWrapper_new_live _ _ _ _ Hop).
  - by rewrite (RawHandleWrapper_clone_live _ _ _ _ Hop).
  - by rewrite (RawHandleWrapper_get_handle_live _ _ _ _ Hop).
  - by apply window_handle_inv in Hop as [-> _].
  - by apply display_handle_inv in Hop as [-> _].
  - rewrite drop_value_arc in Hop. rewrite (drop_live _ _ _ _ Hop).
    rewrite !(assoc_L (++)). f_equiv. apply Permutation_app_comm.
  - done.
Qed.

Lemma reaches_balance tr σ σ' :
  reaches (step P) σ tr σ' →
  destroyed σ' ++ live σ' ≡ₚ created tr ++ destroyed σ ++ live σ.
Proof.
  revert σ. induction tr as [|e tr IH]; intros σ.
  - by intros ->%reaches_nil.
  - intros (σ1 & HS%step_Step & Hr)%reaches_cons.
    rewrite (IH _ Hr), (Step_balance _ _ _ HS). unfold created. simpl.
    destruct e; simpl; try done.
    by rewrite <-Permutation_middle.
Qed.

(** One step, as a balance of values: a value more when the step makes
    one, a value less when it drops one. *)
Lemma Step_values σ e σ' :
  Step P σ e σ' →
  size (vars σ') + (if drops_value e then 1 else 0) =
  size (vars σ) + (if makes_value e then 1 else 0).
Proof.
  intros HS. Step_cases HS; simpl;
    rewrite ?map_size_insert_None, ?Nat.add_0_r by done; try lia.
  - apply owned_Some in Hx. rewrite map_size_delete_Some by done.
    pose proof (map_size_ne_0_lookup_2 (vars σ) x (mk_is_Some _ _ Hx)). lia.
  - apply owned_Some in Hx. by rewrite map_size_insert_Some.
Qed.

Lemma reaches_values tr σ σ' :
  reaches (step P) σ tr σ' →
  size (vars σ') + length (filter (λ e, drops_value e = true) tr) =
  size (vars σ) + length (filter (λ e, makes_value e = true) tr).
Proof.
  revert σ. induction tr as [|e tr IH]; intros σ.
  - intros <-%reaches_nil. simpl. lia.
  - intros (σ1 & HS%step_Step%Step_values & Hr%IH)%reaches_cons.
    rewrite !filter_cons.
    destruct (drops_value e), (makes_value e); simpl in *;
      repeat case_decide; simpl; try done; lia.
Qed.

Lemma after_drop_size σ σ' : after_drop P σ' σ → size (vars σ') < size (vars σ).
Proof. intros (t & x & HS%step_Step%Step_values). simpl in HS. lia. Qed.

(** With the invariant no step is undefined, and a step aborts only above
    [MAX_REFCOUNT] handles of one window. *)
Lemma step_not_Undef σ e : refcount_inv σ → step P e σ ≠ Some Undef.
Proof.
  intros Hinv (t & x & v & Hb & Hl)%step_Undef_dangling.
  destruct (borrow_live _ _ _ _ Hinv Hb) as [c Hc]. congruence.
Qed.

Lemma step_Abort_handles σ e :
  refcount_inv σ → step P e σ = Some Abort →
  ∃ l, (Z.of_nat (handles_of σ l) > MAX_REFCOUNT)%Z.
Proof.
  intros Hinv (t & x & v & c & _ & Hl & Hgt)%step_Abort_overflow.
  exists (value_ptr v). unfold handles_of.
  by rewrite <-(counts_strong _ _ _ _ Hinv Hl).
Qed.

Lemma step_not_Abort σ e :
  refcount_inv σ → (Z.of_nat (size (vars σ)) ≤ MAX_REFCOUNT)%Z →
  step P e σ ≠ Some Abort.
Proof.
  intros Hinv Hsize (l & Hl)%step_Abort_handles; [|done].
  pose proof (map_multiset_multiplicity_le
                (λ ov : tid * Value W, value_ptr ov.2) (vars σ) l) as Hle.
  unfold handles_of, owners in Hl. lia.
Qed.

(** A world reached from a reachable world is reachable. *)
Lemma reachable_reaches σ tr σ' :
  reachable P σ → reaches (step P) σ tr σ' → reachable P σ'.
Proof. intros [tr0 Hr0] Hr. exists (tr0 ++ tr). apply reaches_app. eauto. Qed.

(** A value that a thread owns can be dropped. *)
Lemma drop_enabled σ x t v :
  refcount_inv σ → vars σ !! x = Some (t, v) →
  ∃ o h, step P (EvDrop t x) σ = Some (Done (unbind_var x o σ h)).
Proof.
  intros Hinv Hx. simpl. step_unfold.
  rewrite (proj2 (owned_Some t x σ v) Hx).
  destruct (refcount_inv_live _ _ _ _ Hinv Hx) as [c Hc].
  destruct (drop_value v (mem σ)) as [[o h]| |] eqn:Hd.
  - exists o, h. f_equal. apply with_heap_Done. eauto.
  - by apply drop_value_not_Abort in Hd.
  - apply drop_value_Undef in Hd. congruence.
Qed.

(** From a world with [n] values, [n] drops empty it. *)
Lemma drop_all_reaches n σ :
  refcount_inv σ → size (vars σ) = n →
  ∃ tr σ', reaches (step P) σ tr σ' ∧ vars σ' = ∅ ∧ length tr = n ∧ created tr = [].
Proof.
  revert σ. induction n as [|n IH]; intros σ Hinv Hn.
  - exists [], σ. split; [by apply reaches_nil|]. by apply map_size_empty_inv in Hn.
  - destruct (map_choose (vars σ)) as (x & [t v] & Hx).
    { intros Hem. rewrite Hem, map_size_empty in Hn. lia. }
    destruct (drop_enabled σ x t v Hinv Hx) as (o & h & Hs).
    destruct (IH (unbind_var x o σ h)) as (tr & σ' & Hr & He & Hl & Hc).
    { eapply refcount_inv_Step; [exact Hinv|]. by apply step_Step. }
    { simpl. rewrite map_size_delete, Hx, Hn. simpl. lia. }
    exists (EvDrop t x :: tr), σ'. split; [apply reaches_cons; eauto|].
    split; [done|]. split; [simpl; lia|done].
Qed.

End consequences.

(** ** The guarantees *)

Section guarantees.
Context {W : Type} `{!HasWindowHandle W, !HasDisplayHandle W}.
Context (P : Policy W).
Implicit Types (σ : World W) (t : tid) (x y : var) (v : Value W) (h : heap W).

(** C1: In every world the client can reach, the strong counter of every cell
    is the number of holders, capsules and accessors that refer to it (and
    there is no cell where there is none). *)
Theorem strong_count_is_handle_count σ l :
  reachable P σ → strong_at (mem σ) l = Z.of_nat (handles_of σ l).
Proof. intros [_ Hc]%reachable_refcount_inv. apply Hc. Qed.

(** C2: No use after free: in a reachable world no variable of the client
    refers to a freed cell, and no operation that the compiler accepts
    touches one, on any thread. *)
Theorem no_use_after_free σ e :
  reachable P σ → ¬ dangling σ ∧ step P e σ ≠ Some Undef.
Proof.
  intros Hinv%reachable_refcount_inv. split; [|by apply step_not_Undef].
  intros (x & t & v & Hx & Hl).
  destruct (refcount_inv_live _ _ _ _ Hinv Hx) as [c Hc]. congruence.
Qed.

(** C40: A client that has at most [MAX_REFCOUNT] (that is [2^63 - 1])
    handles of each window, so any client with no more values than that,
    never aborts the process. *)
Theorem no_abort_below_max σ e :
  reachable P σ → (∀ l, Z.of_nat (handles_of σ l) ≤ MAX_REFCOUNT)%Z →
  step P e σ ≠ Some Abort.
Proof.
  intros Hinv%reachable_refcount_inv Hle (l & Hl)%step_Abort_handles; [|done].
  specialize (Hle l). lia.
Qed.

(** A reachable cell has between 1 and [MAX_REFCOUNT + 1] handles, and
    neither the increment of [clone] nor the decrement of [drop] wraps:
    the counter after them is the number of handles plus one and minus
    one. *)
Theorem counter_never_wraps σ l c :
  reachable P σ → mem σ !! l = Some c →
  (1 ≤ Z.of_nat (handles_of σ l) ≤ MAX_REFCOUNT + 1)%Z ∧
  usize_wrap (strong c - 1) = (Z.of_nat (handles_of σ l) - 1)%Z ∧
  ((strong c ≤ MAX_REFCOUNT)%Z →
   usize_wrap (strong c + 1) = (Z.of_nat (handles_of σ l) + 1)%Z).
Proof.
  intros [Hwf Hc]%reachable_refcount_inv Hl. pose proof (Hwf _ _ Hl).
  unfold handles_of. rewrite <-(Hc l), (strong_at_Some _ _ _ Hl).
  split; [done|]. split; [by apply usize_wrap_decr|].
  intros ?. apply usize_wrap_incr. lia.
Qed.

(** A window is alive exactly while some variable of some thread holds a
    holder, capsule or accessor of it. *)
Theorem window_alive_while_owned σ l :
  reachable P σ →
  is_Some (mem σ !! l) ↔ ∃ x t v, vars σ !! x = Some (t, v) ∧ value_ptr v = l.
Proof. intros Hinv%reachable_refcount_inv. by apply refcount_inv_alive. Qed.

(** Every window the client created is either alive or has been destroyed,
    exactly once: as multisets, created = destroyed + alive. *)
Theorem created_destroyed_or_alive tr σ :
  reaches (step P) init tr σ → created tr ≡ₚ destroyed σ ++ live σ.
Proof.
  intros Hr%reaches_balance. rewrite Hr. unfold live. simpl.
  by rewrite map_values_empty, app_nil_r.
Qed.

(** C21: When the client has dropped everything, the heap is empty and the
    windows destroyed are the windows created: no leak, no double free. *)
Theorem all_dropped_all_destroyed tr σ :
  reaches (step P) init tr σ → vars σ = ∅ →
  mem σ = ∅ ∧ destroyed σ ≡ₚ created tr.
Proof.
  intros Hr Hvars.
  assert (mem σ = ∅) as Hmem.
  { apply counts_no_handle.
    assert (reachable P σ) as Hinv%reachable_refcount_inv by by exists tr.
    unfold refcount_inv, owners in Hinv.
    by rewrite Hvars, map_multiset_empty in Hinv. }
  split; [done|]. apply reaches_balance in Hr. revert Hr. unfold live. simpl.
  rewrite Hmem, !map_values_empty, !app_nil_r. by intros ->.
Qed.

(** C19: Dropping a value destroys the window when the value is the last handle
    of its cell, and only then; otherwise the window stays as it is. *)
Theorem drop_destroys_iff_last σ t x σ' :
  reachable P σ → step P (EvDrop t x) σ = Some (Done σ') →
  ∃ v c, vars σ !! x = Some (t, v) ∧ mem σ !! value_ptr v = Some c ∧
    if decide (handles_of σ (value_ptr v) = 1)
    then destroyed σ' = data c :: destroyed σ ∧ mem σ' !! value_ptr v = None
    else destroyed σ' = destroyed σ ∧
         data <$> mem σ' !! value_ptr v = Some (data c).
Proof.
  intros Hinv%reachable_refcount_inv HS%step_Step. inv HS.
  match goal with H : owned _ _ _ = _ |- _ => apply owned_Some in H; rename H into Hx end.
  match goal with H : drop_value _ _ = _ |- _ => rename H into Hop end.
  rewrite drop_value_arc in Hop.
  apply drop_inv in Hop as (c & Hl & Hcase). rewrite value_arc_ptr in Hl.
  exists v, c. split_and!; [done..|].
  pose proof (counts_strong _ _ _ _ Hinv Hl) as Hs. fold (handles_of σ (value_ptr v)) in Hs.
  rewrite value_arc_ptr in Hcase.
  destruct Hcase as [(H1 & -> & ->)|(Hne & -> & ->)]; simpl.
  - rewrite decide_True by lia. by rewrite lookup_delete_eq.
  - rewrite decide_False by lia. by rewrite lookup_insert_eq.
Qed.

(** C33: Nothing is held for ever: from every reachable world the owners can
    drop their values, one drop each, after which the heap is empty and
    every window that was alive has been destroyed, once. *)
Theorem cleanup_possible σ :
  reachable P σ →
  ∃ tr σ', reaches (step P) σ tr σ' ∧ length tr = size (vars σ) ∧
           vars σ' = ∅ ∧ mem σ' = ∅ ∧ destroyed σ' ≡ₚ destroyed σ ++ live σ.
Proof.
  intros Hr. pose proof (reachable_refcount_inv P σ Hr) as Hinv.
  destruct (drop_all_reaches P _ σ Hinv eq_refl) as (tr & σ' & Hrun & He & Hl & Hc).
  exists tr, σ'. split; [done|]. split; [done|]. split; [done|].
  assert (mem σ' = ∅) as Hmem.
  { apply counts_no_handle.
    pose proof (reachable_refcount_inv P σ' (reachable_reaches P _ _ _ Hr Hrun)) as Hinv'.
    unfold refcount_inv, owners in Hinv'. by rewrite He, map_multiset_empty in Hinv'. }
  split; [done|]. apply reaches_balance in Hrun. revert Hrun.
  unfold live. rewrite Hc, Hmem, map_values_empty, app_nil_r. by intros ->.
Qed.

(** A holder that a thread may borrow can be printed: in every
    reachable world formatting it returns, changes nothing, and prints the
    window that is alive behind the holder. *)
Theorem debug_defined_while_owned `{!Debug W, !DebugLaws W} {S} `{!Write S, !WriteLaws S}
    σ t x ww (f : Formatter S) :
  reachable P σ → borrow P t x σ = Some (VWindowWrapper ww) →
  ∃ r c, mem σ !! ptr (reference ww) = Some c ∧
         WindowWrapper.fmt ww f (mem σ) = Done (r, mem σ) ∧
         ok r = ok (write_str (WindowWrapper_debug_text (data c) (alternate f)) f).
Proof.
  intros Hinv%reachable_refcount_inv Hb.
  destruct (borrow_live P _ _ _ _ Hinv Hb) as [c Hc]. simpl in Hc.
  eexists _, c. split; [done|]. split; [by apply WindowWrapper_fmt_Done|].
  apply WindowWrapper_fmt_text.
Qed.


(** The values of a world are those made and not yet dropped: along
    every trace, the number of variables in use and of drops is the number
    of values made; no value is dropped twice. *)
Theorem values_made_and_dropped tr σ :
  reaches (step P) init tr σ →
  size (vars σ) + length (filter (λ e, drops_value e = true) tr) =
  length (filter (λ e, makes_value e = true) tr).
Proof.
  intros Hr%reaches_values. simpl in Hr. by rewrite map_size_empty in Hr.
Qed.

End guarantees.

(** ** The guarantees on the concrete client *)

Lemma strong_count_is_handle_count_witness :
  strong_at (mem scenario_world) 1%positive
  = Z.of_nat (handles_of scenario_world 1%positive).
Proof. apply (strong_count_is_handle_count stub_policy), scenario_reachable. Defined.

Lemma no_use_after_free_witness :
  ¬ dangling scenario_world ∧
  step stub_policy (EvGetHandle 1 4 9) scenario_world ≠ Some Undef.
Proof. apply (no_use_after_free stub_policy), scenario_reachable. Defined.

Lemma no_abort_below_max_witness :
  step stub_policy (EvClone 0 1 7) scenario_world ≠ Some Abort.
Proof.
  apply (no_abort_below_max stub_policy); [apply scenario_reachable|].
  intros l. unfold handles_of, owners.
  pose proof (map_multiset_multiplicity_le
                (λ ov : tid * Value StubWindow, value_ptr ov.2)
                (vars scenario_world) l) as Hle.
  assert (size (vars scenario_world) = 2) as Hs by (by vm_compute).
  unfold MAX_REFCOUNT. lia.
Defined.

Lemma counter_never_wraps_witness :
  (1 ≤ Z.of_nat (handles_of scenario_world 1%positive) ≤ MAX_REFCOUNT + 1)%Z ∧
  usize_wrap (2 - 1) = (Z.of_nat (handles_of scenario_world 1%positive) - 1)%Z ∧
  ((2 ≤ MAX_REFCOUNT)%Z →
   usize_wrap (2 + 1) = (Z.of_nat (handles_of scenario_world 1%positive) + 1)%Z).
Proof.
  apply (counter_never_wraps stub_policy scenario_world 1%positive
           {| strong := 2; data := stub_ok 42 |}).
  - apply scenario_reachable.
  - by vm_compute.
Defined.

Lemma window_alive_while_owned_witness :
  is_Some (mem scenario_world !! 1%positive) ↔
  ∃ x t v, vars scenario_world !! x = Some (t, v) ∧ value_ptr v = 1%positive.
Proof. apply (window_alive_while_owned stub_policy), scenario_reachable. Defined.

Lemma created_destroyed_or_alive_witness :
  created scenario ≡ₚ destroyed scenario_world ++ live scenario_world.
Proof.
  apply (created_destroyed_or_alive stub_policy). by vm_compute.
Defined.

Lemma all_dropped_all_destroyed_witness :
  let σ := world_of (run (step stub_policy) (scenario ++ [EvDrop 0 4; EvDrop 0 1]) init) in
  mem σ = ∅ ∧ destroyed σ ≡ₚ created (scenario ++ [EvDrop 0 4; EvDrop 0 1]).
Proof.
  apply (all_dropped_all_destroyed stub_policy); by vm_compute.
Defined.

Lemma cleanup_possible_witness :
  ∃ tr σ', reaches (step stub_policy) scenario_world tr σ' ∧
           length tr = size (vars scenario_world) ∧
           vars σ' = ∅ ∧ mem σ' = ∅ ∧
           destroyed σ' ≡ₚ destroyed scenario_world ++ live scenario_world.
Proof. apply (cleanup_possible stub_policy), scenario_reachable. Defined.

Lemma drop_destroys_iff_last_witness :
  let σ := world_of (run (step stub_policy) (scenario ++ [EvDrop 0 4]) init) in
  let σ' := world_of (run (step stub_policy) (scenario ++ [EvDrop 0 4; EvDrop 0 1]) init) in
  ∃ v c, vars σ !! 1 = Some (0, v) ∧ mem σ !! value_ptr v = Some c ∧
    if decide (handles_of σ (value_ptr v) = 1)
    then destroyed σ' = data c :: destroyed σ ∧ mem σ' !! value_ptr v = None
    else destroyed σ' = destroyed σ ∧
         data <$> mem σ' !! value_ptr v = Some (data c).
Proof.
  apply (drop_destroys_iff_last stub_policy).
  - apply reachable_world_of. vm_compute. eauto.
  - by vm_compute.
Defined.

(** The scenario of one window, step by step: with the holder and two of
    the three clones dropped, the capsule and one clone are left and the
    counter is 2; with the last clone dropped the capsule still holds the
    window, the counter is 1 and nothing is destroyed; the window is
    destroyed, once, when the capsule is dropped too. *)
Example scenario_destruction :
  let after tr := world_of (run (step stub_policy) (scenario ++ tr) init) in
  (strong_at (mem (after [])) 1%positive = 2%Z ∧ destroyed (after []) = []) ∧
  (strong_at (mem (after [EvDrop 0 4])) 1%positive = 1%Z ∧
   destroyed (after [EvDrop 0 4]) = []) ∧
  (mem (after [EvDrop 0 4; EvDrop 0 1]) = ∅ ∧
   destroyed (after [EvDrop 0 4; EvDrop 0 1]) = [stub_ok 42]) ∧
  run (step stub_policy) (scenario ++ [EvDrop 0 4; EvDrop 0 1; EvDrop 0 1]) init = None.
Proof. by vm_compute. Qed.

Lemma values_made_and_dropped_witness :
  size (vars scenario_world) + length (filter (λ e, drops_value e = true) scenario) =
  length (filter (λ e, makes_value e = true) scenario).
Proof. apply (values_made_and_dropped stub_policy). by vm_compute. Defined.

Lemma debug_defined_while_owned_witness :
  let σ := world_of (run (step stub_policy) (take 2 scenario) init) in
  ∃ r c, mem σ !! 1%positive = Some c ∧
         WindowWrapper.fmt {| reference := {| ptr := 1%positive |} |}
           (empty_formatter true) (mem σ) = Done (r, mem σ) ∧
         ok r = ok (write_str (WindowWrapper_debug_text (data c) true)
                      (empty_formatter true)).
Proof.
  apply (debug_defined_while_owned stub_policy (S:=Sink)
           (world_of (run (step stub_policy) (take 2 scenario) init)) 0 0
           {| reference := {| ptr := 1%positive |} |} (empty_formatter true)).
  - apply reachable_world_of. vm_compute. eauto.
  - by vm_compute.
Defined.
