(* ===== verification/Clones.v ===== *)
(** * A capsule cloned [n] times

    The client of the specification's scenarios, for every [n]: one
    window, a holder of it, a capsule built from the holder
    ([RawHandleWrapper::new], which clones the [Arc], line 63) and [n]
    clones of the capsule.  The run is accepted and returns, and the
    counter reads [n + 2]: the holder, the capsule and the [n] clones.
    The window is alive until the last of these [n + 2] values is
    dropped, and is destroyed by that drop, once. *)

From S2P Require Import Prelude RawWindowHandle Sync Holder Capsule Accessor Marker Machine.
From S2P Require Import Lifetime.

(** ** Definitions *)

(** The cell of the first window of a client. *)
Definition first_loc : loc := fresh (∅ : gset loc).

Section clones.
Context {W : Type} `{!HasWindowHandle W, !HasDisplayHandle W}.

Definition first_holder : WindowWrapper W := {| reference := {| ptr := first_loc |} |}.

Definition first_capsule : RawHandleWrapper W :=
  {| window := unsize (reference first_holder) |}.

(** Thread 0 builds the holder in variable 0, the capsule in variable 1 and
    the clones in the variables from 2 on. *)
Definition clones (w : W) (n : nat) : list (Event W) :=
  [EvNew 0 0 w; EvCapsule 0 0 1] ++ ((λ i, EvClone 0 1 (2 + i)) <$> seq 0 n).

Fixpoint clones_vars (n : nat) : gmap var (tid * Value W) :=
  match n with
  | 0 => <[1 := (0, VRawHandleWrapper first_capsule)]>
           (<[0 := (0, VWindowWrapper first_holder)]> ∅)
  | S n => <[2 + n := (0, VRawHandleWrapper first_capsule)]> (clones_vars n)
  end.

(** The world after the run: one cell, counted [n + 2] times. *)
Definition clones_world (w : W) (n : nat) : World W :=
  {| mem := {[ first_loc := {| strong := Z.of_nat n + 2; data := w |} ]};
     vars := clones_vars n; destroyed := []; observed := [] |}.

End clones.

(** ** Facts *)

Section facts.
Context {W : Type} `{!HasWindowHandle W, !HasDisplayHandle W}.
Context (P : Policy W).
Implicit Types (σ : World W) (w : W) (n : nat).

Lemma clones_snoc w n : clones w (S n) = clones w n ++ [EvClone 0 1 (2 + n)].
Proof. unfold clones. by rewrite seq_S, fmap_app, (assoc_L (++)). Qed.

Lemma clones_vars_fresh n m : n ≤ m → clones_vars (W:=W) n !! (2 + m) = None.
Proof.
  induction n as [|n IH]; intros Hm; simpl.
  - by rewrite !lookup_insert_ne, lookup_empty by lia.
  - rewrite lookup_insert_ne by lia. apply IH. lia.
Qed.

Lemma clones_vars_capsule n :
  clones_vars (W:=W) n !! 1 = Some (0, VRawHandleWrapper first_capsule).
Proof.
  induction n as [|n IH]; simpl; [by rewrite lookup_insert_eq|].
  by rewrite lookup_insert_ne by lia.
Qed.

Lemma clones_vars_size n : size (clones_vars (W:=W) n) = n + 2.
Proof.
  induction n as [|n IH]; simpl.
  - by rewrite !map_size_insert_None, map_size_empty by (by simplify_map_eq).
  - rewrite map_size_insert_None, IH by (by apply (clones_vars_fresh n n)). lia.
Qed.

(** The holder and the capsule. *)
Lemma clones_0 w : may_new P = true → reaches (step P) init (clones w 0) (clones_world w 0).
Proof.
  intros Hnew. apply reaches_cons. eexists. split.
  { apply step_Step, (Step_new P init 0 0 w first_holder); [done|done|].
    unfold WindowWrapper.new, Arc.new. exec_unfold. simpl. by rewrite dom_empty_L. }
  apply reaches_cons. eexists. split; [|by apply reaches_nil].
  apply step_Step. simpl. rewrite insert_empty.
  pose proof (Step_capsule P
    (bind_var 0 0 (VWindowWrapper first_holder) init
       {[ first_loc := {| strong := 1; data := w |} ]}) 0 0 1 first_holder
    first_capsule {[ first_loc := {| strong := 2; data := w |} ]}) as HS.
  apply HS; [by apply borrow_Some; exists 0; simpl; rewrite lookup_insert_eq; eauto|done|].
  simpl. erewrite RawHandleWrapper_new_Done; [|by apply lookup_singleton_eq|by simpl].
  by rewrite insert_singleton_eq.
Qed.

(** One more clone. *)
Lemma clones_step w n :
  (Z.of_nat n + 2 ≤ MAX_REFCOUNT)%Z →
  step P (EvClone 0 1 (2 + n)) (clones_world w n) = Some (Done (clones_world w (S n))).
Proof.
  intros Hle. apply step_Step.
  pose proof (Step_clone P (clones_world w n) 0 1 (2 + n) first_capsule first_capsule
                {[ first_loc := {| strong := Z.of_nat (S n) + 2; data := w |} ]}) as HS.
  apply HS; [|by apply (clones_vars_fresh n n)|].
  - apply borrow_Some. exists 0. split; [apply clones_vars_capsule|by left].
  - simpl. erewrite RawHandleWrapper_clone_Done; [|by apply lookup_singleton_eq|by simpl].
    simpl. rewrite insert_singleton_eq, usize_wrap_incr by lia. do 4 f_equal. lia.
Qed.

(** The run is accepted and returns. *)
Lemma clones_reaches w n :
  may_new P = true → (Z.of_nat n + 1 ≤ MAX_REFCOUNT)%Z →
  reaches (step P) init (clones w n) (clones_world w n).
Proof.
  intros Hnew. induction n as [|n IH]; intros Hle; [by apply clones_0|].
  rewrite clones_snoc. apply reaches_snoc. exists (clones_world w n).
  split; [apply IH; lia|apply clones_step; lia].
Qed.

Lemma clones_live w n : live (clones_world w n) = [w].
Proof. unfold live, map_values. simpl. by rewrite map_to_list_singleton. Qed.

(** A trace of drops makes no value and creates no window. *)
Lemma drops_only (tr : list (Event W)) :
  Forall (λ e, drops_value e = true) tr →
  filter (λ e, drops_value e = true) tr = tr ∧
  filter (λ e, makes_value e = true) tr = [] ∧ created tr = [].
Proof.
  induction 1 as [|e tr He _ (IH1 & IH2 & IH3)]; [done|].
  rewrite filter_cons_True, filter_cons_False, IH1, IH2 by (by destruct e).
  split_and!; [done..|]. by destruct e.
Qed.

(** A run of drops from the world of the clones: the number of values
    left, and the window, destroyed or alive. *)
Lemma drops_from_clones w n tr σ :
  Forall (λ e, drops_value e = true) tr →
  reaches (step P) (clones_world w n) tr σ →
  size (vars σ) + length tr = n + 2 ∧ destroyed σ ++ live σ ≡ₚ [w].
Proof.
  intros (Hd & Hm & Hc)%drops_only Hr. split.
  - pose proof (reaches_values P _ _ _ Hr) as Hv. simpl in Hv.
    rewrite clones_vars_size, Hd, Hm in Hv. simpl in Hv. lia.
  - by rewrite (reaches_balance P _ _ _ Hr), clones_live, Hc.
Qed.

End facts.

(** ** The guarantee *)

Section guarantees.
Context {W : Type} `{!HasWindowHandle W, !HasDisplayHandle W}.
Context (P : Policy W).

(** C35: A holder, a capsule made from it and [n] clones of the capsule,
    for every [n] below the bound of the counter: the run is accepted and
    returns with the counter at [n + 2].  After any drops that the
    compiler accepts, by any threads in any order, at most [n + 2] have
    been dropped; the window is alive and not destroyed while fewer than
    [n + 2] are, and the drop number [n + 2] destroys it, once.  The
    capsule counts: dropping the holder and the [n] clones leaves the
    window alive. *)
Theorem clones_alive_until_last (w : W) (n : nat) :
  may_new P = true → (Z.of_nat n + 1 ≤ MAX_REFCOUNT)%Z →
  reaches (step P) init (clones w n) (clones_world w n) ∧
  strong_at (mem (clones_world w n)) first_loc = (Z.of_nat n + 2)%Z ∧
  ∀ tr σ, Forall (λ e, drops_value e = true) tr →
          reaches (step P) (clones_world w n) tr σ →
          length tr ≤ n + 2 ∧
          if decide (length tr = n + 2)
          then mem σ = ∅ ∧ destroyed σ = [w]
          else live σ = [w] ∧ destroyed σ = [].
Proof.
  intros Hnew Hle. pose proof (clones_reaches P w n Hnew Hle) as Hrun.
  split; [done|]. split; [by unfold strong_at; simpl; rewrite lookup_singleton_eq|].
  intros tr σ Hdrops Hr.
  destruct (drops_from_clones P w n tr σ Hdrops Hr) as [Hsize Hbal].
  split; [lia|].
  assert (refcount_inv σ) as Hinv.
  { apply (reachable_refcount_inv P). exists (clones w n ++ tr). apply reaches_app. eauto. }
  case_decide as Hlen.
  - assert (mem σ = ∅) as Hmem.
    { apply counts_no_handle. unfold refcount_inv, owners in Hinv.
      rewrite (map_size_empty_inv (vars σ)), map_multiset_empty in Hinv by lia. done. }
    split; [done|]. revert Hbal. unfold live.
    rewrite Hmem, map_values_empty, app_nil_r. apply Permutation_singleton_r.
  - destruct (map_size_ne_0_lookup_1 (vars σ)) as (x & [t v] & Hx); [lia|].
    destruct (refcount_inv_live _ _ _ _ Hinv Hx) as [c Hc].
    pose proof (map_values_elem_of data _ _ _ Hc) as Hin. fold (live σ) in Hin.
    destruct (live σ) as [|w' l]; [by apply elem_of_nil in Hin|].
    apply Permutation_length in Hbal as Hlen'. rewrite length_app in Hlen'. simpl in Hlen'.
    destruct (destroyed σ), l; simpl in *; try lia.
    by apply Permutation_singleton_r in Hbal as ->.
Qed.

End guarantees.

(** ** On the stub window *)

(** The scenario of the specification: three clones; the holder and two
    clones dropped, then the last clone: four drops of five values, and
    the window is alive. *)
Lemma clones_alive_until_last_witness :
  reaches (step stub_policy) init (clones (stub_ok 42) 3) (clones_world (stub_ok 42) 3) ∧
  strong_at (mem (clones_world (stub_ok 42) 3)) first_loc = 5%Z ∧
  ∀ tr σ, Forall (λ e, drops_value e = true) tr →
          reaches (step stub_policy) (clones_world (stub_ok 42) 3) tr σ →
          length tr ≤ 5 ∧
          if decide (length tr = 5)
          then mem σ = ∅ ∧ destroyed σ = [stub_ok 42]
          else live σ = [stub_ok 42] ∧ destroyed σ = [].
Proof. apply (clones_alive_until_last stub_policy (stub_ok 42) 3); by vm_compute. Defined.

(** The four drops of the scenario are accepted, and leave the capsule. *)
Example clones_scenario_drops :
  let σ := world_of (run (step stub_policy)
                       [EvDrop 0 0; EvDrop 0 2; EvDrop 0 3; EvDrop 0 4]
                       (clones_world (stub_ok 42) 3)) in
  strong_at (mem σ) first_loc = 1%Z ∧ destroyed σ = [] ∧ size (vars σ) = 1.
Proof. by vm_compute. Qed.
