(* ===== verification/Gate.v ===== *)
(** * The thread gate

    [RawHandleWrapper::get_handle] is unsafe: by calling it a thread
    attests that it may use the handles (raw_handle.rs, lines 67-75).  The
    accessor it returns is the proof of the attestation, and the design
    relies on the accessor staying on the thread that obtained it.  Here
    the gate is a property of traces: every thread that reads a handle
    through an accessor has called [get_handle] itself.  It holds under
    every policy that neither sends nor shares accessors
    ([thread_locked]); the policy the compiler derives from the file as it
    is written is not one of them, and a client that it accepts hands an
    accessor to a thread that never attested.  What [unsafe] on
    [get_handle] does give: a client without an [unsafe] block reads no
    handle. *)

From S2P Require Import Prelude RawWindowHandle Sync Holder Capsule Accessor Marker Machine.

(** ** Definitions *)

(** The threads that called [get_handle] along a trace. *)
Definition attested {W} (tr : list (Event W)) : list tid :=
  omap (λ e, match e with EvGetHandle t _ _ => Some t | _ => None end) tr.

(** [pub unsafe fn get_handle] (line 73): the one operation of the
    library that a client can call only in an [unsafe] block. *)
Definition requires_unsafe {W} (e : Event W) : bool :=
  match e with EvGetHandle _ _ _ => true | _ => false end.

(** The threads that read a handle through an accessor. *)
Definition users {W} (σ : World W) : list tid :=
  omap (λ o, match o with
             | ObsWindowHandle t _ | ObsDisplayHandle t _ => Some t
             | ObsDeref _ _ => None
             end) (observed σ).

(** The threads that own an accessor. *)
Definition accessor_owner {W} (σ : World W) (t : tid) : Prop :=
  ∃ x a, vars σ !! x = Some (t, VThreadLocked a).

(** No thread owns an accessor and no handle has been read. *)
Definition no_accessor {W} (σ : World W) : Prop :=
  (∀ x t a, vars σ !! x ≠ Some (t, VThreadLocked a)) ∧ users σ = [].

(** A policy under which an accessor is neither moved to nor shared with
    another thread. *)
Definition thread_locked {W} (P : Policy W) : Prop :=
  ∀ a, may_send P (VThreadLocked a) = false ∧ may_share P (VThreadLocked a) = false.

(** The types of the values when the accessor carries a marker field that
    is neither [Send] nor [Sync], and the policy the compiler derives for
    them. *)
Definition pinned_value_ty {W} (w : Ty) (v : Value W) : Ty :=
  match v with
  | VThreadLocked _ => ThreadLocked_pinned_ty
  | _ => value_ty w v
  end.

Definition pinned_policy {W} (w : Ty) : Policy W := {|
  may_send v := implements code_impls Send (pinned_value_ty w v);
  may_share v := implements code_impls Sync (pinned_value_ty w v);
  may_new := WindowWrapper_new_bound w;
|}.

(** The invariant of the gate along a trace: accessors are owned, and
    handles have been read, by threads that attested. *)
Definition gate_inv {W} (tr : list (Event W)) (σ : World W) : Prop :=
  (∀ t, accessor_owner σ t → t ∈ attested tr) ∧ (∀ t, t ∈ users σ → t ∈ attested tr).

(** A client of the program as written: thread 1 attests and obtains an
    accessor, moves it to thread 2, which reads the window handle through
    it and lets thread 3 read the display handle through a reference. *)
Definition leak : list (Event StubWindow) :=
  [EvNew 0 0 (stub_ok 42); EvCapsule 0 0 1; EvSend 0 1 1;
   EvGetHandle 1 1 7; EvSend 1 7 2; EvWindowHandle 2 7; EvDisplayHandle 3 7].

(** ** Facts *)

Section gate.
Context {W : Type} `{!HasWindowHandle W, !HasDisplayHandle W}.
Context (P : Policy W).
Implicit Types (σ : World W) (t : tid) (x y : var) (v : Value W) (h : heap W).
Implicit Types (tr : list (Event W)) (e : Event W).

Lemma attested_snoc tr e :
  attested (tr ++ [e]) =
  attested tr ++ match e with EvGetHandle t _ _ => [t] | _ => [] end.
Proof. unfold attested. rewrite omap_app. by destruct e. Qed.

Lemma attested_mono tr e t : t ∈ attested tr → t ∈ attested (tr ++ [e]).
Proof. rewrite attested_snoc, elem_of_app. auto. Qed.

Lemma attested_get_handle tr t x y : t ∈ attested (tr ++ [EvGetHandle t x y]).
Proof. rewrite attested_snoc, elem_of_app, list_elem_of_singleton. auto. Qed.

(** An accessor that a thread can borrow under a [thread_locked] policy is
    its own. *)
Lemma borrow_accessor_owner σ t x a :
  thread_locked P → borrow P t x σ = Some (VThreadLocked a) → accessor_owner σ t.
Proof.
  intros HP (o & Hx & [->|Hs])%borrow_Some; [by exists x, a|].
  destruct (HP a) as [_ Hns]. congruence.
Qed.

(** Binding a variable adds its owner to the owners of accessors, and only
    when the value is an accessor. *)
Lemma accessor_owner_bind σ x t v h t' :
  accessor_owner (bind_var x t v σ h) t' →
  accessor_owner σ t' ∨ (t' = t ∧ ∃ a, v = VThreadLocked a).
Proof.
  intros (y & a & Hy). simpl in Hy.
  destruct (decide (y = x)) as [->|Hne].
  - rewrite lookup_insert_eq in Hy. simplify_eq. right. eauto.
  - rewrite lookup_insert_ne in Hy by done. left. by exists y, a.
Qed.

Lemma accessor_owner_unbind σ x o h t :
  accessor_owner (unbind_var x o σ h) t → accessor_owner σ t.
Proof.
  intros (y & a & Hy). simpl in Hy.
  apply lookup_delete_Some in Hy as [_ Hy]. by exists y, a.
Qed.

(** One step keeps the invariant of the gate. *)
Lemma gate_inv_Step tr σ e σ' :
  thread_locked P → gate_inv tr σ → Step P σ e σ' → gate_inv (tr ++ [e]) σ'.
Proof.
  intros HP [Hown Huse] HS.
  Step_cases HS;
    (split; [intros t0 Ho | intros t0 Hu]);
    try (apply attested_mono; by auto);
    try (apply accessor_owner_bind in Ho as [?|(-> & a0 & [=])];
         by apply attested_mono; auto).
  - apply accessor_owner_bind in Ho as [?|(-> & _)];
      [by apply attested_mono; auto|apply attested_get_handle].
  - apply attested_mono. revert Hu. unfold users. simpl.
    intros [->|?]%elem_of_cons; [|by auto].
    by eapply Hown, borrow_accessor_owner.
  - apply attested_mono. revert Hu. unfold users. simpl.
    intros [->|?]%elem_of_cons; [|by auto].
    by eapply Hown, borrow_accessor_owner.
  - apply attested_mono, Hown. by eapply accessor_owner_unbind.
  - apply accessor_owner_bind in Ho as [?|(-> & a & ->)];
      [by apply attested_mono; auto|].
    destruct (HP a) as [Hns _]. congruence.
Qed.

(** The threads that attested are those of the unsafe calls. *)
Lemma attested_requires_unsafe tr :
  Forall (λ e, requires_unsafe e = false) tr → attested tr = [].
Proof.
  induction tr as [|e tr IH]; [done|]. intros Hall. inv Hall.
  destruct e; simpl in *; try done; by apply IH.
Qed.

(** A step that is not the unsafe call makes no accessor and reads no
    handle where there is no accessor. *)
Lemma no_accessor_Step σ e σ' :
  requires_unsafe e = false → no_accessor σ → Step P σ e σ' → no_accessor σ'.
Proof.
  intros He [Hno Huse] HS.
  Step_cases HS; try done;
    try (apply borrow_Some in Hb as (o & Hb & _); by apply Hno in Hb);
    (split; [|done]); simpl; intros z tz az;
    rewrite ?lookup_insert, ?lookup_delete; repeat case_decide; try done;
    try apply Hno.
  apply owned_Some in Hx. intros [= <- ->]. by apply Hno in Hx.
Qed.

Lemma no_accessor_init : no_accessor (init : World W).
Proof. split; [|done]. intros x t a. simpl. by rewrite lookup_empty. Qed.

Lemma gate_inv_init : gate_inv [] (init : World W).
Proof.
  split.
  - intros t (x & a & Hx). simpl in Hx. by rewrite lookup_empty in Hx.
  - intros t Ht. unfold users in Ht. simpl in Ht. by apply elem_of_nil in Ht.
Qed.

Lemma gate_inv_reaches tr σ :
  thread_locked P → reaches (step P) init tr σ → gate_inv tr σ.
Proof.
  intros HP. revert σ. induction tr as [|e tr IH] using rev_ind; intros σ.
  - intros <-%reaches_nil. apply gate_inv_init.
  - intros (σ1 & Hr & HS%step_Step)%reaches_snoc.
    eapply gate_inv_Step; eauto.
Qed.

End gate.

(** The policy with the marker field is [thread_locked]. *)
Lemma pinned_policy_thread_locked {W} (w : Ty) :
  thread_locked (pinned_policy (W:=W) w).
Proof. by intros a. Qed.

(** ** The gate *)

Section guarantees.
Context {W : Type} `{!HasWindowHandle W, !HasDisplayHandle W}.
Context (P : Policy W) (valid : tid → Prop).

(** When accessors are neither sent nor shared, a thread that reads a
    handle through an accessor has called [get_handle] itself: if every
    thread that called the unsafe function was a valid one, every use of a
    handle is on a valid thread. *)
Theorem gate_sound tr σ :
  thread_locked P → reaches (step P) init tr σ →
  Forall valid (attested tr) → Forall valid (users σ).
Proof.
  intros HP Hr Hv. destruct (gate_inv_reaches P _ _ HP Hr) as [_ Huse].
  rewrite !list.Forall_forall in *. intros t Ht. by apply Hv, Huse.
Qed.

(** Under such a policy an accessor never leaves the thread that obtained
    it: its owner has attested. *)
Theorem accessor_stays_on_attested_thread tr σ x t a :
  thread_locked P → reaches (step P) init tr σ →
  vars σ !! x = Some (t, VThreadLocked a) → t ∈ attested tr.
Proof.
  intros HP Hr Hx. destruct (gate_inv_reaches P _ _ HP Hr) as [Hown _].
  apply Hown. by exists x, a.
Qed.

(** C26: Safe code reads no handle, whatever may cross threads: a client
    that never calls the unsafe [get_handle] owns no accessor and has read
    no window or display handle.  The accessor has no other constructor. *)
Theorem safe_client_reads_no_handle tr σ :
  Forall (λ e, requires_unsafe e = false) tr → reaches (step P) init tr σ →
  no_accessor σ.
Proof.
  revert σ. induction tr as [|e tr IH] using rev_ind; intros σ Hsafe.
  - intros <-%reaches_nil. apply no_accessor_init.
  - apply Forall_app in Hsafe as [Htr He%Forall_inv].
    intros (σ1 & Hr & HS%step_Step)%reaches_snoc.
    eapply no_accessor_Step; eauto.
Qed.

End guarantees.


(** With the marker field the compiler refuses that client, at the move
    of the accessor. *)
Theorem gate_closed_when_pinned :
  run (step (pinned_policy (TyParam true true))) leak init = None ∧
  ∃ σ, reaches (step (pinned_policy (TyParam true true))) init (take 4 leak) σ ∧
       step (pinned_policy (TyParam true true)) (EvSend 1 7 2) σ = None ∧
       step (pinned_policy (TyParam true true)) (EvWindowHandle 2 7) σ = None.
Proof. split; [by vm_compute|]. eexists. split; [by vm_compute|]. by vm_compute. Qed.

(** ** On the concrete client *)

Lemma gate_sound_witness :
  let P := pinned_policy (TyParam true true) in
  let tr := take 4 leak ++ [EvWindowHandle 1 7; EvDisplayHandle 1 7] in
  Forall (λ t, t = 1) (users (world_of (run (step P) tr init))).
Proof.
  apply (gate_sound (pinned_policy (TyParam true true)) (λ t, t = 1)
           (take 4 leak ++ [EvWindowHandle 1 7; EvDisplayHandle 1 7])).
  - apply pinned_policy_thread_locked.
  - by vm_compute.
  - by repeat constructor.
Defined.

Lemma accessor_stays_on_attested_thread_witness :
  1 ∈ attested (take 4 leak).
Proof.
  apply (accessor_stays_on_attested_thread (pinned_policy (TyParam true true))
           (take 4 leak) (world_of (run (step (pinned_policy (TyParam true true)))
                                        (take 4 leak) init)) 7 1
           {| _0 := {| window := unsize {| ptr := 1%positive |} |} |}).
  - apply pinned_policy_thread_locked.
  - by vm_compute.
  - by vm_compute.
Defined.

Lemma safe_client_reads_no_handle_witness :
  no_accessor (world_of (run (step stub_policy) (take 3 leak) init)).
Proof.
  apply (safe_client_reads_no_handle stub_policy (take 3 leak)).
  - by repeat constructor.
  - by vm_compute.
Defined.
