(* ===== verification/Bound.v ===== *)
(** * The bound of [WindowWrapper::new]

    The capsule is [Send] and [Sync] by the two [unsafe impl]s, whatever
    the window behind it is.  A thread that holds a capsule shares the
    window with the thread that created it, and the thread that drops
    the last handle runs the destructor of the window: both in code
    without [unsafe].  The language allows the first for a window that is
    [Sync] and the second for one that is [Send].  What makes the two
    [unsafe impl]s sound in this respect is the bound of the [impl] block
    of [new], [W: Send + Sync + 'static] (raw_handle.rs, line 21): a
    window gets behind an [Arc] by [new] and in no other way, so every
    window that a client shares or destroys is [Send] and [Sync].

    Without the bound, a client that the compiler accepts, and that has
    no [unsafe] block, destroys a window that is not [Send] on a thread
    that did not create it ([foreign_drop]). *)

From S2P Require Import Prelude RawWindowHandle Sync Holder Capsule Accessor Marker Machine.
From S2P Require Import Gate.

(** ** Definitions *)

(** A window of type [w] may be shared between threads and destroyed on
    any of them. *)
Definition shareable (w : Ty) : Prop :=
  implements code_impls Send w = true ∧ implements code_impls Sync w = true.

(** The policy the compiler would derive if [new] had no bound. *)
Definition unbounded_policy {W} (w : Ty) : Policy W := {|
  may_send v := implements code_impls Send (value_ty w v);
  may_share v := implements code_impls Sync (value_ty w v);
  may_new := true;
|}.

(** A window type that is neither [Send] nor [Sync]. *)
Definition local_window : Ty := TyParam false false.

(** Thread 0 creates a window and a capsule of it, moves the capsule to
    thread 1 and drops the holder; thread 1 drops the capsule. *)
Definition foreign_drop : list (Event StubWindow) :=
  [EvNew 0 0 (stub_ok 42); EvCapsule 0 0 1; EvSend 0 1 1; EvDrop 0 0; EvDrop 1 1].

(** ** Facts *)

Section bound.
Context {W : Type} `{!HasWindowHandle W, !HasDisplayHandle W}.
Context (P : Policy W).
Implicit Types (σ : World W) (e : Event W) (tr : list (Event W)).

(** The first step of a client is a [new]. *)
Lemma step_init_new e σ :
  step P e init = Some (Done σ) → may_new P = true ∧ ∃ t x w, e = EvNew t x w.
Proof.
  destruct e as [t x w| | | | | | | |]; simpl; step_unfold;
    unfold borrow, owned; simpl; rewrite ?lookup_empty; try done.
  destruct (may_new P); [eauto 10|done].
Qed.

(** A client that runs has passed the bound of [new]. *)
Lemma reaches_may_new tr σ :
  reaches (step P) init tr σ → tr ≠ [] → may_new P = true.
Proof.
  destruct tr as [|e tr]; [done|].
  by intros (σ1 & [? _]%step_init_new & _)%reaches_cons _.
Qed.

End bound.

(** ** The guarantees *)

Section guarantees.
Context {W : Type} `{!HasWindowHandle W, !HasDisplayHandle W}.


End guarantees.

(** Without the bound the compiler accepts [foreign_drop] for a window
    type that is neither [Send] nor [Sync]: no step of it needs [unsafe],
    thread 0 creates the window, and the step that destroys it is the drop
    by thread 1. *)
Theorem unbounded_new_foreign_destructor :
  ¬ shareable local_window ∧
  Forall (λ e, requires_unsafe e = false) foreign_drop ∧
  run (step (derived_policy local_window)) foreign_drop init = None ∧
  ∃ σ σ', reaches (step (unbounded_policy local_window)) init (take 4 foreign_drop) σ ∧
          destroyed σ = [] ∧
          step (unbounded_policy local_window) (EvDrop 1 1) σ = Some (Done σ') ∧
          destroyed σ' = [stub_ok 42].
Proof.
  split; [by intros [[=] _]|]. split; [by repeat constructor|].
  split; [by vm_compute|]. do 2 eexists. split; [by vm_compute|]. split; [by vm_compute|]. by vm_compute.
Qed.

(** ** On the stub window *)

