(* ===== verification/Privacy.v ===== *)
(** * Privacy of the fields

    The three structs of raw_handle.rs are [pub] and their fields are
    not: [reference] (line 18), [window] (line 48) and the field of the
    tuple struct [ThreadLockedRawWindowHandleWrapper] (line 94).  Code
    outside the module can name the types and call their [pub]
    functions; it cannot write a struct literal, call the constructor of
    the tuple struct, or read a field.  The client of [Machine] is such
    code.

    This file has the visibility of the three fields as the code
    declares it, and code outside the module that uses what a [pub]
    field would give it ([xstep]): a holder built by a struct literal,
    which does not pass the bound of [WindowWrapper::new]; a handle read
    through the field [window] of a capsule; an accessor built by the
    constructor of the tuple struct.  None of the three needs [unsafe].
    With the fields as they are, code outside the module is the client of
    [Machine].  The gate of [get_handle] holds for code without [unsafe]
    exactly when [window] and the field of the accessor are private, and
    the bound of [new] licenses the [unsafe impl]s exactly when
    [reference] is. *)

From S2P Require Import Prelude RawWindowHandle Sync Holder Capsule Accessor Marker Machine.
From S2P Require Import Lifetime Gate Bound.

(** ** Definitions *)

(** A field with [pub] and one without. *)
Inductive Visibility : Type := Pub | Private.

#[export] Instance Visibility_eq_dec : EqDecision Visibility.
Proof. solve_decision. Defined.

(** [reference: Arc<W>] (line 18). *)
Definition WindowWrapper_reference_vis : Visibility := Private.

(** [window: Arc<dyn WindowTrait>] (line 48). *)
Definition RawHandleWrapper_window_vis : Visibility := Private.

(** [pub struct ThreadLockedRawWindowHandleWrapper(RawHandleWrapper)]
    (line 94): the struct is [pub], its field is not. *)
Definition ThreadLocked_0_vis : Visibility := Private.

(** The visibility of the three fields. *)
Record Fields : Type := {
  reference_vis : Visibility;
  window_vis : Visibility;
  tuple_vis : Visibility;
}.

Definition code_fields : Fields := {|
  reference_vis := WindowWrapper_reference_vis;
  window_vis := RawHandleWrapper_window_vis;
  tuple_vis := ThreadLocked_0_vis;
|}.

(** The fields behind which the handles are. *)
Definition gate_private (F : Fields) : bool :=
  bool_decide (window_vis F = Private) && bool_decide (tuple_vis F = Private).

(** What code outside the module writes: an operation of the library, or
    one of the expressions that need a visible field. *)
Inductive XEvent (W : Type) : Type :=
| XDo (e : Event W)
| XHolderLit (t : tid) (x : var) (w : W)
| XFieldWindowHandle (t : tid) (x : var)
| XFieldDisplayHandle (t : tid) (x : var)
| XWrap (t : tid) (x y : var).
Arguments XDo {W} e.
Arguments XHolderLit {W} t x w.
Arguments XFieldWindowHandle {W} t x.
Arguments XFieldDisplayHandle {W} t x.
Arguments XWrap {W} t x y.

(** The expressions that need an [unsafe] block: the call of
    [get_handle]. *)
Definition xrequires_unsafe {W} (a : XEvent W) : bool :=
  match a with XDo e => requires_unsafe e | _ => false end.

(** The policy without the bound of [new]: a struct literal is not a
    call of [new]. *)
Definition literal_policy {W} (P : Policy W) : Policy W := {|
  may_send := may_send P;
  may_share := may_share P;
  may_new := true;
|}.

Section xstep.
Context {W : Type} `{!HasWindowHandle W, !HasDisplayHandle W}.
Context (F : Fields) (P : Policy W).
Implicit Types (σ : World W) (t : tid) (x y : var).

(** [let x = WindowWrapper { reference: Arc::new(w) };] *)
Definition xstep_holder_lit t x (w : W) σ : option (outcome (World W)) :=
  if decide (reference_vis F = Pub)
  then step (literal_policy P) (EvNew t x w) σ
  else None.

(** [x.window.window_handle()]: the body of line 104 on a capsule. *)
Definition xstep_field_window_handle t x σ : option (outcome (World W)) :=
  if decide (window_vis F = Pub) then
    match borrow P t x σ with
    | Some (VRawHandleWrapper rhw) =>
        Some (with_heap
                (ThreadLockedRawWindowHandleWrapper.window_handle {| _0 := rhw |}) σ
                (λ r, observe (ObsWindowHandle t r) σ))
    | _ => None
    end
  else None.

(** [x.window.display_handle()]: the body of line 116 on a capsule. *)
Definition xstep_field_display_handle t x σ : option (outcome (World W)) :=
  if decide (window_vis F = Pub) then
    match borrow P t x σ with
    | Some (VRawHandleWrapper rhw) =>
        Some (with_heap
                (ThreadLockedRawWindowHandleWrapper.display_handle {| _0 := rhw |}) σ
                (λ r, observe (ObsDisplayHandle t r) σ))
    | _ => None
    end
  else None.

(** [let y = ThreadLockedRawWindowHandleWrapper(x);]: the capsule [x] is
    moved into the accessor. *)
Definition xstep_wrap t x y σ : option (outcome (World W)) :=
  if decide (tuple_vis F = Pub) then
    match owned t x σ with
    | Some (VRawHandleWrapper rhw) =>
        if is_free y σ
        then Some (Done (bind_var y t (VThreadLocked {| _0 := rhw |})
                           (unbind_var x None σ (mem σ)) (mem σ)))
        else None
    | _ => None
    end
  else None.

Definition xstep (a : XEvent W) σ : option (outcome (World W)) :=
  match a with
  | XDo e => step P e σ
  | XHolderLit t x w => xstep_holder_lit t x w σ
  | XFieldWindowHandle t x => xstep_field_window_handle t x σ
  | XFieldDisplayHandle t x => xstep_field_display_handle t x σ
  | XWrap t x y => xstep_wrap t x y σ
  end.

End xstep.

(** Three clients without [unsafe], one for each field: thread 0 reads
    the window handle through the field of a capsule; it builds an
    accessor from a capsule and reads through it; it builds the holder of
    a window by a literal, and thread 1 destroys the window. *)
Definition field_read : list (XEvent StubWindow) :=
  [XDo (EvNew 0 0 (stub_ok 42)); XDo (EvCapsule 0 0 1); XFieldWindowHandle 0 1].

Definition wrapped : list (XEvent StubWindow) :=
  [XDo (EvNew 0 0 (stub_ok 42)); XDo (EvCapsule 0 0 1); XWrap 0 1 2;
   XDo (EvWindowHandle 0 2)].

Definition literal_drop : list (XEvent StubWindow) :=
  [XHolderLit 0 0 (stub_ok 42); XDo (EvCapsule 0 0 1); XDo (EvSend 0 1 1);
   XDo (EvDrop 0 0); XDo (EvDrop 1 1)].

(** ** Facts *)

Section facts.
Context {W : Type} `{!HasWindowHandle W, !HasDisplayHandle W}.
Context (P : Policy W).
Implicit Types (F : Fields) (σ : World W) (a : XEvent W) (e : Event W).
Implicit Types (tr : list (XEvent W)).

(** With the fields of the code, a step of code outside the module is a
    step of the client of [Machine]. *)
Lemma xstep_code_fields a σ :
  xstep code_fields P a σ = match a with XDo e => step P e σ | _ => None end.
Proof. by destruct a. Qed.

Lemma xstep_code_fields_Done a σ σ' :
  xstep code_fields P a σ = Some (Done σ') → ∃ e, a = XDo e ∧ step P e σ = Some (Done σ').
Proof. rewrite xstep_code_fields. destruct a; [eauto|done..]. Qed.

Lemma reaches_XDo F (es : list (Event W)) σ σ' :
  reaches (xstep F P) σ (XDo <$> es) σ' ↔ reaches (step P) σ es σ'.
Proof.
  revert σ. induction es as [|e es IH]; intros σ; simpl.
  - by rewrite !reaches_nil.
  - rewrite !reaches_cons. by setoid_rewrite IH.
Qed.

Lemma reaches_code_fields tr σ σ' :
  reaches (xstep code_fields P) σ tr σ' →
  ∃ es, tr = XDo <$> es ∧ reaches (step P) σ es σ'.
Proof.
  revert σ. induction tr as [|a tr IH]; intros σ.
  - intros ->%reaches_nil. exists []. by rewrite reaches_nil.
  - intros (σ1 & (e & -> & He)%xstep_code_fields_Done & (es & -> & Hr)%IH)%reaches_cons.
    exists (e :: es). split; [done|]. rewrite reaches_cons. eauto.
Qed.

(** A step without [unsafe] that the privacy of [window] and of the
    accessor's field allows makes no accessor and reads no handle. *)
Lemma no_accessor_xstep F a σ σ' :
  gate_private F = true → xrequires_unsafe a = false → no_accessor σ →
  xstep F P a σ = Some (Done σ') → no_accessor σ'.
Proof.
  intros [Hw Ht]%andb_true_iff Ha Hno. apply bool_decide_eq_true in Hw, Ht.
  destruct a as [e|t x w|t x|t x|t x y]; simpl.
  - intros HS%step_Step. exact (no_accessor_Step P σ e σ' Ha Hno HS).
  - unfold xstep_holder_lit. case_decide; [|done].
    intros HS%step_Step. exact (no_accessor_Step _ σ (EvNew t x w) σ' eq_refl Hno HS).
  - unfold xstep_field_window_handle. rewrite Hw. by case_decide.
  - unfold xstep_field_display_handle. rewrite Hw. by case_decide.
  - unfold xstep_wrap. rewrite Ht. by case_decide.
Qed.

Lemma no_accessor_reaches F tr σ :
  gate_private F = true → Forall (λ a, xrequires_unsafe a = false) tr →
  reaches (xstep F P) init tr σ → no_accessor σ.
Proof.
  intros HF. revert σ. induction tr as [|a tr IH] using rev_ind; intros σ Hsafe.
  - intros <-%reaches_nil. apply no_accessor_init.
  - apply Forall_app in Hsafe as [Htr Ha%Forall_inv].
    intros (σ1 & Hr & HS)%reaches_snoc. eapply no_accessor_xstep; eauto.
Qed.

(** With [reference] private, the first step of code outside the module
    is a call of [new]. *)
Lemma xstep_init_new F a σ :
  reference_vis F = Private →
  xstep F P a init = Some (Done σ) → may_new P = true.
Proof.
  intros HF. destruct a as [e|t x w|t x|t x|t x y]; simpl.
  - by intros [? _]%step_init_new.
  - unfold xstep_holder_lit. rewrite HF. by case_decide.
  - unfold xstep_field_window_handle, borrow. simpl. rewrite lookup_empty. by case_decide.
  - unfold xstep_field_display_handle, borrow. simpl. rewrite lookup_empty. by case_decide.
  - unfold xstep_wrap, owned. simpl. rewrite lookup_empty. by case_decide.
Qed.

(** The counter does not rest on the privacy of the fields: the
    expressions that need a visible field keep the invariant of
    [Lifetime], and none is undefined. *)
Lemma refcount_inv_xstep_wrap F t x y σ σ' :
  refcount_inv σ → xstep_wrap F t x y σ = Some (Done σ') → refcount_inv σ'.
Proof.
  unfold xstep_wrap, refcount_inv. intros Hinv Hs. case_decide; [|done].
  destruct (owned t x σ) as [[|rhw|]|] eqn:Hx; try done.
  destruct (is_free y σ) eqn:Hy; [|done]. simplify_eq.
  apply owned_Some in Hx. apply is_free_true in Hy.
  rewrite owners_bind_fresh by (simpl; by rewrite lookup_delete_None; right).
  by rewrite (owners_unbind σ x t _ None (mem σ) Hx) in Hinv.
Qed.

Lemma refcount_inv_xstep F : inductive_invariant (xstep F P) refcount_inv.
Proof.
  intros [e|t x w|t x|t x|t x y] σ σ' Hinv; simpl.
  - by apply refcount_inv_inductive.
  - unfold xstep_holder_lit. case_decide; [|done].
    by apply (refcount_inv_inductive (literal_policy P)).
  - unfold xstep_field_window_handle. case_decide; [|done].
    destruct (borrow P t x σ) as [[|rhw|]|]; try done. intros [= Hs].
    apply with_heap_Done in Hs as (r & h & [-> _]%window_handle_inv & ->). done.
  - unfold xstep_field_display_handle. case_decide; [|done].
    destruct (borrow P t x σ) as [[|rhw|]|]; try done. intros [= Hs].
    apply with_heap_Done in Hs as (r & h & [-> _]%display_handle_inv & ->). done.
  - by apply refcount_inv_xstep_wrap.
Qed.

Lemma xstep_not_Undef F a σ : refcount_inv σ → xstep F P a σ ≠ Some Undef.
Proof.
  intros Hinv. destruct a as [e|t x w|t x|t x|t x y]; simpl.
  - by apply step_not_Undef.
  - unfold xstep_holder_lit. case_decide; [|done].
    by apply (step_not_Undef (literal_policy P)).
  - unfold xstep_field_window_handle. case_decide; [|done].
    destruct (borrow P t x σ) as [[|rhw|]|] eqn:Hb; try done.
    intros [= Hu%with_heap_Undef%window_handle_Undef].
    destruct (borrow_live P _ _ _ _ Hinv Hb) as [c Hc].
    unfold ThreadLocked_ptr in Hu. simpl in *. congruence.
  - unfold xstep_field_display_handle. case_decide; [|done].
    destruct (borrow P t x σ) as [[|rhw|]|] eqn:Hb; try done.
    intros [= Hu%with_heap_Undef%display_handle_Undef].
    destruct (borrow_live P _ _ _ _ Hinv Hb) as [c Hc].
    unfold ThreadLocked_ptr in Hu. simpl in *. congruence.
  - unfold xstep_wrap. case_decide; [|done].
    destruct (owned t x σ) as [[|rhw|]|]; try done. by destruct (is_free y σ).
Qed.

End facts.

(** The clients [field_read] and [wrapped] have no [unsafe] and read a
    handle when the field they use is [pub]. *)
Lemma field_read_reads F :
  window_vis F = Pub →
  Forall (λ a, xrequires_unsafe a = false) field_read ∧
  ∃ σ, reaches (xstep F stub_policy) init field_read σ ∧ users σ = [0].
Proof.
  intros HF. split; [by repeat constructor|].
  destruct F as [r w u]. simpl in HF. subst w.
  eexists. split; [by vm_compute|done].
Qed.

Lemma wrapped_reads F :
  tuple_vis F = Pub →
  Forall (λ a, xrequires_unsafe a = false) wrapped ∧
  ∃ σ, reaches (xstep F stub_policy) init wrapped σ ∧ users σ = [0].
Proof.
  intros HF. split; [by repeat constructor|].
  destruct F as [r w u]. simpl in HF. subst u.
  eexists. split; [by vm_compute|done].
Qed.

(** ** The guarantees *)

Section guarantees.
Context {W : Type} `{!HasWindowHandle W, !HasDisplayHandle W}.
Context (P : Policy W).


(** Code outside the module that has no [unsafe] block owns no
    accessor and reads no handle, with the fields as the code declares
    them. *)
Theorem safe_code_reads_no_handle (tr : list (XEvent W)) (σ : World W) :
  Forall (λ a, xrequires_unsafe a = false) tr →
  reaches (xstep code_fields P) init tr σ → no_accessor σ.
Proof. by apply no_accessor_reaches. Qed.

(** Whatever the visibility of the fields, no run of code outside the
    module is undefined: what a [pub] field would cost is the gate and the
    bound, not the window's memory. *)
Theorem field_access_memory_safe (F : Fields) (tr : list (XEvent W)) :
  run (xstep F P) tr init ≠ Some Undef.
Proof.
  apply (invariant_run_not_Undef (xstep F P) refcount_inv).
  - apply refcount_inv_xstep.
  - intros a σ. apply xstep_not_Undef.
  - apply refcount_inv_init.
Qed.

End guarantees.

(** C15: The gate rests on the privacy of two fields: code without
    [unsafe] reads no handle, for every window type, policy and client,
    exactly when the field [window] of the capsule and the field of the
    accessor are private.  The visibility of [reference] does not
    matter to it. *)
Theorem gate_needs_private_fields (F : Fields) :
  gate_private F = true ↔
  ∀ (W : Type) (HW : HasWindowHandle W) (HD : HasDisplayHandle W) (P : Policy W)
    (tr : list (XEvent W)) (σ : World W),
    Forall (λ a, xrequires_unsafe a = false) tr →
    reaches (xstep F P) init tr σ → users σ = [].
Proof.
  split.
  - intros HF W HW HD P tr σ Hsafe Hr.
    by destruct (no_accessor_reaches P F tr σ HF Hsafe Hr).
  - intros Hgate. unfold gate_private.
    destruct (window_vis F) eqn:Hw.
    { destruct (field_read_reads F Hw) as (Hsafe & σ & Hr & Hu).
      by rewrite (Hgate _ _ _ _ _ _ Hsafe Hr) in Hu. }
    destruct (tuple_vis F) eqn:Ht; [|done].
    destruct (wrapped_reads F Ht) as (Hsafe & σ & Hr & Hu).
    by rewrite (Hgate _ _ _ _ _ _ Hsafe Hr) in Hu.
Qed.

(** The bound of [new] rests on the privacy of [reference]: every
    window that code outside the module creates, shares or destroys is of
    a type that is [Send] and [Sync], for every window type and client,
    exactly when the field is private. *)
Theorem bound_needs_private_reference (F : Fields) :
  reference_vis F = Private ↔
  ∀ (W : Type) (HW : HasWindowHandle W) (HD : HasDisplayHandle W) (w : Ty)
    (tr : list (XEvent W)) (σ : World W),
    reaches (xstep F (derived_policy w)) init tr σ → tr ≠ [] → shareable w.
Proof.
  split.
  - intros HF W HW HD w [|a tr] σ Hr Hne; [done|].
    apply reaches_cons in Hr as (σ1 & Ha & _).
    apply andb_true_iff. exact (xstep_init_new (derived_policy w) F a σ1 HF Ha).
  - intros Hbound. destruct (reference_vis F) eqn:Hr; [|done].
    destruct F as [r wv u]. simpl in Hr. subst r.
    destruct (Hbound StubWindow _ _ local_window [XHolderLit 0 0 (stub_ok 42)]
                (world_of (run (step (literal_policy (derived_policy local_window)))
                             [EvNew 0 0 (stub_ok 42)] init))) as [[=] _]; by vm_compute.
Qed.

(** With [reference] public, a window that is neither [Send] nor [Sync]
    is created on thread 0 and destroyed on thread 1, by code without
    [unsafe], although [new] has its bound. *)
Example literal_holder_foreign_destructor :
  let F := {| reference_vis := Pub; window_vis := Private; tuple_vis := Private |} in
  Forall (λ a, xrequires_unsafe a = false) literal_drop ∧
  run (xstep code_fields (derived_policy local_window)) literal_drop init = None ∧
  ∃ σ, reaches (xstep F (derived_policy local_window)) init literal_drop σ ∧
       destroyed σ = [stub_ok 42] ∧ vars σ = ∅.
Proof.
  split; [by repeat constructor|]. split; [by vm_compute|].
  eexists. split; [by vm_compute|]. by vm_compute.
Qed.

(** ** On the stub window *)

Lemma safe_code_reads_no_handle_witness :
  no_accessor (world_of (run (step stub_policy) (take 3 leak) init)).
Proof.
  apply (safe_code_reads_no_handle stub_policy (XDo <$> take 3 leak)).
  - by repeat constructor.
  - by vm_compute.
Defined.
