(* ===== verification/Observation.v ===== *)
(** * What the client observes

    The window behind a handle is read, never written: while a variable
    holds a holder, capsule or accessor, the window it refers to is the one
    it referred to at first, whatever the other threads create, clone and
    drop in between.  What a thread gets back from [deref],
    [window_handle] and [display_handle] is therefore what a window the
    client created reports; the program adds and changes nothing. *)

From S2P Require Import Prelude RawWindowHandle Sync Holder Capsule Accessor Marker Machine.
From S2P Require Import Lifetime.

(** ** Definitions *)

(** The event drops variable [x]. *)
Definition drops {W} (x : var) (e : Event W) : bool :=
  match e with
  | EvDrop _ y => bool_decide (y = x)
  | _ => false
  end.

(** The method table of a capsule or accessor is the one of the window
    type. *)
Definition value_vtable_ok {W} `{!HasWindowHandle W, !HasDisplayHandle W}
    (v : Value W) : Prop :=
  match v with
  | VWindowWrapper _ => True
  | VRawHandleWrapper rhw => dyn_vtable (window rhw) = vtable_of W
  | VThreadLocked a => dyn_vtable (window (_0 a)) = vtable_of W
  end.

Definition vtable_inv {W} `{!HasWindowHandle W, !HasDisplayHandle W}
    (σ : World W) : Prop :=
  ∀ x t v, vars σ !! x = Some (t, v) → value_vtable_ok v.

(** An observation is what one of the windows [ws] reports. *)
Definition obs_ok {W} `{!HasWindowHandle W, !HasDisplayHandle W}
    (ws : list W) (o : Obs W) : Prop :=
  match o with
  | ObsDeref _ w => w ∈ ws
  | ObsWindowHandle _ r => ∃ w, w ∈ ws ∧ r = window_handle w
  | ObsDisplayHandle _ r => ∃ w, w ∈ ws ∧ r = display_handle w
  end.

(** The window a value refers to. *)
Definition window_of {W} (σ : World W) (v : Value W) : option W :=
  data <$> mem σ !! value_ptr v.

(** A client whose window binding fails: it reads both handles through an
    accessor, one before and one after the holder is dropped. *)
Definition dead_client : list (Event StubWindow) :=
  [EvNew 0 0 (stub_dead 7); EvCapsule 0 0 1; EvGetHandle 0 1 2;
   EvWindowHandle 0 2; EvDrop 0 0; EvDisplayHandle 0 2].

(** ** Facts *)

Section facts.
Context {W : Type} `{!HasWindowHandle W, !HasDisplayHandle W}.
Context (P : Policy W).
Implicit Types (σ : World W) (t : tid) (x y : var) (v : Value W) (h : heap W).
Implicit Types (tr : list (Event W)) (e : Event W).

(** No step writes to a window. *)
Lemma Step_data_kept σ e σ' : Step P σ e σ' → data_kept (mem σ) (mem σ').
Proof.
  intros HS. Step_cases HS; simpl.
  - by eapply WindowWrapper_new_data_kept.
  - apply WindowWrapper_deref_frame in Hop as ->. apply data_kept_refl.
  - by eapply RawHandleWrapper_new_data_kept.
  - by eapply RawHandleWrapper_clone_data_kept.
  - by eapply RawHandleWrapper_get_handle_data_kept.
  - apply window_handle_inv in Hop as [-> _]. apply data_kept_refl.
  - apply display_handle_inv in Hop as [-> _]. apply data_kept_refl.
  - rewrite drop_value_arc in Hop. by eapply drop_data_kept.
  - apply data_kept_refl.
Qed.

(** A variable keeps its value until it is dropped; only its owner may
    change. *)
Lemma Step_keeps_var σ e σ' z tz vz :
  Step P σ e σ' → vars σ !! z = Some (tz, vz) → drops z e = false →
  ∃ t', vars σ' !! z = Some (t', vz).
Proof.
  intros HS Hv Hd. Step_cases HS; simpl in *; eauto;
    try (exists tz; rewrite lookup_insert_ne; [done|congruence]).
  - exists tz. rewrite lookup_delete_ne; [done|].
    intros ->. by rewrite bool_decide_eq_false in Hd.
  - apply owned_Some in Hx. destruct (decide (z = x)) as [->|Hne].
    + exists t'. rewrite lookup_insert_eq. congruence.
    + exists tz. by rewrite lookup_insert_ne.
Qed.

Lemma created_snoc tr e :
  created (tr ++ [e]) =
  created tr ++ match e with EvNew _ _ w => [w] | _ => [] end.
Proof. unfold created. rewrite omap_app. by destruct e. Qed.

Lemma created_mono tr e w : w ∈ created tr → w ∈ created (tr ++ [e]).
Proof. rewrite created_snoc, elem_of_app. auto. Qed.

Lemma obs_ok_mono tr e o : obs_ok (created tr) o → obs_ok (created (tr ++ [e])) o.
Proof.
  destruct o as [t w|t r|t r]; simpl.
  - apply created_mono.
  - intros (w & Hw & ->). exists w. split; [by apply created_mono|done].
  - intros (w & Hw & ->). exists w. split; [by apply created_mono|done].
Qed.

(** A window that is alive was created by the client. *)
Lemma live_created tr σ l c :
  reaches (step P) init tr σ → mem σ !! l = Some c → data c ∈ created tr.
Proof.
  intros Hr%reaches_balance Hl.
  assert (data c ∈ destroyed σ ++ live σ) as Hin.
  { apply elem_of_app. right. by apply (map_values_elem_of data _ l). }
  rewrite Hr in Hin. unfold live in Hin. simpl in Hin.
  by rewrite map_values_empty, app_nil_r in Hin.
Qed.

(** The tables are those of the window type in every world. *)
Lemma vtable_inv_Step σ e σ' : vtable_inv σ → Step P σ e σ' → vtable_inv σ'.
Proof.
  intros Hinv HS z tz vz.
  Step_cases HS; simpl; try by apply Hinv.
  - intros [[<- [= <- <-]]|[_ ?]]%lookup_insert_Some; [done|by eapply Hinv].
  - apply RawHandleWrapper_new_inv in Hop as (c & _ & _ & [= ->] & _).
    intros [[<- [= <- <-]]|[_ ?]]%lookup_insert_Some; [done|by eapply Hinv].
  - apply RawHandleWrapper_clone_inv in Hop as (c' & _ & _ & -> & _).
    apply borrow_Some in Hb as (o & Hb & _).
    intros [[<- [= <- <-]]|[_ ?]]%lookup_insert_Some; [|by eapply Hinv].
    apply (Hinv _ _ _ Hb).
  - apply RawHandleWrapper_get_handle_inv in Hop as [-> _].
    apply borrow_Some in Hb as (o & Hb & _).
    intros [[<- [= <- <-]]|[_ ?]]%lookup_insert_Some; [|by eapply Hinv].
    apply (Hinv _ _ _ Hb).
  - intros [_ ?]%lookup_delete_Some. by eapply Hinv.
  - apply owned_Some in Hx.
    intros [[<- [= <- <-]]|[_ ?]]%lookup_insert_Some; [|by eapply Hinv].
    apply (Hinv _ _ _ Hx).
Qed.

Lemma reachable_vtable_inv σ : reachable P σ → vtable_inv σ.
Proof.
  intros Hr. eapply (invariant_reachable (step P)); [| |exact Hr].
  - intros e s s' Hs HS%step_Step. by eapply vtable_inv_Step.
  - intros x t v Hx. simpl in Hx. by rewrite lookup_empty in Hx.
Qed.

(** One step adds an observation that is what a live window reports. *)
Lemma Step_observed tr σ e σ' :
  reaches (step P) init tr σ → Step P σ e σ' →
  Forall (obs_ok (created tr)) (observed σ) →
  Forall (obs_ok (created (tr ++ [e]))) (observed σ').
Proof.
  intros Hr HS Hobs.
  assert (Forall (obs_ok (created (tr ++ [e]))) (observed σ)) as Hold.
  { eapply list.Forall_impl; [exact Hobs|]. intros o. apply obs_ok_mono. }
  assert (vtable_inv σ) as Hvt by (apply reachable_vtable_inv; by exists tr).
  Step_cases HS; simpl; try done; apply list.Forall_cons; (split; [simpl|done]).
  - apply deref_inv in Hop as (_ & c & Hc & ->).
    apply created_mono. by eapply live_created.
  - apply window_handle_inv in Hop as (_ & c & Hc & ->).
    apply borrow_Some in Hb as (o & Hb & _). rewrite (Hvt _ _ _ Hb).
    exists (data c). split; [|done]. apply created_mono. by eapply live_created.
  - apply display_handle_inv in Hop as (_ & c & Hc & ->).
    apply borrow_Some in Hb as (o & Hb & _). rewrite (Hvt _ _ _ Hb).
    exists (data c). split; [|done]. apply created_mono. by eapply live_created.
Qed.

(** While a variable is not dropped it holds the same value, and the value
    refers to the same window. *)
Lemma reaches_window_kept tr σ σ' x t v :
  refcount_inv σ → reaches (step P) σ tr σ' →
  vars σ !! x = Some (t, v) → Forall (λ e, drops x e = false) tr →
  ∃ t', vars σ' !! x = Some (t', v) ∧ is_Some (window_of σ v) ∧
        window_of σ' v = window_of σ v.
Proof.
  revert σ t. induction tr as [|e tr IH]; intros σ t Hinv Hr Hx Hk.
  - apply reaches_nil in Hr as <-. exists t. split; [done|]. split; [|done].
    unfold window_of. apply fmap_is_Some. by eapply refcount_inv_live.
  - apply reaches_cons in Hr as (σ1 & HS%step_Step & Hr).
    apply list.Forall_cons in Hk as [Hd Hk].
    destruct (Step_keeps_var _ _ _ _ _ _ HS Hx Hd) as [t1 Hx1].
    pose proof (refcount_inv_Step P _ _ _ Hinv HS) as Hinv1.
    destruct (IH _ _ Hinv1 Hr Hx1 Hk) as (t' & Hx' & _ & Hw).
    exists t'. split; [done|].
    destruct (refcount_inv_live _ _ _ _ Hinv Hx) as [c Hc].
    destruct (refcount_inv_live _ _ _ _ Hinv1 Hx1) as [c1 Hc1].
    unfold window_of in *. rewrite Hw, Hc, Hc1. simpl. split; [done|].
    f_equal. by eapply (Step_data_kept _ _ _ HS).
Qed.

End facts.

(** ** The guarantees *)

Section guarantees.
Context {W : Type} `{!HasWindowHandle W, !HasDisplayHandle W}.
Context (P : Policy W).
Implicit Types (σ : World W) (t : tid) (x y : var) (v : Value W) (h : heap W).
Implicit Types (tr : list (Event W)) (e : Event W).

(** C18: Whatever the client does in between, on any thread, a holder, capsule
    or accessor that is not dropped refers to the window it referred to
    before: the window is alive and it is the same window, also after the
    holder it was made from is gone. *)
Theorem window_stable_while_held tr σ σ' x t v :
  reachable P σ → reaches (step P) σ tr σ' →
  vars σ !! x = Some (t, v) → Forall (λ e, drops x e = false) tr →
  ∃ t' w, vars σ' !! x = Some (t', v) ∧
          window_of σ v = Some w ∧ window_of σ' v = Some w.
Proof.
  intros Hinv%reachable_refcount_inv Hr Hx Hk.
  destruct (reaches_window_kept P _ _ _ _ _ _ Hinv Hr Hx Hk)
    as (t' & Hx' & [w Hw] & Hw').
  exists t', w. by rewrite Hw', Hw.
Qed.

(** C34: Everything a thread gets back from [deref], [window_handle] and
    [display_handle] is what a window the client created reports, a handle
    or an error: the program passes it through unchanged. *)
Theorem observations_pass_through tr σ :
  reaches (step P) init tr σ → Forall (obs_ok (created tr)) (observed σ).
Proof.
  revert σ. induction tr as [|e tr IH] using rev_ind; intros σ.
  - intros <-%reaches_nil. constructor.
  - intros (σ1 & Hr & HS%step_Step)%reaches_snoc.
    eapply Step_observed; eauto.
Qed.

End guarantees.

(** ** On concrete clients *)

(** The accessor returns the binding's error; nothing aborts and nothing
    is undefined. *)
Example dead_client_reads_errors :
  observed (world_of (run (step stub_policy) dead_client init))
  = [ObsDisplayHandle 0 (Err Unavailable); ObsWindowHandle 0 (Err Unavailable)].
Proof. by vm_compute. Qed.

Lemma window_stable_while_held_witness :
  let σ := world_of (run (step stub_policy) (take 2 scenario) init) in
  let σ' := world_of (run (step stub_policy) scenario init) in
  ∃ t' w, vars σ' !! 1 = Some (t', VRawHandleWrapper {| window := unsize {| ptr := 1%positive |} |}) ∧
          window_of σ (VRawHandleWrapper {| window := unsize {| ptr := 1%positive |} |}) = Some w ∧
          window_of σ' (VRawHandleWrapper {| window := unsize {| ptr := 1%positive |} |}) = Some w.
Proof.
  apply (window_stable_while_held stub_policy (drop 2 scenario) _ _ 1 0).
  - apply reachable_world_of. vm_compute. eauto.
  - by vm_compute.
  - by vm_compute.
  - by repeat constructor.
Defined.

Lemma observations_pass_through_witness :
  Forall (obs_ok (created dead_client))
    (observed (world_of (run (step stub_policy) dead_client init))).
Proof. apply (observations_pass_through stub_policy). by vm_compute. Defined.
