(* ===== verification/Derive.v ===== *)
(** * What the structs derive

    [WindowWrapper] derives [Debug] (raw_handle.rs, line 16),
    [RawHandleWrapper] derives [Clone] and [Component] (line 46), and
    [ThreadLockedRawWindowHandleWrapper] derives nothing (line 94).  The
    holder is not [Clone]: a window has the one holder that [new]
    returned, and the further handles of its cell are capsules and
    accessors.  The [Deref] implementation is the holder's (line 30), so
    a window is dereferenced through its holder or not at all: once the
    holder is dropped the window may be alive, behind its capsules, and
    no thread can borrow it any more; what is left is to read its
    handles through an accessor.  This is the state of a window that the
    owning subsystem has closed while a frame is in flight. *)

From S2P Require Import Prelude RawWindowHandle Sync Holder Capsule Accessor Marker Machine.
From S2P Require Import Lifetime Observation.

(** ** Definitions *)

(** The traits that a [derive] attribute of the file names. *)
Inductive Derivable : Type := DeriveDebug | DeriveClone | DeriveComponent.

#[export] Instance Derivable_eq_dec : EqDecision Derivable.
Proof. solve_decision. Defined.

(** [#[derive(Debug)]] (line 16). *)
Definition WindowWrapper_derives : list Derivable := [DeriveDebug].

(** [#[derive(Clone, Component)]] (line 46). *)
Definition RawHandleWrapper_derives : list Derivable := [DeriveClone; DeriveComponent].

(** The accessor has no [derive] attribute (line 94). *)
Definition ThreadLocked_derives : list Derivable := [].

Definition value_derives {W} (v : Value W) : list Derivable :=
  match v with
  | VWindowWrapper _ => WindowWrapper_derives
  | VRawHandleWrapper _ => RawHandleWrapper_derives
  | VThreadLocked _ => ThreadLocked_derives
  end.

(** A value with a method [clone]. *)
Definition cloneable {W} (v : Value W) : bool :=
  bool_decide (DeriveClone ∈ value_derives v).

(** The variable [x] is a holder of the cell [l]. *)
Definition holds {W} (σ : World W) (x : var) (l : loc) : Prop :=
  ∃ t ww, vars σ !! x = Some (t, VWindowWrapper ww) ∧ ptr (reference ww) = l.

(** A cell has one holder at most. *)
Definition one_holder {W} (σ : World W) : Prop :=
  ∀ x y l, holds σ x l → holds σ y l → x = y.

(** The events that make a holder. *)
Definition makes_holder {W} (e : Event W) : bool :=
  match e with EvNew _ _ _ => true | _ => false end.

(** The main world closes its window while the renderer has a capsule:
    thread 0 makes a holder and a capsule, sends a clone of the capsule
    to thread 1 and drops its two values. *)
Definition closed_in_flight : list (Event StubWindow) :=
  [EvNew 0 0 (stub_ok 42); EvCapsule 0 0 1; EvClone 0 1 2; EvSend 0 2 1;
   EvDrop 0 1; EvDrop 0 0].

(** Then the main world opens another window and the renderer draws a
    frame to the first. *)
Definition frame : list (Event StubWindow) :=
  [EvNew 0 4 (stub_ok 43); EvGetHandle 1 2 3; EvWindowHandle 1 3; EvDrop 1 3].

Definition in_flight_world : World StubWindow :=
  world_of (run (step stub_policy) (closed_in_flight ++ frame) init).

(** The capsule of the first window. *)
Definition renderer_capsule : Value StubWindow :=
  VRawHandleWrapper {| window := unsize {| ptr := 1%positive |} |}.

(** ** Facts *)

Section facts.
Context {W : Type} `{!HasWindowHandle W, !HasDisplayHandle W}.
Context (P : Policy W).
Implicit Types (σ : World W) (t : tid) (x y : var) (v : Value W) (h : heap W).
Implicit Types (l : loc) (e : Event W).

Lemma cloneable_capsule v : cloneable v = true ↔ ∃ rhw, v = VRawHandleWrapper rhw.
Proof.
  destruct v as [ww|rhw|a]; (split; [intros Hc|intros [? ?]]); try done; try by eauto.
Qed.

(** A holder after a variable is bound, and after one is removed. *)
Lemma holds_bind σ x t v h y l :
  holds (bind_var x t v σ h) y l →
  (y = x ∧ ∃ ww, v = VWindowWrapper ww ∧ ptr (reference ww) = l) ∨ (y ≠ x ∧ holds σ y l).
Proof.
  intros (t' & ww & Hy & Hl). simpl in Hy. destruct (decide (y = x)) as [->|Hne].
  - rewrite lookup_insert_eq in Hy. simplify_eq. left. eauto.
  - rewrite lookup_insert_ne in Hy by done. right. split; [done|]. by exists t', ww.
Qed.

Lemma holds_unbind σ x o h y l :
  holds (unbind_var x o σ h) y l → y ≠ x ∧ holds σ y l.
Proof.
  intros (t' & ww & Hy & Hl). simpl in Hy.
  apply lookup_delete_Some in Hy as [Hne Hy]. split; [done|]. by exists t', ww.
Qed.

Lemma holds_move σ x t t' v h y l :
  vars σ !! x = Some (t, v) → holds (bind_var x t' v σ h) y l → holds σ y l.
Proof.
  intros Hx [(-> & ww & -> & Hl)|[_ Hh]]%holds_bind; [|done]. by exists t, ww.
Qed.

(** A holder refers to a cell that is there. *)
Lemma holds_live σ x l : refcount_inv σ → holds σ x l → is_Some (mem σ !! l).
Proof.
  intros Hinv (t & ww & Hx & <-). exact (refcount_inv_live σ x t _ Hinv Hx).
Qed.

(** Only [new] makes a holder, of a cell that it allocates. *)
Lemma Step_holds σ e σ' (z : var) l :
  Step P σ e σ' → holds σ' z l →
  holds σ z l ∨ (makes_holder e = true ∧ mem σ !! l = None).
Proof.
  intros HS Hz. Step_cases HS; try (by left);
    try (apply holds_bind in Hz as [(_ & ? & [=] & _)|[_ ?]]; by left).
  - apply WindowWrapper_new_inv in Hop as [Hl _].
    apply holds_bind in Hz as [(_ & ? & [= <-] & <-)|[_ ?]]; [by right|by left].
  - apply holds_unbind in Hz as [_ ?]. by left.
  - apply owned_Some in Hx. left. by eapply holds_move.
Qed.

(** A step keeps the holders apart: a new holder is of a cell that had
    none. *)
Lemma one_holder_Step σ e σ' :
  refcount_inv σ → one_holder σ → Step P σ e σ' → one_holder σ'.
Proof.
  intros Hinv Hone HS a b l Ha Hb.
  destruct (Step_holds σ e σ' a l HS Ha) as [Ha0|[He Hl]];
    destruct (Step_holds σ e σ' b l HS Hb) as [Hb0|[_ Hl']].
  - by apply (Hone a b l).
  - destruct (holds_live σ a l Hinv Ha0) as [c Hc]. congruence.
  - destruct (holds_live σ b l Hinv Hb0) as [c Hc]. congruence.
  - destruct e; try done. inv HS.
    apply holds_bind in Ha as [[-> _]|[_ Ha]], Hb as [[-> _]|[_ Hb]]; try done.
    + destruct (holds_live σ b l Hinv Hb) as [c Hc]. congruence.
    + destruct (holds_live σ a l Hinv Ha) as [c Hc]. congruence.
    + destruct (holds_live σ a l Hinv Ha) as [c Hc]. congruence.
Qed.

Lemma reachable_one_holder σ : reachable P σ → one_holder σ.
Proof.
  intros Hr.
  cut (refcount_inv σ ∧ one_holder σ); [by intros [_ ?]|].
  eapply (invariant_reachable (step P) (λ σ, refcount_inv σ ∧ one_holder σ)); [| |exact Hr].
  - intros e σ1 σ2 [Hinv Hone] HS. split; [by eapply refcount_inv_inductive|].
    apply step_Step in HS. by eapply one_holder_Step.
  - split; [apply refcount_inv_init|]. intros x y l (t & ww & Hx & _).
    simpl in Hx. by rewrite lookup_empty in Hx.
Qed.

(** A cell that a handle keeps alive gets no holder. *)
Lemma no_holder_kept tr σ σ' l y t v :
  refcount_inv σ → reaches (step P) σ tr σ' →
  vars σ !! y = Some (t, v) → value_ptr v = l → Forall (λ e, drops y e = false) tr →
  (∀ z, ¬ holds σ z l) → ∀ z, ¬ holds σ' z l.
Proof.
  revert σ t. induction tr as [|e tr IH]; intros σ t Hinv Hr Hy Hl Hk Hno.
  - by apply reaches_nil in Hr as <-.
  - apply reaches_cons in Hr as (σ1 & HS%step_Step & Hr).
    apply list.Forall_cons in Hk as [Hd Hk].
    destruct (Step_keeps_var P _ _ _ _ _ _ HS Hy Hd) as [t1 Hy1].
    apply (IH σ1 t1); [by eapply refcount_inv_Step|done..|].
    intros z Hz. destruct (Step_holds σ e σ1 z l HS Hz) as [?|[_ Hnone]]; [by eapply Hno|].
    destruct (refcount_inv_live σ y t v Hinv Hy) as [c Hc]. congruence.
Qed.

(** The drop of the holder of a cell leaves the cell without one. *)
Lemma drop_holder_none σ t x ww σ' :
  reachable P σ → vars σ !! x = Some (t, VWindowWrapper ww) →
  Step P σ (EvDrop t x) σ' → ∀ z, ¬ holds σ' z (ptr (reference ww)).
Proof.
  intros Hr Hx HS z Hz. inv HS. apply holds_unbind in Hz as [Hne Hz]. apply Hne.
  apply (reachable_one_holder σ Hr z x (ptr (reference ww))); [done|]. by exists t, ww.
Qed.

(** A deref is of a holder. *)
Lemma step_deref_holds σ t x o :
  step P (EvDeref t x) σ = Some o → ∃ l, holds σ x l.
Proof.
  simpl. unfold step_deref. destruct (borrow P t x σ) as [[ww| |]|] eqn:Hb; try done.
  apply borrow_Some in Hb as (t0 & Hx & _). intros _. exists (ptr (reference ww)).
  by exists t0, ww.
Qed.

End facts.

(** ** What follows *)

Section guarantees.
Context {W : Type} `{!HasWindowHandle W, !HasDisplayHandle W}.
Context (P : Policy W).
Implicit Types (σ : World W) (t : tid) (x y : var) (l : loc).

(** The clone of the client is the derived one: a client clones a value
    exactly when the type of the value derives [Clone], which of the
    three is the capsule. *)
Theorem clone_needs_derive σ t x y :
  is_Some (step P (EvClone t x y) σ) ↔
  ∃ v, borrow P t x σ = Some v ∧ cloneable v = true ∧ vars σ !! y = None.
Proof.
  simpl. unfold step_clone. split.
  - destruct (borrow P t x σ) as [[ww|rhw|a]|]; try by intros [? [=]].
    destruct (is_free y σ) eqn:Hy; [|by intros [? [=]]].
    intros _. exists (VRawHandleWrapper rhw). by apply is_free_true in Hy.
  - intros (v & -> & (rhw & ->)%cloneable_capsule & Hy%is_free_true). by rewrite Hy.
Qed.

(** A window has one holder: in every world a client reaches, two
    variables that hold the same cell are the same variable. *)
Theorem holder_unique σ x y l :
  reachable P σ → holds σ x l → holds σ y l → x = y.
Proof. intros Hr. exact (reachable_one_holder P σ Hr x y l). Qed.

(** C20: The window is borrowed through its holder or not at all: when the
    holder of a window is dropped while another handle of the window, a
    capsule or an accessor, stays, then whatever the threads do, the
    making of further windows included, the window is alive and the same,
    no variable holds its cell, and every deref that a thread is allowed
    is of another window. *)
Theorem deref_ends_with_holder σ t x ww σ' y ty v tr σ'' :
  reachable P σ → vars σ !! x = Some (t, VWindowWrapper ww) →
  step P (EvDrop t x) σ = Some (Done σ') →
  vars σ' !! y = Some (ty, v) → value_ptr v = ptr (reference ww) →
  Forall (λ e, drops y e = false) tr → reaches (step P) σ' tr σ'' →
  (is_Some (window_of σ'' v) ∧ window_of σ'' v = window_of σ (VWindowWrapper ww)) ∧
  (∀ z, ¬ holds σ'' z (ptr (reference ww))) ∧
  ∀ t' z o, step P (EvDeref t' z) σ'' = Some o →
            ∃ l, l ≠ ptr (reference ww) ∧ holds σ'' z l.
Proof.
  intros Hr Hx HS%step_Step Hy Hl Hk Htr.
  pose proof (reachable_refcount_inv P σ Hr) as Hinv.
  pose proof (refcount_inv_Step P σ _ σ' Hinv HS) as Hinv'.
  assert (∀ z, ¬ holds σ'' z (ptr (reference ww))) as Hno.
  { apply (no_holder_kept P tr σ' σ'' _ y ty v); [done..|].
    by apply (drop_holder_none P σ t x ww). }
  split; [|split; [done|]].
  - destruct (reaches_window_kept P tr σ' σ'' y ty v Hinv' Htr Hy Hk) as (_ & _ & Hs & Hw).
    rewrite Hw. split; [done|]. unfold window_of in *. rewrite Hl in *. simpl.
    destruct (refcount_inv_live σ x t _ Hinv Hx) as [c Hc]. simpl in Hc. rewrite Hc.
    destruct (mem σ' !! ptr (reference ww)) as [c'|] eqn:Hc'; [|by destruct Hs].
    simpl. f_equal. by apply (Step_data_kept P σ _ σ' HS (ptr (reference ww)) c c').
  - intros t' z o' [l Hz]%step_deref_holds. exists l. split; [|done].
    intros ->. by apply (Hno z).
Qed.

End guarantees.

(** ** On the stub window *)

Lemma deref_ends_with_holder_witness :
  (is_Some (window_of in_flight_world renderer_capsule) ∧
   window_of in_flight_world renderer_capsule =
     window_of (world_of (run (step stub_policy) (take 5 closed_in_flight) init))
       (VWindowWrapper {| reference := {| ptr := 1%positive |} |})) ∧
  (∀ z, ¬ holds in_flight_world z 1%positive) ∧
  ∀ t' z o, step stub_policy (EvDeref t' z) in_flight_world = Some o →
            ∃ l, l ≠ 1%positive ∧ holds in_flight_world z l.
Proof.
  apply (deref_ends_with_holder stub_policy
           (world_of (run (step stub_policy) (take 5 closed_in_flight) init)) 0 0
           {| reference := {| ptr := 1%positive |} |}
           (world_of (run (step stub_policy) closed_in_flight init))
           2 1 renderer_capsule frame).
  - exists (take 5 closed_in_flight). by vm_compute.
  - by vm_compute.
  - by vm_compute.
  - by vm_compute.
  - done.
  - by repeat constructor.
  - by vm_compute.
Defined.

(** After the main world has closed the window, the window is alive
    behind the capsule of the renderer, which reads its handle through an
    accessor; no thread can dereference it. *)
Example closed_in_flight_no_deref :
  ∃ σ, reaches (step stub_policy) init closed_in_flight σ ∧
       data <$> mem σ !! 1%positive = Some (stub_ok 42) ∧ destroyed σ = [] ∧
       (∀ t x, step stub_policy (EvDeref t x) σ = None) ∧
       ∃ σ', reaches (step stub_policy) σ [EvGetHandle 1 2 3; EvWindowHandle 1 3] σ' ∧
             observed σ' = [ObsWindowHandle 1 (Ok (MkWindowHandle 42))].
Proof.
  eexists. split; [by vm_compute|]. split; [by vm_compute|]. split; [done|]. split.
  - intros t x. destruct (step stub_policy (EvDeref t x) _) as [o|] eqn:Hs; [|done].
    apply step_deref_holds in Hs as (l & t0 & ww & Hx & _). exfalso. revert Hx.
    vm_compute. repeat case_match; congruence.
  - eexists. split; by vm_compute.
Qed.
