(* ===== verification/Forget.v ===== *)
(** * Clients that forget

    Safe code may give a value up without running its destructor
    ([std::mem::forget], a cycle of references, a thread that never
    ends).  A handle that is forgotten stays counted: the counter of its
    cell is the number of the client's handles plus the number forgotten.
    The window of such a cell is never destroyed, which is safe.  It is
    also how a client reaches the bound of the counter with two
    variables: every [clone] whose result is forgotten adds one, and
    after [2^63 - 2] rounds the counter of a holder and a capsule is at
    [2^63], where the next clone, in [RawHandleWrapper::new]
    (raw_handle.rs, line 63), in the derived [Clone] (line 46) or in
    [get_handle] (line 74), aborts the process.  That abort is what
    [Arc::clone] checks the counter for: with an increment that wraps, the
    counter of a cell with two handles comes back to 1, and the drop of
    one of them frees the window under the other. *)

From S2P Require Import Prelude RawWindowHandle Sync Holder Capsule Accessor Marker Machine.
From S2P Require Import Lifetime Clones Observation.

(** ** Definitions *)

(** What a client that forgets does: an operation of [Machine], or it
    forgets the value of a variable. *)
Inductive LEvent (W : Type) : Type :=
| LDo (e : Event W)
| LForget (t : tid) (x : var).
Arguments LDo {W} e.
Arguments LForget {W} t x.

(** The world of the client and the handles it has forgotten, by their
    cell. *)
Record LWorld (W : Type) : Type := {
  client : World W;
  forgotten : gmultiset loc;
}.
Arguments client {W} _.
Arguments forgotten {W} _.

Definition linit {W} : LWorld W := {| client := init; forgotten := ∅ |}.

Definition with_client {W} (ω : LWorld W) (o : outcome (World W)) : outcome (LWorld W) :=
  match o with
  | Done σ => Done {| client := σ; forgotten := forgotten ω |}
  | Abort => Abort
  | Undef => Undef
  end.

Section lstep.
Context {W : Type} `{!HasWindowHandle W, !HasDisplayHandle W}.
Context (P : Policy W).
Implicit Types (ω : LWorld W) (t : tid) (x : var).

(** [std::mem::forget(x)]: the variable is gone, the heap is as it
    was. *)
Definition lstep_forget t x ω : option (outcome (LWorld W)) :=
  v ← owned t x (client ω);
  Some (Done {| client := unbind_var x None (client ω) (mem (client ω));
                forgotten := {[+ value_ptr v +]} ⊎ forgotten ω |}).

Definition lstep (a : LEvent W) ω : option (outcome (LWorld W)) :=
  match a with
  | LDo e => with_client ω <$> step P e (client ω)
  | LForget t x => lstep_forget t x ω
  end.

Definition lreachable ω : Prop := reachable_from lstep linit ω.

(** The invariant: the heap counts the handles of the client and those
    it has forgotten. *)
Definition leak_inv ω : Prop :=
  counts (mem (client ω)) (owners (client ω) ⊎ forgotten ω).

(** A round of the forgetful client: thread 0 clones its capsule and
    forgets the clone. *)
Definition forget_clone : list (LEvent W) := [LDo (EvClone 0 1 2); LForget 0 2].

(** A holder, a capsule, and [n] rounds. *)
Definition forgetful (w : W) (n : nat) : list (LEvent W) :=
  (LDo <$> clones w 0) ++ mjoin (replicate n forget_clone).

(** The world after the run: two variables, and a counter of [n + 2]. *)
Definition forget_world (w : W) (n : nat) : LWorld W :=
  {| client := {| mem := {[ first_loc := {| strong := Z.of_nat n + 2; data := w |} ]};
                  vars := clones_vars 0; destroyed := []; observed := [] |};
     forgotten := n *: {[+ first_loc +]} |}.

(** The world of a client that forgot one clone and dropped its holder
    and its capsule: no variable, and the window. *)
Definition leaked_world (w : W) : LWorld W :=
  {| client := {| mem := {[ first_loc := {| strong := 1; data := w |} ]};
                  vars := ∅; destroyed := []; observed := [] |};
     forgotten := 1 *: {[+ first_loc +]} |}.

End lstep.

(** [Arc::clone] without its check: the increment wraps. *)
Definition clone_wrapping {T} (a : Arc T) : exec (heap T) (Arc T) := λ h,
  match h !! ptr a with
  | Some c => Done (a, <[ptr a := {| strong := usize_wrap (strong c + 1); data := data c |}]> h)
  | None => Undef
  end.

(** The heap after [k] clones that are forgotten. *)
Fixpoint clones_forgotten {T} (clone : Arc T → exec (heap T) (Arc T)) (a : Arc T)
    (k : nat) (h : heap T) : outcome (heap T) :=
  match k with
  | 0 => Done h
  | S k =>
      match clone a h with
      | Done (_, h') => clones_forgotten clone a k h'
      | Abort => Abort
      | Undef => Undef
      end
  end.

(** ** Facts *)

Section facts.
Context {W : Type} `{!HasWindowHandle W, !HasDisplayHandle W}.
Context (P : Policy W).
Implicit Types (ω : LWorld W) (σ : World W) (t : tid) (x : var) (l : loc).
Implicit Types (a : LEvent W) (e : Event W) (w : W) (n : nat).

Lemma lstep_LDo_Done e ω ω' :
  lstep P (LDo e) ω = Some (Done ω') ↔
  ∃ σ', step P e (client ω) = Some (Done σ') ∧
        ω' = {| client := σ'; forgotten := forgotten ω |}.
Proof.
  simpl. destruct (step P e (client ω)) as [[σ'| |]|]; simpl; split;
    first [ by intros [= <-]; eauto | by intros (? & [=] & _) | idtac ].
  by intros (? & [= <-] & ->).
Qed.

Lemma lstep_forget_Done t x ω ω' :
  lstep P (LForget t x) ω = Some (Done ω') ↔
  ∃ v, vars (client ω) !! x = Some (t, v) ∧
       ω' = {| client := unbind_var x None (client ω) (mem (client ω));
               forgotten := {[+ value_ptr v +]} ⊎ forgotten ω |}.
Proof.
  simpl. unfold lstep_forget. destruct (owned t x (client ω)) as [v|] eqn:Hx; simpl.
  - apply owned_Some in Hx. split; [intros [= <-]; eauto|].
    intros (v' & Hx' & ->). by simplify_eq.
  - split; [done|]. intros (v & Hx'%owned_Some & _). congruence.
Qed.

Lemma leak_inv_init : leak_inv (linit : LWorld W).
Proof.
  unfold leak_inv, owners. simpl.
  rewrite map_multiset_empty, (right_id_L ∅ (⊎)). apply counts_empty.
Qed.

(** A handle that is forgotten is counted as it was. *)
Lemma leak_inv_inductive : inductive_invariant (lstep P) leak_inv.
Proof.
  intros [e|t x] ω ω' Hinv.
  - intros (σ' & HS%step_Step & ->)%lstep_LDo_Done. by eapply counts_Step.
  - intros (v & Hx & ->)%lstep_forget_Done. unfold leak_inv in *. simpl.
    rewrite (owners_unbind _ _ _ _ None (mem (client ω)) Hx) in Hinv.
    by rewrite (assoc_L (⊎)), (comm_L (⊎) _ {[+ value_ptr v +]}).
Qed.

Lemma lreachable_leak_inv ω : lreachable P ω → leak_inv ω.
Proof.
  apply (invariant_reachable (lstep P) leak_inv);
    [apply leak_inv_inductive|apply leak_inv_init].
Qed.

(** The cells of the client's values and of the forgotten handles are
    there. *)
Lemma leak_inv_live ω x t v :
  leak_inv ω → vars (client ω) !! x = Some (t, v) →
  is_Some (mem (client ω) !! value_ptr v).
Proof.
  intros Hinv Hx. apply (counts_lookup _ _ _ Hinv).
  pose proof (owners_lookup _ _ _ _ Hx) as Hpos. unfold handles_of in Hpos.
  rewrite multiplicity_disj_union. lia.
Qed.

Lemma leak_inv_forgotten ω l :
  leak_inv ω → l ∈ forgotten ω → is_Some (mem (client ω) !! l).
Proof.
  intros Hinv Hl. apply (counts_lookup _ _ _ Hinv).
  rewrite elem_of_multiplicity in Hl. rewrite multiplicity_disj_union. lia.
Qed.

Lemma lstep_not_Undef a ω : leak_inv ω → lstep P a ω ≠ Some Undef.
Proof.
  intros Hinv. destruct a as [e|t x]; simpl.
  - destruct (step P e (client ω)) as [[σ'| |]|] eqn:Hs; try done.
    apply step_Undef_dangling in Hs as (t & x & v & (o & Hx & _)%borrow_Some & Hl).
    destruct (leak_inv_live ω x o v Hinv Hx) as [c Hc]. congruence.
  - unfold lstep_forget. by destruct (owned t x (client ω)).
Qed.

(** A step forgets nothing of what is forgotten, and keeps the data of
    the cells. *)
Lemma lstep_forgotten a ω ω' l :
  lstep P a ω = Some (Done ω') → l ∈ forgotten ω →
  l ∈ forgotten ω' ∧ data_kept (mem (client ω)) (mem (client ω')).
Proof.
  destruct a as [e|t x].
  - intros (σ' & HS%step_Step & ->)%lstep_LDo_Done Hl. split; [done|].
    by eapply Step_data_kept.
  - intros (v & Hx & ->)%lstep_forget_Done Hl. split; [set_solver|apply data_kept_refl].
Qed.

(** The holder and the capsule, as a client that may forget. *)
Lemma reaches_LDo (es : list (Event W)) σ σ' F :
  reaches (step P) σ es σ' →
  reaches (lstep P) {| client := σ; forgotten := F |} (LDo <$> es)
    {| client := σ'; forgotten := F |}.
Proof.
  revert σ. induction es as [|e es IH]; intros σ; simpl.
  - by intros ->%reaches_nil; apply reaches_nil.
  - intros (σ1 & HS & Hr)%reaches_cons. apply reaches_cons.
    exists {| client := σ1; forgotten := F |}. split; [|by apply IH].
    apply lstep_LDo_Done. eauto.
Qed.

(** One round adds one to the counter and nothing to the variables. *)
Lemma forget_round w n :
  (Z.of_nat n + 2 ≤ MAX_REFCOUNT)%Z →
  reaches (lstep P) (forget_world w n) forget_clone (forget_world w (S n)).
Proof.
  intros Hle. apply reaches_cons. eexists. split.
  { apply lstep_LDo_Done. eexists. split; [|done]. apply step_Step.
    apply (Step_clone P (client (forget_world w n)) 0 1 2 first_capsule first_capsule
             {[ first_loc := {| strong := Z.of_nat (S n) + 2; data := w |} ]}); [|done|].
    - apply borrow_Some. exists 0. split; [apply (clones_vars_capsule 0)|by left].
    - simpl. erewrite RawHandleWrapper_clone_Done; [|by apply lookup_singleton_eq|by simpl].
      simpl. rewrite insert_singleton_eq, usize_wrap_incr by lia. do 4 f_equal. lia. }
  apply reaches_cons. eexists. split; [|by apply reaches_nil].
  apply lstep_forget_Done. exists (VRawHandleWrapper first_capsule).
  split; [by simpl; rewrite lookup_insert_eq|].
  unfold forget_world. simpl. f_equal. by rewrite gmultiset_scalar_mul_S_l.
Qed.

Lemma forgetful_reaches w n :
  may_new P = true → (Z.of_nat n + 1 ≤ MAX_REFCOUNT)%Z →
  reaches (lstep P) linit (forgetful w n) (forget_world w n).
Proof.
  intros Hnew Hle. unfold forgetful. apply reaches_app.
  exists (forget_world w 0). split.
  { unfold forget_world. rewrite gmultiset_scalar_mul_0.
    apply (reaches_LDo (clones w 0) init (clones_world w 0) ∅). by apply clones_0. }
  clear Hnew. induction n as [|n IH]; [by apply reaches_nil|].
  replace (S n) with (n + 1) at 1 by lia.
  rewrite replicate_add, join_app. simpl.
  apply reaches_app. exists (forget_world w n).
  split; [apply IH; lia|apply forget_round; lia].
Qed.

(** The operations that clone the [Arc] of a cell whose counter is above
    the bound abort: [RawHandleWrapper::new] on a holder, [clone] and
    [get_handle] on a capsule. *)
Lemma step_capsule_Abort σ t x y ww c :
  borrow P t x σ = Some (VWindowWrapper ww) → vars σ !! y = None →
  mem σ !! ptr (reference ww) = Some c → (strong c > MAX_REFCOUNT)%Z →
  step P (EvCapsule t x y) σ = Some Abort.
Proof.
  intros Hb Hy%is_free_true Hc Hgt. simpl. unfold step_capsule, with_heap.
  by rewrite Hb, Hy, (proj2 (RawHandleWrapper_new_Abort ww (mem σ))) by eauto.
Qed.

Lemma step_clone_Abort σ t x y rhw c :
  borrow P t x σ = Some (VRawHandleWrapper rhw) → vars σ !! y = None →
  mem σ !! RawHandleWrapper_ptr rhw = Some c → (strong c > MAX_REFCOUNT)%Z →
  step P (EvClone t x y) σ = Some Abort ∧ step P (EvGetHandle t x y) σ = Some Abort.
Proof.
  intros Hb Hy%is_free_true Hc Hgt. simpl.
  unfold step_clone, step_get_handle, with_heap. rewrite Hb, Hy.
  by rewrite (proj2 (RawHandleWrapper_clone_Abort rhw (mem σ))),
    (proj2 (RawHandleWrapper_get_handle_Abort rhw (mem σ))) by eauto.
Qed.

(** The variables of the forgetful client. *)
Lemma forget_world_borrow w n :
  borrow P 0 0 (client (forget_world w n)) = Some (VWindowWrapper first_holder) ∧
  borrow P 0 1 (client (forget_world w n)) = Some (VRawHandleWrapper first_capsule) ∧
  vars (client (forget_world w n)) !! 2 = None.
Proof.
  split_and!; [apply borrow_Some; exists 0; split; [done|by left]..|done].
Qed.

End facts.

(** The counter after [k] wrapping clones. *)
Lemma clones_forgotten_wrapping {T} (a : Arc T) (k : nat) (h : heap T) c :
  h !! ptr a = Some c → (0 ≤ strong c < usize_modulus)%Z →
  clones_forgotten clone_wrapping a k h =
    Done (<[ptr a := {| strong := usize_wrap (strong c + Z.of_nat k); data := data c |}]> h).
Proof.
  revert h c. induction k as [|k IH]; intros h c Hc Hr; simpl.
  - rewrite Z.add_0_r, usize_wrap_small by done. f_equal.
    rewrite insert_id; [done|]. by destruct c.
  - unfold clone_wrapping at 1. rewrite Hc.
    rewrite (IH _ {| strong := usize_wrap (strong c + 1); data := data c |});
      [|by rewrite lookup_insert_eq|simpl; unfold usize_wrap; apply Z.mod_pos_bound; done].
    simpl. rewrite insert_insert_eq. do 3 f_equal.
    unfold usize_wrap. rewrite Zplus_mod_idemp_l. f_equal. lia.
Qed.

(** With the check, the clones stop at the bound: a counter in its range
    does not get past [MAX_REFCOUNT + 1]. *)
Lemma clones_forgotten_checked {T} (a : Arc T) (k : nat) (h : heap T) c :
  h !! ptr a = Some c → (1 ≤ strong c ≤ MAX_REFCOUNT + 1)%Z →
  (strong c + Z.of_nat k > MAX_REFCOUNT + 1)%Z →
  clones_forgotten Arc.clone a k h = Abort.
Proof.
  revert h c. induction k as [|k IH]; intros h c Hc Hr Hk; simpl; [lia|].
  destruct (decide (strong c > MAX_REFCOUNT)%Z) as [Hgt|Hle].
  - by rewrite (clone_Abort a h c Hc Hgt).
  - rewrite (clone_Done a h c Hc) by lia.
    apply (IH _ {| strong := usize_wrap (strong c + 1); data := data c |});
      [by rewrite lookup_insert_eq|simpl; rewrite usize_wrap_incr; lia..].
Qed.

(** ** The guarantees *)

Section guarantees.
Context {W : Type} `{!HasWindowHandle W, !HasDisplayHandle W}.
Context (P : Policy W).
Implicit Types (ω : LWorld W) (l : loc).

(** C38: Forgetting is safe: whatever a client forgets, in every world it
    reaches no step is undefined, every counter is the number of the
    client's handles of the cell plus the number it has forgotten, and no
    counter has wrapped. *)
Theorem forgetting_is_safe ω a :
  lreachable P ω →
  lstep P a ω ≠ Some Undef ∧
  ∀ l c, mem (client ω) !! l = Some c →
         strong c = Z.of_nat (handles_of (client ω) l + multiplicity l (forgotten ω)) ∧
         (1 ≤ strong c ≤ MAX_REFCOUNT + 1)%Z.
Proof.
  intros Hinv%lreachable_leak_inv. split; [by apply lstep_not_Undef|].
  intros l c Hl. split; [|by apply (proj1 Hinv l c)].
  rewrite (counts_strong _ _ _ _ Hinv Hl), multiplicity_disj_union. done.
Qed.

(** A window with a forgotten handle is never destroyed: its cell is
    there, with the same window, in every world the client reaches
    afterwards. *)
Theorem forgotten_window_leaks ω l tr ω' :
  lreachable P ω → l ∈ forgotten ω → reaches (lstep P) ω tr ω' →
  ∃ c c', mem (client ω) !! l = Some c ∧ mem (client ω') !! l = Some c' ∧
          data c' = data c.
Proof.
  intros Hinv%lreachable_leak_inv. revert ω Hinv.
  induction tr as [|a tr IH]; intros ω Hinv Hl.
  - intros <-%reaches_nil. destruct (leak_inv_forgotten ω l Hinv Hl) as [c Hc]. eauto.
  - intros (ω1 & Ha & Hr)%reaches_cons.
    destruct (lstep_forgotten P a ω ω1 l Ha Hl) as [Hl1 Hkept].
    pose proof (leak_inv_inductive P a ω ω1 Hinv Ha) as Hinv1.
    destruct (IH ω1 Hinv1 Hl1 Hr) as (c1 & c' & Hc1 & Hc' & Hd).
    destruct (leak_inv_forgotten ω l Hinv Hl) as [c Hc].
    exists c, c'. split_and!; [done..|]. rewrite Hd. by apply (Hkept l c c1).
Qed.

(** C39: With two variables a client reaches the bound of the counter: a
    holder, a capsule and [n] clones that are forgotten run to a counter
    of [n + 2] for every [n] up to [MAX_REFCOUNT - 1], and at
    [MAX_REFCOUNT + 1] the three operations of the program that clone the
    [Arc] abort the process; the counter does not wrap. *)
Theorem forget_reaches_the_guard (w : W) (n : nat) :
  may_new P = true → (Z.of_nat n + 1 ≤ MAX_REFCOUNT)%Z →
  reaches (lstep P) linit (forgetful w n) (forget_world w n) ∧
  size (vars (client (forget_world w n))) = 2 ∧
  strong_at (mem (client (forget_world w n))) first_loc = (Z.of_nat n + 2)%Z ∧
  ((Z.of_nat n + 1 = MAX_REFCOUNT)%Z →
   ∀ e, e ∈ [EvCapsule 0 0 2; EvClone 0 1 2; EvGetHandle 0 1 2] →
        lstep P (LDo e) (forget_world w n) = Some Abort).
Proof.
  intros Hnew Hle. split; [by apply forgetful_reaches|].
  split; [apply (clones_vars_size 0)|].
  split; [by unfold strong_at; simpl; rewrite lookup_singleton_eq|].
  intros Hn e He. destruct (forget_world_borrow P w n) as (Hh & Hc & Hy).
  assert (mem (client (forget_world w n)) !! first_loc =
            Some {| strong := Z.of_nat n + 2; data := w |}) as Hl
    by apply lookup_singleton_eq.
  assert (Z.of_nat n + 2 > MAX_REFCOUNT)%Z as Hgt by lia.
  destruct (step_clone_Abort P _ 0 1 2 first_capsule _ Hc Hy Hl Hgt) as [Hclone Hget].
  pose proof (step_capsule_Abort P _ 0 0 2 first_holder _ Hh Hy Hl Hgt) as Hcap.
  repeat (apply elem_of_cons in He as [->|He]); [..|by apply elem_of_nil in He];
    simpl in *; by rewrite ?Hcap, ?Hclone, ?Hget.
Qed.

End guarantees.

(** The check of [Arc::clone] is what keeps forgetting safe: for a cell
    with a holder and a capsule, [2^64 - 1] clones that wrap, all
    forgotten, bring the counter back to 1, the drop of the capsule frees
    the window, and the deref of the holder is undefined; with the check,
    the same clones abort. *)
Theorem wrapping_clone_use_after_free {T} (w : T) (k : nat) :
  Z.of_nat k = (usize_modulus - 1)%Z →
  let a := {| ptr := first_loc |} in
  let h := {[ first_loc := {| strong := 2; data := w |} ]} in
  (∃ h1, clones_forgotten clone_wrapping a k h = Done h1 ∧
         strong_at h1 first_loc = 1%Z ∧
         ∃ h2, Arc.drop a h1 = Done (Some w, h2) ∧ Arc.deref a h2 = Undef) ∧
  clones_forgotten Arc.clone a k h = Abort.
Proof.
  intros Hk a h. subst a h. split.
  - eexists. split.
    { apply (clones_forgotten_wrapping _ k _ {| strong := 2; data := w |});
        [apply lookup_singleton_eq|done]. }
    simpl. rewrite Hk, insert_singleton_eq.
    replace (usize_wrap (2 + (usize_modulus - 1))) with 1%Z by done.
    split; [by unfold strong_at; rewrite lookup_singleton_eq|].
    eexists. split.
    + apply (drop_last _ _ {| strong := 1; data := w |}); [apply lookup_singleton_eq|done].
    + apply deref_Undef. simpl. by rewrite delete_singleton_eq.
  - apply (clones_forgotten_checked _ k _ {| strong := 2; data := w |});
      [apply lookup_singleton_eq|done|simpl; rewrite Hk; done].
Qed.

(** ** On the stub window *)

Lemma forgetting_is_safe_witness :
  lstep stub_policy (LDo (EvDrop 0 1)) (forget_world (stub_ok 42) 3) ≠ Some Undef ∧
  ∀ l c, mem (client (forget_world (stub_ok 42) 3)) !! l = Some c →
         strong c = Z.of_nat (handles_of (client (forget_world (stub_ok 42) 3)) l +
                              multiplicity l (forgotten (forget_world (stub_ok 42) 3))) ∧
         (1 ≤ strong c ≤ MAX_REFCOUNT + 1)%Z.
Proof.
  apply (forgetting_is_safe stub_policy (forget_world (stub_ok 42) 3) (LDo (EvDrop 0 1))).
  exists (forgetful (stub_ok 42) 3). by apply forgetful_reaches.
Defined.

Lemma forgotten_window_leaks_witness :
  ∃ c c', mem (client (forget_world (stub_ok 42) 1)) !! first_loc = Some c ∧
          mem (client (leaked_world (stub_ok 42))) !! first_loc = Some c' ∧
          data c' = data c.
Proof.
  apply (forgotten_window_leaks stub_policy (forget_world (stub_ok 42) 1) first_loc
           [LDo (EvDrop 0 0); LDo (EvDrop 0 1)]).
  - exists (forgetful (stub_ok 42) 1). by apply forgetful_reaches.
  - apply elem_of_multiplicity. by vm_compute.
  - by vm_compute.
Defined.

Lemma forget_reaches_the_guard_witness :
  reaches (lstep stub_policy) linit (forgetful (stub_ok 42) 3) (forget_world (stub_ok 42) 3) ∧
  size (vars (client (forget_world (stub_ok 42) 3))) = 2 ∧
  strong_at (mem (client (forget_world (stub_ok 42) 3))) first_loc = (Z.of_nat 3 + 2)%Z ∧
  ((Z.of_nat 3 + 1 = MAX_REFCOUNT)%Z →
   ∀ e, e ∈ [EvCapsule 0 0 2; EvClone 0 1 2; EvGetHandle 0 1 2] →
        lstep stub_policy (LDo e) (forget_world (stub_ok 42) 3) = Some Abort).
Proof. by apply (forget_reaches_the_guard stub_policy (stub_ok 42) 3). Defined.
