(* ===== verification/Ownership.v ===== *)
(** * Shared ownership, and the program as an implementation of it

    What the three types promise can be said without counters: a window
    is owned jointly by the holders, capsules and accessors that refer to
    it; making one more needs one that exists; the window is destroyed by
    the drop of the last one, and only by it.  [AStep] is this
    specification, a machine whose state has windows and no counters and
    whose allocator is free to choose.  The program implements it:
    forgetting the counters ([abs]) takes every step of [Machine] to a
    step of the specification, and whatever the specification allows,
    the program does, unless it aborts on a counter above
    [MAX_REFCOUNT]. *)

From S2P Require Import Prelude RawWindowHandle Sync Holder Capsule Accessor Marker Machine.
From S2P Require Import Lifetime.

(** ** The specification *)

Record AWorld (W : Type) : Type := {
  awindows : gmap loc W;
  avars : gmap var (tid * Value W);
  adestroyed : list W;
  aobserved : list (Obs W);
}.
Arguments awindows {W} _.
Arguments avars {W} _.
Arguments adestroyed {W} _.
Arguments aobserved {W} _.

Definition ainit {W} : AWorld W :=
  {| awindows := ∅; avars := ∅; adestroyed := []; aobserved := [] |}.

(** The world of the program without its counters. *)
Definition abs {W} (σ : World W) : AWorld W :=
  {| awindows := data <$> mem σ; avars := vars σ;
     adestroyed := destroyed σ; aobserved := observed σ |}.

Section spec.
Context {W : Type} `{!HasWindowHandle W, !HasDisplayHandle W}.
Context (P : Policy W).
Implicit Types (a : AWorld W) (t : tid) (x y : var) (v : Value W) (l : loc).

Definition abind x t v a : AWorld W :=
  {| awindows := awindows a; avars := <[x := (t, v)]> (avars a);
     adestroyed := adestroyed a; aobserved := aobserved a |}.

Definition aobserve (o : Obs W) a : AWorld W :=
  {| awindows := awindows a; avars := avars a;
     adestroyed := adestroyed a; aobserved := o :: aobserved a |}.

Definition aalloc l (w : W) a : AWorld W :=
  {| awindows := <[l := w]> (awindows a); avars := avars a;
     adestroyed := adestroyed a; aobserved := aobserved a |}.

Definition aunbind x a : AWorld W :=
  {| awindows := awindows a; avars := delete x (avars a);
     adestroyed := adestroyed a; aobserved := aobserved a |}.

Definition adestroy l (w : W) a : AWorld W :=
  {| awindows := delete l (awindows a); avars := avars a;
     adestroyed := w :: adestroyed a; aobserved := aobserved a |}.

(** The value of [x] as thread [t] may use it through a reference. *)
Definition aborrow t x a : option (Value W) :=
  '(o, v) ← avars a !! x;
  if bool_decide (o = t) || may_share P v then Some v else None.

(** Some variable other than [x] refers to window [l]. *)
Definition shared_with x l a : Prop :=
  ∃ y o v, y ≠ x ∧ avars a !! y = Some (o, v) ∧ value_ptr v = l.

Inductive AStep : AWorld W → Event W → AWorld W → Prop :=
| AStep_new a t x w l :
    may_new P = true → avars a !! x = None → awindows a !! l = None →
    AStep a (EvNew t x w)
      (abind x t (VWindowWrapper {| reference := {| ptr := l |} |}) (aalloc l w a))
| AStep_deref a t x ww w :
    aborrow t x a = Some (VWindowWrapper ww) →
    awindows a !! ptr (reference ww) = Some w →
    AStep a (EvDeref t x) (aobserve (ObsDeref t w) a)
| AStep_capsule a t x y ww :
    aborrow t x a = Some (VWindowWrapper ww) → avars a !! y = None →
    AStep a (EvCapsule t x y)
      (abind y t (VRawHandleWrapper {| window := unsize (reference ww) |}) a)
| AStep_clone a t x y rhw :
    aborrow t x a = Some (VRawHandleWrapper rhw) → avars a !! y = None →
    AStep a (EvClone t x y) (abind y t (VRawHandleWrapper rhw) a)
| AStep_get_handle a t x y rhw :
    aborrow t x a = Some (VRawHandleWrapper rhw) → avars a !! y = None →
    AStep a (EvGetHandle t x y) (abind y t (VThreadLocked {| _0 := rhw |}) a)
| AStep_window_handle a t x acc w :
    aborrow t x a = Some (VThreadLocked acc) →
    awindows a !! ThreadLocked_ptr acc = Some w →
    AStep a (EvWindowHandle t x)
      (aobserve (ObsWindowHandle t (vt_window_handle (dyn_vtable (window (_0 acc))) w)) a)
| AStep_display_handle a t x acc w :
    aborrow t x a = Some (VThreadLocked acc) →
    awindows a !! ThreadLocked_ptr acc = Some w →
    AStep a (EvDisplayHandle t x)
      (aobserve (ObsDisplayHandle t (vt_display_handle (dyn_vtable (window (_0 acc))) w)) a)
| AStep_drop_shared a t x v :
    avars a !! x = Some (t, v) → shared_with x (value_ptr v) a →
    AStep a (EvDrop t x) (aunbind x a)
| AStep_drop_last a t x v w :
    avars a !! x = Some (t, v) → ¬ shared_with x (value_ptr v) a →
    awindows a !! value_ptr v = Some w →
    AStep a (EvDrop t x) (adestroy (value_ptr v) w (aunbind x a))
| AStep_send a t x t' v :
    avars a !! x = Some (t, v) → may_send P v = true →
    AStep a (EvSend t x t') (abind x t' v a).

(** The traces of the specification. *)
Inductive ARun : AWorld W → list (Event W) → AWorld W → Prop :=
| ARun_nil a : ARun a [] a
| ARun_cons a e a' tr a'' : AStep a e a' → ARun a' tr a'' → ARun a (e :: tr) a''.

End spec.

(** ** The program implements the specification *)

Section refinement.
Context {W : Type} `{!HasWindowHandle W, !HasDisplayHandle W}.
Context (P : Policy W).
Implicit Types (σ : World W) (a : AWorld W) (t : tid) (x y : var) (v : Value W).
Implicit Types (h : heap W) (l : loc).

Lemma aborrow_abs t x σ : aborrow P t x (abs σ) = borrow P t x σ.
Proof. done. Qed.

(** Forgetting the counters commutes with the updates of the heap. *)
Lemma abs_alloc h l c : data <$> <[l := c]> h = <[l := data c]> (data <$> h).
Proof. apply fmap_insert. Qed.

Lemma abs_update h l c c' :
  h !! l = Some c → data c' = data c → data <$> <[l := c']> h = data <$> h.
Proof.
  intros Hl Hd. rewrite fmap_insert, Hd. apply insert_id.
  by rewrite lookup_fmap, Hl.
Qed.

Lemma abs_window h l c : h !! l = Some c → (data <$> h) !! l = Some (data c).
Proof. intros Hl. by rewrite lookup_fmap, Hl. Qed.

(** A handle is shared exactly when the rest of the variables still count
    for its cell. *)
Lemma shared_with_owners σ x t v o h :
  vars σ !! x = Some (t, v) →
  shared_with x (value_ptr v) (abs σ) ↔
  multiplicity (value_ptr v) (owners (unbind_var x o σ h)) ≠ 0.
Proof.
  intros Hx. unfold owners. simpl. split.
  - intros (y & o' & v' & Hne & Hy & Hp). simpl in Hy.
    pose proof (map_multiset_lookup (λ ov : tid * Value W, value_ptr ov.2)
                  (delete x (vars σ)) y (o', v')) as Hm.
    rewrite lookup_delete_ne in Hm by done. specialize (Hm Hy). simpl in Hm.
    rewrite Hp in Hm. lia.
  - intros Hm.
    destruct (map_multiset_elem (λ ov : tid * Value W, value_ptr ov.2)
                (delete x (vars σ)) (value_ptr v)) as (y & [o' v'] & Hy & Hp); [lia|].
    apply lookup_delete_Some in Hy as [Hne Hy]. by exists y, o', v'.
Qed.

(** A drop of the program is a drop of the specification: the counter
    says whether the handle was shared. *)
Lemma drop_AStep σ t x v o h :
  refcount_inv σ → vars σ !! x = Some (t, v) →
  drop_value v (mem σ) = Done (o, h) →
  AStep P (abs σ) (EvDrop t x) (abs (unbind_var x o σ h)).
Proof.
  intros Hinv Hx Hop. rewrite drop_value_arc in Hop.
  pose proof (shared_with_owners σ x t v o h Hx) as Hsh.
  unfold refcount_inv in Hinv.
  rewrite (owners_unbind _ _ _ _ o h Hx), <-value_arc_ptr in Hinv.
  destruct (drop_counts _ _ _ _ _ Hinv Hop) as [_ Hlast].
  rewrite value_arc_ptr in Hlast.
  apply drop_inv in Hop as (c & Hl & [(_ & -> & ->)|(_ & -> & ->)]);
    rewrite value_arc_ptr in *; unfold abs, unbind_var; simpl.
  - rewrite fmap_delete.
    apply (AStep_drop_last P (abs σ) t x v (data c)); [done| |by apply abs_window].
    rewrite Hsh. intros Hm. apply Hm, Hlast. eauto.
  - rewrite (abs_update _ _ _ _ Hl) by done.
    apply (AStep_drop_shared P (abs σ) t x v); [done|].
    apply Hsh. intros Hm%Hlast. by destruct Hm.
Qed.

(** Every step of the program is a step of the specification. *)
Lemma Step_AStep σ e σ' :
  refcount_inv σ → Step P σ e σ' → AStep P (abs σ) e (abs σ').
Proof.
  intros Hinv HS.
  Step_cases HS.
  - apply WindowWrapper_new_inv in Hop as [Hl ->]. destruct ww as [[l]].
    unfold abs, bind_var. simpl in *. rewrite abs_alloc.
    apply (AStep_new P (abs σ) t x w l); [done..|].
    simpl. by rewrite lookup_fmap, Hl.
  - apply deref_inv in Hop as (-> & c & Hc & ->).
    eapply (AStep_deref P (abs σ)); [exact Hb|]. by apply abs_window.
  - apply RawHandleWrapper_new_inv in Hop as (c & Hl & _ & [= ->] & ->).
    unfold abs, bind_var. simpl. rewrite (abs_update _ _ _ _ Hl) by done.
    by apply (AStep_capsule P (abs σ)).
  - apply RawHandleWrapper_clone_inv in Hop as (c' & Hl & _ & -> & ->).
    unfold abs, bind_var. simpl. rewrite (abs_update _ _ _ _ Hl) by done.
    by apply (AStep_clone P (abs σ)).
  - apply RawHandleWrapper_get_handle_inv in Hop as [-> Hop].
    apply RawHandleWrapper_clone_inv in Hop as (c' & Hl & _ & _ & ->).
    unfold abs, bind_var. simpl. rewrite (abs_update _ _ _ _ Hl) by done.
    by apply (AStep_get_handle P (abs σ)).
  - apply window_handle_inv in Hop as (-> & c & Hc & ->).
    eapply (AStep_window_handle P (abs σ)); [exact Hb|]. by apply abs_window.
  - apply display_handle_inv in Hop as (-> & c & Hc & ->).
    eapply (AStep_display_handle P (abs σ)); [exact Hb|]. by apply abs_window.
  - apply owned_Some in Hx. by eapply drop_AStep.
  - apply owned_Some in Hx. by apply (AStep_send P (abs σ)).
Qed.

Lemma reaches_ARun tr σ σ' :
  refcount_inv σ → reaches (step P) σ tr σ' → ARun P (abs σ) tr (abs σ').
Proof.
  revert σ. induction tr as [|e tr IH]; intros σ Hinv.
  - intros <-%reaches_nil. constructor.
  - intros (σ1 & HS%step_Step & Hr)%reaches_cons.
    econstructor; [by apply Step_AStep|].
    apply IH; [|done]. by eapply refcount_inv_Step.
Qed.

(** What the specification allows on the world of the program, the
    program does not refuse and does without undefined behaviour. *)
Lemma AStep_accepted σ e a' :
  refcount_inv σ → AStep P (abs σ) e a' →
  step P e σ = Some Abort ∨ ∃ σ', step P e σ = Some (Done σ').
Proof.
  intros Hinv HA.
  destruct (step P e σ) as [[σ'| |]|] eqn:Hs; [eauto|eauto| |].
  - apply step_Undef_dangling in Hs as (t & x & v & Hb & Hl).
    destruct (borrow_live P _ _ _ _ Hinv Hb) as [c Hc]. congruence.
  - exfalso. inv HA; simpl in Hs; step_unfold;
      repeat match goal with
      | H : aborrow _ _ _ (abs _) = _ |- _ => rewrite aborrow_abs in H
      | H : avars (abs _) !! _ = Some _ |- _ => apply owned_Some in H
      | H : avars (abs _) !! _ = None |- _ => apply is_free_true in H
      end;
      repeat match goal with
      | H : borrow _ _ _ _ = Some _ |- _ => rewrite H in Hs
      | H : owned _ _ _ = Some _ |- _ => rewrite H in Hs
      | H : is_free _ _ = true |- _ => rewrite H in Hs
      | H : may_new _ = true |- _ => rewrite H in Hs
      | H : may_send _ _ = true |- _ => rewrite H in Hs
      end; done.
Qed.

End refinement.

(** ** The guarantees *)

Section guarantees.
Context {W : Type} `{!HasWindowHandle W, !HasDisplayHandle W}.
Context (P : Policy W).

(** C5: Refinement: every run of a client of the program is, counters
    forgotten, a run of the specification of shared ownership. *)
Theorem program_refines_ownership tr σ :
  reaches (step P) init tr σ → ARun P ainit tr (abs σ).
Proof.
  intros Hr. change ainit with (abs (init : World W)).
  apply reaches_ARun; [apply refcount_inv_init|done].
Qed.

(** The other direction: in a reachable world, an operation that the
    specification allows is carried out by the program, which returns
    unless the counter is above [MAX_REFCOUNT]. *)
Theorem ownership_steps_are_taken σ e a' :
  reachable P σ → AStep P (abs σ) e a' →
  step P e σ = Some Abort ∨
  ∃ σ', step P e σ = Some (Done σ') ∧ AStep P (abs σ) e (abs σ').
Proof.
  intros Hinv%reachable_refcount_inv HA.
  destruct (AStep_accepted P _ _ _ Hinv HA) as [?|[σ' Hs]]; [by left|right].
  exists σ'. split; [done|]. by apply Step_AStep, step_Step.
Qed.

End guarantees.

(** ** On the concrete client *)

Lemma program_refines_ownership_witness :
  ARun stub_policy ainit scenario (abs scenario_world).
Proof. apply (program_refines_ownership stub_policy). by vm_compute. Defined.

Lemma ownership_steps_are_taken_witness :
  step stub_policy (EvDrop 0 4) scenario_world = Some Abort ∨
  ∃ σ', step stub_policy (EvDrop 0 4) scenario_world = Some (Done σ') ∧
        AStep stub_policy (abs scenario_world) (EvDrop 0 4) (abs σ').
Proof.
  apply (ownership_steps_are_taken stub_policy scenario_world (EvDrop 0 4)
           (aunbind 4 (abs scenario_world))).
  - apply scenario_reachable.
  - apply (AStep_drop_shared stub_policy (abs scenario_world) 0 4
             (VRawHandleWrapper {| window := unsize {| ptr := 1%positive |} |})).
    + by vm_compute.
    + exists 1, 0, (VRawHandleWrapper {| window := unsize {| ptr := 1%positive |} |}).
      split; [done|]. split; by vm_compute.
Defined.
