(* ===== verification/Concurrency.v ===== *)
(** * Independent operations commute

    The threads of a client run concurrently; the machine runs their
    operations one at a time.  Two operations that no variable connects
    (neither binds, drops or moves a variable that the other uses) and
    that do not allocate may be run in either order: both orders are
    accepted, both return, and they end in the same heap with the same
    variables, the same windows destroyed and the same values read, up
    to the order of the two logs.  So the outcome of a client does not
    depend on how the scheduler interleaves such operations: the counter
    updates of different threads on one window never interfere.

    Worlds are compared up to the order of the logs by [≡]. *)

From S2P Require Import Prelude RawWindowHandle Sync Holder Capsule Accessor Marker Machine.
From S2P Require Import Lifetime Observation.

(** ** Worlds up to the order of the logs *)

#[export] Instance world_equiv {W} : Equiv (World W) := λ σ σ',
  mem σ = mem σ' ∧ vars σ = vars σ' ∧
  destroyed σ ≡ₚ destroyed σ' ∧ observed σ ≡ₚ observed σ'.

(** ** Variables an event uses *)

(** The variables an event reads through a reference. *)
Definition reads {W} (e : Event W) : gset var :=
  match e with
  | EvDeref _ x | EvWindowHandle _ x | EvDisplayHandle _ x => {[x]}
  | EvCapsule _ x _ | EvClone _ x _ | EvGetHandle _ x _ => {[x]}
  | EvNew _ _ _ | EvDrop _ _ | EvSend _ _ _ => ∅
  end.

(** The variables an event binds, drops or moves. *)
Definition writes {W} (e : Event W) : gset var :=
  match e with
  | EvNew _ x _ => {[x]}
  | EvCapsule _ _ y | EvClone _ _ y | EvGetHandle _ _ y => {[y]}
  | EvDrop _ x | EvSend _ x _ => {[x]}
  | EvDeref _ _ | EvWindowHandle _ _ | EvDisplayHandle _ _ => ∅
  end.

Definition touched {W} (e : Event W) : gset var := reads e ∪ writes e.

Definition allocates {W} (e : Event W) : bool :=
  match e with EvNew _ _ _ => true | _ => false end.

(** Neither event allocates, and neither writes a variable the other
    uses.  Both may read the same variable. *)
Definition independent {W} (e1 e2 : Event W) : Prop :=
  allocates e1 = false ∧ allocates e2 = false ∧
  writes e1 ## touched e2 ∧ writes e2 ## touched e1.

#[export] Instance independent_dec {W} (e1 e2 : Event W) : Decision (independent e1 e2).
Proof. unfold independent. apply _. Defined.

(** What an event does to the variables, as a function of the variables. *)
Definition vupd {W} `{!HasWindowHandle W, !HasDisplayHandle W}
    (e : Event W) (m : gmap var (tid * Value W)) : gmap var (tid * Value W) :=
  match e with
  | EvCapsule t x y =>
      match m !! x with
      | Some (_, VWindowWrapper ww) =>
          <[y := (t, VRawHandleWrapper {| window := unsize (reference ww) |})]> m
      | _ => m
      end
  | EvClone t x y =>
      match m !! x with
      | Some (_, VRawHandleWrapper rhw) => <[y := (t, VRawHandleWrapper rhw)]> m
      | _ => m
      end
  | EvGetHandle t x y =>
      match m !! x with
      | Some (_, VRawHandleWrapper rhw) => <[y := (t, VThreadLocked {| _0 := rhw |})]> m
      | _ => m
      end
  | EvDrop t x => delete x m
  | EvSend t x t' =>
      match m !! x with
      | Some (_, v) => <[x := (t', v)]> m
      | None => m
      end
  | EvNew _ _ _ | EvDeref _ _ | EvWindowHandle _ _ | EvDisplayHandle _ _ => m
  end.

(** What an event adds to the log of values read. *)
Definition obs_of {W} (e : Event W) (σ : World W) : list (Obs W) :=
  match e with
  | EvDeref t x =>
      match vars σ !! x with
      | Some (_, VWindowWrapper ww) =>
          match mem σ !! ptr (reference ww) with
          | Some c => [ObsDeref t (data c)]
          | None => []
          end
      | _ => []
      end
  | EvWindowHandle t x =>
      match vars σ !! x with
      | Some (_, VThreadLocked a) =>
          match mem σ !! ThreadLocked_ptr a with
          | Some c => [ObsWindowHandle t (vt_window_handle (dyn_vtable (window (_0 a))) (data c))]
          | None => []
          end
      | _ => []
      end
  | EvDisplayHandle t x =>
      match vars σ !! x with
      | Some (_, VThreadLocked a) =>
          match mem σ !! ThreadLocked_ptr a with
          | Some c => [ObsDisplayHandle t (vt_display_handle (dyn_vtable (window (_0 a))) (data c))]
          | None => []
          end
      | _ => []
      end
  | _ => []
  end.

(** ** Two threads at the gate

    A window, a capsule and a clone of it that is sent to thread 1; then
    threads 0 and 1 each obtain an accessor from their capsule, read a
    handle and drop everything. *)

Definition two_gates_setup : list (Event StubWindow) :=
  [EvNew 0 0 (stub_ok 42); EvCapsule 0 0 1; EvClone 0 1 2; EvSend 0 2 1].

Definition two_gates_rest : list (Event StubWindow) :=
  [EvWindowHandle 0 10; EvDisplayHandle 1 20; EvDrop 0 10; EvDrop 1 20;
   EvDrop 0 0; EvDrop 0 1; EvDrop 1 2].

(** ** The equivalence *)

Section equiv.
Context {W : Type}.
Implicit Types (σ : World W).

#[export] Instance world_equivalence : Equivalence (≡@{World W}).
Proof.
  split.
  - by intros σ.
  - intros σ σ' (? & ? & ? & ?). by split_and!.
  - intros σ1 σ2 σ3 (? & ? & ? & ?) (? & ? & ? & ?).
    split_and!; by etrans.
Qed.

#[export] Instance mem_proper : Proper ((≡) ==> (=)) (@mem W).
Proof. by intros σ σ' (? & _). Qed.

#[export] Instance vars_proper : Proper ((≡) ==> (=)) (@vars W).
Proof. by intros σ σ' (_ & ? & _). Qed.

#[export] Instance destroyed_proper : Proper ((≡) ==> (≡ₚ)) (@destroyed W).
Proof. by intros σ σ' (_ & _ & ? & _). Qed.

#[export] Instance observed_proper : Proper ((≡) ==> (≡ₚ)) (@observed W).
Proof. by intros σ σ' (_ & _ & _ & ?). Qed.

#[export] Instance bind_var_proper x t v :
  Proper ((≡) ==> (=) ==> (≡)) (@bind_var W x t v).
Proof. intros σ σ' (? & Hv & ? & ?) h ? <-. split_and!; simpl; by rewrite ?Hv. Qed.

#[export] Instance observe_proper o :
  Proper ((≡) ==> (=) ==> (≡)) (@observe W o).
Proof.
  intros σ σ' (? & Hv & ? & Ho) h ? <-. split_and!; simpl; by rewrite ?Hv, ?Ho.
Qed.

#[export] Instance unbind_var_proper x o :
  Proper ((≡) ==> (=) ==> (≡)) (@unbind_var W x o).
Proof.
  intros σ σ' (? & Hv & Hd & ?) h ? <-. split_and!; simpl; by rewrite ?Hv, ?Hd.
Qed.

#[export] Instance live_proper : Proper ((≡) ==> (=)) (@live W).
Proof. intros σ σ' Heq. unfold live. by rewrite Heq. Qed.

End equiv.

(** ** A step respects the equivalence *)

Section proper.
Context {W : Type} `{!HasWindowHandle W, !HasDisplayHandle W}.
Context (P : Policy W).
Implicit Types (σ : World W) (e : Event W).

#[export] Instance borrow_proper t x : Proper ((≡) ==> (=)) (borrow P t x).
Proof. intros σ σ' Heq. unfold borrow. by rewrite Heq. Qed.

#[export] Instance owned_proper t x : Proper ((≡) ==> (=)) (@owned W t x).
Proof. intros σ σ' Heq. unfold owned. by rewrite Heq. Qed.

(** From equivalent worlds a step leads to equivalent worlds. *)
Lemma Step_proper σ1 σ2 e σ1' :
  σ1 ≡ σ2 → Step P σ1 e σ1' → ∃ σ2', Step P σ2 e σ2' ∧ σ1' ≡ σ2'.
Proof.
  intros Heq HS. Step_cases HS;
    (eexists; split; [econstructor; rewrite <-?Heq; eauto|by rewrite Heq]).
Qed.

Lemma reaches_proper tr σ1 σ2 σ1' :
  σ1 ≡ σ2 → reaches (step P) σ1 tr σ1' →
  ∃ σ2', reaches (step P) σ2 tr σ2' ∧ σ1' ≡ σ2'.
Proof.
  revert σ1 σ2. induction tr as [|e tr IH]; intros σ1 σ2 Heq.
  - intros <-%reaches_nil. exists σ2. by rewrite reaches_nil.
  - intros (σ & HS%step_Step & Hr)%reaches_cons.
    destruct (Step_proper _ _ _ _ Heq HS) as (σ' & HS' & Heq').
    destruct (IH _ _ Heq' Hr) as (σ2' & Hr' & Heq2).
    exists σ2'. split; [|done]. apply reaches_cons. exists σ'.
    by rewrite step_Step.
Qed.

End proper.

(** ** What a step does to the variables, the heap and the logs *)

Section effects.
Context {W : Type} `{!HasWindowHandle W, !HasDisplayHandle W}.
Context (P : Policy W).
Implicit Types (σ τ : World W) (e : Event W) (m : gmap var (tid * Value W)).

(** The variables after a step are [vupd] of the variables before. *)
Lemma Step_vupd σ e σ' :
  Step P σ e σ' → allocates e = false → vars σ' = vupd e (vars σ).
Proof.
  intros HS Hna. Step_cases HS; simpl in *; try done;
    repeat match goal with
    | H : borrow _ _ _ _ = Some _ |- _ => apply borrow_Some in H as (? & -> & _)
    | H : owned _ _ _ = Some _ |- _ => apply owned_Some in H as ->
    end; try done.
  - by apply RawHandleWrapper_new_inv in Hop as (? & _ & _ & [= ->] & _).
  - by apply RawHandleWrapper_clone_inv in Hop as (? & _ & _ & -> & _).
  - by apply RawHandleWrapper_get_handle_inv in Hop as [-> _].
Qed.

(** An event changes only the variables it writes. *)
Lemma vupd_other e m z : z ∉ writes e → vupd e m !! z = m !! z.
Proof.
  destruct e; simpl; intros Hz; repeat case_match; try done;
    first [ rewrite lookup_insert_ne by set_solver
          | rewrite lookup_delete_ne by set_solver ]; done.
Qed.

(** What it writes depends only on the variables it uses. *)
Lemma vupd_agree e m m' z :
  (∀ z', z' ∈ touched e → m !! z' = m' !! z') → z ∈ writes e →
  vupd e m !! z = vupd e m' !! z.
Proof.
  unfold touched. intros Hag Hz.
  destruct e; simpl in *; try set_solver;
    apply elem_of_singleton in Hz as ->;
    try (rewrite <-(Hag x) by set_solver; repeat case_match;
         rewrite ?lookup_insert_eq; try done; apply Hag; set_solver).
  by rewrite !lookup_delete_eq.
Qed.

Lemma vupd_size e m : size (vupd e m) ≤ S (size m).
Proof.
  destruct e; simpl; repeat case_match;
    rewrite ?map_size_insert, ?map_size_delete; repeat case_match; simpl; lia.
Qed.

(** The updates of independent events commute. *)
Lemma vupd_commute e1 e2 m :
  independent e1 e2 → vupd e2 (vupd e1 m) = vupd e1 (vupd e2 m).
Proof.
  intros (_ & _ & H12 & H21). apply map_eq. intros z.
  destruct (decide (z ∈ writes e1)) as [Hz1|Hz1];
    [|destruct (decide (z ∈ writes e2)) as [Hz2|Hz2]].
  - rewrite (vupd_other e2) by (unfold touched in *; set_solver).
    apply vupd_agree; [|done]. intros z' Hz'. symmetry.
    apply vupd_other. set_solver.
  - rewrite (vupd_other e1 (vupd e2 m)) by done.
    apply vupd_agree; [|done]. intros z' Hz'.
    apply vupd_other. set_solver.
  - by rewrite !vupd_other.
Qed.

(** Whether the compiler accepts an event depends only on the variables
    the event uses. *)
Lemma step_None_agree σ τ e :
  (∀ z, z ∈ touched e → vars σ !! z = vars τ !! z) →
  step P e σ = None → step P e τ = None.
Proof.
  unfold touched. intros Hag.
  destruct e; simpl in *; step_unfold; unfold borrow, owned, is_free;
    rewrite <-?(Hag x), <-?(Hag y) by set_solver;
    repeat case_match; simplify_eq/=; try done.
Qed.

(** A step that is not [new] allocates nothing. *)
Lemma Step_no_alloc σ e σ' l :
  Step P σ e σ' → allocates e = false →
  is_Some (mem σ' !! l) → is_Some (mem σ !! l).
Proof.
  intros HS Hna. Step_cases HS; simpl in *; try done.
  - by apply WindowWrapper_deref_frame in Hop as ->.
  - apply RawHandleWrapper_new_inv in Hop as (c' & Hl & _ & _ & ->).
    rewrite lookup_insert_is_Some. intros [<-|[_ ?]]; eauto.
  - apply RawHandleWrapper_clone_inv in Hop as (c' & Hl & _ & _ & ->).
    rewrite lookup_insert_is_Some. intros [<-|[_ ?]]; eauto.
  - apply RawHandleWrapper_get_handle_inv in Hop as [_ Hop].
    apply RawHandleWrapper_clone_inv in Hop as (c' & Hl & _ & _ & ->).
    rewrite lookup_insert_is_Some. intros [<-|[_ ?]]; eauto.
  - by apply window_handle_inv in Hop as [-> _].
  - by apply display_handle_inv in Hop as [-> _].
  - rewrite drop_value_arc in Hop.
    apply drop_inv in Hop as (c' & Hl & [(_ & _ & ->)|(_ & _ & ->)]).
    + by intros [c'' [_ ?]%lookup_delete_Some].
    + rewrite lookup_insert_is_Some. intros [<-|[_ ?]]; eauto.
Qed.

(** The values read by a step are [obs_of] the world before. *)
Lemma Step_obs σ e σ' :
  Step P σ e σ' → observed σ' = obs_of e σ ++ observed σ.
Proof.
  intros HS. Step_cases HS; simpl; try done;
    apply borrow_Some in Hb as (? & -> & _).
  - by apply deref_inv in Hop as (_ & c & -> & ->).
  - by apply window_handle_inv in Hop as (_ & c & -> & ->).
  - by apply display_handle_inv in Hop as (_ & c & -> & ->).
Qed.

(** They depend on the variables the event reads and on the windows
    behind them. *)
Lemma obs_of_agree σ τ e :
  refcount_inv σ → refcount_inv τ →
  (∀ z, z ∈ touched e → vars σ !! z = vars τ !! z) →
  data_kept (mem σ) (mem τ) → obs_of e σ = obs_of e τ.
Proof.
  unfold touched. intros Hσ Hτ Hag Hd.
  destruct e; simpl; try done; rewrite <-(Hag x) by set_solver;
    destruct (vars σ !! x) as [[o []]|] eqn:Hx; try done;
    destruct (refcount_inv_live _ _ _ _ Hσ Hx) as [c Hc];
    (assert (vars τ !! x = vars σ !! x) as Hx' by (symmetry; apply Hag; set_solver));
    rewrite Hx in Hx';
    destruct (refcount_inv_live _ _ _ _ Hτ Hx') as [c' Hc'];
    simpl in *; rewrite Hc, Hc'; by rewrite (Hd _ _ _ Hc Hc').
Qed.

End effects.

(** ** The diamond *)

Section diamond.
Context {W : Type} `{!HasWindowHandle W, !HasDisplayHandle W}.
Context (P : Policy W).
Implicit Types (σ τ : World W) (e : Event W).

(** With the invariant and room in the counters, an event that the
    compiler accepts returns. *)
Lemma step_Done σ e :
  refcount_inv σ → (Z.of_nat (size (vars σ)) ≤ MAX_REFCOUNT)%Z →
  step P e σ ≠ None → ∃ σ', step P e σ = Some (Done σ').
Proof.
  intros Hinv Hsize Hacc. destruct (step P e σ) as [[σ'| |]|] eqn:Hs; try done.
  - by exists σ'.
  - by destruct (step_not_Abort P σ e Hinv Hsize).
  - by destruct (step_not_Undef P σ e Hinv).
Qed.

(** A step leaves alone the variables that an independent event uses. *)
Lemma Step_agree σ e1 σ1 e2 :
  Step P σ e1 σ1 → allocates e1 = false → writes e1 ## touched e2 →
  ∀ z, z ∈ touched e2 → vars σ !! z = vars σ1 !! z.
Proof.
  intros HS Hna Hdisj z Hz. rewrite (Step_vupd P _ _ _ HS Hna).
  symmetry. apply vupd_other. set_solver.
Qed.

(** The cells after a step that is not [new] are cells from before, with
    the same windows. *)
Lemma Step_heap_sub σ e σ' l c' :
  Step P σ e σ' → allocates e = false → mem σ' !! l = Some c' →
  ∃ c, mem σ !! l = Some c ∧ data c' = data c.
Proof.
  intros HS Hna Hl. destruct (Step_no_alloc P _ _ _ l HS Hna) as [c Hc]; [eauto|].
  exists c. split; [done|]. by eapply (Step_data_kept P _ _ _ HS).
Qed.

(** An independent event that is accepted after a step was accepted
    before it, and returns. *)
Lemma independent_enabled σ e1 σ1 e2 σ12 :
  refcount_inv σ → (Z.of_nat (size (vars σ)) ≤ MAX_REFCOUNT)%Z →
  allocates e1 = false → writes e1 ## touched e2 →
  Step P σ e1 σ1 → Step P σ1 e2 σ12 → ∃ σ2, Step P σ e2 σ2.
Proof.
  intros Hinv Hsize Hna Hdisj HS1 HS2.
  destruct (step_Done σ e2 Hinv Hsize) as [σ2 Hs2].
  - intros Hn. apply (step_None_agree P σ σ1) in Hn; [|by eapply Step_agree].
    apply step_Step in HS2. congruence.
  - exists σ2. by apply step_Step.
Qed.

(** Two independent steps, taken in both orders, end in equivalent
    worlds. *)
Lemma diamond_equiv σ e1 e2 σ1 σ2 σ12 σ21 :
  refcount_inv σ → independent e1 e2 →
  Step P σ e1 σ1 → Step P σ1 e2 σ12 →
  Step P σ e2 σ2 → Step P σ2 e1 σ21 → σ12 ≡ σ21.
Proof.
  intros Hinv (Hn1 & Hn2 & H12 & H21) HA1 HA2 HB1 HB2.
  pose proof (refcount_inv_Step P _ _ _ Hinv HA1) as Hinv1.
  pose proof (refcount_inv_Step P _ _ _ Hinv HB1) as Hinv2.
  assert (vars σ12 = vars σ21) as Hvars.
  { rewrite (Step_vupd P _ _ _ HA2), (Step_vupd P _ _ _ HA1) by done.
    rewrite (Step_vupd P _ _ _ HB2), (Step_vupd P _ _ _ HB1) by done.
    by apply vupd_commute. }
  assert (mem σ12 = mem σ21) as Hmem.
  { apply (counts_unique _ _ (owners σ12)).
    - by apply (refcount_inv_Step P _ _ _ Hinv1 HA2).
    - unfold owners. rewrite Hvars. by apply (refcount_inv_Step P _ _ _ Hinv2 HB2).
    - intros l c c' Hc Hc'.
      destruct (Step_heap_sub _ _ _ _ _ HA2 Hn2 Hc) as (c1 & Hc1 & ->).
      destruct (Step_heap_sub _ _ _ _ _ HA1 Hn1 Hc1) as (c0 & Hc0 & ->).
      destruct (Step_heap_sub _ _ _ _ _ HB2 Hn1 Hc') as (c2 & Hc2 & ->).
      destruct (Step_heap_sub _ _ _ _ _ HB1 Hn2 Hc2) as (c0' & Hc0' & ->).
      congruence. }
  split; [done|]. split; [done|]. split.
  - assert (live σ12 = live σ21) as Hlive by (unfold live; by rewrite Hmem).
    apply (Permutation_app_inv_r (live σ12)).
    transitivity (destroyed σ21 ++ live σ21); [|by rewrite Hlive].
    rewrite (Step_balance P _ _ _ HA2), (Step_balance P _ _ _ HA1).
    rewrite (Step_balance P _ _ _ HB2), (Step_balance P _ _ _ HB1).
    unfold created. destruct e1, e2; simpl in *; done.
  - rewrite (Step_obs P _ _ _ HA2), (Step_obs P _ _ _ HA1).
    rewrite (Step_obs P _ _ _ HB2), (Step_obs P _ _ _ HB1).
    rewrite <-(obs_of_agree σ σ1 e2), <-(obs_of_agree σ σ2 e1);
      [|done|done|by eapply Step_agree|by eapply Step_data_kept
       |done|done|by eapply Step_agree|by eapply Step_data_kept].
    rewrite !(assoc_L (++)). f_equiv. apply Permutation_app_comm.
Qed.

End diamond.

(** ** Schedules *)

Section schedules.
Context {W : Type} `{!HasWindowHandle W, !HasDisplayHandle W}.
Context (P : Policy W).
Implicit Types (σ τ : World W) (e : Event W) (tr : list (Event W)).

(** A step binds at most one variable. *)
Lemma Step_size σ e σ' : Step P σ e σ' → size (vars σ') ≤ S (size (vars σ)).
Proof.
  intros HS%Step_values. destruct (makes_value e); lia.
Qed.

Lemma reaches_size tr σ σ' :
  reaches (step P) σ tr σ' → size (vars σ') ≤ length tr + size (vars σ).
Proof.
  revert σ. induction tr as [|e tr IH]; intros σ.
  - intros <-%reaches_nil. simpl. lia.
  - intros (σ1 & HS%step_Step%Step_size & Hr%IH)%reaches_cons. simpl. lia.
Qed.

(** After an independent step the other event is still accepted, and
    returns. *)
Lemma independent_enabled_after σ e1 σ1 e2 σ2 :
  refcount_inv σ → (Z.of_nat (size (vars σ)) < MAX_REFCOUNT)%Z →
  allocates e2 = false → writes e2 ## touched e1 →
  Step P σ e1 σ1 → Step P σ e2 σ2 → ∃ σ21, Step P σ2 e1 σ21.
Proof.
  intros Hinv Hsize Hna Hdisj HS1 HS2.
  destruct (step_Done P σ2 e1) as [σ21 Hs].
  - by eapply refcount_inv_Step.
  - pose proof (Step_size _ _ _ HS2). lia.
  - intros Hn. apply (step_None_agree P σ2 σ) in Hn.
    + apply step_Step in HS1. congruence.
    + intros z Hz. symmetry. by eapply Step_agree.
  - exists σ21. by apply step_Step.
Qed.

Lemma steps_commute σ e1 e2 σ1 σ12 :
  refcount_inv σ → independent e1 e2 →
  (Z.of_nat (size (vars σ)) < MAX_REFCOUNT)%Z →
  Step P σ e1 σ1 → Step P σ1 e2 σ12 →
  ∃ σ2 σ21, Step P σ e2 σ2 ∧ Step P σ2 e1 σ21 ∧ σ12 ≡ σ21.
Proof.
  intros Hinv Hind Hsize HA1 HA2. pose proof Hind as (Hn1 & Hn2 & H12 & H21).
  destruct (independent_enabled P σ e1 σ1 e2 σ12) as [σ2 HB1]; [done|lia|done..|].
  destruct (independent_enabled_after σ e1 σ1 e2 σ2) as [σ21 HB2]; [done..|].
  exists σ2, σ21. split; [done|]. split; [done|]. by eapply diamond_equiv.
Qed.

Lemma two_steps_commute σ e1 e2 σ12 :
  refcount_inv σ → independent e1 e2 →
  (Z.of_nat (size (vars σ)) < MAX_REFCOUNT)%Z →
  reaches (step P) σ [e1; e2] σ12 →
  ∃ σ21, reaches (step P) σ [e2; e1] σ21 ∧ σ12 ≡ σ21.
Proof.
  intros Hinv Hind Hsize.
  intros (σ1 & HA1%step_Step & (σ' & HA2%step_Step & <-%reaches_nil)%reaches_cons)%reaches_cons.
  destruct (steps_commute σ e1 e2 σ1 σ' Hinv Hind Hsize HA1 HA2)
    as (σ2 & σ21 & HB1%step_Step & HB2%step_Step & Heq).
  exists σ21. split; [|done]. apply reaches_cons. exists σ2. split; [done|].
  apply reaches_cons. exists σ21. split; [done|]. by apply reaches_nil.
Qed.

End schedules.

(** ** The guarantees *)

Section guarantees.
Context {W : Type} `{!HasWindowHandle W, !HasDisplayHandle W}.
Context (P : Policy W).
Implicit Types (σ τ : World W) (e : Event W) (tr : list (Event W)).

(** Two independent operations of a reachable world may be run in either
    order: when one order runs to its end so does the other, and the
    worlds they reach are the same up to the order of the logs. *)
Theorem independent_steps_commute σ e1 e2 σ12 :
  reachable P σ → independent e1 e2 →
  (Z.of_nat (size (vars σ)) < MAX_REFCOUNT)%Z →
  reaches (step P) σ [e1; e2] σ12 →
  ∃ σ21, reaches (step P) σ [e2; e1] σ21 ∧ σ12 ≡ σ21.
Proof. intros Hinv%reachable_refcount_inv. by apply two_steps_commute. Qed.

(** C32: The result of a client does not depend on the order in which the
    scheduler runs two adjacent independent operations, wherever they
    are in the run. *)
Theorem schedule_independence tr1 e1 e2 tr2 σ :
  independent e1 e2 → (Z.of_nat (length tr1) < MAX_REFCOUNT)%Z →
  reaches (step P) init (tr1 ++ e1 :: e2 :: tr2) σ →
  ∃ σ', reaches (step P) init (tr1 ++ e2 :: e1 :: tr2) σ' ∧ σ ≡ σ'.
Proof.
  intros Hind Hlen (σm & Hr1 & Hr)%reaches_app.
  apply (reaches_app _ [e1; e2] tr2) in Hr as (σ12 & Hr12 & Hr2).
  destruct (two_steps_commute P σm e1 e2 σ12) as (σ21 & Hr21 & Heq);
    [apply (reachable_refcount_inv P); by exists tr1|done| |done|].
  { pose proof (reaches_size P _ _ _ Hr1) as Hs. simpl in Hs.
    rewrite map_size_empty in Hs. lia. }
  destruct (reaches_proper P tr2 _ _ _ Heq Hr2) as (σ' & Hr2' & Heq').
  exists σ'. split; [|done]. apply reaches_app. exists σm. split; [done|].
  apply (reaches_app _ [e2; e1] tr2). eauto.
Qed.

End guarantees.

(** ** Two threads at the gate, in both orders *)

(** In both orders of the two calls of [get_handle] the counter reaches 5,
    and when everything is dropped the window has been destroyed once. *)
Example two_gates_destroy_once :
  let run_with gates := world_of (run (step stub_policy) (two_gates_setup ++ gates) init) in
  let gates01 := [EvGetHandle 0 1 10; EvGetHandle 1 2 20] in
  let gates10 := [EvGetHandle 1 2 20; EvGetHandle 0 1 10] in
  run_with gates01 = run_with gates10 ∧
  strong_at (mem (run_with gates01)) 1%positive = 5%Z ∧
  mem (run_with (gates01 ++ two_gates_rest)) = ∅ ∧
  destroyed (run_with (gates01 ++ two_gates_rest)) = [stub_ok 42] ∧
  destroyed (run_with (gates10 ++ two_gates_rest)) = [stub_ok 42].
Proof. by vm_compute. Qed.

Lemma independent_steps_commute_witness :
  let σ := world_of (run (step stub_policy) two_gates_setup init) in
  let σ12 := world_of (run (step stub_policy)
                         (two_gates_setup ++ [EvGetHandle 0 1 10; EvGetHandle 1 2 20]) init) in
  ∃ σ21, reaches (step stub_policy) σ [EvGetHandle 1 2 20; EvGetHandle 0 1 10] σ21 ∧
         σ12 ≡ σ21.
Proof.
  apply (independent_steps_commute stub_policy _ (EvGetHandle 0 1 10) (EvGetHandle 1 2 20)).
  - apply reachable_world_of. vm_compute. eauto.
  - apply (bool_decide_unpack _). by vm_compute.
  - by vm_compute.
  - by vm_compute.
Defined.

Lemma schedule_independence_witness :
  ∃ σ', reaches (step stub_policy) init
          (two_gates_setup ++ EvGetHandle 1 2 20 :: EvGetHandle 0 1 10 :: two_gates_rest) σ' ∧
        world_of (run (step stub_policy)
                    (two_gates_setup ++ EvGetHandle 0 1 10 :: EvGetHandle 1 2 20 :: two_gates_rest)
                    init) ≡ σ'.
Proof.
  apply (schedule_independence stub_policy two_gates_setup
           (EvGetHandle 0 1 10) (EvGetHandle 1 2 20) two_gates_rest).
  - apply (bool_decide_unpack _). by vm_compute.
  - by vm_compute.
  - by vm_compute.
Defined.
