(* ===== verification/Static.v ===== *)
(** * The ['static] bounds

    The window type of the program is bounded by ['static] at three
    places of raw_handle.rs: the [impl] block of [WindowWrapper::new]
    (line 21), the [impl] of [Deref] (line 30) and
    [RawHandleWrapper::new] (line 59).  A window whose type is not
    ['static] holds a reference to data of a region of the client, and is
    of use only while the region lasts.  For a value whose type names the
    lifetime the borrow checker sees to this: a [WindowWrapper<W>] has to
    be dropped before the region of a reference in [W] ends.  The capsule
    is different.  Its field is [Arc<dyn WindowTrait>] (line 48), which
    stands for [Arc<dyn WindowTrait + 'static>]: the type of the capsule
    names no lifetime whatever window is behind it, which is why it can
    be stored as a [Component], and why the compiler asks for the bound
    of line 59 at the coercion of line 63.  The borrow checker cannot keep
    a capsule inside a region; the bounds keep windows that borrow out of
    capsules.

    This file has the bounds as the code writes them, the clients of
    [Machine] with regions that end ([rstep]), and what the bounds are
    for: with ['static] in the bound of either constructor no client reads
    or destroys a window after the data it borrows is gone, with it in
    neither one client does, and the bound of [Deref] adds nothing. *)

From S2P Require Import Prelude RawWindowHandle Sync Holder Capsule Accessor Marker Machine.
From S2P Require Import Lifetime Observation Concurrency.

#[local] Set Warnings "-clear-no-such-hyp".

(** ** Definitions *)

(** A lifetime is the regions all of which it needs; ['static] needs
    none. *)
Definition region : Type := positive.
Definition lft : Type := gset region.
Definition static : lft := ∅.

(** A lifetime lasts while none of its regions has ended. *)
Definition lasts (α ended : lft) : Prop := α ## ended.

(** What a window type says of borrowing: the lifetime of the references
    in a window, and whether the type is ['static], in which case no
    window of it holds a reference. *)
Class Borrows (W : Type) : Type := {
  lft_of : W → lft;
  outlives_static : bool;
  outlives_static_sound : outlives_static = true → ∀ w, lft_of w = static;
}.

(** ** The bounds of the file *)

Inductive BoundAtom : Type :=
| OutlivesStatic
| AutoBound (tr : AutoTrait)
| HasWindowHandleBound
| HasDisplayHandleBound.

#[export] Instance BoundAtom_eq_dec : EqDecision BoundAtom.
Proof. solve_decision. Defined.

(** [impl<W: Send + Sync + 'static> WindowWrapper<W>] *)
Definition WindowWrapper_impl_bounds : list BoundAtom :=
  [AutoBound Send; AutoBound Sync; OutlivesStatic].

(** [impl<W: 'static> Deref for WindowWrapper<W>] *)
Definition Deref_impl_bounds : list BoundAtom := [OutlivesStatic].

(** [pub fn new<W: HasWindowHandle + HasDisplayHandle + 'static>] *)
Definition RawHandleWrapper_new_bounds : list BoundAtom :=
  [HasWindowHandleBound; HasDisplayHandleBound; OutlivesStatic].

(** The bounds of a program with the three declarations. *)
Record Bounds : Type := {
  new_bounds : list BoundAtom;
  deref_bounds : list BoundAtom;
  capsule_bounds : list BoundAtom;
}.

Definition code_bounds : Bounds := {|
  new_bounds := WindowWrapper_impl_bounds;
  deref_bounds := Deref_impl_bounds;
  capsule_bounds := RawHandleWrapper_new_bounds;
|}.

Definition requires_static (bs : list BoundAtom) : bool :=
  bool_decide (OutlivesStatic ∈ bs).

(** The bounds without ['static]. *)
Definition without_static (bs : list BoundAtom) : list BoundAtom :=
  filter (λ b, b ≠ OutlivesStatic) bs.

Definition no_static_bounds : Bounds := {|
  new_bounds := without_static WindowWrapper_impl_bounds;
  deref_bounds := without_static Deref_impl_bounds;
  capsule_bounds := without_static RawHandleWrapper_new_bounds;
|}.

(** ['static] in the bound of [WindowWrapper::new] only, and in that of
    [RawHandleWrapper::new] only. *)
Definition holder_bound_only : Bounds := {|
  new_bounds := WindowWrapper_impl_bounds;
  deref_bounds := without_static Deref_impl_bounds;
  capsule_bounds := without_static RawHandleWrapper_new_bounds;
|}.

Definition capsule_bound_only : Bounds := {|
  new_bounds := without_static WindowWrapper_impl_bounds;
  deref_bounds := without_static Deref_impl_bounds;
  capsule_bounds := RawHandleWrapper_new_bounds;
|}.

(** The auto traits among the bounds. *)
Definition auto_bounds (bs : list BoundAtom) : list AutoTrait :=
  omap (λ b, match b with AutoBound tr => Some tr | _ => None end) bs.

(** Some constructor asks for ['static]. *)
Definition guards (B : Bounds) : bool :=
  requires_static (new_bounds B) || requires_static (capsule_bounds B).

(** Whether a type is ['static], given whether the window type is: a
    trait object without a lifetime is ['static] by default. *)
Fixpoint ty_static (w_static : bool) (t : Ty) : bool :=
  match t with
  | TyParam _ _ => w_static
  | TyDynWindowTrait | TyRawPointer => true
  | TyPhantomData t' | TyArc t' => ty_static w_static t'
  | TyStruct _ fields => forallb (ty_static w_static) fields
  end.

(** ** Clients with regions *)

(** A client also ends regions. *)
Inductive REvent (W : Type) : Type :=
| RDo (e : Event W)
| REnd (r : region).
Arguments RDo {W} e.
Arguments REnd {W} r.

Record RWorld (W : Type) : Type := {
  inner : World W;
  ended : lft;
}.
Arguments inner {W} _.
Arguments ended {W} _.

Definition rinit {W} : RWorld W := {| inner := init; ended := ∅ |}.

Section rstep.
Context {W : Type} `{!HasWindowHandle W, !HasDisplayHandle W, !Borrows W}.
Context (B : Bounds) (P : Policy W).
Implicit Types (σ : World W) (ω : RWorld W) (e : Event W) (r : region).

(** The window type meets a bound, as far as ['static] goes; the auto
    traits are in the policy [P]. *)
Definition meets (bs : list BoundAtom) : bool :=
  negb (requires_static bs) || outlives_static.

(** The calls that the compiler accepts for the window type; a window
    that the client passes to [new] is one whose regions last. *)
Definition type_checks (e : Event W) (ω : RWorld W) : bool :=
  match e with
  | EvNew _ _ w => meets (new_bounds B) && bool_decide (lasts (lft_of w) (ended ω))
  | EvDeref _ _ => meets (deref_bounds B)
  | EvCapsule _ _ _ => meets (capsule_bounds B)
  | _ => true
  end.

(** The window that an operation reads or destroys. *)
Definition used_window (e : Event W) σ : option W :=
  match e with
  | EvDeref t x | EvWindowHandle t x | EvDisplayHandle t x =>
      borrow P t x σ ≫= window_of σ
  | EvDrop t x =>
      v ← owned t x σ;
      if bool_decide (strong_at (mem σ) (value_ptr v) = 1%Z) then window_of σ v else None
  | _ => None
  end.

(** A variable whose type names the region [r]: a holder of a window
    with a reference into [r]. *)
Definition pins σ r (tv : tid * Value W) : Prop :=
  match tv.2 with
  | VWindowWrapper ww =>
      match mem σ !! ptr (reference ww) with
      | Some c => r ∈ lft_of (data c)
      | None => False
      end
  | _ => False
  end.

#[export] Instance pins_dec σ r tv : Decision (pins σ r tv).
Proof. unfold pins. destruct (tv.2) as [ww| |]; [destruct (mem σ !! _)|..]; apply _. Defined.

(** The borrow checker lets a region end when no variable's type names
    it. *)
Definition may_end σ r : Prop := map_Forall (λ _ tv, ¬ pins σ r tv) (vars σ).

(** A step: an operation of [Machine] that type-checks, undefined when it
    uses a window whose lifetime does not last; or the end of a region. *)
Definition rstep (a : REvent W) ω : option (outcome (RWorld W)) :=
  match a with
  | RDo e =>
      if type_checks e ω then
        match step P e (inner ω), used_window e (inner ω) with
        | None, _ => None
        | Some o, Some w =>
            if decide (lasts (lft_of w) (ended ω))
            then Some (match o with
                       | Done σ' => Done {| inner := σ'; ended := ended ω |}
                       | Abort => Abort
                       | Undef => Undef
                       end)
            else Some Undef
        | Some o, None =>
            Some (match o with
                  | Done σ' => Done {| inner := σ'; ended := ended ω |}
                  | Abort => Abort
                  | Undef => Undef
                  end)
        end
      else None
  | REnd r =>
      if decide (may_end (inner ω) r)
      then Some (Done {| inner := inner ω; ended := {[r]} ∪ ended ω |})
      else None
  end.

Definition rreachable ω : Prop := reachable_from rstep rinit ω.

(** The invariant: the program's own, and every window behind an [Arc]
    has a lifetime that lasts; when the window type is not ['static],
    either there is no window, or every value is a holder. *)
Definition static_inv ω : Prop :=
  refcount_inv (inner ω) ∧
  (∀ l c, mem (inner ω) !! l = Some c → lasts (lft_of (data c)) (ended ω)) ∧
  (outlives_static = false →
     if requires_static (new_bounds B) then mem (inner ω) = ∅
     else ∀ x t v, vars (inner ω) !! x = Some (t, v) → ∃ ww, v = VWindowWrapper ww).

End rstep.

(** ** A window that borrows

    A stub with a reference into a region; its type is not ['static]. *)
Record Borrowed : Type := {
  borrowed_stub : StubWindow;
  borrowed_from : region;
}.

#[export] Instance Borrowed_HasWindowHandle : HasWindowHandle Borrowed :=
  λ w, window_handle (borrowed_stub w).

#[export] Instance Borrowed_HasDisplayHandle : HasDisplayHandle Borrowed :=
  λ w, display_handle (borrowed_stub w).

#[export] Program Instance Borrowed_Borrows : Borrows Borrowed := {|
  lft_of w := {[borrowed_from w]};
  outlives_static := false;
|}.
Next Obligation. done. Qed.

(** A type that is ['static]: the stub. *)
#[export] Program Instance StubWindow_Borrows : Borrows StubWindow := {|
  lft_of w := static;
  outlives_static := true;
|}.
Next Obligation. done. Qed.

(** A window with a reference into region 1 is wrapped and a capsule of
    it made; the holder is dropped and the region ends; then the capsule
    is used. *)
Definition dangling_capsule : list (REvent Borrowed) :=
  [RDo (EvNew 0 0 {| borrowed_stub := stub_ok 42; borrowed_from := 1%positive |});
   RDo (EvCapsule 0 0 1); RDo (EvDrop 0 0); REnd 1%positive;
   RDo (EvGetHandle 0 1 2); RDo (EvWindowHandle 0 2)].

(** The same client keeping the holder: the region cannot end. *)
Definition pinned_region : list (REvent Borrowed) :=
  [RDo (EvNew 0 0 {| borrowed_stub := stub_ok 42; borrowed_from := 1%positive |});
   REnd 1%positive].

(** The world in which the holder of a window that borrows is there. *)
Definition pinned_world : RWorld Borrowed :=
  match run (rstep capsule_bound_only (derived_policy (TyParam true true)))
          (take 1 pinned_region) rinit with
  | Some (Done ω) => ω
  | _ => rinit
  end.

(** ** Facts *)

Section facts.
Context {W : Type} `{!HasWindowHandle W, !HasDisplayHandle W, !Borrows W}.
Context (B : Bounds) (P : Policy W).
Implicit Types (σ : World W) (ω : RWorld W) (e : Event W) (r : region) (α : lft).

Lemma lasts_static α : lasts static α.
Proof. unfold lasts, static. set_solver. Qed.

Lemma lasts_end α r β : lasts α β → r ∉ α → lasts α ({[r]} ∪ β).
Proof. unfold lasts. set_solver. Qed.

(** *** The steps *)

Lemma rstep_RDo_Done e ω ω' :
  rstep B P (RDo e) ω = Some (Done ω') →
  type_checks B e ω = true ∧ step P e (inner ω) = Some (Done (inner ω')) ∧
  ended ω' = ended ω.
Proof.
  unfold rstep. destruct (type_checks B e ω); [|done].
  destruct (step P e (inner ω)) as [[σ'| |]|]; [| | |done];
    destruct (used_window P e (inner ω)); repeat case_decide; intros ?; by simplify_eq/=.
Qed.

Lemma rstep_REnd_Done r ω ω' :
  rstep B P (REnd r) ω = Some (Done ω') →
  may_end (inner ω) r ∧ ω' = {| inner := inner ω; ended := {[r]} ∪ ended ω |}.
Proof. simpl. case_decide; [|done]. by intros [= <-]. Qed.

(** A step is undefined when the operation of the program is, or when it
    uses a window whose lifetime is over. *)
Lemma rstep_Undef a ω :
  rstep B P a ω = Some Undef →
  ∃ e, a = RDo e ∧
    (step P e (inner ω) = Some Undef ∨
     ∃ w, used_window P e (inner ω) = Some w ∧ ¬ lasts (lft_of w) (ended ω)).
Proof.
  destruct a as [e|r]; unfold rstep; [|by case_decide].
  destruct (type_checks B e ω); [|done]. intros Hs. exists e. split; [done|].
  destruct (step P e (inner ω)) as [[σ'| |]|]; [| |by left|done];
    destruct (used_window P e (inner ω)) as [w|]; try done;
    case_decide; try done; right; eauto.
Qed.

(** The window that an operation uses is behind an [Arc]. *)
Lemma used_window_live e σ w :
  used_window P e σ = Some w → ∃ l c, mem σ !! l = Some c ∧ data c = w.
Proof.
  assert (∀ v, window_of σ v = Some w → ∃ l c, mem σ !! l = Some c ∧ data c = w) as Hw.
  { intros v. unfold window_of. destruct (mem σ !! value_ptr v) as [c|] eqn:Hc; [|done].
    intros [= <-]. eauto. }
  destruct e; simpl; try done;
    try (destruct (borrow P _ _ σ) as [v|]; simpl; [apply Hw|done]).
  destruct (owned _ _ σ) as [v|]; simpl; [|done]. case_bool_decide; [apply Hw|done].
Qed.

(** For a window type that is ['static] the regions change nothing: a
    step is the step of [Machine]. *)
Lemma rstep_static e ω :
  outlives_static = true →
  rstep B P (RDo e) ω =
    match step P e (inner ω) with
    | Some (Done σ') => Some (Done {| inner := σ'; ended := ended ω |})
    | Some Abort => Some Abort
    | Some Undef => Some Undef
    | None => None
    end.
Proof.
  intros Hs. unfold rstep.
  assert (∀ w, lasts (lft_of w) (ended ω)) as Hl.
  { intros w. rewrite (outlives_static_sound Hs). apply lasts_static. }
  assert (type_checks B e ω = true) as ->.
  { destruct e; simpl; unfold meets; rewrite ?Hs, ?orb_true_r; try done.
    by rewrite bool_decide_eq_true_2. }
  destruct (step P e (inner ω)) as [[σ'| |]|]; [| | |done];
    destruct (used_window P e (inner ω)) as [w|]; try done; by rewrite decide_True.
Qed.

Lemma static_inv_init : static_inv B (rinit : RWorld W).
Proof.
  split; [apply refcount_inv_init|]. split; [by intros l c|].
  intros _. by destruct (requires_static _).
Qed.

End facts.

(** *** The invariant *)

Section invariant.
Context {W : Type} `{!HasWindowHandle W, !HasDisplayHandle W, !Borrows W}.
Context (B : Bounds) (P : Policy W).
Context (Hg : guards B = true).
Implicit Types (σ : World W) (ω : RWorld W) (e : Event W) (r : region) (α : lft).

(** A window type that is not ['static] does not get past a bound with
    ['static]. *)
Lemma meets_static bs :
  outlives_static = false → requires_static bs = true → meets bs = false.
Proof. unfold meets. by intros -> ->. Qed.

(** The cells after an operation hold windows whose lifetimes last. *)
Lemma Step_lasts σ e σ' α :
  (∀ l c, mem σ !! l = Some c → lasts (lft_of (data c)) α) →
  (∀ t x w, e = EvNew t x w → lasts (lft_of w) α) →
  Step P σ e σ' →
  ∀ l c, mem σ' !! l = Some c → lasts (lft_of (data c)) α.
Proof.
  intros Hl Hnew HS l c' Hc'. destruct (allocates e) eqn:Ha.
  - destruct e as [t x w| | | | | | | |]; try done.
    inversion HS as [? ? ? ? ww h _ _ Hop| | | | | | | |]; subst.
    apply WindowWrapper_new_inv in Hop as [_ ->]. simpl in Hc'.
    apply lookup_insert_Some in Hc' as [[_ <-]|[_ Hc']]; [by eapply Hnew|by eapply Hl].
  - destruct (Step_heap_sub P _ _ _ l c' HS Ha Hc') as (c & Hc & ->). by eapply Hl.
Qed.

(** With ['static] in the bound of [WindowWrapper::new], a window type
    that is not ['static] has no window behind an [Arc]. *)
Lemma Step_no_window σ e σ' :
  allocates e = false → mem σ = ∅ → Step P σ e σ' → mem σ' = ∅.
Proof.
  intros Ha Hm HS. apply map_empty. intros l. apply eq_None_not_Some.
  intros Hl%(Step_no_alloc P _ _ _ l HS Ha). rewrite Hm, lookup_empty in Hl.
  by destruct Hl.
Qed.

(** With it in the bound of [RawHandleWrapper::new] only, every value is
    a holder. *)
Lemma Step_holders σ e σ' :
  (∀ t x y, e ≠ EvCapsule t x y) →
  (∀ x t v, vars σ !! x = Some (t, v) → ∃ ww, v = VWindowWrapper ww) →
  Step P σ e σ' →
  ∀ x t v, vars σ' !! x = Some (t, v) → ∃ ww, v = VWindowWrapper ww.
Proof.
  intros Hne Hh HS z tz vz. Step_cases HS; simpl; eauto.
  - intros [[_ [= _ <-]]|[_ ?]]%lookup_insert_Some; eauto.
  - by destruct (Hne t x y).
  - apply borrow_Some in Hb as (o & Hx & _). by destruct (Hh _ _ _ Hx).
  - apply borrow_Some in Hb as (o & Hx & _). by destruct (Hh _ _ _ Hx).
  - intros [_ ?]%lookup_delete_Some. eauto.
  - apply owned_Some in Hx.
    intros [[_ [= _ <-]]|[_ ?]]%lookup_insert_Some; eauto.
Qed.

Lemma static_inv_RDo e ω ω' :
  static_inv B ω → rstep B P (RDo e) ω = Some (Done ω') → static_inv B ω'.
Proof.
  destruct ω as [σ α], ω' as [σ' α'].
  intros (Hrc & Hl & Hns) (Htc & HS%step_Step & He)%rstep_RDo_Done.
  simpl in *. subst α'. split; [by eapply refcount_inv_Step|]. split.
  - apply (Step_lasts σ e σ'); [done| |done]. intros t x w ->.
    simpl in Htc. by apply andb_true_iff in Htc as [_ ?%bool_decide_eq_true].
  - intros Hst. specialize (Hns Hst). unfold guards in Hg.
    destruct (requires_static (new_bounds B)) eqn:Hn.
    + apply (Step_no_window σ e σ'); [|done..].
      destruct e; try done. simpl in Htc. by rewrite (meets_static _ Hst Hn) in Htc.
    + apply (Step_holders σ e σ'); [|done..]. intros t x y ->.
      simpl in Htc, Hg. by rewrite (meets_static _ Hst Hg) in Htc.
Qed.

(** A region that the borrow checker lets end is in the lifetime of no
    window behind an [Arc]. *)
Lemma static_inv_REnd r ω ω' :
  static_inv B ω → rstep B P (REnd r) ω = Some (Done ω') → static_inv B ω'.
Proof.
  intros (Hrc & Hl & Hns) [Hend ->]%rstep_REnd_Done. simpl.
  split; [done|]. split; [|done]. intros l c Hc. simpl in *.
  apply lasts_end; [by eapply Hl|].
  destruct outlives_static eqn:Hst; [by rewrite (outlives_static_sound Hst)|].
  specialize (Hns eq_refl). destruct (requires_static (new_bounds B)).
  { by rewrite Hns, lookup_empty in Hc. }
  destruct (proj1 (refcount_inv_alive _ l Hrc)) as (x & t & v & Hx & <-); [eauto|].
  destruct (Hns _ _ _ Hx) as [ww ->]. pose proof (Hend _ _ Hx) as Hp.
  unfold pins in Hp. simpl in *. by rewrite Hc in Hp.
Qed.

Lemma static_inv_inductive : inductive_invariant (rstep B P) (static_inv B).
Proof.
  intros [e|r] ω ω' Hinv Hs; [by eapply static_inv_RDo|by eapply static_inv_REnd].
Qed.

Lemma rreachable_static_inv ω : rreachable B P ω → static_inv B ω.
Proof.
  intros Hr. eapply invariant_reachable; [apply static_inv_inductive| |exact Hr].
  apply static_inv_init.
Qed.

(** In a world of the invariant no step is undefined. *)
Lemma static_inv_not_Undef a ω : static_inv B ω → rstep B P a ω ≠ Some Undef.
Proof.
  intros (Hrc & Hl & _) (e & -> & [Hu|(w & (l & c & Hc & <-)%used_window_live & Hd)])%rstep_Undef.
  - by apply (step_not_Undef P _ e Hrc).
  - apply Hd. by apply (Hl l c).
Qed.

End invariant.

(** *** What the steps depend on *)

Section ext.
Context {W : Type} `{!HasWindowHandle W, !HasDisplayHandle W, !Borrows W}.
Context (P : Policy W).

(** Of the bounds, a step sees where ['static] is asked for. *)
Lemma rstep_ext (B B' : Bounds) a (ω : RWorld W) :
  requires_static (new_bounds B) = requires_static (new_bounds B') →
  requires_static (deref_bounds B) = requires_static (deref_bounds B') →
  requires_static (capsule_bounds B) = requires_static (capsule_bounds B') →
  rstep B P a ω = rstep B' P a ω.
Proof.
  intros Hn Hd Hc. destruct a as [e|r]; [|done]. unfold rstep.
  assert (type_checks B e ω = type_checks B' e ω) as ->; [|done].
  destruct e; simpl; unfold meets; by rewrite ?Hn, ?Hd, ?Hc.
Qed.

(** For a window type that is ['static], a client of [Machine] is a
    client here, whatever regions have ended. *)
Lemma reaches_static (B : Bounds) tr (ω : RWorld W) σ :
  outlives_static = true →
  reaches (step P) (inner ω) tr σ ↔
  reaches (rstep B P) ω (RDo <$> tr) {| inner := σ; ended := ended ω |}.
Proof.
  intros Hs. revert ω. induction tr as [|e tr IH]; intros ω.
  { rewrite fmap_nil, !reaches_nil. destruct ω. simpl. split; [by intros ->|by intros [= ->]]. }
  rewrite fmap_cons, !reaches_cons. setoid_rewrite (rstep_static B P e ω Hs). split.
  - intros (σ1 & -> & Hr). eexists. split; [done|].
    by apply (IH {| inner := σ1; ended := ended ω |}).
  - intros (ω1 & Hs1 & Hr). destruct (step P e (inner ω)) as [[σ1| |]|]; simplify_eq/=.
    exists σ1. split; [done|]. by apply (IH {| inner := σ1; ended := ended ω |}).
Qed.

End ext.

(** The types of the capsule and of the accessor name no lifetime; the
    type of the holder names those of the window type. *)
Lemma capsule_type_static (w_static : bool) :
  ty_static w_static RawHandleWrapper_ty = true ∧
  ty_static w_static ThreadLocked_ty = true.
Proof. done. Qed.

Lemma holder_type_static (w_static send sync : bool) :
  ty_static w_static (WindowWrapper_ty (TyParam send sync)) = w_static.
Proof. by destruct w_static. Qed.

(** The derive of [Component] (line 46) in full: the capsule is [Send],
    [Sync] and ['static], whatever the window type is. *)
Lemma derive_Component_static (w_static : bool) :
  RawHandleWrapper_derive_Component code_impls &&
    ty_static w_static RawHandleWrapper_ty = true.
Proof. done. Qed.

(** The auto traits in the bound of line 21 are those that [Marker]
    reads there. *)
Lemma WindowWrapper_new_bound_atoms (w : Ty) :
  WindowWrapper_new_bound w =
    forallb (λ tr, implements code_impls tr w) (auto_bounds WindowWrapper_impl_bounds).
Proof. unfold WindowWrapper_new_bound. simpl. by rewrite andb_true_r. Qed.

(** The code asks for ['static] at both constructors; one would do. *)
Lemma code_bounds_guard :
  guards code_bounds = true ∧ guards holder_bound_only = true ∧
  guards capsule_bound_only = true ∧ guards no_static_bounds = false.
Proof. done. Qed.

(** With ['static] in the bound of neither constructor, the client
    [dangling_capsule] is accepted and its last call reads a window whose
    region has ended. *)
Lemma dangling_capsule_Undef (B : Bounds) :
  guards B = false →
  run (rstep B (derived_policy (TyParam true true))) dangling_capsule rinit = Some Undef.
Proof.
  intros [Hn Hc]%orb_false_iff.
  set (B' := {| new_bounds := []; capsule_bounds := [];
                deref_bounds := if requires_static (deref_bounds B)
                                then [OutlivesStatic] else [] |}).
  rewrite (run_ext _ (rstep B' (derived_policy (TyParam true true)))).
  - unfold B'. by destruct (requires_static (deref_bounds B)); vm_compute.
  - intros a ω. apply rstep_ext; [done| |done]. unfold B'. simpl.
    by destruct (requires_static (deref_bounds B)).
Qed.

(** ** The guarantees *)

Section guarantees.
Context {W : Type} `{!HasWindowHandle W, !HasDisplayHandle W, !Borrows W}.
Context (B : Bounds) (P : Policy W).

(** C16: With ['static] in the bound of [WindowWrapper::new] or of
    [RawHandleWrapper::new], whatever the window type and whenever the
    regions of the client end, every window behind an [Arc] has a
    lifetime that lasts, and no operation reads or destroys a window
    whose lifetime is over, or touches a freed cell. *)
Theorem static_bounds_keep_windows_valid ω a :
  guards B = true → rreachable B P ω →
  rstep B P a ω ≠ Some Undef ∧
  ∀ l c, mem (inner ω) !! l = Some c → lasts (lft_of (data c)) (ended ω).
Proof.
  intros Hg Hinv%(rreachable_static_inv B P Hg).
  split; [by apply static_inv_not_Undef|]. apply Hinv.
Qed.

(** For a window type that is ['static] the regions and the bounds
    change nothing: the runs are those of [Machine], so what is proved of
    the clients of [Machine] holds of the clients with regions. *)
Theorem static_window_same_client tr σ :
  outlives_static = true →
  reaches (step P) init tr σ ↔
  reaches (rstep B P) rinit (RDo <$> tr) {| inner := σ; ended := ∅ |}.
Proof. intros Hs. by apply (reaches_static P B tr rinit σ). Qed.

End guarantees.

(** C17: The bounds are safe exactly when one of the constructors asks for
    ['static]: then no client of any window type has an undefined step;
    otherwise one client reads a window through a capsule after the
    region of its reference has ended.  Whether [Deref] asks for it does
    not matter. *)
Theorem static_bound_needed (B : Bounds) :
  guards B = true ↔
  ∀ (W : Type) (HW : HasWindowHandle W) (HD : HasDisplayHandle W) (HB : Borrows W)
    (P : Policy W) (tr : list (REvent W)), run (rstep B P) tr rinit ≠ Some Undef.
Proof.
  split.
  - intros Hg W HW HD HB P tr.
    apply (invariant_run_not_Undef _ (static_inv B));
      [by apply static_inv_inductive|by apply static_inv_not_Undef|apply static_inv_init].
  - intros Hsafe. destruct (guards B) eqn:Hg; [done|].
    destruct (Hsafe Borrowed _ _ _ (derived_policy (TyParam true true)) dangling_capsule).
    by apply dangling_capsule_Undef.
Qed.

(** ** On concrete clients *)

Lemma static_bounds_keep_windows_valid_witness :
  rstep capsule_bound_only (derived_policy (TyParam true true)) (REnd 1%positive)
    pinned_world ≠ Some Undef ∧
  ∀ l c, mem (inner pinned_world) !! l = Some c →
         lasts (lft_of (data c)) (ended pinned_world).
Proof.
  apply (static_bounds_keep_windows_valid capsule_bound_only
           (derived_policy (TyParam true true)) pinned_world (REnd 1%positive)).
  - done.
  - exists (take 1 pinned_region). by vm_compute.
Defined.

Lemma static_window_same_client_witness :
  reaches (step stub_policy) init scenario scenario_world ↔
  reaches (rstep code_bounds stub_policy) rinit (RDo <$> scenario)
    {| inner := scenario_world; ended := ∅ |}.
Proof.
  by apply (static_window_same_client code_bounds stub_policy scenario scenario_world).
Defined.

(** The client [dangling_capsule] does not get past either bound: with
    the bounds of the code it is refused at [WindowWrapper::new], with
    ['static] at [RawHandleWrapper::new] only it is refused there; and
    while the holder is there the region cannot end. *)
(** The client [dangling_capsule] does not get past either bound: with
    the bounds of the code it is refused at [WindowWrapper::new], with
    ['static] at [RawHandleWrapper::new] only it is refused there; and
    while the holder is there the region cannot end. *)
Example dangling_capsule_refused :
  run (rstep code_bounds (derived_policy (TyParam true true))) (take 1 dangling_capsule)
    rinit = None ∧
  is_Some (run (rstep capsule_bound_only (derived_policy (TyParam true true)))
             (take 1 dangling_capsule) rinit) ∧
  run (rstep capsule_bound_only (derived_policy (TyParam true true)))
    (take 2 dangling_capsule) rinit = None ∧
  run (rstep no_static_bounds (derived_policy (TyParam true true))) pinned_region
    rinit = None.
Proof. split_and!; vm_compute; eauto. Qed.
