(* ===== verification/Atomicity.v ===== *)
(** * The counter, access by access

    In [Machine] an operation of the library is one step.  Dropping an
    [Arc] is not: [Arc::drop] decrements the counter with [fetch_sub], and
    the handle that saw 1 then calls [drop_slow], which runs the
    destructor of the window and frees the cell.  Between the two, the
    other threads run.  Here the client is the one of [Machine] with the
    drop in its two accesses: [FFetchSub], after which the thread that saw
    1 is committed to [FDropSlow].  Every other operation has one access
    to the counter, a [fetch_add] or none, and stays one step.

    While a thread is between the two accesses the cell is in the heap
    with counter 0.  The invariant is that of [Lifetime] on the cells with
    a counter that is not 0, and that the cells with counter 0 are those
    that wait for their [drop_slow], no variable referring to them.  The
    machine is a refinement of the specification of shared ownership
    ([Ownership]): a drop is the decrement, and [drop_slow] is a step that
    the specification does not see.

    [Machine] is this machine when no drop is interrupted ([coarse],
    [accesses]).

    The increment is one access because it is a read-modify-write.  With
    [atomic := false] the machine also has the increment as a load and a
    store ([FLoad], [FStore]), which the code does not have: it is there
    to show what the atomic increment is for.  One interleaving of two
    such clones loses an increment, and the window is freed under a
    handle. *)

From S2P Require Import Prelude RawWindowHandle Sync Holder Capsule Accessor Marker Machine.
From S2P Require Import Lifetime Ownership.

(** ** Definitions *)

(** A store to the counter. *)
Definition store {T} (self : Arc T) (n : Z) : exec (heap T) () := λ h,
  match h !! ptr self with
  | None => Undef
  | Some c => Done ((), <[ptr self := {| strong := n; data := data c |}]> h)
  end.

(** The cells with handles, and the cells whose counter has reached 0. *)
Definition live_cells {T} (h : heap T) : heap T :=
  filter (λ lc, strong lc.2 ≠ 0%Z) h.

Definition dead_cells {T} (h : heap T) : heap T :=
  filter (λ lc, strong lc.2 = 0%Z) h.

Inductive FEvent (W : Type) : Type :=
| FAtomic (e : Event W)
| FFetchSub (t : tid) (x : var)
| FDropSlow (t : tid)
| FLoad (t : tid) (x y : var)
| FStore (t : tid).
Arguments FAtomic {W} e.
Arguments FFetchSub {W} t x.
Arguments FDropSlow {W} t.
Arguments FLoad {W} t x y.
Arguments FStore {W} t.

(** The world of [Machine], the threads that are between the two accesses
    of a drop with the [Arc] they drop, the threads that are between the
    load and the store of a clone with the capsule, the target variable
    and the value loaded, and the windows whose last handle has been
    dropped, the latest first. *)
Record FWorld (W : Type) : Type := {
  world : World W;
  dropping : gmap tid (Arc W);
  cloning : gmap tid (RawHandleWrapper W * var * Z);
  decided : list W;
}.
Arguments world {W} _.
Arguments dropping {W} _.
Arguments cloning {W} _.
Arguments decided {W} _.

Definition finit {W} : FWorld W :=
  {| world := init; dropping := ∅; cloning := ∅; decided := [] |}.

(** The thread that issues an event. *)
Definition thread_of {W} (e : Event W) : tid :=
  match e with
  | EvNew t _ _ | EvDeref t _ | EvCapsule t _ _ | EvClone t _ _
  | EvGetHandle t _ _ | EvWindowHandle t _ | EvDisplayHandle t _
  | EvDrop t _ | EvSend t _ _ => t
  end.

(** The event of [Machine] that an event is an access of: [drop_slow] is
    the second access of a drop that has been counted. *)
Definition event_of {W} (e : FEvent W) : option (Event W) :=
  match e with
  | FAtomic e => Some e
  | FFetchSub t x => Some (EvDrop t x)
  | FDropSlow _ | FLoad _ _ _ | FStore _ => None
  end.

(** The world as the specification sees it: the cells with handles, and
    the windows whose destruction is decided. *)
Definition view {W} (φ : FWorld W) : World W :=
  {| mem := live_cells (mem (world φ)); vars := vars (world φ);
     destroyed := decided φ; observed := observed (world φ) |}.

(** ** The step function *)

Section fstep.
Context {W : Type} `{!HasWindowHandle W, !HasDisplayHandle W}.
Context (P : Policy W) (atomic : bool).
Implicit Types (φ : FWorld W) (σ : World W) (t : tid) (x y : var) (h : heap W).

Definition run_on {A B} (c : exec (heap W) A) h (k : A → heap W → B) : outcome B :=
  match c h with
  | Done (a, h') => Done (k a h')
  | Abort => Abort
  | Undef => Undef
  end.

(** A thread between two accesses issues nothing else. *)
Definition idle t φ : bool :=
  bool_decide (dropping φ !! t = None) && bool_decide (cloning φ !! t = None).

Definition with_world φ σ : FWorld W :=
  {| world := σ; dropping := dropping φ; cloning := cloning φ; decided := decided φ |}.

(** An operation with one access: as in [Machine]. *)
Definition fstep_atomic (e : Event W) φ : option (outcome (FWorld W)) :=
  if drops_value e || negb (idle (thread_of e) φ) then None
  else o ← step P e (world φ);
       Some match o with
            | Done σ => Done (with_world φ σ)
            | Abort => Abort
            | Undef => Undef
            end.

(** [drop(x)], first access: the variable is gone and the counter is
    decremented; the thread that saw 1 has the cell to itself. *)
Definition fstep_fetch_sub t x φ : option (outcome (FWorld W)) :=
  if idle t φ then
    v ← owned t x (world φ);
    Some (run_on (Arc.fetch_sub (value_arc v)) (mem (world φ))
            (λ old h,
               let last := bool_decide (old = 1%Z) in
               {| world := unbind_var x None (world φ) h;
                  dropping := if last then <[t := value_arc v]> (dropping φ)
                              else dropping φ;
                  cloning := cloning φ;
                  decided := (if last
                              then option_list (data <$> h !! value_ptr v)
                              else []) ++ decided φ |}))
  else None.

(** [drop(x)], second access, by the thread that saw 1: the destructor of
    the window runs and the cell is freed. *)
Definition fstep_drop_slow t φ : option (outcome (FWorld W)) :=
  a ← dropping φ !! t;
  Some (run_on (Arc.drop_slow a) (mem (world φ))
          (λ w h,
             {| world := {| mem := h; vars := vars (world φ);
                            destroyed := w :: destroyed (world φ);
                            observed := observed (world φ) |};
                dropping := delete t (dropping φ);
                cloning := cloning φ;
                decided := decided φ |})).

(** [let y = x.clone()] with a counter that is not atomic, first access:
    load the counter. *)
Definition fstep_load t x y φ : option (outcome (FWorld W)) :=
  if negb atomic && idle t φ then
    match borrow P t x (world φ) with
    | Some (VRawHandleWrapper rhw) =>
        if is_free y (world φ)
        then Some (run_on (Arc.strong_count (dyn_ptr (window rhw))) (mem (world φ))
                     (λ n h,
                        {| world := set_heap (world φ) h;
                           dropping := dropping φ;
                           cloning := <[t := (rhw, y, n)]> (cloning φ);
                           decided := decided φ |}))
        else None
    | _ => None
    end
  else None.

(** Second access: store the value loaded plus one. *)
Definition fstep_store t φ : option (outcome (FWorld W)) :=
  '(rhw, y, n) ← cloning φ !! t;
  if is_free y (world φ)
  then Some (if bool_decide (n > MAX_REFCOUNT)%Z then Abort
             else run_on (store (dyn_ptr (window rhw)) (usize_wrap (n + 1)))
                    (mem (world φ))
                    (λ _ h,
                       {| world := bind_var y t (VRawHandleWrapper rhw) (world φ) h;
                          dropping := dropping φ;
                          cloning := delete t (cloning φ);
                          decided := decided φ |}))
  else None.

Definition fstep (e : FEvent W) φ : option (outcome (FWorld W)) :=
  match e with
  | FAtomic e => fstep_atomic e φ
  | FFetchSub t x => fstep_fetch_sub t x φ
  | FDropSlow t => fstep_drop_slow t φ
  | FLoad t x y => fstep_load t x y φ
  | FStore t => fstep_store t φ
  end.

End fstep.

(** A world that the client reaches with the counter of the program. *)
Definition freachable {W} `{!HasWindowHandle W, !HasDisplayHandle W}
    (P : Policy W) (φ : FWorld W) : Prop :=
  reachable_from (fstep P true) finit φ.

(** The invariant: no clone is between a load and a store; the cells with
    a counter that is not 0 count the handles; the cells with counter 0
    are those of the threads that are about to call [drop_slow], each of
    one thread; and the windows whose destruction is decided are those
    destroyed and those of the cells with counter 0. *)
Definition fine_inv {W} (φ : FWorld W) : Prop :=
  cloning φ = ∅ ∧
  counts (live_cells (mem (world φ))) (owners (world φ)) ∧
  (∀ l, multiplicity l (map_multiset ptr (dropping φ)) =
        if decide (is_Some (dead_cells (mem (world φ)) !! l)) then 1 else 0) ∧
  decided φ ≡ₚ map_values data (dead_cells (mem (world φ))) ++ destroyed (world φ).

(** A world of [Machine] as a world of this machine: no thread is
    between two accesses. *)
Definition coarse {W} (σ : World W) : FWorld W :=
  {| world := σ; dropping := ∅; cloning := ∅; decided := destroyed σ |}.

(** The accesses of an operation of [Machine] whose thread is not
    interrupted: two for the drop of a last handle. *)
Definition accesses {W} (e : Event W) (σ : World W) : list (FEvent W) :=
  match e with
  | EvDrop t x =>
      match owned t x σ with
      | Some v =>
          if bool_decide (strong_at (mem σ) (value_ptr v) = 1%Z)
          then [FFetchSub t x; FDropSlow t] else [FFetchSub t x]
      | None => [FFetchSub t x]
      end
  | _ => [FAtomic e]
  end.

(** The accesses of a run of [Machine]. *)
Fixpoint run_accesses {W} `{!HasWindowHandle W, !HasDisplayHandle W}
    (P : Policy W) (tr : list (Event W)) (σ : World W) : list (FEvent W) :=
  match tr with
  | [] => []
  | e :: tr =>
      accesses e σ ++
      match step P e σ with Some (Done σ') => run_accesses P tr σ' | _ => [] end
  end.

(** ** Two clones that race

    A holder and a capsule that two threads clone at once; then all
    handles but one are dropped and the last one is used. *)
Definition racing_clones : list (FEvent StubWindow) :=
  [FAtomic (EvNew 0 0 (stub_ok 42)); FAtomic (EvCapsule 0 0 1);
   FLoad 1 1 2; FLoad 2 1 3; FStore 1; FStore 2;
   FFetchSub 0 0; FFetchSub 0 1; FFetchSub 1 2; FDropSlow 1;
   FAtomic (EvGetHandle 2 3 4)].

(** The same clones with the counter of the program. *)
Definition atomic_clones : list (FEvent StubWindow) :=
  [FAtomic (EvNew 0 0 (stub_ok 42)); FAtomic (EvCapsule 0 0 1);
   FAtomic (EvClone 1 1 2); FAtomic (EvClone 2 1 3);
   FFetchSub 0 0; FFetchSub 0 1; FFetchSub 1 2;
   FAtomic (EvGetHandle 2 3 4)].

(** Two capsules of one window on two threads; each thread asks for an
    accessor; the accessors and the holder are dropped. *)
Definition concurrent_accessors : list (FEvent StubWindow) :=
  [FAtomic (EvNew 0 0 (stub_ok 42)); FAtomic (EvCapsule 0 0 1);
   FAtomic (EvClone 0 1 2); FAtomic (EvSend 0 1 1); FAtomic (EvSend 0 2 2);
   FAtomic (EvGetHandle 1 1 3); FAtomic (EvGetHandle 2 2 4);
   FFetchSub 1 3; FFetchSub 2 4; FFetchSub 0 0].

(** Then the two threads drop their capsules, both decrements before the
    [drop_slow] of the thread that saw 1. *)
Definition capsules_dropped : list (FEvent StubWindow) :=
  [FFetchSub 1 1; FFetchSub 2 2; FDropSlow 2].

(** A capsule is sent to a second thread, the holder is dropped, and the
    second thread has decremented the counter to 0 and not yet called
    [drop_slow]. *)
Definition pending_drop : list (FEvent StubWindow) :=
  [FAtomic (EvNew 0 0 (stub_ok 42)); FAtomic (EvCapsule 0 0 1);
   FAtomic (EvSend 0 1 1); FFetchSub 0 0; FFetchSub 1 1].

Definition fworld_of {W} (r : option (outcome (FWorld W))) : FWorld W :=
  match r with Some (Done φ) => φ | _ => finit end.

Definition pending_world : FWorld StubWindow :=
  fworld_of (run (fstep stub_policy true) pending_drop finit).

(** The world of [Machine] with one holder. *)
Definition one_holder : World StubWindow :=
  world_of (run (step stub_policy) [EvNew 0 0 (stub_ok 42)] init).

Definition atomic_clones_world : FWorld StubWindow :=
  fworld_of (run (fstep stub_policy true) atomic_clones finit).

(** ** Facts *)

(** *** Cells with and without handles *)

Section cells.
Context {T : Type}.
Implicit Types (h : heap T) (a : Arc T) (c : ArcInner T) (l : loc).

Lemma live_cells_lookup h l c :
  live_cells h !! l = Some c ↔ h !! l = Some c ∧ strong c ≠ 0%Z.
Proof. apply map_lookup_filter_Some. Qed.

Lemma dead_cells_lookup h l c :
  dead_cells h !! l = Some c ↔ h !! l = Some c ∧ strong c = 0%Z.
Proof. apply map_lookup_filter_Some. Qed.

Lemma live_cells_insert h l c :
  strong c ≠ 0%Z → live_cells (<[l := c]> h) = <[l := c]> (live_cells h).
Proof. intros ?. by apply map_filter_insert_True. Qed.

Lemma dead_cells_insert h l c :
  strong c = 0%Z → dead_cells (<[l := c]> h) = <[l := c]> (dead_cells h).
Proof. intros ?. by apply map_filter_insert_True. Qed.

Lemma live_cells_delete h l : live_cells (delete l h) = delete l (live_cells h).
Proof. apply map_filter_delete. Qed.

Lemma dead_cells_delete h l : dead_cells (delete l h) = delete l (dead_cells h).
Proof. apply map_filter_delete. Qed.

(** A cell whose counter reaches 0 leaves the cells with handles. *)
Lemma live_cells_insert_dead h l c :
  strong c = 0%Z → live_cells (<[l := c]> h) = delete l (live_cells h).
Proof.
  intros Hc. unfold live_cells.
  rewrite map_filter_insert_False by (simpl; lia). apply map_filter_delete.
Qed.

(** A write to a cell with handles does not touch the cells without. *)
Lemma dead_cells_insert_live h l c :
  strong c ≠ 0%Z → dead_cells h !! l = None →
  dead_cells (<[l := c]> h) = dead_cells h.
Proof.
  intros Hc Hl. unfold dead_cells.
  rewrite map_filter_insert_False by done. rewrite map_filter_delete.
  by apply delete_id.
Qed.

Lemma live_cells_dead_None h l c :
  live_cells h !! l = Some c → dead_cells h !! l = None.
Proof.
  intros [Hl Hc]%live_cells_lookup. apply map_lookup_filter_None. right.
  intros c' ?. simplify_eq/=. done.
Qed.

Lemma dead_cells_live_None h l c :
  dead_cells h !! l = Some c → live_cells h !! l = None.
Proof.
  intros [Hl Hc]%dead_cells_lookup. apply map_lookup_filter_None. right.
  intros c' ?. simplify_eq/=. lia.
Qed.

Lemma live_cells_fresh h l : h !! l = None → live_cells h !! l = None.
Proof. intros Hl. apply map_lookup_filter_None. by left. Qed.

Lemma dead_cells_fresh h l : h !! l = None → dead_cells h !! l = None.
Proof. intros Hl. apply map_lookup_filter_None. by left. Qed.

(** With no cell of counter 0 every cell has handles. *)
Lemma live_cells_all h : dead_cells h = ∅ → live_cells h = h.
Proof.
  intros Hd. apply map_filter_id. intros l c Hl Hc. simpl in Hc.
  assert (dead_cells h !! l = Some c) as Hl' by by apply dead_cells_lookup.
  by rewrite Hd, lookup_empty in Hl'.
Qed.

(** The cell of a handle that is counted, in the heap. *)
Lemma counts_live_cell h M l :
  counts (live_cells h) M → 0 < multiplicity l M →
  ∃ c, h !! l = Some c ∧ live_cells h !! l = Some c ∧
       (1 ≤ strong c ≤ MAX_REFCOUNT + 1)%Z.
Proof.
  intros Hc [c Hl]%(counts_lookup _ _ _ Hc). exists c.
  destruct Hc as [Hwf _]. pose proof (Hwf _ _ Hl).
  by destruct (proj1 (live_cells_lookup _ _ _) Hl) as [Hl' _].
Qed.

(** *** Operations on a cell with handles

    [clone] and [deref] on a cell with handles do the same with and
    without the cells of counter 0 in the heap, and leave these alone. *)

Definition local_op {A} (c : exec (heap T) A) (l : loc) : Prop :=
  ∀ h r h' c0,
    c h = Done (r, h') → h !! l = Some c0 → (1 ≤ strong c0)%Z →
    c (live_cells h) = Done (r, live_cells h') ∧ dead_cells h' = dead_cells h.

Lemma clone_local a : local_op (Arc.clone a) (ptr a).
Proof.
  intros h r h' c0 (c & Hl & Hle & -> & ->)%clone_inv Hl' Hc0. simplify_eq.
  assert (live_cells h !! ptr a = Some c) as Hlive by (apply live_cells_lookup; split; [done|lia]).
  rewrite live_cells_insert by (simpl; rewrite usize_wrap_incr; lia).
  split; [by apply clone_Done|].
  apply dead_cells_insert_live; [simpl; rewrite usize_wrap_incr; lia|].
  by eapply live_cells_dead_None.
Qed.

Lemma deref_local a : local_op (Arc.deref a) (ptr a).
Proof.
  intros h r h' c0 (-> & c & Hl & ->)%deref_inv Hl' Hc0.
  rewrite Hl in Hl'. injection Hl' as ->.
  split; [|done]. apply deref_Done, live_cells_lookup. split; [done|lia].
Qed.

Lemma local_op_bind_mret {A B} (c : exec (heap T) A) (g : A → B) l :
  local_op c l → local_op (x ← c; mret (g x)) l.
Proof.
  intros Hc h r h' c0 Hop Hl Hc0. apply exec_bind_Done in Hop as (x & h1 & Hop & Hret).
  injection Hret as <- <-. destruct (Hc _ _ _ _ Hop Hl Hc0) as [Hop' Hd].
  split; [|done]. apply exec_bind_Done. by exists x, (live_cells h1).
Qed.

(** *** The two accesses of [drop] *)

Lemma fetch_sub_inv a h old h' :
  Arc.fetch_sub a h = Done (old, h') →
  ∃ c, h !! ptr a = Some c ∧ old = strong c ∧
       h' = <[ptr a := {| strong := usize_wrap (strong c - 1); data := data c |}]> h.
Proof.
  unfold Arc.fetch_sub. destruct (h !! ptr a) as [c|]; [|done].
  intros [= <- <-]. eauto.
Qed.

Lemma fetch_sub_Undef a h : Arc.fetch_sub a h = Undef ↔ h !! ptr a = None.
Proof. unfold Arc.fetch_sub. by destruct (h !! ptr a). Qed.

Lemma fetch_sub_not_Abort a h : Arc.fetch_sub a h ≠ Abort.
Proof. unfold Arc.fetch_sub. by destruct (h !! ptr a). Qed.

Lemma drop_slow_inv a h w h' :
  Arc.drop_slow a h = Done (w, h') →
  ∃ c, h !! ptr a = Some c ∧ w = data c ∧ h' = delete (ptr a) h.
Proof.
  unfold Arc.drop_slow. destruct (h !! ptr a) as [c|]; [|done].
  intros [= <- <-]. eauto.
Qed.

Lemma drop_slow_Undef a h : Arc.drop_slow a h = Undef ↔ h !! ptr a = None.
Proof. unfold Arc.drop_slow. by destruct (h !! ptr a). Qed.

Lemma drop_slow_not_Abort a h : Arc.drop_slow a h ≠ Abort.
Proof. unfold Arc.drop_slow. by destruct (h !! ptr a). Qed.

(** The first access on a cell with handles is the whole [drop] on the
    cells with handles: the cell of the last handle leaves them with the
    decrement. *)
Lemma fetch_sub_live a h c old h' :
  h !! ptr a = Some c → (1 ≤ strong c ≤ MAX_REFCOUNT + 1)%Z →
  Arc.fetch_sub a h = Done (old, h') →
  old = strong c ∧
  Arc.drop a (live_cells h) =
    Done (if bool_decide (old = 1%Z) then Some (data c) else None, live_cells h').
Proof.
  intros Hl Hc (c' & Hl' & -> & ->)%fetch_sub_inv. simplify_eq. split; [done|].
  assert (live_cells h !! ptr a = Some c) as Hlive
    by (apply live_cells_lookup; split; [done|lia]).
  case_bool_decide as H1.
  - rewrite live_cells_insert_dead by (by rewrite H1). by apply drop_last.
  - rewrite live_cells_insert by (simpl; rewrite usize_wrap_decr; lia).
    by apply drop_shared.
Qed.

(** The cells of counter 0 after the first access: one more when the
    handle was the last. *)
Lemma fetch_sub_dead a h c old h' :
  h !! ptr a = Some c → (1 ≤ strong c ≤ MAX_REFCOUNT + 1)%Z →
  Arc.fetch_sub a h = Done (old, h') →
  dead_cells h !! ptr a = None ∧
  if bool_decide (old = 1%Z)
  then h' !! ptr a = Some {| strong := 0; data := data c |} ∧
       dead_cells h' = <[ptr a := {| strong := 0; data := data c |}]> (dead_cells h)
  else dead_cells h' = dead_cells h.
Proof.
  intros Hl Hc (c' & Hl' & -> & ->)%fetch_sub_inv. simplify_eq.
  assert (dead_cells h !! ptr a = None) as Hdead.
  { apply (live_cells_dead_None _ _ c), live_cells_lookup. split; [done|lia]. }
  split; [done|]. case_bool_decide as H1.
  - rewrite H1. change (usize_wrap (1 - 1)) with 0%Z.
    rewrite lookup_insert_eq. split; [done|]. by apply dead_cells_insert.
  - apply dead_cells_insert_live; [|done]. simpl. rewrite usize_wrap_decr; lia.
Qed.

(** The second access frees a cell of counter 0 and touches no other. *)
Lemma drop_slow_dead a h c w h' :
  dead_cells h !! ptr a = Some c → Arc.drop_slow a h = Done (w, h') →
  w = data c ∧ live_cells h' = live_cells h ∧
  dead_cells h' = delete (ptr a) (dead_cells h).
Proof.
  intros Hd (c' & Hl & -> & ->)%drop_slow_inv.
  pose proof (dead_cells_live_None _ _ _ Hd) as Hlive.
  apply dead_cells_lookup in Hd as [Hd _]. simplify_eq.
  rewrite live_cells_delete, dead_cells_delete. by rewrite delete_id.
Qed.

(** A fresh cell has handles. *)
Lemma new_live_cells (w : T) h a h' :
  Arc.new w h = Done (a, h') →
  live_cells h !! ptr a = None ∧
  live_cells h' = <[ptr a := {| strong := 1; data := w |}]> (live_cells h) ∧
  dead_cells h' = dead_cells h.
Proof.
  intros [Hl ->]%new_inv. split_and!.
  - by apply live_cells_fresh.
  - by apply live_cells_insert.
  - apply dead_cells_insert_live; [done|]. by apply dead_cells_fresh.
Qed.

End cells.

(** The operations of the holder, the capsule and the accessor are local
    to the cell of their handle. *)
Section local_ops.
Context {W : Type} `{!HasWindowHandle W, !HasDisplayHandle W}.

Lemma WindowWrapper_deref_local (ww : WindowWrapper W) :
  local_op (WindowWrapper.deref ww) (ptr (reference ww)).
Proof. apply deref_local. Qed.

Lemma RawHandleWrapper_new_local (ww : WindowWrapper W) :
  local_op (RawHandleWrapper.new ww) (ptr (reference ww)).
Proof. apply local_op_bind_mret, clone_local. Qed.

Lemma RawHandleWrapper_clone_local (rhw : RawHandleWrapper W) :
  local_op (RawHandleWrapper.clone rhw) (RawHandleWrapper_ptr rhw).
Proof. apply local_op_bind_mret, clone_local. Qed.

Lemma RawHandleWrapper_get_handle_local (rhw : RawHandleWrapper W) :
  local_op (RawHandleWrapper.get_handle rhw) (RawHandleWrapper_ptr rhw).
Proof. apply local_op_bind_mret, RawHandleWrapper_clone_local. Qed.

Lemma window_handle_local (acc : ThreadLockedRawWindowHandleWrapper W) :
  local_op (ThreadLockedRawWindowHandleWrapper.window_handle acc) (ThreadLocked_ptr acc).
Proof. apply local_op_bind_mret, deref_local. Qed.

Lemma display_handle_local (acc : ThreadLockedRawWindowHandleWrapper W) :
  local_op (ThreadLockedRawWindowHandleWrapper.display_handle acc) (ThreadLocked_ptr acc).
Proof. apply local_op_bind_mret, deref_local. Qed.

End local_ops.

#[export] Hint Resolve WindowWrapper_deref_local RawHandleWrapper_new_local
  RawHandleWrapper_clone_local RawHandleWrapper_get_handle_local
  window_handle_local display_handle_local : core.

(** Decide whether a cell is one of counter 0. *)
Ltac decide_is_Some :=
  repeat case_decide;
  first [ done | lia | by exfalso; eauto | by exfalso; eapply is_Some_None
        | by intros; exfalso; eauto ].

(** *** The steps on the view *)

Section view.
Context {W : Type} `{!HasWindowHandle W, !HasDisplayHandle W}.
Context (P : Policy W).
Implicit Types (φ : FWorld W) (σ : World W) (t : tid) (x y : var) (v : Value W).
Implicit Types (h : heap W) (e : Event W).

(** What a thread can use has a cell with handles. *)
Lemma borrow_cell φ t x v :
  refcount_inv (view φ) → borrow P t x (world φ) = Some v →
  ∃ c, mem (world φ) !! value_ptr v = Some c ∧
       (1 ≤ strong c ≤ MAX_REFCOUNT + 1)%Z.
Proof.
  intros Hinv (o & Hx & _)%borrow_Some.
  destruct (counts_live_cell _ _ (value_ptr v) Hinv) as (c & ? & _ & ?); [|eauto].
  apply (owners_lookup (view φ) x o v Hx).
Qed.

Lemma local_op_view {A} (c : exec (heap W) A) φ t x v r h :
  refcount_inv (view φ) → borrow P t x (world φ) = Some v →
  c (mem (world φ)) = Done (r, h) → local_op c (value_ptr v) →
  c (mem (view φ)) = Done (r, live_cells h) ∧
  dead_cells h = dead_cells (mem (world φ)).
Proof.
  intros Hinv Hb Hop Hc. destruct (borrow_cell _ _ _ _ Hinv Hb) as (c0 & ? & ? & _).
  by eapply Hc.
Qed.

(** An operation other than [new] and [drop] is the same operation on the
    view, and changes neither the cells of counter 0 nor the windows
    destroyed. *)
Lemma Step_view φ e σ' :
  refcount_inv (view φ) → drops_value e = false →
  (∀ t x w, e ≠ EvNew t x w) → Step P (world φ) e σ' →
  Step P (view φ) e (view (with_world φ σ')) ∧
  dead_cells (mem σ') = dead_cells (mem (world φ)) ∧
  destroyed σ' = destroyed (world φ).
Proof.
  intros Hinv Hd Hn HS. destruct φ as [σ dr cl d]. simpl in HS.
  Step_cases HS; try done; try (by destruct (Hn t x w));
    try (destruct (local_op_view _ _ _ _ _ _ _ Hinv Hb Hop) as [Hop' Hdead];
         [by auto|]; split; [|done]);
    try (split; [|done]);
    match goal with |- Step _ ?s _ _ => set (σv := s) in * end.
  - by apply (Step_deref P σv t x ww w (live_cells h)).
  - by apply (Step_capsule P σv t x y ww rhw (live_cells h)).
  - by apply (Step_clone P σv t x y rhw c (live_cells h)).
  - by apply (Step_get_handle P σv t x y rhw acc (live_cells h)).
  - by apply (Step_window_handle P σv t x acc r (live_cells h)).
  - by apply (Step_display_handle P σv t x acc r (live_cells h)).
  - by apply (Step_send P σv t x t' v).
Qed.

(** [new] allocates a cell that the view does not have. *)
Lemma new_view φ t x w σ' :
  Step P (world φ) (EvNew t x w) σ' →
  ∃ ww, σ' = bind_var x t (VWindowWrapper ww) (world φ) (mem σ') ∧
    may_new P = true ∧ vars (world φ) !! x = None ∧
    mem (view φ) !! ptr (reference ww) = None ∧
    mem (view (with_world φ σ')) =
      <[ptr (reference ww) := {| strong := 1; data := w |}]> (mem (view φ)) ∧
    dead_cells (mem σ') = dead_cells (mem (world φ)).
Proof.
  inversion 1 as [? ? ? ? ww h Hnew Hx Hop| | | | | | | |]; subst.
  unfold WindowWrapper.new in Hop.
  apply exec_bind_Done in Hop as (a & h1 & Hop & [= <- <-]).
  apply new_live_cells in Hop as (? & ? & ?). by exists {| reference := a |}.
Qed.

End view.

(** *** The steps of the machine, inverted *)

Section inversion.
Context {W : Type} `{!HasWindowHandle W, !HasDisplayHandle W}.
Context (P : Policy W) (atomic : bool).
Implicit Types (φ : FWorld W) (σ : World W) (t : tid) (x y : var) (v : Value W).
Implicit Types (h : heap W).

Lemma run_on_Done {A B} (c : exec (heap W) A) h (k : A → heap W → B) r :
  run_on c h k = Done r ↔ ∃ a h', c h = Done (a, h') ∧ r = k a h'.
Proof.
  unfold run_on. destruct (c h) as [[a h']| |]; split;
    first [ by intros [= <-]; eauto | by intros (? & ? & ? & ->); simplify_eq | done
          | by intros (? & ? & ? & _) ].
Qed.

Lemma run_on_Undef {A B} (c : exec (heap W) A) h (k : A → heap W → B) :
  run_on c h k = Undef ↔ c h = Undef.
Proof. unfold run_on. by destruct (c h) as [[a h']| |]. Qed.

Lemma idle_true t φ :
  idle t φ = true ↔ dropping φ !! t = None ∧ cloning φ !! t = None.
Proof. unfold idle. by rewrite andb_true_iff, !bool_decide_eq_true. Qed.

Lemma fstep_atomic_inv e φ φ' :
  fstep_atomic P e φ = Some (Done φ') →
  drops_value e = false ∧ ∃ σ', Step P (world φ) e σ' ∧ φ' = with_world φ σ'.
Proof.
  unfold fstep_atomic. destruct (drops_value e); [done|].
  destruct (idle _ φ); [|done]. simpl.
  destruct (step P e (world φ)) as [[σ'| |]|] eqn:Hs; try done.
  intros [= <-]. split; [done|]. exists σ'. by apply step_Step in Hs.
Qed.

Lemma fstep_atomic_Done e φ σ' :
  drops_value e = false → idle (thread_of e) φ = true →
  step P e (world φ) = Some (Done σ') →
  fstep_atomic P e φ = Some (Done (with_world φ σ')).
Proof. intros Hd Hi Hs. unfold fstep_atomic. by rewrite Hd, Hi, Hs. Qed.

(** Only a drop destroys a window. *)
Lemma Step_destroyed σ e σ' :
  drops_value e = false → Step P σ e σ' → destroyed σ' = destroyed σ.
Proof. intros Hd HS. by Step_cases HS. Qed.

Lemma fstep_atomic_Undef e φ :
  fstep_atomic P e φ = Some Undef → step P e (world φ) = Some Undef.
Proof.
  unfold fstep_atomic. destruct (_ || _); [done|].
  by destruct (step P e (world φ)) as [[σ'| |]|].
Qed.

Lemma fstep_fetch_sub_inv t x φ φ' :
  fstep_fetch_sub t x φ = Some (Done φ') →
  dropping φ !! t = None ∧
  ∃ v old h, owned t x (world φ) = Some v ∧
    Arc.fetch_sub (value_arc v) (mem (world φ)) = Done (old, h) ∧
    world φ' = unbind_var x None (world φ) h ∧
    cloning φ' = cloning φ ∧
    dropping φ' = (if bool_decide (old = 1%Z)
                   then <[t := value_arc v]> (dropping φ) else dropping φ) ∧
    decided φ' = (if bool_decide (old = 1%Z)
                  then option_list (data <$> h !! value_ptr v) else []) ++ decided φ.
Proof.
  unfold fstep_fetch_sub. destruct (idle t φ) eqn:Hi; [|done].
  apply idle_true in Hi as [Hd _].
  destruct (owned t x (world φ)) as [v|]; [|done]. simpl.
  intros [= (old & h & Hop & ->)%run_on_Done]. split; [done|].
  by exists v, old, h.
Qed.

Lemma fstep_drop_slow_inv t φ φ' :
  fstep_drop_slow t φ = Some (Done φ') →
  ∃ a w h, dropping φ !! t = Some a ∧
    Arc.drop_slow a (mem (world φ)) = Done (w, h) ∧
    world φ' = {| mem := h; vars := vars (world φ);
                  destroyed := w :: destroyed (world φ);
                  observed := observed (world φ) |} ∧
    cloning φ' = cloning φ ∧ dropping φ' = delete t (dropping φ) ∧
    decided φ' = decided φ.
Proof.
  unfold fstep_drop_slow. destruct (dropping φ !! t) as [a|]; [|done]. simpl.
  intros [= (w & h & Hop & ->)%run_on_Done]. by exists a, w, h.
Qed.

(** The two accesses on a cell that is allocated. *)
Lemma fstep_fetch_sub_Done t x φ v c :
  idle t φ = true → owned t x (world φ) = Some v →
  mem (world φ) !! value_ptr v = Some c →
  fstep_fetch_sub t x φ = Some (Done
    {| world := unbind_var x None (world φ)
                  (<[value_ptr v := {| strong := usize_wrap (strong c - 1);
                                       data := data c |}]> (mem (world φ)));
       dropping := if bool_decide (strong c = 1%Z)
                   then <[t := value_arc v]> (dropping φ) else dropping φ;
       cloning := cloning φ;
       decided := (if bool_decide (strong c = 1%Z) then [data c] else [])
                  ++ decided φ |}).
Proof.
  intros Hi Hx Hl. unfold fstep_fetch_sub, run_on, Arc.fetch_sub.
  rewrite Hi, Hx. simpl. rewrite value_arc_ptr, Hl. simpl.
  by rewrite lookup_insert_eq.
Qed.

Lemma fstep_drop_slow_Done t φ a c :
  dropping φ !! t = Some a → mem (world φ) !! ptr a = Some c →
  fstep_drop_slow t φ = Some (Done
    {| world := {| mem := delete (ptr a) (mem (world φ)); vars := vars (world φ);
                   destroyed := data c :: destroyed (world φ);
                   observed := observed (world φ) |};
       dropping := delete t (dropping φ);
       cloning := cloning φ;
       decided := decided φ |}).
Proof.
  intros Ht Hl. unfold fstep_drop_slow, run_on, Arc.drop_slow.
  rewrite Ht. simpl. by rewrite Hl.
Qed.

(** With the counter of the program no thread is between a load and a
    store. *)
Lemma fstep_load_atomic t x y φ : fstep_load P true t x y φ = None.
Proof. done. Qed.

Lemma fstep_store_idle t φ : cloning φ = ∅ → fstep_store t φ = None.
Proof. intros Hc. unfold fstep_store. by rewrite Hc, lookup_empty. Qed.

End inversion.

(** *** The invariant and the view, step by step *)

Section fine.
Context {W : Type} `{!HasWindowHandle W, !HasDisplayHandle W}.
Context (P : Policy W).
Implicit Types (φ : FWorld W) (σ : World W) (t : tid) (x y : var) (v : Value W).
Implicit Types (h : heap W) (e : Event W).

(** An operation with one access is that operation of the specification
    on the view, and leaves the cells of counter 0 alone. *)
Lemma atomic_view φ e σ' :
  refcount_inv (view φ) → drops_value e = false → Step P (world φ) e σ' →
  refcount_inv (view (with_world φ σ')) ∧
  AStep P (abs (view φ)) e (abs (view (with_world φ σ'))) ∧
  dead_cells (mem σ') = dead_cells (mem (world φ)) ∧
  destroyed σ' = destroyed (world φ).
Proof.
  intros Hinv Hd HS. destruct e as [t x w| | | | | | | |];
    try (destruct (Step_view P φ _ σ' Hinv Hd) as (HS' & ? & ?); [done..|];
         split_and!; [by eapply refcount_inv_Step|by apply Step_AStep|done..]).
  destruct (new_view P _ _ _ _ _ HS) as (ww & Hσ' & Hnew & Hx & Hl & Hmem & Hdead).
  split_and!; [| |done|by rewrite Hσ'].
  - unfold refcount_inv. rewrite Hmem.
    change (owners (view (with_world φ σ'))) with (owners σ').
    rewrite Hσ', owners_bind_fresh by done. by apply counts_alloc.
  - unfold abs. rewrite Hmem, abs_alloc, Hσ'. destruct ww as [[l]].
    apply (AStep_new P (abs (view φ)) t x w l); [done..|].
    simpl in *. by rewrite lookup_fmap, Hl.
Qed.

(** The first access of a drop is the drop of the specification. *)
Lemma fetch_sub_view φ t x φ' :
  refcount_inv (view φ) → fstep_fetch_sub t x φ = Some (Done φ') →
  Step P (view φ) (EvDrop t x) (view φ').
Proof.
  intros Hinv (_ & v & old & h & Hx & Hop & Hw & _ & _ & Hdec)%fstep_fetch_sub_inv.
  destruct (borrow_cell P φ t x v Hinv) as (c & Hl & Hc); [by apply owned_borrow|].
  rewrite <-value_arc_ptr in Hl.
  destruct (fetch_sub_live _ _ _ _ _ Hl Hc Hop) as [-> Hdrop].
  destruct (fetch_sub_dead _ _ _ _ _ Hl Hc Hop) as [_ Hdead].
  rewrite <-drop_value_arc in Hdrop.
  pose proof (Step_drop P (view φ) t x v _ _ Hx Hdrop) as HS.
  replace (view φ') with
    (unbind_var x (if bool_decide (strong c = 1%Z) then Some (data c) else None)
       (view φ) (live_cells h)); [done|].
  unfold view, unbind_var. rewrite Hw, Hdec. simpl. f_equal.
  rewrite value_arc_ptr in Hdead.
  destruct (bool_decide _); [|done]. by destruct Hdead as [-> _].
Qed.

(** The cell of a thread that is committed to [drop_slow]. *)
Lemma dropping_dead φ t a :
  fine_inv φ → dropping φ !! t = Some a →
  ∃ c, dead_cells (mem (world φ)) !! ptr a = Some c.
Proof.
  intros (_ & _ & Hp & _) Ht. specialize (Hp (ptr a)).
  pose proof (map_multiset_lookup ptr _ _ _ Ht).
  revert Hp. decide_is_Some.
Qed.

(** The second access is not seen. *)
Lemma drop_slow_view φ t φ' :
  fine_inv φ → fstep_drop_slow t φ = Some (Done φ') → view φ' = view φ.
Proof.
  intros Hinv (a & w & h & Ht & Hop & Hw & _ & _ & Hdec)%fstep_drop_slow_inv.
  destruct (dropping_dead _ _ _ Hinv Ht) as [c Hc].
  destruct (drop_slow_dead _ _ _ _ _ Hc Hop) as (_ & Hlive & _).
  unfold view. by rewrite Hw, Hdec; simpl; rewrite Hlive.
Qed.

(** *** The invariant is kept *)

Lemma fine_inv_init : fine_inv (finit : FWorld W).
Proof.
  unfold fine_inv, finit, live_cells, dead_cells, owners. simpl.
  rewrite !map_filter_empty, !map_multiset_empty, map_values_empty.
  split_and!; [done|apply counts_empty| |done].
  intros l. rewrite multiplicity_empty, lookup_empty. decide_is_Some.
Qed.

Lemma fine_inv_atomic φ e φ' :
  fine_inv φ → fstep_atomic P e φ = Some (Done φ') → fine_inv φ'.
Proof.
  intros (Hcl & Hinv & Hp & Hd) (Hdv & σ' & HS & ->)%fstep_atomic_inv.
  destruct (atomic_view φ e σ' Hinv Hdv HS) as (Hinv' & _ & Hdead & Hdes).
  split_and!; simpl; [done|exact Hinv'|by rewrite Hdead|by rewrite Hdead, Hdes].
Qed.

Lemma fine_inv_fetch_sub φ t x φ' :
  fine_inv φ → fstep_fetch_sub t x φ = Some (Done φ') → fine_inv φ'.
Proof.
  intros (Hcl & Hinv & Hp & Hd) Hs.
  pose proof (refcount_inv_Step P (view φ) _ _ Hinv (fetch_sub_view _ _ _ _ Hinv Hs))
    as Hinv'.
  apply fstep_fetch_sub_inv in Hs
    as (Ht & v & old & h & Hx & Hop & Hw & Hcl' & Hdr & Hdec).
  destruct (borrow_cell P φ t x v Hinv) as (c & Hl & Hc); [by apply owned_borrow|].
  rewrite <-value_arc_ptr in Hl.
  destruct (fetch_sub_dead _ _ _ _ _ Hl Hc Hop) as [Hnone Hdead].
  destruct φ' as [σ' dr' cl' d']. simpl in *. subst σ' dr' cl' d'.
  split_and!; simpl; [done|exact Hinv'| |]; destruct (bool_decide _).
  - destruct Hdead as [_ ->]. intros l. specialize (Hp l).
    rewrite map_multiset_insert_fresh, multiplicity_disj_union by done.
    destruct (decide (l = ptr (value_arc v))) as [->|].
    + rewrite multiplicity_singleton_eq, lookup_insert_eq, Hp, Hnone.
      decide_is_Some.
    + by rewrite multiplicity_singleton_ne, lookup_insert_ne.
  - by rewrite Hdead.
  - destruct Hdead as [Hh ->]. rewrite value_arc_ptr in Hh. rewrite Hh. simpl.
    by rewrite map_values_insert_fresh, Hd by done.
  - by rewrite Hdead.
Qed.

Lemma fine_inv_drop_slow φ t φ' :
  fine_inv φ → fstep_drop_slow t φ = Some (Done φ') → fine_inv φ'.
Proof.
  intros Hinv Hs. pose proof (drop_slow_view _ _ _ Hinv Hs) as Hview.
  apply fstep_drop_slow_inv in Hs as (a & w & h & Ht & Hop & Hw & Hcl' & Hdr & Hdec).
  destruct (dropping_dead _ _ _ Hinv Ht) as [c Hc].
  destruct (drop_slow_dead _ _ _ _ _ Hc Hop) as (-> & Hlive & Hdead).
  destruct Hinv as (Hcl & Hinv & Hp & Hd).
  destruct φ' as [σ' dr' cl' d']. simpl in *. subst σ' dr' cl' d'.
  unfold fine_inv, owners. simpl. rewrite Hlive, Hdead.
  split_and!; [done|exact Hinv| |].
  - intros l. specialize (Hp l).
    rewrite (map_multiset_delete _ _ _ _ Ht), multiplicity_disj_union in Hp.
    destruct (decide (l = ptr a)) as [->|].
    + rewrite multiplicity_singleton_eq, Hc in Hp. rewrite lookup_delete_eq.
      decide_is_Some.
    + rewrite multiplicity_singleton_ne in Hp by done.
      by rewrite lookup_delete_ne.
  - rewrite Hd, (map_values_delete _ _ _ _ Hc). apply Permutation_middle.
Qed.

Lemma fine_inv_inductive : inductive_invariant (fstep P true) fine_inv.
Proof.
  intros [e|t x|t|t x y|t] φ φ' Hinv Hs; simpl in Hs.
  - by eapply fine_inv_atomic.
  - by eapply fine_inv_fetch_sub.
  - by eapply fine_inv_drop_slow.
  - done.
  - destruct Hinv as [Hcl _]. by rewrite fstep_store_idle in Hs.
Qed.

Lemma freachable_fine_inv φ : freachable P φ → fine_inv φ.
Proof.
  intros Hr. eapply invariant_reachable; [|apply fine_inv_init|exact Hr].
  apply fine_inv_inductive.
Qed.

End fine.

(** *** Undefined behaviour, refinement, quiescence *)

Section consequences.
Context {W : Type} `{!HasWindowHandle W, !HasDisplayHandle W}.
Context (P : Policy W).
Implicit Types (φ : FWorld W) (σ : World W) (t : tid) (x y : var) (v : Value W).
Implicit Types (h : heap W).

(** Under the invariant no access is to a cell that is freed. *)
Lemma fine_not_Undef φ e : fine_inv φ → fstep P true e φ ≠ Some Undef.
Proof.
  intros Hinv. pose proof Hinv as (Hcl & Hc & _).
  destruct e as [e|t x|t|t x y|t]; simpl; [| | |done|by rewrite fstep_store_idle].
  - intros (t & x & v & Hb & Hl)%fstep_atomic_Undef%step_Undef_dangling.
    destruct (borrow_cell P φ t x v Hc Hb) as (c & ? & _). congruence.
  - unfold fstep_fetch_sub. destruct (idle t φ); [|done].
    destruct (owned t x (world φ)) as [v|] eqn:Hx; [|done]. simpl.
    intros [= Hu%run_on_Undef%fetch_sub_Undef]. rewrite value_arc_ptr in Hu.
    destruct (borrow_cell P φ t x v Hc) as (c & ? & _); [by apply owned_borrow|].
    congruence.
  - unfold fstep_drop_slow. destruct (dropping φ !! t) as [a|] eqn:Ht; [|done]. simpl.
    intros [= Hu%run_on_Undef%drop_slow_Undef].
    destruct (dropping_dead _ _ _ Hinv Ht) as [c [? _]%dead_cells_lookup].
    congruence.
Qed.

(** The process is aborted only by the guard of [clone], and not below
    [MAX_REFCOUNT] values. *)
Lemma fine_not_Abort φ e :
  fine_inv φ → (Z.of_nat (size (vars (world φ))) ≤ MAX_REFCOUNT)%Z →
  fstep P true e φ ≠ Some Abort.
Proof.
  intros Hinv Hsize. pose proof Hinv as (Hcl & Hc & _).
  destruct e as [e|t x|t|t x y|t]; simpl; [| | |done|by rewrite fstep_store_idle].
  - unfold fstep_atomic. destruct (_ || _); [done|].
    destruct (step P e (world φ)) as [[σ'| |]|] eqn:Hs; try done. intros _.
    apply step_Abort_overflow in Hs as (t & x & v & c & Hb & Hl & Hgt).
    assert (live_cells (mem (world φ)) !! value_ptr v = Some c) as Hlive.
    { apply live_cells_lookup. split; [done|]. unfold MAX_REFCOUNT in Hgt. lia. }
    pose proof (counts_strong _ _ _ _ Hc Hlive) as Hs.
    pose proof (map_multiset_multiplicity_le
                  (λ ov : tid * Value W, value_ptr ov.2) (vars (world φ)) (value_ptr v)).
    unfold owners in Hs. lia.
  - unfold fstep_fetch_sub, run_on. destruct (idle t φ); [|done].
    destruct (owned t x (world φ)) as [v|]; [|done].
    simpl. intros [= Hs]. revert Hs.
    destruct (Arc.fetch_sub _ _) as [[]| |] eqn:Hf; try done.
    by apply fetch_sub_not_Abort in Hf.
  - unfold fstep_drop_slow, run_on. destruct (dropping φ !! t); [|done].
    simpl. intros [= Hs]. revert Hs.
    destruct (Arc.drop_slow _ _) as [[]| |] eqn:Hf; try done.
    by apply drop_slow_not_Abort in Hf.
Qed.

(** One access, as a balance of windows: a window that was created is
    alive with handles, or its destruction is decided. *)
Lemma fine_balance φ e φ' :
  fine_inv φ → fstep P true e φ = Some (Done φ') →
  decided φ' ++ live (view φ') ≡ₚ
    created (option_list (event_of e)) ++ decided φ ++ live (view φ).
Proof.
  intros Hinv Hs. pose proof Hinv as (Hcl & Hc & _).
  destruct e as [e|t x|t|t x y|t]; simpl in Hs;
    [| | |done|by rewrite fstep_store_idle in Hs].
  - apply fstep_atomic_inv in Hs as (Hdv & σ' & HS & ->).
    destruct e as [t x w| | | | | | | |];
      try (destruct (Step_view P φ _ σ' Hc Hdv) as (HS' & _ & _); [done..|];
           exact (Step_balance P _ _ _ HS')).
    destruct (new_view P _ _ _ _ _ HS) as (ww & _ & _ & _ & Hl & Hmem & _).
    unfold live. rewrite Hmem, map_values_insert_fresh by done. simpl.
    by rewrite Permutation_middle.
  - exact (Step_balance P _ _ _ (fetch_sub_view P _ _ _ _ Hc Hs)).
  - change (decided φ') with (destroyed (view φ')).
    by rewrite (drop_slow_view _ _ _ Hinv Hs).
Qed.

Lemma fine_reaches_balance tr φ φ' :
  fine_inv φ → reaches (fstep P true) φ tr φ' →
  decided φ' ++ live (view φ') ≡ₚ
    created (omap event_of tr) ++ decided φ ++ live (view φ).
Proof.
  revert φ. induction tr as [|e tr IH]; intros φ Hinv.
  - by intros <-%reaches_nil.
  - intros (φ1 & Hs & Hr)%reaches_cons.
    rewrite (IH φ1), (fine_balance _ _ _ Hinv Hs); [|by eapply (fine_inv_inductive P)|done].
    simpl. unfold created. destruct (event_of e) as [e'|]; [|done]. simpl.
    destruct e'; simpl; try done. by rewrite <-Permutation_middle.
Qed.

(** An access is a step of the specification, or is not seen. *)
Lemma fine_AStep φ e φ' :
  fine_inv φ → fstep P true e φ = Some (Done φ') →
  match event_of e with
  | Some e' => AStep P (abs (view φ)) e' (abs (view φ'))
  | None => view φ' = view φ
  end.
Proof.
  intros Hinv. pose proof Hinv as (Hcl & Hc & _).
  destruct e as [e|t x|t|t x y|t]; simpl; [| | |done|by rewrite fstep_store_idle].
  - intros (Hdv & σ' & HS & ->)%fstep_atomic_inv.
    by destruct (atomic_view P φ e σ' Hc Hdv HS) as (_ & HA & _).
  - intros HS%(fetch_sub_view P); [|done]. by apply Step_AStep.
  - by apply drop_slow_view.
Qed.

Lemma fine_reaches_ARun tr φ φ' :
  fine_inv φ → reaches (fstep P true) φ tr φ' →
  ARun P (abs (view φ)) (omap event_of tr) (abs (view φ')).
Proof.
  revert φ. induction tr as [|e tr IH]; intros φ Hinv.
  - intros <-%reaches_nil. constructor.
  - intros (φ1 & Hs & Hr)%reaches_cons.
    pose proof (fine_AStep _ _ _ Hinv Hs) as HA.
    pose proof (fine_inv_inductive P _ _ _ Hinv Hs) as Hinv1.
    specialize (IH _ Hinv1 Hr). simpl. destruct (event_of e) as [e'|].
    + by econstructor.
    + by rewrite <-HA.
Qed.

Lemma view_finit : abs (view (finit : FWorld W)) = ainit.
Proof. unfold abs, view, live_cells. simpl. by rewrite map_filter_empty, fmap_empty. Qed.

Lemma live_view_finit : live (view (finit : FWorld W)) = [].
Proof. unfold live, view, live_cells. simpl. by rewrite map_filter_empty, map_values_empty. Qed.

(** With no thread between the two accesses of a drop, no cell has
    counter 0. *)
Lemma quiescent_dead_cells φ :
  fine_inv φ → dropping φ = ∅ → dead_cells (mem (world φ)) = ∅.
Proof.
  intros (_ & _ & Hp & _) Hdr. apply map_empty. intros l. specialize (Hp l).
  rewrite Hdr, map_multiset_empty, multiplicity_empty in Hp.
  apply eq_None_not_Some. revert Hp. decide_is_Some.
Qed.

(** The thread that is committed to [drop_slow] takes the step, which
    the specification does not see. *)
Lemma drop_slow_enabled φ t a :
  fine_inv φ → dropping φ !! t = Some a →
  ∃ φ', fstep P true (FDropSlow t) φ = Some (Done φ') ∧
        dropping φ' = delete t (dropping φ) ∧ view φ' = view φ.
Proof.
  intros Hinv Ht. destruct (dropping_dead _ _ _ Hinv Ht) as [c [Hc _]%dead_cells_lookup].
  pose proof (fstep_drop_slow_Done _ _ _ _ Ht Hc) as Hs.
  eexists. split; [exact Hs|]. split; [done|]. by eapply drop_slow_view.
Qed.

(** The threads that are committed to [drop_slow] take their steps, in
    some order, and then no thread is inside a drop. *)
Lemma pending_drops_drain n φ :
  fine_inv φ → size (dropping φ) = n →
  ∃ tr φ', reaches (fstep P true) φ tr φ' ∧ omap event_of tr = [] ∧
           length tr = n ∧ dropping φ' = ∅ ∧ view φ' = view φ.
Proof.
  revert φ. induction n as [|n IH]; intros φ Hinv Hn.
  - exists [], φ. split_and!; [by apply reaches_nil|done..| |done].
    by apply map_size_empty_inv.
  - destruct (map_size_ne_0_lookup_1 (dropping φ)) as (t & a & Ht); [lia|].
    destruct (drop_slow_enabled _ _ _ Hinv Ht) as (φ1 & Hs & Hdr & Hview).
    destruct (IH φ1) as (tr & φ' & Hr & Hhid & Hlen & Hq & Hview').
    { by eapply (fine_inv_inductive P). }
    { rewrite Hdr, map_size_delete_Some by eauto. lia. }
    exists (FDropSlow t :: tr), φ'.
    split_and!; [apply reaches_cons; eauto|done|by rewrite <-Hlen|done|congruence].
Qed.

(** The drop of [Machine] is the two accesses, one after the other. *)
Lemma drop_accesses σ t x v o h :
  owned t x σ = Some v → Arc.drop (value_arc v) (mem σ) = Done (o, h) →
  reaches (fstep P true) (coarse σ) (accesses (EvDrop t x) σ)
    (coarse (unbind_var x o σ h)).
Proof.
  intros Hx (c & Hl & Hcase)%drop_inv. rewrite value_arc_ptr in Hl.
  pose proof (fstep_fetch_sub_Done t x (coarse σ) v c eq_refl Hx Hl) as Hs.
  unfold accesses. rewrite Hx, (strong_at_Some _ _ _ Hl).
  destruct Hcase as [(H1 & -> & ->)|(Hne & -> & ->)].
  - rewrite bool_decide_eq_true_2 in * by done.
    apply reaches_cons. eexists. split; [exact Hs|].
    apply reaches_cons. eexists. split; [|by apply reaches_nil].
    etrans; [apply (fstep_drop_slow_Done _ _ (value_arc v)
                      {| strong := usize_wrap (strong c - 1); data := data c |})|];
      simpl; rewrite ?value_arc_ptr, ?lookup_insert_eq; try done.
    by rewrite delete_insert_eq, delete_insert_eq.
  - rewrite bool_decide_eq_false_2 in * by done.
    apply reaches_cons. eexists. split; [exact Hs|]. apply reaches_nil.
    unfold coarse, unbind_var. simpl. by rewrite value_arc_ptr.
Qed.

(** An operation of [Machine] is its accesses, one after the other. *)
Lemma Step_accesses σ e σ' :
  Step P σ e σ' → reaches (fstep P true) (coarse σ) (accesses e σ) (coarse σ').
Proof.
  intros HS. pose proof HS as Hs%step_Step.
  destruct (drops_value e) eqn:Hd.
  - destruct e as [| | | | | | |t x|]; try done. clear Hs Hd.
    inversion HS as [| | | | | | |? ? ? v o h Hx Hop|]; subst.
    rewrite drop_value_arc in Hop. by apply (drop_accesses _ _ _ v).
  - replace (accesses e σ) with [FAtomic e] by (by destruct e).
    apply reaches_cons. eexists. split; [|by apply reaches_nil].
    simpl. rewrite (fstep_atomic_Done P e (coarse σ) σ') by done.
    unfold coarse, with_world. simpl. by rewrite (Step_destroyed P σ e σ').
Qed.

(** A run of [Machine] is the run of its accesses. *)
Lemma reaches_accesses tr σ σ' :
  reaches (step P) σ tr σ' →
  reaches (fstep P true) (coarse σ) (run_accesses P tr σ) (coarse σ').
Proof.
  revert σ. induction tr as [|e tr IH]; intros σ; simpl.
  - intros <-%reaches_nil. by apply reaches_nil.
  - intros (σ1 & Hs & Hr)%reaches_cons. rewrite Hs. apply reaches_app.
    exists (coarse σ1). split; [by apply Step_accesses, step_Step|by apply IH].
Qed.

End consequences.

(** ** What the atomic counter guarantees *)

Section guarantees.
Context {W : Type} `{!HasWindowHandle W, !HasDisplayHandle W}.
Context (P : Policy W).
Implicit Types (φ : FWorld W) (σ : World W) (t : tid).

(** C3: With the counter of the program and the drop in its two accesses,
    however the threads interleave, no access of a client is to a window
    that is freed: neither an operation on a handle, nor the decrement,
    nor the [drop_slow] of the thread that saw 1. *)
Theorem atomic_counter_no_use_after_free φ (e : FEvent W) :
  freachable P φ → fstep P true e φ ≠ Some Undef.
Proof. intros Hinv%freachable_fine_inv. by apply fine_not_Undef. Qed.

(** C6: Refinement: a run of the clients, access by access, is a run of
    the specification of shared ownership on the cells with handles; a
    drop is its decrement, and [drop_slow] is not seen. *)
Theorem atomic_counter_refines_ownership (tr : list (FEvent W)) φ :
  reaches (fstep P true) finit tr φ →
  ARun P ainit (omap event_of tr) (abs (view φ)).
Proof.
  intros Hr. rewrite <-view_finit.
  apply fine_reaches_ARun; [apply fine_inv_init|done].
Qed.

(** C7: Exactly once, under every interleaving of the accesses: every
    window that the clients created is one of the windows destroyed, the
    windows of the cells with counter 0, whose [drop_slow] is to come,
    and the windows of the cells with handles, and is so once.  No window
    is destroyed twice, none is destroyed while it has a handle, and
    none is lost. *)
Theorem atomic_counter_destroys_once (tr : list (FEvent W)) φ :
  reaches (fstep P true) finit tr φ →
  created (omap event_of tr) ≡ₚ
    destroyed (world φ) ++ map_values data (dead_cells (mem (world φ))) ++
    live (view φ).
Proof.
  intros Hr. pose proof (fine_reaches_balance P _ _ _ fine_inv_init Hr) as Hbal.
  assert (fine_inv φ) as (_ & _ & _ & Hd) by (apply (freachable_fine_inv P); by exists tr).
  rewrite Hd, live_view_finit in Hbal. simpl in Hbal. rewrite app_nil_r in Hbal.
  rewrite <-Hbal, !(assoc_L (++)). f_equiv. apply Permutation_app_comm.
Qed.

(** When no thread is between the two accesses of a drop, the heap is
    that of [Machine]: every cell has handles and counts them, and the
    windows destroyed are those whose last handle was dropped. *)
Theorem quiescent_world_counts_handles φ :
  freachable P φ → dropping φ = ∅ →
  mem (view φ) = mem (world φ) ∧ refcount_inv (world φ) ∧
  decided φ ≡ₚ destroyed (world φ).
Proof.
  intros Hinv%freachable_fine_inv Hdr.
  pose proof (quiescent_dead_cells _ Hinv Hdr) as Hdead.
  pose proof (live_cells_all _ Hdead) as Hlive.
  destruct Hinv as (_ & Hc & _ & Hd). rewrite Hdead, map_values_empty in Hd.
  split_and!; [done| |done]. unfold refcount_inv. by rewrite <-Hlive.
Qed.

(** The thread that saw 1 is never blocked: its [drop_slow] is
    enabled, returns, leaves the thread free again, and changes nothing
    that the other threads or the specification see. *)
Theorem committed_drop_completes φ t (a : Arc W) :
  freachable P φ → dropping φ !! t = Some a →
  ∃ φ', fstep P true (FDropSlow t) φ = Some (Done φ') ∧
        dropping φ' = delete t (dropping φ) ∧ view φ' = view φ.
Proof. intros Hinv%freachable_fine_inv. by apply drop_slow_enabled. Qed.

(** [Machine] is this machine with no thread interrupted inside a
    drop: an operation of [Machine] is the run of its accesses, two for
    the drop of a last handle and one otherwise, between the same worlds. *)
Theorem machine_step_is_its_accesses σ (e : Event W) σ' :
  step P e σ = Some (Done σ') →
  reaches (fstep P true) (coarse σ) (accesses e σ) (coarse σ') ∧
  omap event_of (accesses e σ) = [e].
Proof.
  intros HS%step_Step. split; [by apply Step_accesses|].
  destruct e; try done. simpl. destruct (owned _ _ _); [|done].
  by case_bool_decide.
Qed.

(** No drop stays half done: from every reachable world the threads
    that saw 1 can run their [drop_slow]s, one step each and nothing
    else, after which no thread is inside a drop; the other threads and
    the specification see none of these steps. *)
Theorem pending_drops_complete φ :
  freachable P φ →
  ∃ tr φ', reaches (fstep P true) φ tr φ' ∧ omap event_of tr = [] ∧
           length tr = size (dropping φ) ∧ dropping φ' = ∅ ∧ view φ' = view φ.
Proof. intros Hinv%freachable_fine_inv. by apply pending_drops_drain. Qed.

End guarantees.

(** ** On the concrete clients *)

(** The counter has to be atomic.  With the increment as a load and a
    store, two threads that clone one capsule at once lose an increment;
    after the drops that the counter allows, the window is freed under
    the fourth handle, and the next use of it is undefined.  With the
    counter of the program the interleaving does not exist, and the same
    client keeps its window. *)
Example racing_clones_use_after_free :
  run (fstep stub_policy false) racing_clones finit = Some Undef ∧
  run (fstep stub_policy true) racing_clones finit = None ∧
  strong_at (mem (world atomic_clones_world)) 1%positive = 2%Z ∧
  dropping atomic_clones_world = ∅.
Proof. by vm_compute. Qed.

Lemma pending_reachable : freachable stub_policy pending_world.
Proof. exists pending_drop. by vm_compute. Qed.

Lemma atomic_counter_no_use_after_free_witness :
  fstep stub_policy true (FDropSlow 1) pending_world ≠ Some Undef.
Proof.
  apply (atomic_counter_no_use_after_free stub_policy). apply pending_reachable.
Defined.

Lemma atomic_counter_refines_ownership_witness :
  ARun stub_policy ainit (omap event_of atomic_clones) (abs (view atomic_clones_world)).
Proof. apply (atomic_counter_refines_ownership stub_policy). by vm_compute. Defined.

Lemma quiescent_world_counts_handles_witness :
  mem (view atomic_clones_world) = mem (world atomic_clones_world) ∧
  refcount_inv (world atomic_clones_world) ∧
  decided atomic_clones_world ≡ₚ destroyed (world atomic_clones_world).
Proof.
  apply (quiescent_world_counts_handles stub_policy); [|by vm_compute].
  exists atomic_clones. by vm_compute.
Defined.

Lemma committed_drop_completes_witness :
  ∃ φ', fstep stub_policy true (FDropSlow 1) pending_world = Some (Done φ') ∧
        dropping φ' = delete 1 (dropping pending_world) ∧
        view φ' = view pending_world.
Proof.
  apply (committed_drop_completes stub_policy pending_world 1 {| ptr := 1%positive |}).
  - apply pending_reachable.
  - by vm_compute.
Defined.

Lemma pending_drops_complete_witness :
  ∃ tr φ', reaches (fstep stub_policy true) pending_world tr φ' ∧
           omap event_of tr = [] ∧ length tr = size (dropping pending_world) ∧
           dropping φ' = ∅ ∧ view φ' = view pending_world.
Proof. apply (pending_drops_complete stub_policy). apply pending_reachable. Defined.

Lemma atomic_counter_destroys_once_witness :
  created (omap event_of pending_drop) ≡ₚ
    destroyed (world pending_world) ++
    map_values data (dead_cells (mem (world pending_world))) ++
    live (view pending_world).
Proof. apply (atomic_counter_destroys_once stub_policy). by vm_compute. Defined.

Lemma machine_step_is_its_accesses_witness :
  reaches (fstep stub_policy true) (coarse one_holder)
    (accesses (EvDrop 0 0) one_holder)
    (coarse (world_of (step stub_policy (EvDrop 0 0) one_holder))) ∧
  omap event_of (accesses (EvDrop 0 0) one_holder) = [EvDrop 0 0].
Proof. apply (machine_step_is_its_accesses stub_policy). by vm_compute. Defined.

(** The drop of the only handle is two accesses. *)
Example accesses_last_drop :
  accesses (EvDrop 0 0) one_holder = [FFetchSub 0 0; FDropSlow 0].
Proof. by vm_compute. Qed.

(** Two threads ask for an accessor at once, each on its capsule of
    the same window.  After both accessors and the holder are dropped the
    counter is 2, for the two capsules, and the window is alive; when the
    threads drop the capsules, both decrements first, the thread that saw
    1 destroys the window, once, and no cell is left. *)
Example concurrent_accessors_destroy_once :
  let φ := fworld_of (run (fstep stub_policy true) concurrent_accessors finit) in
  let φ' := fworld_of (run (fstep stub_policy true)
                         (concurrent_accessors ++ capsules_dropped) finit) in
  strong_at (mem (world φ)) 1%positive = 2%Z ∧ destroyed (world φ) = [] ∧
  decided φ = [] ∧
  mem (world φ') = ∅ ∧ destroyed (world φ') = [stub_ok 42] ∧ dropping φ' = ∅.
Proof. by vm_compute. Qed.
