(* ===== verification/Ordering.v ===== *)
(** * The orderings of the accesses to a counter

    That the accesses to the counter of an [Arc] are atomic is half of
    what the specification asks of it (section 5); the other half is that
    they order the accesses to the window: the thread that frees the
    window must have, before its destructor runs, every read of the
    window by every other thread, or the two race.  [Arc] gets this from
    the orderings of its accesses: the increment of [clone] is [Relaxed],
    the decrement of [drop] is [Release], and the thread that saw 1 issues
    an [Acquire] fence before [drop_slow].

    This file has the orderings and what they order, without the heap:
    the accesses of a run ([Access]), what each thread knows of them
    ([Know]), and how an access changes it ([learn]).  A thread knows its
    own accesses; a thread that receives a value knows what the sender
    knew; a borrow of a variable of another thread starts after the owner
    got the value and ends before the owner moves or drops it; a
    decrement that releases publishes what its thread knows on the
    counter, and an access that acquires learns what is published there.
    A read of a window that is not known to be initialised, and a
    destructor that runs without knowing an access to its window, are data
    races.

    The accesses change who holds what by the rules of [Grant].  For
    orderings in which the decrement releases and either the fence or the
    decrement acquires ([safe_orderings]), the invariant [know_inv] holds
    along every sequence of accesses that [Grant] allows, and no access is
    a race ([Grant_learn]): this is the interface that [Race] uses for the
    machine of [Atomicity]. *)

From S2P Require Import Prelude Sync Machine.

#[local] Set Warnings "-clear-no-such-hyp".

(** ** Definitions *)

(** [core::sync::atomic::Ordering]. *)
Inductive Ordering : Type := Relaxed | Release | Acquire | AcqRel | SeqCst.

#[export] Instance Ordering_eq_dec : EqDecision Ordering.
Proof. solve_decision. Defined.

(** A write with the ordering publishes what its thread knows; a read
    with the ordering learns what is published. *)
Definition releases (o : Ordering) : bool :=
  match o with Release | AcqRel | SeqCst => true | Relaxed | Acquire => false end.

Definition acquires (o : Ordering) : bool :=
  match o with Acquire | AcqRel | SeqCst => true | Relaxed | Release => false end.

(** The orderings of the three accesses of a counter: the [fetch_add] of
    [clone], the [fetch_sub] of [drop], and the fence before [drop_slow]. *)
Record Orderings : Type := {
  clone_order : Ordering;
  drop_order : Ordering;
  fence_order : Ordering;
}.

(** Those of [Arc]. *)
Definition arc_orderings : Orderings :=
  {| clone_order := Relaxed; drop_order := Release; fence_order := Acquire |}.

Definition relaxed_orderings : Orderings :=
  {| clone_order := Relaxed; drop_order := Relaxed; fence_order := Relaxed |}.

(** The decrement publishes, and the thread that frees has learnt. *)
Definition safe_orderings (O : Orderings) : bool :=
  releases (drop_order O) && (acquires (fence_order O) || acquires (drop_order O)).

(** What a step does to a cell and to the variables: a window is moved
    into a new cell [l] held by [x]; [y] becomes one more handle of the
    cell of [x]; the window of the cell of [x] is read; [x] is moved to
    thread [t']; the handle [x] is given up and the counter decremented;
    the window of [l] is destroyed and the cell freed. *)
Inductive Access : Type :=
| Alloc (t : tid) (x : var) (l : loc)
| Share (t : tid) (x y : var) (l : loc)
| Read (t : tid) (x : var) (l : loc)
| Move (t : tid) (x : var) (t' : tid)
| Decr (t : tid) (x : var) (l : loc)
| Free (t : tid) (l : loc).

(** Accesses by their number in the run. *)
Definition history : Type := gset nat.

Definition hist `{Countable K} (m : gmap K history) (k : K) : history :=
  default ∅ (m !! k).

Definition when (b : bool) (s : history) : history := if b then s else ∅.

(** The number of the next access; what each thread knows; what is
    published on the counter of each cell; what the borrowers of each
    variable know; what a borrower of each variable may rely on; the
    access that initialised the window of each cell; the accesses to the
    window of each cell. *)
Record Know : Type := {
  now : nat;
  knows : gmap tid history;
  released : gmap loc history;
  lent : gmap var history;
  born : gmap var history;
  made : gmap loc nat;
  accessed : gmap loc history;
}.

Definition know_init : Know :=
  {| now := 0; knows := ∅; released := ∅; lent := ∅; born := ∅; made := ∅;
     accessed := ∅ |}.

(** What the threads know after an access, [None] when the access is a
    data race. *)
Definition learn (O : Orderings) (a : Access) (κ : Know) : option Know :=
  let n := now κ in
  match a with
  | Alloc t x l =>
      let k := hist (knows κ) t ∪ {[n]} in
      Some {| now := S n; knows := <[t := k]> (knows κ);
              released := delete l (released κ);
              lent := delete x (lent κ); born := <[x := k]> (born κ);
              made := <[l := n]> (made κ);
              accessed := <[l := {[n]}]> (accessed κ) |}
  | Share t x y l =>
      let k := hist (knows κ) t ∪ hist (born κ) x ∪ {[n]}
               ∪ when (acquires (clone_order O)) (hist (released κ) l) in
      Some {| now := S n; knows := <[t := k]> (knows κ);
              released := <[l := hist (released κ) l
                                 ∪ when (releases (clone_order O)) k]> (released κ);
              lent := delete y (<[x := hist (lent κ) x ∪ k]> (lent κ));
              born := <[y := k]> (born κ);
              made := made κ; accessed := accessed κ |}
  | Read t x l =>
      let k := hist (knows κ) t ∪ hist (born κ) x ∪ {[n]} in
      i ← made κ !! l;
      if decide (i ∈ k)
      then Some {| now := S n; knows := <[t := k]> (knows κ);
                   released := released κ;
                   lent := <[x := hist (lent κ) x ∪ k]> (lent κ);
                   born := born κ; made := made κ;
                   accessed := <[l := hist (accessed κ) l ∪ {[n]}]> (accessed κ) |}
      else None
  | Move t x t' =>
      let k := hist (knows κ) t ∪ hist (lent κ) x ∪ {[n]} in
      let k' := hist (knows κ) t' ∪ k in
      Some {| now := S n; knows := <[t' := k']> (<[t := k]> (knows κ));
              released := released κ;
              lent := delete x (lent κ); born := <[x := k']> (born κ);
              made := made κ; accessed := accessed κ |}
  | Decr t x l =>
      let k := hist (knows κ) t ∪ hist (lent κ) x ∪ {[n]}
               ∪ when (acquires (drop_order O)) (hist (released κ) l) in
      Some {| now := S n; knows := <[t := k]> (knows κ);
              released := <[l := hist (released κ) l
                                 ∪ when (releases (drop_order O)) k]> (released κ);
              lent := delete x (lent κ); born := delete x (born κ);
              made := made κ; accessed := accessed κ |}
  | Free t l =>
      let k := hist (knows κ) t ∪ {[n]}
               ∪ when (acquires (fence_order O)) (hist (released κ) l) in
      if decide (hist (accessed κ) l ⊆ k)
      then Some {| now := S n; knows := <[t := k]> (knows κ);
                   released := delete l (released κ);
                   lent := lent κ; born := born κ;
                   made := delete l (made κ);
                   accessed := delete l (accessed κ) |}
      else None
  end.

(** The thread of an access. *)
Definition thread_of_access (a : Access) : tid :=
  match a with
  | Alloc t _ _ | Share t _ _ _ | Read t _ _ | Move t _ _ | Decr t _ _ | Free t _ => t
  end.

(** What is known is of the past: every access that a thread knows, that
    is published or lent, has been made. *)
Definition know_past (κ : Know) : Prop :=
  (∀ t n, n ∈ hist (knows κ) t → n < now κ) ∧
  (∀ l n, n ∈ hist (released κ) l → n < now κ) ∧
  (∀ x n, n ∈ hist (lent κ) x → n < now κ) ∧
  (∀ x n, n ∈ hist (born κ) x → n < now κ) ∧
  (∀ l n, n ∈ hist (accessed κ) l → n < now κ) ∧
  (∀ l i, made κ !! l = Some i → i < now κ).

(** ** Who holds what

    The variables with their owner and cell, and the threads that are
    about to free a cell. *)
Record Grants : Type := {
  held : gmap var (tid * loc);
  pending : gmap tid loc;
}.

Definition unheld (l : loc) (m : gmap var (tid * loc)) : Prop :=
  ∀ x o, m !! x ≠ Some (o, l).

Definition with_held (g : Grants) (m : gmap var (tid * loc)) : Grants :=
  {| held := m; pending := pending g |}.

Inductive Grant : Grants → Access → Grants → Prop :=
| Grant_alloc g t x l :
    held g !! x = None → unheld l (held g) → (∀ t', pending g !! t' ≠ Some l) →
    Grant g (Alloc t x l) (with_held g (<[x := (t, l)]> (held g)))
| Grant_share g t x y o l :
    held g !! x = Some (o, l) → held g !! y = None →
    Grant g (Share t x y l) (with_held g (<[y := (t, l)]> (held g)))
| Grant_read g t x o l :
    held g !! x = Some (o, l) →
    Grant g (Read t x l) g
| Grant_move g t x t' l :
    held g !! x = Some (t, l) →
    Grant g (Move t x t') (with_held g (<[x := (t', l)]> (held g)))
| Grant_decr g t x l :
    held g !! x = Some (t, l) →
    Grant g (Decr t x l) (with_held g (delete x (held g)))
| Grant_last g t x l :
    held g !! x = Some (t, l) → unheld l (delete x (held g)) →
    Grant g (Decr t x l)
      {| held := delete x (held g); pending := <[t := l]> (pending g) |}
| Grant_free g t l :
    pending g !! t = Some l →
    Grant g (Free t l) {| held := held g; pending := delete t (pending g) |}.

Section know_inv.
Context (O : Orderings).

(** Every access to the window of a cell is published on the counter of
    the cell or known through a handle of the cell, to its owner or to its
    borrowers; the owner and the borrowers of a handle know that the
    window is initialised; no handle refers to a cell that is about to be
    freed, and when the fence does not acquire, the thread that frees has
    learnt what is published. *)
Definition know_inv (g : Grants) (κ : Know) : Prop :=
  (∀ l n, n ∈ hist (accessed κ) l →
     n ∈ hist (released κ) l ∨
     ∃ x o, held g !! x = Some (o, l) ∧
            (n ∈ hist (knows κ) o ∨ n ∈ hist (lent κ) x)) ∧
  (∀ x o l, held g !! x = Some (o, l) →
     ∃ i, made κ !! l = Some i ∧ i ∈ hist (knows κ) o ∧ i ∈ hist (born κ) x) ∧
  (∀ t l, pending g !! t = Some l →
     unheld l (held g) ∧
     (acquires (fence_order O) = false → hist (released κ) l ⊆ hist (knows κ) t)).

End know_inv.

(** ** Facts *)

(** *** Histories *)

Section hist.
Context `{Countable K}.
Implicit Types (m : gmap K history) (k : K) (s : history).

Lemma hist_insert m k k' s :
  hist (<[k := s]> m) k' = if decide (k = k') then s else hist m k'.
Proof.
  unfold hist. case_decide as Hk; [subst; by rewrite lookup_insert_eq|].
  by rewrite lookup_insert_ne.
Qed.

Lemma hist_delete m k k' :
  hist (delete k m) k' = if decide (k = k') then ∅ else hist m k'.
Proof.
  unfold hist. case_decide as Hk; [subst; by rewrite lookup_delete_eq|].
  by rewrite lookup_delete_ne.
Qed.

Lemma hist_empty k : hist (∅ : gmap K history) k = ∅.
Proof. unfold hist. by rewrite lookup_empty. Qed.
End hist.

Ltac hist_simpl :=
  repeat first [ rewrite hist_insert in * | rewrite hist_delete in * ];
  repeat case_decide; simplify_eq.

(** *** What the threads know, access by access *)

Section knowledge.
Context (O : Orderings).
Implicit Types (g : Grants) (κ : Know) (a : Access).

Lemma know_inv_init : know_inv O {| held := ∅; pending := ∅ |} know_init.
Proof.
  split_and!; simpl.
  - intros l n. rewrite hist_empty. set_solver.
  - intros x o l. by rewrite lookup_empty.
  - intros t l. by rewrite lookup_empty.
Qed.

Context (Hsafe : safe_orderings O = true).

Lemma safe_releases : releases (drop_order O) = true.
Proof. by apply andb_true_iff in Hsafe as [? _]. Qed.

Lemma safe_acquires :
  acquires (fence_order O) = false → acquires (drop_order O) = true.
Proof. apply andb_true_iff in Hsafe as [_ [?|?]%orb_true_iff]; congruence. Qed.

(** A cell that no handle refers to stays so when a handle of another
    cell is bound, and when a variable is unbound. *)
Lemma unheld_insert l (m : gmap var (tid * loc)) x o l' :
  unheld l m → l' ≠ l → unheld l (<[x := (o, l')]> m).
Proof.
  intros Hu Hne x' o' [[_ [= _ ?]]|[_ ?]]%lookup_insert_Some; [done|by eapply Hu].
Qed.

Lemma unheld_delete l (m : gmap var (tid * loc)) x :
  unheld l m → unheld l (delete x m).
Proof. intros Hu x' o' [_ ?]%lookup_delete_Some. by eapply Hu. Qed.

Lemma held_not_unheld l (m : gmap var (tid * loc)) x o l' :
  m !! x = Some (o, l') → unheld l m → l' ≠ l.
Proof. intros Hx Hu ->. by eapply Hu. Qed.

(** An access stays known through the handle [x] of owner [o]. *)
Ltac through x o :=
  right; exists x, o;
  split; [by rewrite ?lookup_insert_eq, ?lookup_insert_ne, ?lookup_delete_ne
            by congruence|];
  hist_simpl; set_solver.

(** The owner and the borrowers of a handle still know that its window
    is initialised. *)
Ltac still_made I H :=
  let i := fresh "i" in
  destruct (I _ _ _ H) as (i & ? & ? & ?); exists i;
  rewrite ?lookup_insert_ne, ?lookup_delete_ne by (intros ->; naive_solver);
  hist_simpl; set_solver.

(** What is published on a cell that is about to be freed: no access
    publishes there. *)
Ltac still_learnt I H :=
  let Hu := fresh "Hu" in let Hr := fresh "Hr" in
  destruct (I _ _ H) as [Hu Hr];
  split; [eauto using unheld_insert, unheld_delete, held_not_unheld|];
  let Hf := fresh "Hf" in
  intros Hf; specialize (Hr Hf); hist_simpl; try (by edestruct Hu); set_solver.

Lemma Grant_learn_alloc g t x l κ :
  held g !! x = None → unheld l (held g) → (∀ t', pending g !! t' ≠ Some l) →
  know_inv O g κ →
  ∃ κ', learn O (Alloc t x l) κ = Some κ' ∧
        know_inv O (with_held g (<[x := (t, l)]> (held g))) κ'.
Proof.
  intros Hx Hl Hp (I1 & I2 & I3). eexists. split; [done|]. split_and!; simpl.
  - intros l' n. hist_simpl.
    + intros ->%elem_of_singleton. through x t.
    + intros [?|(x' & o & Hx' & Hn)]%I1; [by left|through x' o].
  - intros x' o l' [[-> [= <- <-]]|[? Hx']]%lookup_insert_Some.
    + exists (now κ). rewrite lookup_insert_eq. hist_simpl. set_solver.
    + pose proof (held_not_unheld _ _ _ _ _ Hx' Hl). still_made I2 Hx'.
  - intros t' l' Hp'. destruct (I3 _ _ Hp') as [Hu Hr]. split.
    + apply unheld_insert; [done|]. intros ->. by eapply Hp.
    + intros Hf. specialize (Hr Hf). hist_simpl; set_solver.
Qed.

Lemma Grant_learn_share g t x y o l κ :
  held g !! x = Some (o, l) → held g !! y = None → know_inv O g κ →
  ∃ κ', learn O (Share t x y l) κ = Some κ' ∧
        know_inv O (with_held g (<[y := (t, l)]> (held g))) κ'.
Proof.
  intros Hx Hy (I1 & I2 & I3). eexists. split; [done|]. split_and!; simpl.
  - intros l' n [?|(x' & o' & Hx' & Hn)]%I1; [left; hist_simpl; set_solver|].
    through x' o'.
  - intros x' o' l' [[-> [= <- <-]]|[? Hx']]%lookup_insert_Some;
      [still_made I2 Hx|still_made I2 Hx'].
  - intros t' l' Hp'. still_learnt I3 Hp'.
Qed.

Lemma Grant_learn_read g t x o l κ :
  held g !! x = Some (o, l) → know_inv O g κ →
  ∃ κ', learn O (Read t x l) κ = Some κ' ∧ know_inv O g κ'.
Proof.
  intros Hx (I1 & I2 & I3). destruct (I2 _ _ _ Hx) as (i & Hi & ? & ?).
  unfold learn. rewrite Hi. simpl. rewrite decide_True by set_solver.
  eexists. split; [done|]. split_and!; simpl.
  - intros l' n. hist_simpl.
    + intros [[?|(x' & o' & Hx' & Hn)]%I1| ->%elem_of_singleton]%elem_of_union;
        [by left|through x' o'|through x o].
    + intros [?|(x' & o' & Hx' & Hn)]%I1; [by left|through x' o'].
  - intros x' o' l' Hx'. still_made I2 Hx'.
  - intros t' l' Hp'. still_learnt I3 Hp'.
Qed.

Lemma Grant_learn_move g t x t' l κ :
  held g !! x = Some (t, l) → know_inv O g κ →
  ∃ κ', learn O (Move t x t') κ = Some κ' ∧
        know_inv O (with_held g (<[x := (t', l)]> (held g))) κ'.
Proof.
  intros Hx (I1 & I2 & I3). eexists. split; [done|]. split_and!; simpl.
  - intros l' n [?|(x' & o' & Hx' & Hn)]%I1; [by left|].
    destruct (decide (x' = x)) as [->|]; [simplify_eq; through x t'|through x' o'].
  - intros x' o' l' [[-> [= <- <-]]|[? Hx']]%lookup_insert_Some;
      [still_made I2 Hx|still_made I2 Hx'].
  - intros t'' l' Hp'. still_learnt I3 Hp'.
Qed.

Lemma when_true s : when true s = s.
Proof. done. Qed.

Lemma Grant_learn_decr g t x l κ :
  held g !! x = Some (t, l) → know_inv O g κ →
  ∃ κ', learn O (Decr t x l) κ = Some κ' ∧
        know_inv O (with_held g (delete x (held g))) κ'.
Proof.
  intros Hx (I1 & I2 & I3). eexists. split; [done|]. split_and!; simpl.
  - rewrite safe_releases, when_true.
    intros l' n [?|(x' & o' & Hx' & Hn)]%I1; [left; hist_simpl; set_solver|].
    destruct (decide (x' = x)) as [->|]; [|through x' o'].
    left. simplify_eq. hist_simpl; set_solver.
  - intros x' o' l' [Hne Hx']%lookup_delete_Some. still_made I2 Hx'.
  - intros t' l' Hp'. still_learnt I3 Hp'.
Qed.

Lemma Grant_learn_last g t x l κ :
  held g !! x = Some (t, l) → unheld l (delete x (held g)) → know_inv O g κ →
  ∃ κ', learn O (Decr t x l) κ = Some κ' ∧
        know_inv O {| held := delete x (held g);
                      pending := <[t := l]> (pending g) |} κ'.
Proof.
  intros Hx Hl Hinv.
  destruct (Grant_learn_decr g t x l κ Hx Hinv) as (κ' & Hκ & I1 & I2 & I3).
  exists κ'. split; [done|]. split_and!; [done..|].
  intros t' l'. simpl. intros [[-> <-]|[? Hp']]%lookup_insert_Some; [|by apply I3].
  split; [done|]. intros Hf%safe_acquires. injection Hκ as <-. simpl.
  rewrite Hf, safe_releases, !when_true. hist_simpl; set_solver.
Qed.

Lemma Grant_learn_free g t l κ :
  pending g !! t = Some l → know_inv O g κ →
  ∃ κ', learn O (Free t l) κ = Some κ' ∧
        know_inv O {| held := held g; pending := delete t (pending g) |} κ'.
Proof.
  intros Hp (I1 & I2 & I3). destruct (I3 _ _ Hp) as [Hu Hr].
  unfold learn. rewrite decide_True; cycle 1.
  { intros n [?|(x & o & Hx & _)]%I1; [|by edestruct Hu].
    destruct (acquires (fence_order O)); [set_solver|].
    specialize (Hr eq_refl). set_solver. }
  eexists. split; [done|]. split_and!; simpl.
  - intros l' n. hist_simpl; [set_solver|].
    intros [?|(x' & o' & Hx' & Hn)]%I1; [by left|through x' o'].
  - intros x' o' l' Hx'. pose proof (held_not_unheld _ _ _ _ _ Hx' Hu).
    still_made I2 Hx'.
  - intros t' l' [Hne Hp']%lookup_delete_Some.
    destruct (I3 _ _ Hp') as [Hu' Hr']. split; [done|].
    intros Hf. specialize (Hr' Hf). hist_simpl; set_solver.
Qed.

Lemma Grant_learn g a g' κ :
  Grant g a g' → know_inv O g κ →
  ∃ κ', learn O a κ = Some κ' ∧ know_inv O g' κ'.
Proof.
  destruct 1; eauto using Grant_learn_alloc, Grant_learn_share, Grant_learn_read,
    Grant_learn_move, Grant_learn_decr, Grant_learn_last, Grant_learn_free.
Qed.

End knowledge.

(** *** What is known is of the past *)

Section past.
Context (O : Orderings).
Implicit Types (κ : Know) (a : Access).

Lemma elem_of_when b (s : history) n : n ∈ when b s → n ∈ s.
Proof. by destruct b. Qed.

(** An access is numbered, its thread knows it, and no thread forgets. *)
Lemma learn_knows a κ κ' :
  learn O a κ = Some κ' →
  now κ' = S (now κ) ∧ now κ ∈ hist (knows κ') (thread_of_access a) ∧
  ∀ t, hist (knows κ) t ⊆ hist (knows κ') t.
Proof.
  destruct a; simpl; intros Hκ;
    repeat (case_match; simplify_eq/=); simplify_option_eq;
    (split; [done|]); simpl; split; try intros ?; hist_simpl; set_solver.
Qed.

Ltac past_solve :=
  match goal with
  | |- ∀ _ _, _ ∈ _ → _ =>
      intros ? ?; hist_simpl;
      intros; repeat match goal with
                     | H : _ ∨ _ |- _ => destruct H
                     | H : _ ∈ _ ∪ _ |- _ => apply elem_of_union in H
                     | H : _ ∈ {[ _ ]} |- _ => apply elem_of_singleton in H
                     | H : _ ∈ when _ _ |- _ => apply elem_of_when in H
                     | H : _ ∈ ∅ |- _ => by apply elem_of_empty in H
                     end; subst; try lia;
      match goal with
      | H : ∀ _ n, n ∈ hist ?m _ → _, H' : ?n ∈ hist ?m _ |- _ => specialize (H _ _ H'); lia
      end
  | |- ∀ _ _, _ !! _ = Some _ → _ =>
      intros ? ?; rewrite ?lookup_insert_Some, ?lookup_delete_Some;
      intros; destruct_or?; destruct_and?; subst; try lia;
      match goal with
      | H : ∀ _ i, ?m !! _ = Some i → _, H' : ?m !! _ = Some _ |- _ => specialize (H _ _ H'); lia
      end
  end.

Lemma learn_past a κ κ' : know_past κ → learn O a κ = Some κ' → know_past κ'.
Proof.
  intros (H1 & H2 & H3 & H4 & H5 & H6).
  destruct a; simpl; intros Hκ;
    repeat (case_match; simplify_eq/=); simplify_option_eq;
    split_and!; simpl; past_solve.
Qed.

End past.
