(* ===== verification/Race.v ===== *)
(** * The clients under the memory model

    [Atomicity] takes the accesses to the counter one at a time, in any
    interleaving.  Here its machine runs with the record of what each
    thread knows ([Ordering]): a step is a step of [Atomicity], and it is
    undefined when its access is a data race.

    With the orderings of [Arc], and with any orderings in which the
    decrement releases and the fence or the decrement acquires, the
    machine is that of [Atomicity]: no step is a race, for every client
    and every interleaving.  With any other choice one client has a race
    ([racing_drop]).  The ordering of the increment does not matter.

    A step of the machine is an access of [Ordering] that [Grant] allows
    between who holds what before and after ([fstep_Grant]); the rest is
    the invariant of [Ordering]. *)

From S2P Require Import Prelude RawWindowHandle Sync Holder Capsule Accessor Marker Machine.
From S2P Require Import Lifetime Ownership Atomicity Ordering.

(** ** Definitions *)

(** The cell of a variable. *)
Definition cell_of {W} (x : var) (φ : FWorld W) : option loc :=
  value_ptr ∘ snd <$> vars (world φ) !! x.

(** The access of a step from [φ] to [φ']. *)
Definition access_of {W} (e : FEvent W) (φ φ' : FWorld W) : option Access :=
  match e with
  | FAtomic (EvNew t x _) => Alloc t x <$> cell_of x φ'
  | FAtomic (EvCapsule t x y) | FAtomic (EvClone t x y)
  | FAtomic (EvGetHandle t x y) => Share t x y <$> cell_of x φ
  | FAtomic (EvDeref t x) | FAtomic (EvWindowHandle t x)
  | FAtomic (EvDisplayHandle t x) => Read t x <$> cell_of x φ
  | FAtomic (EvSend t x t') => Some (Move t x t')
  | FFetchSub t x => Decr t x <$> cell_of x φ
  | FDropSlow t => Free t ∘ ptr <$> dropping φ !! t
  | FAtomic (EvDrop _ _) | FLoad _ _ _ | FStore _ => None
  end.

(** The thread of a step. *)
Definition fthread {W} (e : FEvent W) : tid :=
  match e with
  | FAtomic e => thread_of e
  | FFetchSub t _ | FDropSlow t | FLoad t _ _ | FStore t => t
  end.

(** The world of [Atomicity] and what the threads know. *)
Record OWorld (W : Type) : Type := {
  fworld : FWorld W;
  know : Know;
}.
Arguments fworld {W} _.
Arguments know {W} _.

Definition oinit {W} : OWorld W := {| fworld := finit; know := know_init |}.

Section ostep.
Context {W : Type} `{!HasWindowHandle W, !HasDisplayHandle W}.
Context (O : Orderings) (P : Policy W).

(** A step of [Atomicity], undefined when its access is a data race. *)
Definition ostep (e : FEvent W) (ω : OWorld W) : option (outcome (OWorld W)) :=
  o ← fstep P true e (fworld ω);
  Some match o with
       | Done φ' =>
           match access_of e (fworld ω) φ' with
           | Some a =>
               match learn O a (know ω) with
               | Some κ' => Done {| fworld := φ'; know := κ' |}
               | None => Undef
               end
           | None => Done {| fworld := φ'; know := know ω |}
           end
       | Abort => Abort
       | Undef => Undef
       end.

Definition oreachable (ω : OWorld W) : Prop := reachable_from ostep oinit ω.

End ostep.

(** Who holds what in a world: the variables with their owner and cell,
    and the threads that are about to free a cell. *)
Definition grants {W} (φ : FWorld W) : Grants :=
  {| held := prod_map id value_ptr <$> vars (world φ);
     pending := ptr <$> dropping φ |}.

(** The invariant of the machine: that of [Atomicity], and that of what
    the threads know about who holds what. *)
Definition ordered_inv {W} (O : Orderings) (ω : OWorld W) : Prop :=
  fine_inv (fworld ω) ∧ know_inv O (grants (fworld ω)) (know ω).

(** ** A client that races when the orderings are not safe

    A capsule is sent to a second thread, which asks for an accessor,
    asks it for the window handle and drops both; then the first thread
    drops the holder, the last handle, and frees the window. *)
Definition racing_drop : list (FEvent StubWindow) :=
  [FAtomic (EvNew 0 0 (stub_ok 42)); FAtomic (EvCapsule 0 0 1);
   FAtomic (EvSend 0 1 1); FAtomic (EvGetHandle 1 1 2);
   FAtomic (EvWindowHandle 1 2); FFetchSub 1 2; FFetchSub 1 1;
   FFetchSub 0 0; FDropSlow 0].

Definition oworld_of {W} (r : option (outcome (OWorld W))) : OWorld W :=
  match r with Some (Done ω) => ω | _ => oinit end.

(** The world before the last access of [racing_drop]. *)
Definition racing_world : OWorld StubWindow :=
  oworld_of (run (ostep arc_orderings stub_policy) (removelast racing_drop) oinit).

(** The world after it. *)
Definition racing_end : OWorld StubWindow :=
  oworld_of (run (ostep arc_orderings stub_policy) racing_drop oinit).

(** ** Facts *)

(** *** The accesses of the machine *)

Section link.
Context {W : Type} `{!HasWindowHandle W, !HasDisplayHandle W}.
Context (P : Policy W).
Implicit Types (φ : FWorld W) (σ : World W) (t o : tid) (x y : var) (v : Value W).
Implicit Types (l : loc) (e : Event W).

Lemma held_lookup φ x o l :
  held (grants φ) !! x = Some (o, l) ↔
  ∃ v, vars (world φ) !! x = Some (o, v) ∧ value_ptr v = l.
Proof.
  unfold grants. simpl. rewrite lookup_fmap_Some. split.
  - intros ([o' v] & [= <- <-] & ?). eauto.
  - intros (v & ? & <-). by exists (o, v).
Qed.

Lemma held_None φ x : held (grants φ) !! x = None ↔ vars (world φ) !! x = None.
Proof. unfold grants. simpl. by rewrite lookup_fmap, fmap_None. Qed.

Lemma cell_of_held φ x o v :
  vars (world φ) !! x = Some (o, v) → cell_of x φ = Some (value_ptr v).
Proof. intros Hx. unfold cell_of. by rewrite Hx. Qed.

(** A handle refers to a cell with a counter that is not 0; a thread that
    is about to free refers to a cell with counter 0. *)
Lemma held_live φ x o l :
  fine_inv φ → held (grants φ) !! x = Some (o, l) →
  ∃ c, mem (world φ) !! l = Some c ∧ strong c ≠ 0%Z.
Proof.
  intros (_ & Hinv & _) (v & Hx & <-)%held_lookup.
  destruct (refcount_inv_live (view φ) x o v Hinv Hx) as [c Hc].
  apply live_cells_lookup in Hc. eauto.
Qed.

Lemma pending_dead φ t l :
  fine_inv φ → pending (grants φ) !! t = Some l →
  ∃ c, mem (world φ) !! l = Some c ∧ strong c = 0%Z.
Proof.
  intros Hinv (a & <- & Ht)%lookup_fmap_Some.
  destruct (dropping_dead _ _ _ Hinv Ht) as [c Hc%dead_cells_lookup]. eauto.
Qed.

Lemma dead_unheld φ l :
  fine_inv φ → (∀ c, mem (world φ) !! l = Some c → strong c = 0%Z) →
  unheld l (held (grants φ)).
Proof. intros Hinv Hl x o (c & Hc & Hn)%held_live; [|done]. by apply Hn, Hl. Qed.

Lemma grants_bind φ x t v h :
  grants (with_world φ (bind_var x t v (world φ) h)) =
  with_held (grants φ) (<[x := (t, value_ptr v)]> (held (grants φ))).
Proof. unfold grants, with_held. simpl. by rewrite fmap_insert. Qed.

Lemma grants_observe φ ob h : grants (with_world φ (observe ob (world φ) h)) = grants φ.
Proof. done. Qed.

(** A step with one access changes who holds what as its access says. *)
Lemma atomic_Grant φ e σ' :
  fine_inv φ → drops_value e = false → Step P (world φ) e σ' →
  ∃ a, access_of (FAtomic e) φ (with_world φ σ') = Some a ∧
       Grant (grants φ) a (grants (with_world φ σ')).
Proof.
  intros Hinv Hd HS. remember (world φ) as σ0 eqn:Hσ. Step_cases HS; subst σ;
    try done;
    try (apply borrow_Some in Hb as Hb'; destruct Hb' as (o & Hxo & _));
    try apply owned_Some in Hx as Hxo;
    try rewrite grants_bind; try rewrite grants_observe; simpl;
    try rewrite (cell_of_held _ _ _ _ Hxo); simpl.
  - apply WindowWrapper_new_inv in Hop as [Hl _].
    unfold cell_of. simpl. rewrite lookup_insert_eq. simpl. eexists. split; [done|].
    apply (Grant_alloc (grants φ)); [by apply held_None| |].
    + apply dead_unheld; [done|]. intros c. by rewrite Hl.
    + intros t' (c & Hc & _)%pending_dead; [|done]. by rewrite Hl in Hc.
  - eexists. split; [done|]. apply (Grant_read (grants φ) t x o). apply held_lookup. eauto.
  - apply RawHandleWrapper_new_inv in Hop as (_ & _ & _ & [= ->] & _).
    eexists. split; [done|].
    apply (Grant_share (grants φ) t x y o); [apply held_lookup; eauto|by apply held_None].
  - apply RawHandleWrapper_clone_inv in Hop as (_ & _ & _ & -> & _).
    eexists. split; [done|].
    apply (Grant_share (grants φ) t x y o); [apply held_lookup; eauto|by apply held_None].
  - apply RawHandleWrapper_get_handle_inv in Hop as [-> _].
    eexists. split; [done|].
    apply (Grant_share (grants φ) t x y o); [apply held_lookup; eauto|by apply held_None].
  - eexists. split; [done|]. apply (Grant_read (grants φ) t x o). apply held_lookup. eauto.
  - eexists. split; [done|]. apply (Grant_read (grants φ) t x o). apply held_lookup. eauto.
  - eexists. split; [done|]. apply (Grant_move (grants φ) t x t'). apply held_lookup. eauto.
Qed.

(** The decrement gives up the handle; the one that saw 1 leaves its
    thread about to free a cell that no handle refers to. *)
Lemma fetch_sub_Grant φ t x φ' :
  fine_inv φ → fstep_fetch_sub t x φ = Some (Done φ') →
  ∃ l, cell_of x φ = Some l ∧ Grant (grants φ) (Decr t x l) (grants φ').
Proof.
  intros Hinv Hs. pose proof (fine_inv_fetch_sub P _ _ _ _ Hinv Hs) as Hinv'.
  apply fstep_fetch_sub_inv in Hs as (_ & v & old & h & Hx & Hop & Hw & _ & Hdr & _).
  apply owned_Some in Hx. exists (value_ptr v). split; [by eapply cell_of_held|].
  assert (held (grants φ) !! x = Some (t, value_ptr v)) as Hh
    by (apply held_lookup; eauto).
  apply fetch_sub_inv in Hop as (c & Hl & -> & ->).
  assert (grants φ' =
          {| held := delete x (held (grants φ));
             pending := if bool_decide (strong c = 1%Z)
                        then <[t := value_ptr v]> (pending (grants φ))
                        else pending (grants φ) |}) as Hg.
  { unfold grants. rewrite Hw, Hdr. simpl. rewrite fmap_delete.
    destruct (bool_decide _); [|done]. by rewrite fmap_insert, value_arc_ptr. }
  rewrite Hg. case_bool_decide as H1.
  - apply (Grant_last (grants φ) t x (value_ptr v) Hh).
    replace (delete x (held (grants φ))) with (held (grants φ')) by by rewrite Hg.
    apply (dead_unheld _ _ Hinv'). rewrite Hw. simpl. intros c'.
    rewrite value_arc_ptr, lookup_insert_eq, H1. by intros [= <-].
  - apply (Grant_decr (grants φ) t x (value_ptr v) Hh).
Qed.

Lemma drop_slow_Grant φ t φ' :
  fstep_drop_slow t φ = Some (Done φ') →
  ∃ a, dropping φ !! t = Some a ∧ Grant (grants φ) (Free t (ptr a)) (grants φ').
Proof.
  intros (a & w & h & Ht & _ & Hw & _ & Hdr & _)%fstep_drop_slow_inv.
  exists a. split; [done|]. unfold grants at 2. rewrite Hw, Hdr, fmap_delete. simpl.
  apply (Grant_free (grants φ) t (ptr a)). simpl. by rewrite lookup_fmap, Ht.
Qed.

(** Every step is an access, and changes who holds what as its access
    says. *)
Lemma fstep_Grant φ (e : FEvent W) φ' :
  fine_inv φ → fstep P true e φ = Some (Done φ') →
  ∃ a, access_of e φ φ' = Some a ∧ Grant (grants φ) a (grants φ').
Proof.
  intros Hinv Hs. destruct e as [e|t x|t|t x y|t]; simpl in Hs.
  - apply fstep_atomic_inv in Hs as (Hd & σ' & HS & ->). by apply atomic_Grant.
  - destruct (fetch_sub_Grant _ _ _ _ Hinv Hs) as (l & Hl & HG).
    exists (Decr t x l). simpl. by rewrite Hl.
  - destruct (drop_slow_Grant _ _ _ Hs) as (a & Ha & HG).
    exists (Free t (ptr a)). simpl. by rewrite Ha.
  - done.
  - destruct Hinv as [Hcl _]. by rewrite fstep_store_idle in Hs.
Qed.

End link.

(** *** The machine with safe orderings *)

Section ordered.
Context {W : Type} `{!HasWindowHandle W, !HasDisplayHandle W}.
Context (O : Orderings) (P : Policy W).
Implicit Types (ω : OWorld W) (φ : FWorld W) (e : FEvent W).

(** A step is a step of [Atomicity]. *)
Lemma ostep_fstep e ω ω' :
  ostep O P e ω = Some (Done ω') →
  fstep P true e (fworld ω) = Some (Done (fworld ω')).
Proof.
  unfold ostep. destruct (fstep P true e (fworld ω)) as [[φ'| |]|]; try done.
  simpl. destruct (access_of e (fworld ω) φ') as [a|]; [|by intros [= <-]].
  destruct (learn O a (know ω)); [by intros [= <-]|done].
Qed.

Lemma reaches_erase tr ω ω' :
  reaches (ostep O P) ω tr ω' → reaches (fstep P true) (fworld ω) tr (fworld ω').
Proof.
  revert ω. induction tr as [|e tr IH]; intros ω; [by intros ->%reaches_nil|].
  intros (ω1 & Hs%ostep_fstep & Hr%IH)%reaches_cons. apply reaches_cons. eauto.
Qed.

Lemma ordered_inv_init : ordered_inv O (oinit : OWorld W).
Proof. split; [apply fine_inv_init|]. apply know_inv_init. Qed.

Context (Hsafe : safe_orderings O = true).

(** With safe orderings a step of [Atomicity] is a step, and none is a
    race. *)
Lemma fstep_ostep e ω φ' :
  ordered_inv O ω → fstep P true e (fworld ω) = Some (Done φ') →
  ∃ κ', ostep O P e ω = Some (Done {| fworld := φ'; know := κ' |}) ∧
        ordered_inv O {| fworld := φ'; know := κ' |}.
Proof.
  intros [Hfine Hknow] Hs.
  destruct (fstep_Grant P _ _ _ Hfine Hs) as (a & Ha & HG).
  destruct (Grant_learn O Hsafe _ _ _ _ HG Hknow) as (κ' & Hκ & Hknow').
  exists κ'. unfold ostep. rewrite Hs. simpl. rewrite Ha, Hκ.
  split; [done|]. split; [|done]. by apply (fine_inv_inductive P e (fworld ω)).
Qed.

Lemma ordered_inv_inductive : inductive_invariant (ostep O P) (ordered_inv O).
Proof.
  intros e ω ω' Hinv Hs. pose proof (ostep_fstep _ _ _ Hs) as Hf.
  destruct (fstep_ostep _ _ _ Hinv Hf) as (κ' & Hs' & Hinv').
  rewrite Hs in Hs'. by injection Hs' as ->.
Qed.

Lemma oreachable_ordered_inv ω : oreachable O P ω → ordered_inv O ω.
Proof.
  apply invariant_reachable; [apply ordered_inv_inductive|apply ordered_inv_init].
Qed.

Lemma ordered_not_Undef e ω : ordered_inv O ω → ostep O P e ω ≠ Some Undef.
Proof.
  intros Hinv. pose proof (fine_not_Undef P (fworld ω) e (proj1 Hinv)) as Hf.
  destruct (fstep P true e (fworld ω)) as [[φ'| |]|] eqn:Hs;
    [|by unfold ostep; rewrite Hs..].
  by destruct (fstep_ostep _ _ _ Hinv Hs) as (κ' & -> & _).
Qed.

Lemma reaches_lift tr ω φ' :
  ordered_inv O ω → reaches (fstep P true) (fworld ω) tr φ' →
  ∃ ω', reaches (ostep O P) ω tr ω' ∧ fworld ω' = φ'.
Proof.
  revert ω. induction tr as [|e tr IH]; intros ω Hinv.
  - intros <-%reaches_nil. exists ω. by rewrite reaches_nil.
  - intros (φ1 & Hs & Hr)%reaches_cons.
    destruct (fstep_ostep _ _ _ Hinv Hs) as (κ1 & Hs1 & Hinv1).
    destruct (IH _ Hinv1 Hr) as (ω' & Hr' & <-).
    exists ω'. split; [|done]. apply reaches_cons. eauto.
Qed.

End ordered.

(** *** What the threads of the machine know *)

Section history.
Context {W : Type} `{!HasWindowHandle W, !HasDisplayHandle W}.
Context (O : Orderings) (P : Policy W).
Implicit Types (ω : OWorld W) (φ : FWorld W) (e : FEvent W).

Lemma know_past_init : know_past know_init.
Proof.
  split_and!; simpl; intros ? ?; rewrite ?hist_empty, ?lookup_empty;
    by (done || set_solver).
Qed.

Lemma access_thread e φ φ' a :
  access_of e φ φ' = Some a → thread_of_access a = fthread e.
Proof.
  destruct e as [[]| | | |]; simpl; intros Ha; simplify_option_eq; try done;
    by destruct (cell_of _ _); simplify_eq/=.
Qed.

Lemma oreachable_fine ω : oreachable O P ω → fine_inv (fworld ω).
Proof.
  intros [tr Hr%reaches_erase]. apply (freachable_fine_inv P). by exists tr.
Qed.

(** A step learns from its access. *)
Lemma ostep_learn e ω ω' :
  fine_inv (fworld ω) → ostep O P e ω = Some (Done ω') →
  ∃ a, access_of e (fworld ω) (fworld ω') = Some a ∧
       learn O a (know ω) = Some (know ω').
Proof.
  intros Hfine Hs. pose proof (ostep_fstep O P _ _ _ Hs) as Hf.
  destruct (fstep_Grant P _ _ _ Hfine Hf) as (a & Ha & _). exists a. split; [done|].
  revert Hs. unfold ostep. rewrite Hf. simpl. rewrite Ha.
  destruct (learn O a (know ω)); [by intros [= <-]|done].
Qed.

Lemma oreachable_past ω : oreachable O P ω → know_past (know ω).
Proof.
  intros [tr Hr]. revert ω Hr. induction tr as [|e tr IH] using rev_ind; intros ω.
  - intros <-%reaches_nil. apply know_past_init.
  - intros (ω1 & Hr & Hs)%reaches_snoc.
    destruct (ostep_learn e ω1 ω) as (a & _ & Ha); [|done|].
    + apply oreachable_fine. by exists tr.
    + eapply learn_past; eauto.
Qed.

End history.

(** *** The client that races *)

Lemma racing_drop_races O :
  safe_orderings O = false →
  run (ostep O stub_policy) racing_drop oinit = Some Undef.
Proof. destruct O as [[] [] []]; intros H; try discriminate H; by vm_compute. Qed.

(** ** The guarantees *)

Section guarantees.
Context {W : Type} `{!HasWindowHandle W, !HasDisplayHandle W}.
Context (P : Policy W).

(** C4: With the orderings of [Arc] no step of a client is a data race or
    a use of a freed window, in any interleaving of the accesses: every
    read of a window by a thread knows its initialisation, and the thread
    that runs the destructor knows every access to the window. *)
Theorem arc_orderings_no_data_race ω (e : FEvent W) :
  oreachable arc_orderings P ω → ostep arc_orderings P e ω ≠ Some Undef.
Proof.
  intros Hr. apply (ordered_not_Undef arc_orderings P eq_refl).
  by apply (oreachable_ordered_inv arc_orderings P).
Qed.


(** Whatever the orderings, in every run of the machine a thread knows
    only accesses that have been made, a thread knows its own access
    after it has made it, and a thread forgets nothing: what the threads
    know is a relation on the accesses of the run that contains the
    program order and goes forward in time. *)
Theorem threads_know_the_past (O : Orderings) ω (e : FEvent W) ω' :
  oreachable O P ω → ostep O P e ω = Some (Done ω') →
  know_past (know ω') ∧
  now (know ω) ∈ hist (knows (know ω')) (fthread e) ∧
  ∀ t, hist (knows (know ω)) t ⊆ hist (knows (know ω')) t.
Proof.
  intros Hr Hs. split.
  - apply (oreachable_past O P). destruct Hr as [tr Hr]. exists (tr ++ [e]).
    apply reaches_snoc. eauto.
  - destruct (ostep_learn O P e ω ω') as (a & Ha & Hl);
      [by apply (oreachable_fine O P)|done|].
    rewrite <-(access_thread _ _ _ _ Ha). by apply (learn_knows O).
Qed.

End guarantees.

(** C8: The orderings of the decrement and of the fence are safe exactly
    when no client has a data race: the decrement must release, and the
    fence or the decrement must acquire.  The ordering of the increment is
    free. *)
Theorem safe_orderings_iff_race_free (O : Orderings) :
  safe_orderings O = true ↔
  ∀ (W : Type) (HW : HasWindowHandle W) (HD : HasDisplayHandle W) (P : Policy W)
    (tr : list (FEvent W)), run (ostep O P) tr oinit ≠ Some Undef.
Proof.
  split.
  - intros Hsafe W HW HD P tr.
    apply (invariant_run_not_Undef _ (ordered_inv O));
      [by apply ordered_inv_inductive| |apply ordered_inv_init].
    intros e ω. by apply (ordered_not_Undef O P).
  - intros Hrun. destruct (safe_orderings O) eqn:Hsafe; [done|].
    by destruct (Hrun _ _ _ stub_policy racing_drop (racing_drop_races O Hsafe)).
Qed.

(** ** On the stub window *)

Lemma arc_orderings_no_data_race_witness :
  ostep arc_orderings stub_policy (FDropSlow 0) racing_world ≠ Some Undef.
Proof.
  apply (arc_orderings_no_data_race stub_policy racing_world (FDropSlow 0)).
  exists (removelast racing_drop). by vm_compute.
Defined.

Lemma threads_know_the_past_witness :
  know_past (know racing_end) ∧
  now (know racing_world) ∈ hist (knows (know racing_end)) 0 ∧
  ∀ t, hist (knows (know racing_world)) t ⊆ hist (knows (know racing_end)) t.
Proof.
  apply (threads_know_the_past stub_policy arc_orderings racing_world (FDropSlow 0)
           racing_end); [exists (removelast racing_drop)|]; by vm_compute.
Defined.

(** The thread that frees the window of [racing_drop] knows the read of
    the other thread, access 4, with the orderings of [Arc], and does not
    with a decrement that does not release. *)
Example racing_drop_knowledge :
  4 ∈ hist (knows (know racing_end)) 0 ∧
  4 ∉ hist (knows (know (oworld_of
        (run (ostep relaxed_orderings stub_policy) (removelast racing_drop) oinit)))) 0.
Proof. split; by vm_compute. Qed.
