(* ===== verification/Consumer.v ===== *)
(** * Code that is generic in the capability set

    The accessor implements [HasWindowHandle] and [HasDisplayHandle]
    (raw_handle.rs, lines 96-118) so that it can be passed where a window
    is expected: to the platform calls of the consuming subsystem, which
    are generic in [T: HasWindowHandle + HasDisplayHandle].  Such code can
    do one thing with its [&T]: call the two methods, any number of
    times, in any order, and compute with the answers.  It is a tree of
    calls ([Generic]).

    [WindowSource] is what generic code relies on: a value that refers to
    a window answers as the window does and leaves the state alone.  The
    theorems about generic code are proved from it; the accessor on a
    live cell, the holder through its [Deref], and a window itself provide
    it.

    The protocol of the consuming subsystem (specification, section 6) is
    [with_handle]: pass the gate, run the platform call on the accessor,
    drop the accessor.  As steps of a thread of [Machine] it is
    [protocol], with the calls that the platform call makes on the window
    ([path]): any thread that can borrow a capsule can run it, in any
    reachable world, and the world is as before. *)

From S2P Require Import Prelude RawWindowHandle Sync Holder Capsule Accessor.
From S2P Require Import Marker Machine Lifetime Observation.

(** ** Definitions *)

(** The two methods, and the type of their answers. *)
Inductive Call : Type := CallWindowHandle | CallDisplayHandle.

Definition Reply (c : Call) : Type :=
  match c with
  | CallWindowHandle => Result WindowHandle HandleError
  | CallDisplayHandle => Result DisplayHandle HandleError
  end.

(** Code with a [&T] for [T: HasWindowHandle + HasDisplayHandle], that
    returns an [A]. *)
Inductive Generic (A : Type) : Type :=
| Ret (a : A)
| Ask (c : Call) (k : Reply c → Generic A).
Arguments Ret {A} a.
Arguments Ask {A} c k.

Fixpoint gbind {A B} (f : A → Generic B) (g : Generic A) : Generic B :=
  match g with
  | Ret a => f a
  | Ask c k => Ask c (λ r, gbind f (k r))
  end.

#[export] Instance Generic_ret : MRet Generic := @Ret.
#[export] Instance Generic_bind : MBind Generic := @gbind.

Definition ask (c : Call) : Generic (Reply c) := Ask c Ret.

Section run.
Context {S T : Type} `{!HasWindowHandleIn S T, !HasDisplayHandleIn S T}.

(** A call on a value of a type that implements the traits. *)
Definition call (c : Call) (x : T) : exec S (Reply c) :=
  match c with
  | CallWindowHandle => window_handle_in x
  | CallDisplayHandle => display_handle_in x
  end.

(** Generic code run on [&x]. *)
Fixpoint interp {A} (g : Generic A) (x : T) : exec S A :=
  match g with
  | Ret a => mret a
  | Ask c k => r ← call c x; interp (k r) x
  end.

End run.

Section eval.
Context {W : Type} `{!HasWindowHandle W, !HasDisplayHandle W}.

(** What a window answers. *)
Definition answer (w : W) (c : Call) : Reply c :=
  match c with
  | CallWindowHandle => window_handle w
  | CallDisplayHandle => display_handle w
  end.

(** What generic code returns on a window. *)
Fixpoint eval {A} (g : Generic A) (w : W) : A :=
  match g with
  | Ret a => a
  | Ask c k => eval (k (answer w c)) w
  end.

End eval.

(** A type that implements the traits by itself also implements them in
    any state. *)
#[export] Instance pure_HasWindowHandleIn {S T} `{!HasWindowHandle T}
    : HasWindowHandleIn S T | 100 := λ x, mret (window_handle x).

#[export] Instance pure_HasDisplayHandleIn {S T} `{!HasDisplayHandle T}
    : HasDisplayHandleIn S T | 100 := λ x, mret (display_handle x).

(** A method call on a value whose type does not implement the trait
    resolves through [Deref]. *)
Definition deref_window_handle {S T} `{!Deref S T, !HasWindowHandle (Target T)}
    : HasWindowHandleIn S T := λ x, w ← deref x; mret (window_handle w).

Definition deref_display_handle {S T} `{!Deref S T, !HasDisplayHandle (Target T)}
    : HasDisplayHandleIn S T := λ x, w ← deref x; mret (display_handle w).

(** What generic code relies on: in a state where [x] refers to the window
    [w], the methods of [x] answer as [w] and leave the state alone. *)
Class WindowSource (S T W : Type) `{!HasWindowHandle W, !HasDisplayHandle W}
    `{!HasWindowHandleIn S T, !HasDisplayHandleIn S T} : Type := {
  refers : T → S → W → Prop;
  window_handle_refers x s w :
    refers x s w → window_handle_in x s = Done (window_handle w, s);
  display_handle_refers x s w :
    refers x s w → display_handle_in x s = Done (display_handle w, s);
}.

Section consumer.
Context {W : Type}.

(** The consuming subsystem: pass the gate, make the platform call on the
    accessor, drop the accessor. *)
Definition with_handle {A} (g : Generic A) (rhw : RawHandleWrapper W)
    : exec (heap W) A :=
  acc ← RawHandleWrapper.get_handle rhw;
  a ← interp g acc;
  _ ← ThreadLockedRawWindowHandleWrapper.drop acc;
  mret a.

End consumer.

(** A platform call that needs both handles: it asks for the display
    handle, then for the window handle, and fails with the error of the
    first call that fails. *)
Definition both_handles : Generic (Result (DisplayHandle * WindowHandle) HandleError) :=
  d ← ask CallDisplayHandle;
  match d with
  | Err e => Ret (Err e)
  | Ok d =>
      w ← ask CallWindowHandle;
      match w with
      | Err e => Ret (Err e)
      | Ok w => Ret (Ok (d, w))
      end
  end.

Section protocol.
Context {W : Type} `{!HasWindowHandle W, !HasDisplayHandle W}.

(** The calls that generic code makes on a window, in order. *)
Fixpoint path {A} (g : Generic A) (w : W) : list Call :=
  match g with
  | Ret _ => []
  | Ask c k => c :: path (k (answer w c)) w
  end.

(** A call by thread [t] on the accessor [y], and what the thread
    observes when the accessor refers to [w]. *)
Definition call_event (t : tid) (y : var) (c : Call) : Event W :=
  match c with
  | CallWindowHandle => EvWindowHandle t y
  | CallDisplayHandle => EvDisplayHandle t y
  end.

Definition call_obs (t : tid) (w : W) (c : Call) : Obs W :=
  match c with
  | CallWindowHandle => ObsWindowHandle t (window_handle w)
  | CallDisplayHandle => ObsDisplayHandle t (display_handle w)
  end.

(** The protocol with the platform call [g] as steps of thread [t], when
    the window answers as [w]: the capsule is [x], the accessor is bound
    to [y]. *)
Definition protocol {A} (g : Generic A) (w : W) (t : tid) (x y : var)
    : list (Event W) :=
  [EvGetHandle t x y] ++ (call_event t y <$> path g w) ++ [EvDrop t y].

(** The world after the calls [cs]. *)
Definition observe_calls (t : tid) (w : W) (cs : list Call) (σ : World W) : World W :=
  {| mem := mem σ; vars := vars σ; destroyed := destroyed σ;
     observed := (call_obs t w <$> reverse cs) ++ observed σ |}.

End protocol.

(** The world with a holder and a capsule of a stub. *)
Definition capsule_world : World StubWindow :=
  world_of (run (step stub_policy) [EvNew 0 0 (stub_ok 42); EvCapsule 0 0 1] init).

(** A heap with one window, a stub, counted once, and a capsule of it. *)
Definition stub_loc : loc := 1%positive.

Definition stub_heap (w : StubWindow) : heap StubWindow :=
  {[ stub_loc := {| strong := 1; data := w |} ]}.

Definition stub_capsule : RawHandleWrapper StubWindow :=
  {| window := unsize {| ptr := stub_loc |} |}.

(** ** Facts *)

(** *** Generic code *)

Section generic.
Context {S T : Type} `{!HasWindowHandleIn S T, !HasDisplayHandleIn S T}.

(** Running is compositional. *)
Lemma interp_bind {A B} (g : Generic A) (f : A → Generic B) (x : T) (s : S) :
  interp (g ≫= f) x s = (interp g x ≫= λ a, interp (f a) x) s.
Proof.
  revert s. induction g as [a|c k IH]; intros s; [done|].
  simpl. exec_unfold. destruct (call c x s) as [[r s']| |]; [|done..]. apply IH.
Qed.

End generic.

Lemma eval_bind {W A B} `{!HasWindowHandle W, !HasDisplayHandle W}
    (g : Generic A) (f : A → Generic B) (w : W) :
  eval (g ≫= f) w = eval (f (eval g w)) w.
Proof. induction g as [a|c k IH]; [done|]. apply IH. Qed.

(** *** Code proved from the interface *)

Section source.
Context {S T W : Type} `{WindowSource S T W}.

Lemma call_refers c x s w : refers x s w → call c x s = Done (answer w c, s).
Proof.
  intros Hr. destruct c; [by apply window_handle_refers|by apply display_handle_refers].
Qed.

(** On a value that refers to a window, generic code returns what it
    returns on the window, and the state is as before. *)
Lemma interp_refers {A} (g : Generic A) x s w :
  refers x s w → interp g x s = Done (eval g w, s).
Proof.
  intros Hr. induction g as [a|c k IH]; [done|].
  simpl. exec_unfold. by rewrite (call_refers c x s w Hr).
Qed.

End source.

(** *** The implementations of the interface *)

#[export] Program Instance pure_WindowSource {S W}
    `{!HasWindowHandle W, !HasDisplayHandle W} : WindowSource S W W | 100 := {|
  refers x s w := x = w;
|}.
Next Obligation. by intros S W ?? x s w ->. Qed.
Next Obligation. by intros S W ?? x s w ->. Qed.

Section sources.
Context {W : Type} `{!HasWindowHandle W, !HasDisplayHandle W}.

(** The accessor of a live cell, with the table of the window type. *)
#[export] Program Instance ThreadLocked_WindowSource
    : WindowSource (heap W) (ThreadLockedRawWindowHandleWrapper W) W := {|
  refers acc h w :=
    dyn_vtable (window (_0 acc)) = vtable_of W ∧
    ∃ c, h !! ThreadLocked_ptr acc = Some c ∧ data c = w;
|}.
Next Obligation.
  intros acc h w (Hvt & c & Hc & <-).
  unfold window_handle_in, ThreadLocked_HasWindowHandle.
  by rewrite (window_handle_Done _ _ _ Hc), Hvt.
Qed.
Next Obligation.
  intros acc h w (Hvt & c & Hc & <-).
  unfold display_handle_in, ThreadLocked_HasDisplayHandle.
  by rewrite (display_handle_Done _ _ _ Hc), Hvt.
Qed.

(** The holder of a live cell, through [Deref]. *)
#[export] Program Instance WindowWrapper_WindowSource
    : @WindowSource (heap W) (WindowWrapper W) W _ _
        deref_window_handle deref_display_handle := {|
  refers ww h w := ∃ c, h !! ptr (reference ww) = Some c ∧ data c = w;
|}.
Next Obligation.
  intros ww h w (c & Hc & <-). unfold window_handle_in, deref_window_handle.
  simpl. unfold WindowWrapper.deref. exec_unfold. by rewrite (deref_Done _ _ _ Hc).
Qed.
Next Obligation.
  intros ww h w (c & Hc & <-). unfold display_handle_in, deref_display_handle.
  simpl. unfold WindowWrapper.deref. exec_unfold. by rewrite (deref_Done _ _ _ Hc).
Qed.

End sources.

(** *** The accessor and the protocol of the consumer *)

Section accessor.
Context {W : Type} `{!HasWindowHandle W, !HasDisplayHandle W}.
Implicit Types (h : heap W) (acc : ThreadLockedRawWindowHandleWrapper W).
Implicit Types (rhw : RawHandleWrapper W) (ww : WindowWrapper W) (c : ArcInner W).

(** On a freed cell the first call is undefined. *)
Lemma interp_freed {A} q (k : Reply q → Generic A) acc h :
  h !! ThreadLocked_ptr acc = None → interp (Ask q k) acc h = Undef.
Proof.
  intros Hl. apply exec_bind_Undef. left.
  destruct q; [by apply window_handle_Undef|by apply display_handle_Undef].
Qed.

(** Generic code on an accessor does not abort. *)
Lemma interp_not_Abort {A} (g : Generic A) acc h : interp g acc h ≠ Abort.
Proof.
  revert h. induction g as [a|q k IH]; intros h; [done|]. simpl. exec_unfold.
  destruct (call q acc h) as [[r h']| |] eqn:Hq; [apply IH|exfalso|done].
  destruct q; [by eapply window_handle_not_Abort|by eapply display_handle_not_Abort].
Qed.

(** The counter after an increment and a decrement. *)
Lemma incr_decr_cell h l c :
  h !! l = Some c → (0 ≤ strong c ≤ MAX_REFCOUNT)%Z →
  <[l := {| strong := usize_wrap (usize_wrap (strong c + 1) - 1); data := data c |}]>
    (<[l := {| strong := usize_wrap (strong c + 1); data := data c |}]> h) = h.
Proof.
  intros Hl Hc. rewrite insert_insert_eq, usize_wrap_incr by done.
  rewrite usize_wrap_decr by lia. apply insert_id. rewrite Hl. f_equal.
  destruct c. simpl. f_equal. lia.
Qed.

Lemma with_handle_Done {A} (g : Generic A) rhw h c :
  h !! RawHandleWrapper_ptr rhw = Some c → (1 ≤ strong c ≤ MAX_REFCOUNT)%Z →
  dyn_vtable (window rhw) = vtable_of W →
  with_handle g rhw h = Done (eval g (data c), h).
Proof.
  intros Hl Hc Hvt. unfold with_handle. exec_unfold.
  rewrite (RawHandleWrapper_get_handle_Done _ _ _ Hl) by lia.
  erewrite (interp_refers g {| _0 := rhw |} _ (data c)); cycle 1.
  { split; [done|]. eexists. split; [apply lookup_insert_eq|done]. }
  unfold ThreadLockedRawWindowHandleWrapper.drop, RawHandleWrapper.drop.
  erewrite drop_shared; [|apply lookup_insert_eq|simpl; rewrite usize_wrap_incr; lia].
  simpl. change (ptr (dyn_ptr (window rhw))) with (RawHandleWrapper_ptr rhw).
  by rewrite incr_decr_cell by (done || lia).
Qed.

Lemma with_handle_Undef {A} (g : Generic A) rhw h :
  h !! RawHandleWrapper_ptr rhw = None → with_handle g rhw h = Undef.
Proof.
  intros Hl. unfold with_handle, RawHandleWrapper.get_handle, RawHandleWrapper.clone.
  exec_unfold. by rewrite (proj2 (clone_Undef _ _) Hl).
Qed.

Lemma with_handle_Abort {A} (g : Generic A) rhw h c :
  h !! RawHandleWrapper_ptr rhw = Some c → (strong c > MAX_REFCOUNT)%Z →
  with_handle g rhw h = Abort.
Proof.
  intros Hl Hc. unfold with_handle, RawHandleWrapper.get_handle, RawHandleWrapper.clone.
  exec_unfold. by rewrite (clone_Abort _ _ _ Hl Hc).
Qed.

End accessor.

(** *** The protocol as steps of the machine *)

Section machine.
Context {W : Type} `{!HasWindowHandle W, !HasDisplayHandle W}.
Context (P : Policy W).
Implicit Types (σ : World W) (t : tid) (x y : var) (h : heap W).
Implicit Types (rhw : RawHandleWrapper W) (c : ArcInner W).

(** A thread reads through its own accessor one call after the other. *)
Lemma Step_calls σ t y rhw c (cs : list Call) :
  vars σ !! y = Some (t, VThreadLocked {| _0 := rhw |}) →
  mem σ !! RawHandleWrapper_ptr rhw = Some c →
  dyn_vtable (window rhw) = vtable_of W →
  reaches (step P) σ (call_event t y <$> cs) (observe_calls t (data c) cs σ).
Proof.
  intros Hy Hl Hvt. revert σ Hy Hl. induction cs as [|q cs IH]; intros σ Hy Hl.
  { apply reaches_nil. by destruct σ. }
  rewrite fmap_cons. apply reaches_cons.
  exists (observe (call_obs t (data c) q) σ (mem σ)). split.
  - apply step_Step. destruct q; simpl.
    + apply (Step_window_handle P σ t y {| _0 := rhw |}); [apply borrow_Some; eauto|].
      rewrite (window_handle_Done {| _0 := rhw |} _ _ Hl). simpl. by rewrite Hvt.
    + apply (Step_display_handle P σ t y {| _0 := rhw |}); [apply borrow_Some; eauto|].
      rewrite (display_handle_Done {| _0 := rhw |} _ _ Hl). simpl. by rewrite Hvt.
  - specialize (IH (observe (call_obs t (data c) q) σ (mem σ)) Hy Hl).
    unfold observe_calls in *. simpl in *.
    by rewrite reverse_cons, fmap_app, <-(assoc_L (++)).
Qed.

Lemma protocol_reaches {A} (g : Generic A) σ t x y rhw c :
  refcount_inv σ → vtable_inv σ →
  borrow P t x σ = Some (VRawHandleWrapper rhw) → vars σ !! y = None →
  mem σ !! RawHandleWrapper_ptr rhw = Some c → (strong c ≤ MAX_REFCOUNT)%Z →
  reaches (step P) σ (protocol g (data c) t x y)
    (observe_calls t (data c) (path g (data c)) σ).
Proof.
  intros [Hwf _] Hvt Hb Hy Hl Hle. pose proof (Hwf _ _ Hl) as Hc.
  assert (dyn_vtable (window rhw) = vtable_of W) as Hvt'.
  { apply borrow_Some in Hb as (o & Hx & _). apply (Hvt _ _ _ Hx). }
  set (c1 := {| strong := usize_wrap (strong c + 1); data := data c |}).
  set (h1 := <[RawHandleWrapper_ptr rhw := c1]> (mem σ)).
  set (σ1 := bind_var y t (VThreadLocked {| _0 := rhw |}) σ h1).
  apply reaches_app. exists σ1. split.
  { apply reaches_cons. eexists. split; [|by apply reaches_nil].
    apply step_Step, (Step_get_handle P σ t x y rhw); [done..|].
    by apply RawHandleWrapper_get_handle_Done. }
  apply reaches_app. eexists. split.
  { apply (Step_calls σ1 t y rhw c1); [apply lookup_insert_eq|apply lookup_insert_eq|done]. }
  apply reaches_cons. eexists. split; [|by apply reaches_nil].
  apply step_Step.
  pose proof (Step_drop P (observe_calls t (data c) (path g (data c)) σ1) t y
    (VThreadLocked {| _0 := rhw |}) None (mem σ)) as HS.
  unfold unbind_var, observe_calls in HS. simpl in HS.
  rewrite delete_insert_eq, (delete_id _ _ Hy) in HS. apply HS.
  - apply owned_Some. apply lookup_insert_eq.
  - unfold ThreadLockedRawWindowHandleWrapper.drop, RawHandleWrapper.drop. simpl.
    erewrite drop_shared;
      [|apply lookup_insert_eq|simpl; rewrite usize_wrap_incr; lia].
    subst h1 c1. simpl. change (ptr (dyn_ptr (window rhw))) with (RawHandleWrapper_ptr rhw).
    by rewrite incr_decr_cell by (done || lia).
Qed.

End machine.

(** ** The guarantees *)

Section guarantees.
Context {W : Type} `{!HasWindowHandle W, !HasDisplayHandle W}.
Implicit Types (h : heap W) (acc : ThreadLockedRawWindowHandleWrapper W).
Implicit Types (rhw : RawHandleWrapper W) (ww : WindowWrapper W) (c : ArcInner W).

(** C11: To code that is generic in the capability set, the accessor of a
    live cell is the window of the cell: whatever the code calls, in
    whatever order, it returns what it returns on the window itself, and
    the heap is as before.  The holder of the cell, used through its
    [Deref], is the same to it. *)
Theorem accessor_is_the_window {A} (g : Generic A) acc ww h c :
  h !! ThreadLocked_ptr acc = Some c →
  dyn_vtable (window (_0 acc)) = vtable_of W →
  ptr (reference ww) = ThreadLocked_ptr acc →
  interp g acc h = Done (eval g (data c), h) ∧
  @interp _ _ deref_window_handle deref_display_handle _ g ww h = interp g acc h.
Proof.
  intros Hl Hvt Hww.
  rewrite (interp_refers g acc h (data c)) by (split; eauto).
  split; [done|]. apply (interp_refers g ww h (data c)).
  exists c. by rewrite Hww.
Qed.

(** C28: The protocol of the consumer, on a heap whose counters are in
    range and a capsule with the table of the window type: on a live cell
    whose counter has room for one more handle the platform call returns
    what it returns on the window, and the heap is as before, the counter
    included; the protocol aborts when the counter has no room, and is
    undefined on a freed cell. *)
Theorem consumer_protocol {A} (g : Generic A) rhw h :
  heap_wf h → dyn_vtable (window rhw) = vtable_of W →
  with_handle g rhw h =
    match h !! RawHandleWrapper_ptr rhw with
    | None => Undef
    | Some c =>
        if bool_decide (strong c > MAX_REFCOUNT)%Z then Abort
        else Done (eval g (data c), h)
    end.
Proof.
  intros Hwf Hvt. destruct (h !! RawHandleWrapper_ptr rhw) as [c|] eqn:Hl;
    [|by apply with_handle_Undef].
  case_bool_decide; [by eapply with_handle_Abort|].
  apply with_handle_Done; [done| |done]. specialize (Hwf _ _ Hl). lia.
Qed.

End guarantees.

Section machine_guarantees.
Context {W : Type} `{!HasWindowHandle W, !HasDisplayHandle W}.
Context (P : Policy W).

(** In every world a client can reach, a thread that can borrow a
    capsule whose counter has room for one more handle can run the
    protocol of the consumer with a free variable, whatever the platform
    call: [get_handle], the calls that the platform call makes on the
    window, and the drop of the accessor are accepted and return, the
    thread observes for each call what the binding of the window gives,
    handle or error, and the heap, the variables and the windows
    destroyed are as before. *)
Theorem consumer_protocol_runs {A} (g : Generic A) σ t x y (rhw : RawHandleWrapper W) :
  reachable P σ → borrow P t x σ = Some (VRawHandleWrapper rhw) →
  vars σ !! y = None →
  (strong_at (mem σ) (RawHandleWrapper_ptr rhw) ≤ MAX_REFCOUNT)%Z →
  ∃ c, mem σ !! RawHandleWrapper_ptr rhw = Some c ∧
    reaches (step P) σ (protocol g (data c) t x y)
      (observe_calls t (data c) (path g (data c)) σ).
Proof.
  intros Hr Hb Hy Hle. pose proof (reachable_refcount_inv P σ Hr) as Hinv.
  destruct (borrow_live P σ t x _ Hinv Hb) as [c Hl]. exists c. split; [done|].
  simpl in Hl. rewrite (strong_at_Some _ _ _ Hl) in Hle.
  by apply (protocol_reaches P g σ t x y rhw c Hinv (reachable_vtable_inv P σ Hr)).
Qed.

End machine_guarantees.

(** ** On the stub window *)

Lemma accessor_is_the_window_witness :
  interp both_handles {| _0 := stub_capsule |} (stub_heap (stub_ok 42)) =
    Done (eval both_handles (stub_ok 42), stub_heap (stub_ok 42)) ∧
  @interp _ _ deref_window_handle deref_display_handle _ both_handles
    {| reference := {| ptr := stub_loc |} |} (stub_heap (stub_ok 42)) =
  interp both_handles {| _0 := stub_capsule |} (stub_heap (stub_ok 42)).
Proof.
  apply (accessor_is_the_window both_handles {| _0 := stub_capsule |}
           {| reference := {| ptr := stub_loc |} |} (stub_heap (stub_ok 42))
           {| strong := 1; data := stub_ok 42 |}); by vm_compute.
Defined.

Lemma consumer_protocol_witness :
  with_handle both_handles stub_capsule (stub_heap (stub_ok 42)) =
    Done (Ok (MkDisplayHandle 1042, MkWindowHandle 42), stub_heap (stub_ok 42)).
Proof.
  etrans; [apply (consumer_protocol both_handles stub_capsule); [|done]|by vm_compute].
  unfold stub_heap. intros l c [<- <-]%lookup_singleton_Some. by vm_compute.
Defined.

Lemma consumer_protocol_runs_witness :
  ∃ c, mem capsule_world !! RawHandleWrapper_ptr stub_capsule = Some c ∧
    reaches (step stub_policy) capsule_world (protocol both_handles (data c) 1 1 2)
      (observe_calls 1 (data c) (path both_handles (data c)) capsule_world).
Proof.
  apply (consumer_protocol_runs stub_policy both_handles capsule_world 1 1 2 stub_capsule);
    [by exists [EvNew 0 0 (stub_ok 42); EvCapsule 0 0 1]|by vm_compute..].
Defined.

(** The steps of the protocol on a window that answers, and on one whose
    binding is torn down: the platform call stops at the first error. *)
Example protocol_both_handles :
  protocol both_handles (stub_ok 42) 1 1 2 =
    [EvGetHandle 1 1 2; EvDisplayHandle 1 2; EvWindowHandle 1 2; EvDrop 1 2] ∧
  protocol both_handles (stub_dead 7) 1 1 2 =
    [EvGetHandle 1 1 2; EvDisplayHandle 1 2; EvDrop 1 2].
Proof. done. Qed.

(** A window whose binding is torn down: the platform call fails with the
    error of the binding, and the heap is as before. *)
Example consumer_protocol_error :
  with_handle both_handles stub_capsule (stub_heap (stub_dead 7)) =
    Done (Err Unavailable, stub_heap (stub_dead 7)).
Proof. by vm_compute. Qed.
