(* ===== verification/Pipeline.v ===== *)
(** * The pipelined renderer

    The program exists for one composition of its clients (raw_handle.rs,
    lines 9-15): the owning subsystem creates a window, wraps it in a
    holder and attaches a capsule of it to the window's entity; the
    renderer picks the capsule up during extraction and draws to the
    window on its own thread, frames later; in between, the owning
    subsystem may close the window.  The window has to stay alive while a
    frame that draws to it is in flight.

    Here the two subsystems are a machine of their own: its state says
    for every entity which of the two worlds, the main world and the
    render world, has the window; its commands are the actions of the two
    subsystems, each of them a few operations of the program on the
    threads of the subsystem.  The commands may come in any order that
    the state accepts, so the result holds for every interleaving of the
    two subsystems and for any number of windows.  The schedules are
    also run under the memory model of [Race], access by access. *)

From S2P Require Import Prelude RawWindowHandle Sync Holder Capsule Accessor Marker Machine.
From S2P Require Import Lifetime Observation Consumer Atomicity Ordering Race.

#[local] Set Warnings "-clear-no-such-hyp".

(** ** Definitions *)

Definition entity : Type := nat.

(** The owning subsystem runs on thread 0, the renderer on thread 1. *)
Definition main_thread : tid := 0.
Definition render_thread : tid := 1.

(** The variables of an entity: the holder and the capsule of the main
    world, the capsule of the render world, the accessor of a frame. *)
Definition holder (e : entity) : var := 4 * e.
Definition capsule (e : entity) : var := 4 * e + 1.
Definition extracted (e : entity) : var := 4 * e + 2.
Definition accessor (e : entity) : var := 4 * e + 3.

(** A window and the worlds that have it. *)
Record Slot (W : Type) : Type := {
  slot_window : W;
  in_main : bool;
  in_render : bool;
}.
Arguments slot_window {W} _.
Arguments in_main {W} _.
Arguments in_render {W} _.

(** The state of the two subsystems: the windows that some world has,
    the windows that are gone and what the renderer got from its
    platform calls, both latest first. *)
Record Pipe (W : Type) : Type := {
  slots : gmap entity (Slot W);
  gone : list W;
  seen : list (Obs W);
}.
Arguments slots {W} _.
Arguments gone {W} _.
Arguments seen {W} _.

Definition pipe_init {W} : Pipe W := {| slots := ∅; gone := []; seen := [] |}.

(** The actions of the subsystems.  [Create], [Extract] and [Close] are
    the owning subsystem's (the extraction runs on its thread and hands
    the capsule over); [Render], with the platform call of the frame, and
    [Release] are the renderer's. *)
Inductive Cmd (W : Type) : Type :=
| Create (e : entity) (w : W)
| Extract (e : entity)
| Close (e : entity)
| Render (e : entity) (g : Generic ())
| Release (e : entity).
Arguments Create {W} e w.
Arguments Extract {W} e.
Arguments Close {W} e.
Arguments Render {W} e g.
Arguments Release {W} e.

Section pipeline.
Context {W : Type} `{!HasWindowHandle W, !HasDisplayHandle W}.

(** The handles of a window: the holder and the capsule of the main
    world, the capsule of the render world. *)
Definition handles (s : Slot W) : Z :=
  match in_main s, in_render s with
  | true, true => 3
  | true, false => 2
  | false, true => 1
  | false, false => 0
  end.

(** The state after a world let go of the window of [e], [s] being what
    is left: the window is gone when no world has it. *)
Definition leave (e : entity) (s : Slot W) (p : Pipe W) : Pipe W :=
  if in_main s || in_render s
  then {| slots := <[e := s]> (slots p); gone := gone p; seen := seen p |}
  else {| slots := delete e (slots p); gone := slot_window s :: gone p; seen := seen p |}.

Definition pipe_step (c : Cmd W) (p : Pipe W) : option (Pipe W) :=
  match c with
  | Create e w =>
      match slots p !! e with
      | None =>
          Some {| slots := <[e := {| slot_window := w; in_main := true; in_render := false |}]>
                             (slots p);
                  gone := gone p; seen := seen p |}
      | Some _ => None
      end
  | Extract e =>
      s ← slots p !! e;
      if in_main s && negb (in_render s)
      then Some {| slots := <[e := {| slot_window := slot_window s; in_main := true;
                                      in_render := true |}]> (slots p);
                   gone := gone p; seen := seen p |}
      else None
  | Close e =>
      s ← slots p !! e;
      if in_main s
      then Some (leave e {| slot_window := slot_window s; in_main := false;
                            in_render := in_render s |} p)
      else None
  | Render e g =>
      s ← slots p !! e;
      if in_render s
      then Some {| slots := slots p; gone := gone p;
                   seen := (call_obs render_thread (slot_window s)
                              <$> reverse (path g (slot_window s))) ++ seen p |}
      else None
  | Release e =>
      s ← slots p !! e;
      if in_render s
      then Some (leave e {| slot_window := slot_window s; in_main := in_main s;
                            in_render := false |} p)
      else None
  end.

(** The operations of the program that a command is. *)
Definition events (p : Pipe W) (c : Cmd W) : list (Event W) :=
  match c with
  | Create e w =>
      [EvNew main_thread (holder e) w; EvCapsule main_thread (holder e) (capsule e)]
  | Extract e =>
      [EvClone main_thread (capsule e) (extracted e);
       EvSend main_thread (extracted e) render_thread]
  | Close e => [EvDrop main_thread (capsule e); EvDrop main_thread (holder e)]
  | Render e g =>
      match slots p !! e with
      | Some s => protocol g (slot_window s) render_thread (extracted e) (accessor e)
      | None => []
      end
  | Release e => [EvDrop render_thread (extracted e)]
  end.

(** A schedule of the two subsystems: the state it leads to, if every
    command is accepted, and the operations it is. *)
Fixpoint pipe_run (cs : list (Cmd W)) (p : Pipe W) : option (Pipe W) :=
  match cs with
  | [] => Some p
  | c :: cs => pipe_step c p ≫= pipe_run cs
  end.

Fixpoint trace (cs : list (Cmd W)) (p : Pipe W) : list (Event W) :=
  match cs with
  | [] => []
  | c :: cs =>
      events p c ++ match pipe_step c p with Some p' => trace cs p' | None => [] end
  end.

(** The actions with which the worlds that have the window of an entity
    let go of it, and the shutdown of the two subsystems: every window
    is let go. *)
Definition shutdown_slot (es : entity * Slot W) : list (Cmd W) :=
  (if in_main es.2 then [Close es.1] else []) ++
  (if in_render es.2 then [Release es.1] else []).

Definition shutdown (p : Pipe W) : list (Cmd W) :=
  map_to_list (slots p) ≫= shutdown_slot.

(** Every window of the state is in one of the worlds. *)
Definition pipe_wf (p : Pipe W) : Prop :=
  map_Forall (λ _ s, in_main s || in_render s = true) (slots p).

(** The values of an entity whose window is the cell [l]. *)
Definition holder_of (l : loc) : Value W :=
  VWindowWrapper {| reference := {| ptr := l |} |}.

Definition capsule_of (l : loc) : Value W :=
  VRawHandleWrapper {| window := unsize {| ptr := l |} |}.

(** The world has of entity [e], whose window is the cell [l], what the
    state says: the cell counts the handles, and the variables of [e] are
    bound on the threads of their worlds. *)
Definition slot_ok (σ : World W) (e : entity) (l : loc) (s : Slot W) : Prop :=
  mem σ !! l = Some {| strong := handles s; data := slot_window s |} ∧
  vars σ !! holder e =
    (if in_main s then Some (main_thread, holder_of l) else None) ∧
  vars σ !! capsule e =
    (if in_main s then Some (main_thread, capsule_of l) else None) ∧
  vars σ !! extracted e =
    (if in_render s then Some (render_thread, capsule_of l) else None) ∧
  in_main s || in_render s = true.

Definition no_slot (σ : World W) (e : entity) : Prop :=
  vars σ !! holder e = None ∧ vars σ !! capsule e = None ∧
  vars σ !! extracted e = None.

(** The world agrees with the state of the subsystems: [q] says where
    the window of each entity is. *)
Definition agrees_at (q : gmap entity (loc * Slot W)) (p : Pipe W) (σ : World W) : Prop :=
  slots p = snd <$> q ∧
  (∀ e e' l s s', q !! e = Some (l, s) → q !! e' = Some (l, s') → e = e') ∧
  (∀ e l s, q !! e = Some (l, s) → slot_ok σ e l s) ∧
  (∀ e, q !! e = None → no_slot σ e) ∧
  (∀ e, vars σ !! accessor e = None) ∧
  (∀ l, is_Some (mem σ !! l) → ∃ e s, q !! e = Some (l, s)) ∧
  destroyed σ = gone p ∧ observed σ = seen p.

Definition agrees (p : Pipe W) (σ : World W) : Prop := ∃ q, agrees_at q p σ.

End pipeline.

(** Two worlds have the same variables but for those of [e], and the
    same cells but for [l]. *)
Definition same_vars_but {W} (e : entity) (σ σ' : World W) : Prop :=
  ∀ e', e' ≠ e →
    vars σ' !! holder e' = vars σ !! holder e' ∧
    vars σ' !! capsule e' = vars σ !! capsule e' ∧
    vars σ' !! extracted e' = vars σ !! extracted e'.

Definition same_mem_but {W} (l : loc) (σ σ' : World W) : Prop :=
  ∀ l', l' ≠ l → mem σ' !! l' = mem σ !! l'.

(** A window is created and extracted; the main world closes it while the
    frame is in flight; the renderer then asks for both handles and lets
    go. *)
Definition close_in_flight : list (Cmd StubWindow) :=
  [Create 7 (stub_ok 42); Extract 7; Close 7;
   Render 7 (both_handles ≫= λ _, Ret ()); Release 7].

(** The state after [close_in_flight]. *)
Definition close_in_flight_end : Pipe StubWindow :=
  default pipe_init (pipe_run close_in_flight pipe_init).

(** ** Facts *)

(** No two of the variables of the entities are the same. *)
Ltac var_solve :=
  unfold holder, capsule, extracted, accessor in *; lia.

(** A lookup in the variables or the cells after an action, away from
    what the action changed and at it. *)
Ltac frame_solve :=
  unfold same_vars_but, same_mem_but; intros;
  repeat match goal with x := _ |- _ => subst x end; simpl;
  repeat first [ rewrite lookup_insert_ne by (done || var_solve)
               | rewrite lookup_delete_ne by (done || var_solve) ];
  first [done | apply lookup_insert_eq | apply lookup_delete_eq].

Ltac slot_solve := unfold slot_ok, no_slot; split_and!; frame_solve.

Section frame.
Context {W : Type} `{!HasWindowHandle W, !HasDisplayHandle W}.
Implicit Types (σ : World W) (p : Pipe W) (e : entity) (l : loc) (s : Slot W).
Implicit Types (q : gmap entity (loc * Slot W)).

Lemma slot_ok_frame σ σ' e e' l l' s :
  e' ≠ e → l' ≠ l → same_vars_but e σ σ' → same_mem_but l σ σ' →
  slot_ok σ e' l' s → slot_ok σ' e' l' s.
Proof.
  intros He Hl Hv Hm. unfold slot_ok.
  destruct (Hv e' He) as (-> & -> & ->). by rewrite (Hm l' Hl).
Qed.

Lemma no_slot_frame σ σ' e e' :
  e' ≠ e → same_vars_but e σ σ' → no_slot σ e' → no_slot σ' e'.
Proof. intros He Hv Hn. unfold no_slot. by destruct (Hv e' He) as (-> & -> & ->). Qed.

Lemma slots_lookup q p σ e :
  agrees_at q p σ → slots p !! e = snd <$> q !! e.
Proof. intros [-> _]. apply lookup_fmap. Qed.

(** The world after an action on entity [e], whose window is [l], agrees
    with the state in which [e] has the slot [s']. *)
Lemma agrees_insert q p σ σ' e l s' :
  agrees_at q p σ →
  (∀ e' s, q !! e' = Some (l, s) → e' = e) →
  (∀ l0 s0, q !! e = Some (l0, s0) → l0 = l) →
  same_vars_but e σ σ' → same_mem_but l σ σ' →
  (∀ e', vars σ' !! accessor e' = None) →
  slot_ok σ' e l s' →
  destroyed σ' = destroyed σ → observed σ' = observed σ →
  agrees_at (<[e := (l, s')]> q)
    {| slots := <[e := s']> (slots p); gone := gone p; seen := seen p |} σ'.
Proof.
  intros (Hp & Hinj & Hok & Hno & Hacc & Hdom & Hd & Ho) Hl He Hv Hm Hacc' Hs' Hd' Ho'.
  split; [simpl; by rewrite Hp, fmap_insert|].
  split.
  { intros e1 e2 l1 s1 s2 [[-> ?]|[? H1]]%lookup_insert_Some
      [[-> ?]|[? H2]]%lookup_insert_Some; simplify_eq; eauto using eq_sym. }
  split.
  { intros e1 l1 s1 [[-> [= <- <-]]|[? H1]]%lookup_insert_Some; [done|].
    apply (slot_ok_frame σ σ' e e1 l l1); eauto.
    intros ->. by destruct (Hl _ _ H1). }
  split.
  { intros e1 [? H1]%lookup_insert_None.
    apply (no_slot_frame σ σ' e); eauto. }
  split; [done|]. split; [|simpl; split; congruence].
  intros l1 Hl1. destruct (decide (l1 = l)) as [->|Hne].
  { exists e, s'. apply lookup_insert_eq. }
  rewrite (Hm l1 Hne) in Hl1. destruct (Hdom l1 Hl1) as (e1 & s1 & H1).
  exists e1, s1. rewrite lookup_insert_ne; [done|].
  intros <-. by destruct Hne, (He _ _ H1).
Qed.

(** The same for an entity that had a slot. *)
Lemma agrees_update q p σ σ' e l s s' :
  agrees_at q p σ → q !! e = Some (l, s) →
  same_vars_but e σ σ' → same_mem_but l σ σ' →
  (∀ e', vars σ' !! accessor e' = None) →
  slot_ok σ' e l s' →
  destroyed σ' = destroyed σ → observed σ' = observed σ →
  agrees {| slots := <[e := s']> (slots p); gone := gone p; seen := seen p |} σ'.
Proof.
  intros Hag He ??????. exists (<[e := (l, s')]> q).
  apply (agrees_insert q p σ σ' e l s'); try done.
  - intros e' s0 He'. destruct Hag as (_ & Hinj & _). by apply (Hinj _ _ _ _ _ He' He).
  - intros l0 s0 ?. congruence.
Qed.

(** The world after the action that destroyed the window of [e]. *)
Lemma agrees_delete q p σ σ' e l s w :
  agrees_at q p σ → q !! e = Some (l, s) →
  same_vars_but e σ σ' → same_mem_but l σ σ' →
  (∀ e', vars σ' !! accessor e' = None) →
  no_slot σ' e → mem σ' !! l = None →
  destroyed σ' = w :: destroyed σ → observed σ' = observed σ →
  agrees {| slots := delete e (slots p); gone := w :: gone p; seen := seen p |} σ'.
Proof.
  intros (Hp & Hinj & Hok & Hno & Hacc & Hdom & Hd & Ho) He Hv Hm Hacc' Hn Hl Hd' Ho'.
  exists (delete e q). split; [simpl; by rewrite Hp, fmap_delete|].
  split.
  { intros e1 e2 l1 s1 s2 [? H1]%lookup_delete_Some [? H2]%lookup_delete_Some. eauto. }
  split.
  { intros e1 l1 s1 [? H1]%lookup_delete_Some.
    apply (slot_ok_frame σ σ' e e1 l l1); eauto.
    intros ->. by destruct (Hinj _ _ _ _ _ H1 He). }
  split.
  { intros e1 [->|H1]%lookup_delete_None; [done|].
    destruct (decide (e1 = e)) as [->|?]; [done|].
    apply (no_slot_frame σ σ' e); eauto. }
  split; [done|]. split; [|simpl; split; congruence].
  intros l1 Hl1. assert (l1 ≠ l) as Hne by (intros ->; rewrite Hl in Hl1; by destruct Hl1).
  rewrite (Hm l1 Hne) in Hl1. destruct (Hdom l1 Hl1) as (e1 & s1 & H1).
  exists e1, s1. apply lookup_delete_Some. split; [|done].
  intros <-. rewrite He in H1. by simplify_eq.
Qed.

Lemma agrees_init : agrees (W:=W) pipe_init init.
Proof.
  exists ∅. split_and!; try done.
  intros l [c Hc]. simpl in Hc. by rewrite lookup_empty in Hc.
Qed.

(** What agreement says of the cells. *)
Lemma agrees_cell p σ e s :
  agrees p σ → slots p !! e = Some s →
  ∃ l, mem σ !! l = Some {| strong := handles s; data := slot_window s |}.
Proof.
  intros [q Hag] Hs. rewrite (slots_lookup q p σ e Hag) in Hs.
  destruct (q !! e) as [[l s']|] eqn:He; simplify_eq/=.
  destruct Hag as (_ & _ & Hok & _). exists l. apply (Hok e l s He).
Qed.

Lemma agrees_empty p σ : agrees p σ → slots p = ∅ → mem σ = ∅.
Proof.
  intros [q (Hp & _ & _ & _ & _ & Hdom & _)] He. apply map_eq. intros l.
  rewrite lookup_empty. apply eq_None_not_Some. intros (e & s & Hq)%Hdom.
  rewrite He in Hp. symmetry in Hp. apply fmap_empty_inv in Hp.
  by rewrite Hp, lookup_empty in Hq.
Qed.

End frame.

(** *** The commands *)

Section commands.
Context {W : Type} `{!HasWindowHandle W, !HasDisplayHandle W}.
Context (P : Policy W).
Context (Hnew : may_new P = true).
Context (Hsend : ∀ rhw, may_send P (VRawHandleWrapper rhw) = true).
Implicit Types (σ : World W) (p : Pipe W) (e : entity) (l : loc) (s : Slot W).
Implicit Types (q : gmap entity (loc * Slot W)).

(** The drop of a value whose cell is there: of one of several handles,
    and of the last. *)
Lemma drop_step_shared σ t x v c :
  vars σ !! x = Some (t, v) → mem σ !! value_ptr v = Some c → strong c ≠ 1%Z →
  step P (EvDrop t x) σ = Some (Done (unbind_var x None σ
    (<[value_ptr v := {| strong := usize_wrap (strong c - 1); data := data c |}]> (mem σ)))).
Proof.
  intros Hx Hc Hn. apply step_Step. rewrite <-value_arc_ptr in *.
  apply (Step_drop P σ t x v); [by apply owned_Some|].
  rewrite drop_value_arc. by apply drop_shared.
Qed.

Lemma drop_step_last σ t x v c :
  vars σ !! x = Some (t, v) → mem σ !! value_ptr v = Some c → strong c = 1%Z →
  step P (EvDrop t x) σ =
    Some (Done (unbind_var x (Some (data c)) σ (delete (value_ptr v) (mem σ)))).
Proof.
  intros Hx Hc Hn. apply step_Step. rewrite <-value_arc_ptr in *.
  apply (Step_drop P σ t x v); [by apply owned_Some|].
  rewrite drop_value_arc. by apply drop_last.
Qed.

Lemma Create_agrees q p σ e w :
  agrees_at q p σ → q !! e = None →
  ∃ σ', reaches (step P) σ (events p (Create e w)) σ' ∧
    agrees {| slots := <[e := {| slot_window := w; in_main := true; in_render := false |}]>
                         (slots p);
              gone := gone p; seen := seen p |} σ'.
Proof.
  intros Hag He. pose proof Hag as (Hp & Hinj & Hok & Hno & Hacc & Hdom & Hd & Ho).
  destruct (Hno e He) as (Hh & Hk & Hx).
  destruct (WindowWrapper_new_spec w (mem σ)) as ([[l]] & Hnw & Hl). simpl in *.
  set (c1 := {| strong := 1; data := w |}) in *.
  set (h1 := <[l := c1]> (mem σ)) in *.
  set (σ1 := bind_var (holder e) main_thread (holder_of l) σ h1).
  set (σ2 := bind_var (capsule e) main_thread (capsule_of l) σ1
               (<[l := {| strong := 2; data := w |}]> h1)).
  exists σ2. split.
  - apply reaches_cons. exists σ1. split.
    { apply step_Step. by apply (Step_new P σ main_thread (holder e) w _ h1). }
    apply reaches_cons. exists σ2. split; [|by apply reaches_nil].
    apply step_Step.
    apply (Step_capsule P σ1 main_thread (holder e) (capsule e) {| reference := {| ptr := l |} |}).
    + apply owned_borrow, owned_Some. apply lookup_insert_eq.
    + frame_solve.
    + by rewrite (RawHandleWrapper_new_Done _ _ c1) by (done || apply lookup_insert_eq).
  - eexists. apply (agrees_insert q p σ σ2 e l); try done; try (by frame_solve).
    + intros e' s (Hc & _)%Hok. congruence.
    + intros l0 s0 ?. congruence.
    + slot_solve.
Qed.

Lemma Extract_agrees q p σ e l s :
  agrees_at q p σ → q !! e = Some (l, s) → in_main s = true → in_render s = false →
  ∃ σ', reaches (step P) σ (events p (Extract e)) σ' ∧
    agrees {| slots := <[e := {| slot_window := slot_window s; in_main := true;
                                 in_render := true |}]> (slots p);
              gone := gone p; seen := seen p |} σ'.
Proof.
  intros Hag He Hm Hr. pose proof Hag as (_ & _ & Hok & _ & Hacc & _).
  destruct (Hok e l s He) as (Hc & Hh & Hk & Hx & _). unfold handles in Hc.
  rewrite Hm, Hr in *.
  set (h1 := <[l := {| strong := 3; data := slot_window s |}]> (mem σ)).
  set (σ1 := bind_var (extracted e) main_thread (capsule_of l) σ h1).
  set (σ2 := bind_var (extracted e) render_thread (capsule_of l) σ1 h1).
  exists σ2. split.
  - apply reaches_cons. exists σ1. split.
    { apply step_Step.
      apply (Step_clone P σ main_thread (capsule e) (extracted e)
               {| window := unsize {| ptr := l |} |}); [by apply owned_borrow, owned_Some|done|].
      by rewrite (RawHandleWrapper_clone_Done {| window := unsize {| ptr := l |} |} (mem σ) _ Hc). }
    apply reaches_cons. exists σ2. split; [|by apply reaches_nil].
    apply step_Step.
    apply (Step_send P σ1 main_thread (extracted e) render_thread (capsule_of l));
      [|apply Hsend].
    apply owned_Some, lookup_insert_eq.
  - apply (agrees_update q p σ σ2 e l s); try done; try (by frame_solve). slot_solve.
Qed.

(** The main world lets go: the capsule and the holder are dropped, and
    the second drop destroys the window unless the render world has it. *)
Lemma Close_agrees q p σ e l s :
  agrees_at q p σ → q !! e = Some (l, s) → in_main s = true →
  ∃ σ', reaches (step P) σ (events p (Close e)) σ' ∧
    agrees (leave e {| slot_window := slot_window s; in_main := false;
                       in_render := in_render s |} p) σ'.
Proof.
  intros Hag He Hm. pose proof Hag as (_ & _ & Hok & _ & Hacc & _).
  destruct (Hok e l s He) as (Hc & Hh & Hk & Hx & _). unfold handles in Hc.
  rewrite Hm in *. set (w := slot_window s) in *.
  set (n := if in_render s then 3%Z else 2%Z).
  assert (mem σ !! l = Some {| strong := n; data := w |}) as Hc'
    by (unfold n; by destruct (in_render s)).
  set (σ1 := unbind_var (capsule e) None σ
               (<[l := {| strong := usize_wrap (n - 1); data := w |}]> (mem σ))).
  assert (step P (EvDrop main_thread (capsule e)) σ = Some (Done σ1)) as H1.
  { apply (drop_step_shared σ main_thread (capsule e) (capsule_of l) _ Hk Hc').
    unfold n. simpl. by destruct (in_render s). }
  assert (vars σ1 !! holder e = Some (main_thread, holder_of l)) as Hh1 by frame_solve.
  assert (mem σ1 !! l = Some {| strong := usize_wrap (n - 1); data := w |}) as Hc1
    by apply lookup_insert_eq.
  unfold leave. simpl. destruct (in_render s) eqn:Hr; simpl.
  - eexists. split.
    { apply reaches_cons. exists σ1. split; [done|].
      apply reaches_cons. eexists. split; [|by apply reaches_nil].
      by apply (drop_step_shared σ1 main_thread (holder e) (holder_of l) _ Hh1 Hc1). }
    apply (agrees_update q p σ _ e l s); try done; try (by frame_solve). slot_solve.
  - eexists. split.
    { apply reaches_cons. exists σ1. split; [done|].
      apply reaches_cons. eexists. split; [|by apply reaches_nil].
      by apply (drop_step_last σ1 main_thread (holder e) (holder_of l) _ Hh1 Hc1). }
    apply (agrees_delete q p σ _ e l s w); try done; try (by frame_solve). slot_solve.
Qed.

(** The render world lets go. *)
Lemma Release_agrees q p σ e l s :
  agrees_at q p σ → q !! e = Some (l, s) → in_render s = true →
  ∃ σ', reaches (step P) σ (events p (Release e)) σ' ∧
    agrees (leave e {| slot_window := slot_window s; in_main := in_main s;
                       in_render := false |} p) σ'.
Proof.
  intros Hag He Hr. pose proof Hag as (_ & _ & Hok & _ & Hacc & _).
  destruct (Hok e l s He) as (Hc & Hh & Hk & Hx & _). unfold handles in Hc.
  rewrite Hr in *. set (w := slot_window s) in *.
  unfold leave. simpl. destruct (in_main s) eqn:Hm; simpl.
  - eexists. split.
    { apply reaches_cons. eexists. split; [|by apply reaches_nil].
      by apply (drop_step_shared σ render_thread (extracted e) (capsule_of l) _ Hx Hc). }
    apply (agrees_update q p σ _ e l s); try done; try (by frame_solve). slot_solve.
  - eexists. split.
    { apply reaches_cons. eexists. split; [|by apply reaches_nil].
      by apply (drop_step_last σ render_thread (extracted e) (capsule_of l) _ Hx Hc). }
    apply (agrees_delete q p σ _ e l s w); try done; try (by frame_solve). slot_solve.
Qed.

(** A frame: the protocol of the consumer on the capsule of the render
    world, whatever the main world did to the window since. *)
Lemma Render_reaches q p σ e l s (g : Generic ()) :
  reachable P σ → agrees_at q p σ → q !! e = Some (l, s) → in_render s = true →
  reaches (step P) σ
    (protocol g (slot_window s) render_thread (extracted e) (accessor e))
    (observe_calls render_thread (slot_window s) (path g (slot_window s)) σ).
Proof.
  intros Hr (_ & _ & Hok & _ & Hacc & _) He Hin.
  destruct (Hok e l s He) as (Hc & _ & _ & Hx & _). rewrite Hin in Hx.
  apply (protocol_reaches P g σ render_thread (extracted e) (accessor e)
           {| window := unsize {| ptr := l |} |}
           {| strong := handles s; data := slot_window s |}
           (reachable_refcount_inv P σ Hr) (reachable_vtable_inv P σ Hr));
    [by apply owned_borrow, owned_Some|done|exact Hc|].
  simpl. unfold handles. by destruct (in_main s), (in_render s).
Qed.

Lemma Render_agrees q p σ e l s (g : Generic ()) :
  reachable P σ → agrees_at q p σ → q !! e = Some (l, s) → in_render s = true →
  ∃ σ', reaches (step P) σ
          (protocol g (slot_window s) render_thread (extracted e) (accessor e)) σ' ∧
    agrees {| slots := slots p; gone := gone p;
              seen := (call_obs render_thread (slot_window s)
                         <$> reverse (path g (slot_window s))) ++ seen p |} σ'.
Proof.
  intros Hr Hag He Hin. eexists. split; [by apply (Render_reaches q p σ e l s)|].
  destruct Hag as (Hp & Hinj & Hok & Hno & Hacc & Hdom & Hd & Ho).
  exists q. split_and!; [done|done|exact Hok|exact Hno|exact Hacc|exact Hdom|done|].
  simpl. by rewrite Ho.
Qed.

(** Every command that the state accepts is a run of the program, and
    the world after it agrees with the state after it. *)
Lemma command_agrees c p p' σ :
  reachable P σ → agrees p σ → pipe_step c p = Some p' →
  ∃ σ', reaches (step P) σ (events p c) σ' ∧ agrees p' σ'.
Proof.
  intros Hr [q Hag] Hc. pose proof (slots_lookup q p σ) as Hs.
  destruct c as [e w|e|e|e g|e]; simpl in Hc; rewrite (Hs _ Hag) in Hc;
    simpl; rewrite ?(Hs _ Hag);
    destruct (q !! e) as [[l s]|] eqn:He; simplify_eq/=.
  - by apply (Create_agrees q p σ e w).
  - destruct (in_main s) eqn:Hm, (in_render s) eqn:Hn; simplify_eq/=.
    by apply (Extract_agrees q p σ e l s).
  - destruct (in_main s) eqn:Hm; simplify_eq/=. by apply (Close_agrees q p σ e l s).
  - destruct (in_render s) eqn:Hn; simplify_eq/=. by apply (Render_agrees q p σ e l s).
  - destruct (in_render s) eqn:Hn; simplify_eq/=. by apply (Release_agrees q p σ e l s).
Qed.

Lemma schedule_agrees cs p p' σ :
  reachable P σ → agrees p σ → pipe_run cs p = Some p' →
  ∃ σ', reaches (step P) σ (trace cs p) σ' ∧ agrees p' σ'.
Proof.
  revert p σ. induction cs as [|c cs IH]; intros p σ Hr Hag Hrun; simpl in *.
  - simplify_eq. exists σ. split; [by apply reaches_nil|done].
  - destruct (pipe_step c p) as [p1|] eqn:Hc; [|done]. simpl in Hrun.
    destruct (command_agrees c p p1 σ Hr Hag Hc) as (σ1 & Hr1 & Hag1).
    destruct (IH p1 σ1 (reachable_reaches P σ _ σ1 Hr Hr1) Hag1 Hrun) as (σ' & Hr' & Hag').
    exists σ'. split; [|done]. apply reaches_app. eauto.
Qed.

End commands.

(** *** Schedules *)

Section schedules.
Context {W : Type} `{!HasWindowHandle W, !HasDisplayHandle W}.
Implicit Types (p : Pipe W) (e : entity) (s : Slot W) (c : Cmd W) (cs : list (Cmd W)).

Lemma pipe_run_app cs cs' p :
  pipe_run (cs ++ cs') p = pipe_run cs p ≫= pipe_run cs'.
Proof.
  revert p. induction cs as [|c cs IH]; intros p; simpl; [done|].
  destruct (pipe_step c p) as [p1|]; simpl; [apply IH|done].
Qed.

Lemma trace_app cs cs' p p1 :
  pipe_run cs p = Some p1 → trace (cs ++ cs') p = trace cs p ++ trace cs' p1.
Proof.
  revert p. induction cs as [|c cs IH]; intros p; simpl; [by intros [= ->]|].
  destruct (pipe_step c p) as [p2|]; simpl; [|done].
  intros Hr. by rewrite (IH p2 Hr), (assoc_L (++)).
Qed.

(** The render world has a window until it releases it, whatever else
    the two subsystems do. *)
Lemma pipe_step_keeps_extracted c p p' e s :
  pipe_step c p = Some p' → c ≠ Release e →
  slots p !! e = Some s → in_render s = true →
  ∃ s', slots p' !! e = Some s' ∧ in_render s' = true ∧ slot_window s' = slot_window s.
Proof.
  intros Hc Hne Hs Hr.
  destruct c as [e' w|e'|e'|e' g|e']; simpl in Hc;
    destruct (decide (e' = e)) as [->|He]; try (by destruct Hne);
    rewrite ?Hs in Hc; try destruct (slots p !! e') as [s1|];
    simpl in Hc; simplify_eq/=;
    repeat (case_match; simplify_eq/=); unfold leave; simpl;
    rewrite ?Hr; simpl; repeat (case_match; simplify_eq/=);
    rewrite ?lookup_insert_eq, ?lookup_insert_ne, ?lookup_delete_ne by done; eauto.
Qed.

Lemma pipe_run_keeps_extracted cs p p' e s :
  pipe_run cs p = Some p' → Forall (λ c, c ≠ Release e) cs →
  slots p !! e = Some s → in_render s = true →
  ∃ s', slots p' !! e = Some s' ∧ in_render s' = true ∧ slot_window s' = slot_window s.
Proof.
  revert p s. induction cs as [|c cs IH]; intros p s; simpl.
  { intros [= ->] _ ??. eauto. }
  destruct (pipe_step c p) as [p1|] eqn:Hc; simpl; [|done].
  intros Hrun [Hne Hall]%list.Forall_cons Hs Hr.
  destruct (pipe_step_keeps_extracted c p p1 e s Hc Hne Hs Hr) as (s1 & Hs1 & Hr1 & <-).
  by apply (IH p1 s1).
Qed.

(** Every window of a state that a schedule leads to is in one of the
    worlds. *)
Lemma pipe_step_wf c p p' : pipe_step c p = Some p' → pipe_wf p → pipe_wf p'.
Proof.
  intros Hc Hwf. unfold pipe_wf in *.
  destruct c as [e w|e|e|e g|e]; simpl in Hc;
    destruct (slots p !! e) as [s|] eqn:Hs; simplify_eq/=;
    repeat (case_match; simplify_eq/=); unfold leave; simpl;
    repeat (case_match; simplify_eq/=);
    first [ done | by apply map_Forall_insert_2 | by apply map_Forall_delete ].
Qed.

Lemma pipe_run_wf cs p p' : pipe_run cs p = Some p' → pipe_wf p → pipe_wf p'.
Proof.
  revert p. induction cs as [|c cs IH]; intros p; simpl; [by intros [= ->]|].
  destruct (pipe_step c p) as [p1|] eqn:Hc; simpl; [|done].
  intros Hrun Hwf. apply (IH p1 Hrun). by eapply pipe_step_wf.
Qed.

(** The worlds let go of one window. *)
Lemma shutdown_slot_run e s p :
  slots p !! e = Some s → in_main s || in_render s = true →
  pipe_run (shutdown_slot (e, s)) p =
    Some {| slots := delete e (slots p); gone := slot_window s :: gone p;
            seen := seen p |}.
Proof.
  intros Hs Hin. unfold shutdown_slot.
  destruct s as [w' [] []]; simpl in *; try done;
    rewrite ?Hs; simpl; unfold leave; simpl; rewrite ?lookup_insert_eq; simpl;
    by rewrite ?delete_insert_eq.
Qed.

(** They let go of the windows of a list, one after the other. *)
Lemma shutdown_list_run (L : list (entity * Slot W)) p :
  NoDup L.*1 →
  (∀ e s, (e, s) ∈ L → slots p !! e = Some s ∧ in_main s || in_render s = true) →
  ∃ p', pipe_run (L ≫= shutdown_slot) p = Some p' ∧
        (∀ e, slots p' !! e = if decide (e ∈ L.*1) then None else slots p !! e) ∧
        gone p' = reverse (slot_window <$> L.*2) ++ gone p ∧ seen p' = seen p.
Proof.
  revert p. induction L as [|[e s] L IH]; intros p Hnd HL; simpl.
  { by exists p. }
  simpl in Hnd. apply list.NoDup_cons in Hnd as [Hne Hnd]. destruct (HL e s) as [Hs Hin]; [by left|].
  rewrite pipe_run_app, (shutdown_slot_run e s p Hs Hin). simpl.
  destruct (IH {| slots := delete e (slots p); gone := slot_window s :: gone p;
                  seen := seen p |} Hnd) as (p' & Hrun & Hsl & Hg & Hse).
  { intros e' s' Hin'. destruct (HL e' s') as [Hs' ?]; [by right|]. split; [|done].
    simpl. rewrite lookup_delete_ne; [done|]. intros <-. apply Hne.
    apply list_elem_of_fmap. by exists (e, s'). }
  exists p'. split_and!; [done| |by rewrite Hg, reverse_cons, <-(assoc_L (++))|done].
  intros e'. rewrite Hsl. simpl. destruct (decide (e' = e)) as [->|Hee].
  - rewrite lookup_delete_eq, (decide_True _ _ (list_elem_of_here _ _)). by case_decide.
  - rewrite lookup_delete_ne by done. repeat case_decide; set_solver.
Qed.

(** Every window is let go, and no world has a window. *)
Lemma shutdown_run p :
  pipe_wf p →
  ∃ p', pipe_run (shutdown p) p = Some p' ∧ slots p' = ∅ ∧
        gone p' = reverse (slot_window <$> (map_to_list (slots p)).*2) ++ gone p ∧
        seen p' = seen p.
Proof.
  intros Hwf.
  destruct (shutdown_list_run (map_to_list (slots p)) p) as (p' & Hrun & Hsl & Hg & Hse).
  - apply NoDup_fst_map_to_list.
  - intros e s Hin%elem_of_map_to_list. split; [done|]. by apply (Hwf e s).
  - exists p'. split_and!; [done| |done..]. apply map_eq. intros e.
    rewrite Hsl, lookup_empty. case_decide as He; [done|].
    apply eq_None_not_Some. intros [s Hs]. apply He.
    apply list_elem_of_fmap. exists (e, s). split; [done|]. by apply elem_of_map_to_list.
Qed.

End schedules.

(** The capsule may be sent to the renderer whatever the window is. *)
Lemma derived_policy_sends_capsule {W} (w : Ty) (rhw : RawHandleWrapper W) :
  may_send (derived_policy w) (VRawHandleWrapper rhw) = true.
Proof. done. Qed.

(** ** The guarantees *)

Section guarantees.
Context {W : Type} `{!HasWindowHandle W, !HasDisplayHandle W}.
Context (w : Ty) (Hw : WindowWrapper_new_bound w = true).

(** C9: The two subsystems, in every interleaving and for any number of
    windows, are a client that the program accepts and that runs without
    abort or undefined behaviour; a window is alive, with 2 handles for
    the main world and 1 for the render world, while one of the worlds
    has it, and destroyed by the action with which the last of them lets
    go; the renderer gets from every platform call the answers of the
    window it extracted; when no world has a window, no cell is left. *)
Theorem pipeline_refines_schedule (cs : list (Cmd W)) p :
  pipe_run cs pipe_init = Some p →
  ∃ σ, reaches (step (derived_policy w)) init (trace cs pipe_init) σ ∧
    destroyed σ = gone p ∧ observed σ = seen p ∧
    (∀ e s, slots p !! e = Some s →
       ∃ l, mem σ !! l = Some {| strong := handles s; data := slot_window s |}) ∧
    (slots p = ∅ → mem σ = ∅).
Proof.
  intros Hrun.
  destruct (schedule_agrees (derived_policy w) Hw (derived_policy_sends_capsule w)
              cs pipe_init p init) as (σ & Hr & Hag); [by exists []|apply agrees_init|done|].
  exists σ. split; [done|]. pose proof Hag as [q (_ & _ & _ & _ & _ & _ & Hd & Ho)].
  split_and!; [done|done| |by apply agrees_empty].
  intros e s. by apply agrees_cell.
Qed.

(** C12: A frame in flight draws to its window: once the renderer has
    extracted a window, whatever the two subsystems do afterwards short
    of the renderer releasing it (the main world may close it), the
    protocol of the consumer on the extracted capsule runs, with any
    platform call, the calls get the answers of that window, and no
    window is destroyed by it. *)
Theorem frame_in_flight_draws (cs cs' : list (Cmd W)) p p' e s (g : Generic ()) :
  pipe_run cs pipe_init = Some p → slots p !! e = Some s → in_render s = true →
  Forall (λ c, c ≠ Release e) cs' → pipe_run cs' p = Some p' →
  ∃ σ, reaches (step (derived_policy w)) init (trace (cs ++ cs') pipe_init) σ ∧
    reaches (step (derived_policy w)) σ
      (protocol g (slot_window s) render_thread (extracted e) (accessor e))
      (observe_calls render_thread (slot_window s) (path g (slot_window s)) σ).
Proof.
  intros Hrun Hs Hr Hall Hrun'.
  destruct (pipe_run_keeps_extracted cs' p p' e s Hrun' Hall Hs Hr) as (s' & Hs' & Hr' & Hw').
  assert (pipe_run (cs ++ cs') pipe_init = Some p') as Hp'
    by (by rewrite pipe_run_app, Hrun).
  destruct (schedule_agrees (derived_policy w) Hw (derived_policy_sends_capsule w)
              (cs ++ cs') pipe_init p' init) as (σ & Hreach & [q Hag]);
    [by exists []|apply agrees_init|done|].
  rewrite (slots_lookup q p' σ e Hag) in Hs'.
  destruct (q !! e) as [[l s'']|] eqn:He; simplify_eq/=.
  exists σ. split; [done|]. rewrite <-Hw'.
  apply (Render_reaches (derived_policy w) q p' σ e l s' g); [|done..].
  by exists (trace (cs ++ cs') pipe_init).
Qed.

(** C13: Under the memory model: the accesses of every schedule of the two
    subsystems, with the orderings of [Arc], are a run in which no access
    to a window is a data race: the renderer reads a window that the main
    world initialised, and whichever world lets go last destroys it
    knowing every access of the other; no drop is left half done. *)
Theorem pipeline_race_free (cs : list (Cmd W)) p :
  pipe_run cs pipe_init = Some p →
  ∃ ω, reaches (ostep arc_orderings (derived_policy w)) oinit
         (run_accesses (derived_policy w) (trace cs pipe_init) init) ω ∧
    dropping (fworld ω) = ∅ ∧
    destroyed (world (fworld ω)) = gone p ∧ observed (world (fworld ω)) = seen p.
Proof.
  intros Hrun.
  destruct (schedule_agrees (derived_policy w) Hw (derived_policy_sends_capsule w)
              cs pipe_init p init) as (σ & Hr & [q Hag]); [by exists []|apply agrees_init|done|].
  destruct (reaches_lift arc_orderings (derived_policy w) eq_refl
              (run_accesses (derived_policy w) (trace cs pipe_init) init) oinit (coarse σ))
    as (ω & Hω & Hf); [apply ordered_inv_init|by apply (reaches_accesses _ _ init)|].
  exists ω. rewrite Hf. simpl.
  by destruct Hag as (_ & _ & _ & _ & _ & _ & -> & ->).
Qed.

(** The two subsystems can always shut down: after any schedule, the
    worlds that have a window let go of it, the main world by closing and
    the renderer by releasing; the program accepts these actions, no cell
    is left, and every window that a world had is destroyed, once. *)
Theorem pipeline_shuts_down (cs : list (Cmd W)) p :
  pipe_run cs pipe_init = Some p →
  ∃ p' σ, pipe_run (cs ++ shutdown p) pipe_init = Some p' ∧ slots p' = ∅ ∧
    reaches (step (derived_policy w)) init (trace (cs ++ shutdown p) pipe_init) σ ∧
    mem σ = ∅ ∧
    destroyed σ = reverse (slot_window <$> (map_to_list (slots p)).*2) ++ gone p.
Proof.
  intros Hrun.
  destruct (shutdown_run p) as (p' & Hdown & Hempty & Hgone & _).
  { by apply (pipe_run_wf cs pipe_init p Hrun), map_Forall_empty. }
  assert (pipe_run (cs ++ shutdown p) pipe_init = Some p') as Hall
    by (by rewrite pipe_run_app, Hrun).
  destruct (schedule_agrees (derived_policy w) Hw (derived_policy_sends_capsule w)
              (cs ++ shutdown p) pipe_init p' init) as (σ & Hr & Hag);
    [by exists []|apply agrees_init|done|].
  exists p', σ. split_and!; [done..|by eapply agrees_empty|].
  destruct Hag as [q (_ & _ & _ & _ & _ & _ & -> & _)]. done.
Qed.

End guarantees.

(** ** On the stub window *)

Lemma pipeline_shuts_down_witness :
  ∃ p' σ, pipe_run (take 3 close_in_flight ++
                      shutdown (default pipe_init (pipe_run (take 3 close_in_flight) pipe_init)))
            pipe_init = Some p' ∧ slots p' = ∅ ∧
    reaches (step stub_policy) init
      (trace (take 3 close_in_flight ++
                shutdown (default pipe_init (pipe_run (take 3 close_in_flight) pipe_init)))
         pipe_init) σ ∧
    mem σ = ∅ ∧
    destroyed σ =
      reverse (slot_window <$> (map_to_list (slots (default pipe_init
                 (pipe_run (take 3 close_in_flight) pipe_init)))).*2) ++
      gone (default pipe_init (pipe_run (take 3 close_in_flight) pipe_init)).
Proof.
  apply (pipeline_shuts_down (TyParam true true) eq_refl (take 3 close_in_flight)).
  by vm_compute.
Defined.

Lemma pipeline_refines_schedule_witness :
  ∃ σ, reaches (step stub_policy) init (trace close_in_flight pipe_init) σ ∧
    destroyed σ = gone close_in_flight_end ∧ observed σ = seen close_in_flight_end ∧
    (∀ e s, slots close_in_flight_end !! e = Some s →
       ∃ l, mem σ !! l = Some {| strong := handles s; data := slot_window s |}) ∧
    (slots close_in_flight_end = ∅ → mem σ = ∅).
Proof.
  apply (pipeline_refines_schedule (TyParam true true) eq_refl
           close_in_flight close_in_flight_end).
  by vm_compute.
Defined.

Lemma frame_in_flight_draws_witness :
  ∃ σ, reaches (step stub_policy) init
         (trace ([Create 7 (stub_ok 42); Extract 7] ++ [Close 7]) pipe_init) σ ∧
    reaches (step stub_policy) σ
      (protocol (both_handles ≫= λ _, Ret ()) (stub_ok 42) render_thread
         (extracted 7) (accessor 7))
      (observe_calls render_thread (stub_ok 42)
         (path (both_handles ≫= λ _, Ret ()) (stub_ok 42)) σ).
Proof.
  apply (frame_in_flight_draws (TyParam true true) eq_refl
           [Create 7 (stub_ok 42); Extract 7] [Close 7]
           (default pipe_init (pipe_run [Create 7 (stub_ok 42); Extract 7] pipe_init))
           (default pipe_init (pipe_run (take 3 close_in_flight) pipe_init)) 7
           {| slot_window := stub_ok 42; in_main := true; in_render := true |});
    try (by vm_compute).
  by repeat constructor.
Defined.

Lemma pipeline_race_free_witness :
  ∃ ω, reaches (ostep arc_orderings stub_policy) oinit
         (run_accesses stub_policy (trace close_in_flight pipe_init) init) ω ∧
    dropping (fworld ω) = ∅ ∧
    destroyed (world (fworld ω)) = gone close_in_flight_end ∧
    observed (world (fworld ω)) = seen close_in_flight_end.
Proof.
  apply (pipeline_race_free (TyParam true true) eq_refl
           close_in_flight close_in_flight_end).
  by vm_compute.
Defined.

(** The accesses of [close_in_flight]: the drop with which the renderer
    lets go is the last and has two. *)
Example close_in_flight_accesses :
  run_accesses stub_policy (trace close_in_flight pipe_init) init =
    [FAtomic (EvNew 0 28 (stub_ok 42)); FAtomic (EvCapsule 0 28 29);
     FAtomic (EvClone 0 29 30); FAtomic (EvSend 0 30 1);
     FFetchSub 0 29; FFetchSub 0 28;
     FAtomic (EvGetHandle 1 30 31); FAtomic (EvDisplayHandle 1 31);
     FAtomic (EvWindowHandle 1 31); FFetchSub 1 31;
     FFetchSub 1 30; FDropSlow 1].
Proof. by vm_compute. Qed.

(** The window of [close_in_flight] is alive when the main world has
    closed it, and destroyed when the renderer lets go; the frame in
    between got both handles of it. *)
Example close_in_flight_destroys_at_release :
  gone <$> pipe_run (take 4 close_in_flight) pipe_init = Some [] ∧
  gone close_in_flight_end = [stub_ok 42] ∧
  slots close_in_flight_end = ∅ ∧
  seen close_in_flight_end =
    [ObsWindowHandle render_thread (window_handle (stub_ok 42));
     ObsDisplayHandle render_thread (display_handle (stub_ok 42))] ∧
  destroyed (world_of (run (step stub_policy)
    (trace (take 4 close_in_flight) pipe_init) init)) = [] ∧
  destroyed (world_of (run (step stub_policy)
    (trace close_in_flight pipe_init) init)) = [stub_ok 42].
Proof. split_and!; by vm_compute. Qed.

(** A frame of a window that the renderer released is not accepted by
    the state, and the program refuses it: the capsule is gone. *)
Example render_after_release_refused :
  pipe_run (close_in_flight ++ [Render 7 (Ret ())]) pipe_init = None ∧
  run (step stub_policy)
    (trace close_in_flight pipe_init ++
       protocol (Ret ()) (stub_ok 42) render_thread (extracted 7) (accessor 7)) init = None.
Proof. split; by vm_compute. Qed.
