(* ===== verification/Weak.v ===== *)
(** * [Arc] with its weak counter

    The cell of std's [Arc] has two counters.  [strong] counts the [Arc]
    handles; [weak] counts the [Weak] handles plus one, the one that all
    the [Arc] handles hold together.  [drop_slow], which the last [Arc]
    calls, drops the data and then drops that one weak reference
    ([Drop for Weak]): [fetch_sub(1, Release)] on [weak], and the handle
    that saw 1 deallocates the cell.

    [Sync] leaves [weak] out and frees the cell in [drop_slow].  This file
    has the cell with both counters ([Full.ArcInner]), the operations of
    [Arc] that the program calls on it, and shows that they refine those
    of [Sync]: the program creates no [Weak], so [weak] is 1 in every
    cell, the last [Arc] is the one that deallocates, and with [weak]
    forgotten ([erase]) every program over the operations has the same
    outcome, the same result and the same heap ([full_refines_arc]).  A
    cell whose [weak] is not 1 shows what the counter is for: its data
    is dropped by the last [Arc] and the allocation stays
    ([weak_handle_keeps_allocation]). *)

From S2P Require Import Prelude Sync.

(** ** Definitions *)

Module Full.

Record ArcInner (T : Type) : Type := {
  strong : Z;
  weak : Z;
  data : T;
}.
Arguments strong {T} _.
Arguments weak {T} _.
Arguments data {T} _.

Abbreviation heap T := (gmap loc (ArcInner T)).

Section impl.
Context {T : Type}.

(** [Arc::new(data)]: a fresh cell, [strong] and [weak] both 1. *)
Definition new (data : T) : exec (heap T) (Arc T) := λ h,
  let l := fresh (dom h) in
  Done ({| ptr := l |}, <[l := {| strong := 1; weak := 1; data := data |}]> h).

(** [Arc::clone(&self)] touches [strong] only. *)
Definition clone (self : Arc T) : exec (heap T) (Arc T) := λ h,
  match h !! ptr self with
  | None => Undef
  | Some c =>
      let old_size := strong c in
      if bool_decide (old_size > MAX_REFCOUNT)%Z then Abort
      else Done ({| ptr := ptr self |},
                 <[ptr self := {| strong := usize_wrap (old_size + 1);
                                  weak := weak c; data := data c |}]> h)
  end.

(** [self.inner().strong.fetch_sub(1, Release)]. *)
Definition fetch_sub (self : Arc T) : exec (heap T) Z := λ h,
  match h !! ptr self with
  | None => Undef
  | Some c =>
      Done (strong c,
            <[ptr self := {| strong := usize_wrap (strong c - 1);
                             weak := weak c; data := data c |}]> h)
  end.

(** [Drop for Weak]: [fetch_sub(1, Release)] on [weak]; the handle that
    saw 1 deallocates the cell. *)
Definition Weak_drop (p : loc) : exec (heap T) () := λ h,
  match h !! p with
  | None => Undef
  | Some c =>
      if bool_decide (weak c = 1%Z) then Done ((), delete p h)
      else Done ((), <[p := {| strong := strong c;
                               weak := usize_wrap (weak c - 1);
                               data := data c |}]> h)
  end.

(** [drop_slow]: drop the data, then the weak reference of the [Arc]s. *)
Definition drop_slow (self : Arc T) : exec (heap T) T := λ h,
  match h !! ptr self with
  | None => Undef
  | Some c => (Weak_drop (ptr self) ≫= λ _, mret (data c)) h
  end.

(** [drop(self)]. *)
Definition drop (self : Arc T) : exec (heap T) (option T) :=
  old ← fetch_sub self;
  if bool_decide (old = 1%Z) then Some <$> drop_slow self else mret None.

(** [Deref::deref(&self)] and [Arc::strong_count(&self)]. *)
Definition deref (self : Arc T) : exec (heap T) T := λ h,
  match h !! ptr self with
  | None => Undef
  | Some c => Done (data c, h)
  end.

Definition strong_count (self : Arc T) : exec (heap T) Z := λ h,
  match h !! ptr self with
  | None => Undef
  | Some c => Done (strong c, h)
  end.

(** [Arc::weak_count(&self)]: the [Weak] handles, without the one of the
    [Arc]s. *)
Definition weak_count (self : Arc T) : exec (heap T) Z := λ h,
  match h !! ptr self with
  | None => Undef
  | Some c => Done ((weak c - 1)%Z, h)
  end.

End impl.
End Full.

(** The cell and the heap with the weak counter forgotten. *)
Definition erase_cell {T} (c : Full.ArcInner T) : ArcInner T :=
  {| strong := Full.strong c; data := Full.data c |}.

Definition erase {T} (h : Full.heap T) : heap T := erase_cell <$> h.

Definition erase_outcome {T A} (o : outcome (A * Full.heap T)) : outcome (A * heap T) :=
  match o with
  | Done (a, h) => Done (a, erase h)
  | Abort => Abort
  | Undef => Undef
  end.

(** No [Weak] exists: the weak counter of every cell is the 1 of its
    [Arc]s. *)
Definition no_Weak {T} (h : Full.heap T) : Prop :=
  ∀ l c, h !! l = Some c → Full.weak c = 1%Z.

(** A computation on the cells with both counters refines one on the
    cells of [Sync]. *)
Definition refines {T A} (c : exec (Full.heap T) A) (c' : exec (heap T) A) : Prop :=
  ∀ h, no_Weak h →
    erase_outcome (c h) = c' (erase h) ∧
    ∀ a h', c h = Done (a, h') → no_Weak h'.

(** Programs over the operations of [Arc]. *)
Inductive Op (T : Type) : Type :=
| OpNew (d : T)
| OpClone (a : Arc T)
| OpDrop (a : Arc T)
| OpFetchSub (a : Arc T)
| OpDropSlow (a : Arc T)
| OpDeref (a : Arc T)
| OpStrongCount (a : Arc T).
Arguments OpNew {T} d.
Arguments OpClone {T} a.
Arguments OpDrop {T} a.
Arguments OpFetchSub {T} a.
Arguments OpDropSlow {T} a.
Arguments OpDeref {T} a.
Arguments OpStrongCount {T} a.

Definition Res {T} (o : Op T) : Type :=
  match o with
  | OpNew _ | OpClone _ => Arc T
  | OpDrop _ => option T
  | OpFetchSub _ | OpStrongCount _ => Z
  | OpDropSlow _ | OpDeref _ => T
  end.

Inductive Prog (T A : Type) : Type :=
| Ret (a : A)
| Do (o : Op T) (k : Res o → Prog T A).
Arguments Ret {T A} a.
Arguments Do {T A} o k.

Definition full_op {T} (o : Op T) : exec (Full.heap T) (Res o) :=
  match o with
  | OpNew d => Full.new d
  | OpClone a => Full.clone a
  | OpDrop a => Full.drop a
  | OpFetchSub a => Full.fetch_sub a
  | OpDropSlow a => Full.drop_slow a
  | OpDeref a => Full.deref a
  | OpStrongCount a => Full.strong_count a
  end.

Definition arc_op {T} (o : Op T) : exec (heap T) (Res o) :=
  match o with
  | OpNew d => Arc.new d
  | OpClone a => Arc.clone a
  | OpDrop a => Arc.drop a
  | OpFetchSub a => Arc.fetch_sub a
  | OpDropSlow a => Arc.drop_slow a
  | OpDeref a => Arc.deref a
  | OpStrongCount a => Arc.strong_count a
  end.

Fixpoint run_full {T A} (p : Prog T A) : exec (Full.heap T) A :=
  match p with
  | Ret a => mret a
  | Do o k => full_op o ≫= λ r, run_full (k r)
  end.

Fixpoint run_arc {T A} (p : Prog T A) : exec (heap T) A :=
  match p with
  | Ret a => mret a
  | Do o k => arc_op o ≫= λ r, run_arc (k r)
  end.

(** A window is created, shared once and both handles are dropped. *)
Definition share_and_drop : Prog nat (option nat * option nat) :=
  Do (OpNew 7) (λ a : Arc nat, Do (OpClone a) (λ b : Arc nat,
    Do (OpDrop a) (λ r1 : option nat, Do (OpDrop b) (λ r2 : option nat,
      Ret (r1, r2))))).

(** ** Facts *)

Section facts.
Context {T : Type}.
Implicit Types (h : Full.heap T) (a : Arc T) (c : Full.ArcInner T) (l : loc).

Lemma erase_lookup h l : erase h !! l = erase_cell <$> h !! l.
Proof. apply lookup_fmap. Qed.

Lemma erase_insert h l c : erase (<[l := c]> h) = <[l := erase_cell c]> (erase h).
Proof. apply fmap_insert. Qed.

Lemma erase_delete h l : erase (delete l h) = delete l (erase h).
Proof. apply fmap_delete. Qed.

Lemma dom_erase h : dom (erase h) = dom h.
Proof. apply dom_fmap_L. Qed.

Lemma no_Weak_empty : no_Weak (∅ : Full.heap T).
Proof. by intros l c. Qed.

Lemma no_Weak_insert h l c : no_Weak h → Full.weak c = 1%Z → no_Weak (<[l := c]> h).
Proof. intros Hh Hc l' c' [[_ <-]|[_ ?]]%lookup_insert_Some; eauto. Qed.

Lemma no_Weak_delete h l : no_Weak h → no_Weak (delete l h).
Proof. intros Hh l' c' [_ ?]%lookup_delete_Some. eauto. Qed.

(** *** Composition *)

Lemma refines_ret {A} (x : A) : refines (T:=T) (mret x) (mret x).
Proof. intros h Hh. split; [done|]. by intros a h' [= _ <-]. Qed.

Lemma refines_bind {A B} (m : exec (Full.heap T) A) m' (f : A → exec (Full.heap T) B) f' :
  refines m m' → (∀ x, refines (f x) (f' x)) → refines (m ≫= f) (m' ≫= f').
Proof.
  intros Hm Hf h Hh. destruct (Hm h Hh) as [He Hn]. exec_unfold.
  rewrite <-He. destruct (m h) as [[x h1]| |]; simpl; [|done..].
  destruct (Hf x h1 (Hn _ _ eq_refl)) as [He1 Hn1]. eauto.
Qed.

(** *** The operations *)

Lemma new_refines (d : T) : refines (Full.new d) (Arc.new d).
Proof.
  intros h Hh. unfold Full.new, Arc.new. simpl. rewrite erase_insert, dom_erase.
  split; [done|]. intros a h' [= _ <-]. by apply no_Weak_insert.
Qed.

Lemma clone_refines a : refines (Full.clone a) (Arc.clone a).
Proof.
  intros h Hh. unfold Full.clone, Arc.clone. rewrite erase_lookup.
  destruct (h !! ptr a) as [c|] eqn:Hc; simpl; [|done].
  case_bool_decide; simpl; [done|]. rewrite erase_insert.
  split; [done|]. intros ? h' [= _ <-]. apply no_Weak_insert; [done|]. simpl. eauto.
Qed.

Lemma fetch_sub_refines a : refines (Full.fetch_sub a) (Arc.fetch_sub a).
Proof.
  intros h Hh. unfold Full.fetch_sub, Arc.fetch_sub. rewrite erase_lookup.
  destruct (h !! ptr a) as [c|] eqn:Hc; simpl; [|done]. rewrite erase_insert.
  split; [done|]. intros ? h' [= _ <-]. apply no_Weak_insert; [done|]. simpl. eauto.
Qed.

(** With no [Weak], the [Arc] that runs [drop_slow] deallocates. *)
Lemma drop_slow_refines a : refines (Full.drop_slow a) (Arc.drop_slow a).
Proof.
  intros h Hh. unfold Full.drop_slow, Full.Weak_drop, Arc.drop_slow.
  rewrite erase_lookup. exec_unfold.
  destruct (h !! ptr a) as [c|] eqn:Hc; simpl; [|done].
  rewrite bool_decide_eq_true_2 by eauto. simpl. rewrite erase_delete.
  split; [done|]. intros ? h' [= _ <-]. by apply no_Weak_delete.
Qed.

Lemma drop_refines a : refines (Full.drop a) (Arc.drop a).
Proof.
  intros h Hh. rewrite drop_fetch_sub_drop_slow. revert h Hh.
  apply refines_bind; [apply fetch_sub_refines|]. intros old.
  case_bool_decide; [|apply refines_ret].
  apply refines_bind; [apply drop_slow_refines|]. intros d. apply refines_ret.
Qed.

Lemma deref_refines a : refines (Full.deref a) (Arc.deref a).
Proof.
  intros h Hh. unfold Full.deref, Arc.deref. rewrite erase_lookup.
  destruct (h !! ptr a) as [c|] eqn:Hc; simpl; [|done].
  split; [done|]. by intros ? h' [= _ <-].
Qed.

Lemma strong_count_refines a : refines (Full.strong_count a) (Arc.strong_count a).
Proof.
  intros h Hh. unfold Full.strong_count, Arc.strong_count. rewrite erase_lookup.
  destruct (h !! ptr a) as [c|] eqn:Hc; simpl; [|done].
  split; [done|]. by intros ? h' [= _ <-].
Qed.

Lemma op_refines (o : Op T) : refines (full_op o) (arc_op o).
Proof.
  destruct o; simpl;
    auto using new_refines, clone_refines, drop_refines, fetch_sub_refines,
      drop_slow_refines, deref_refines, strong_count_refines.
Qed.

(** While no [Weak] exists, [weak_count] is 0. *)
Lemma weak_count_no_Weak a h c :
  no_Weak h → h !! ptr a = Some c → Full.weak_count a h = Done (0%Z, h).
Proof. intros Hh Hc. unfold Full.weak_count. by rewrite Hc, (Hh _ _ Hc). Qed.

End facts.

(** ** The guarantees *)

Section guarantees.
Context {T : Type}.

(** Every program over the operations of [Arc] has, on the cells with
    both counters, the outcome, the result and (with [weak] forgotten)
    the heap that it has on the cells of [Sync]; no step of it creates a
    [Weak]. *)
Theorem full_refines_arc {A} (p : Prog T A) : refines (run_full p) (run_arc p).
Proof.
  induction p as [x|o k IH]; simpl; [apply refines_ret|].
  apply refines_bind; [apply op_refines|done].
Qed.

(** From the empty heap: a program neither leaks an allocation nor frees
    one early, since the two heaps have the same cells. *)
Corollary full_allocations {A} (p : Prog T A) x h :
  run_full p ∅ = Done (x, h) →
  run_arc p ∅ = Done (x, erase h) ∧ dom (erase h) = dom h ∧ no_Weak h.
Proof.
  intros Hp. destruct (full_refines_arc p ∅ no_Weak_empty) as [He Hn].
  rewrite Hp in He. simpl in He. unfold erase at 2 in He. rewrite fmap_empty in He.
  split; [done|]. split; [apply dom_erase|]. eauto.
Qed.

End guarantees.

(** ** On a concrete heap *)

(** The program that shares a window and drops both handles destroys it
    at the second drop and leaves no cell. *)
Example share_and_drop_full :
  run_full share_and_drop ∅ = Done ((None, Some 7), ∅).
Proof. by vm_compute. Qed.

(** A cell with a [Weak] handle ([weak] is 2): the last [Arc] drops the
    data and the allocation stays, with both counters decremented; the
    cell of [Sync] is freed. *)
Example weak_handle_keeps_allocation :
  let h : Full.heap nat :=
    {[ 1%positive := {| Full.strong := 1; Full.weak := 2; Full.data := 7 |} ]} in
  Full.drop {| ptr := 1%positive |} h =
    Done (Some 7, {[ 1%positive := {| Full.strong := 0; Full.weak := 1; Full.data := 7 |} ]}) ∧
  Arc.drop {| ptr := 1%positive |} (erase h) = Done (Some 7, ∅).
Proof. split; by vm_compute. Qed.
